(** * Snooker: physics and game-state core

    A shallow embedding of the decision logic of the snooker simulation
    (Ball.js, Cue.js, SnookerTable.js, sketch.js) and the proofs of its
    testable properties.

    JavaScript numbers are idealised as real numbers: [+], [-], [*], [/],
    [Math.sqrt], [Math.abs], [Math.max], [Math.min], [cos] and [sin] are the
    exact operations of [R] (no rounding, no NaN, no infinities).  Boolean
    tests on numbers are the decidable order of [R]. *)

From Stdlib Require Import Reals Lra Lia List Bool Arith.
Import ListNotations.
Open Scope R_scope.

(** ** Numbers *)

Module Num.

(** [x < y] as a JavaScript boolean. *)
Definition ltb (x y : R) : bool := if Rlt_dec x y then true else false.
(** [x > y] *)
Definition gtb (x y : R) : bool := ltb y x.
(** [x <= y] *)
Definition leb (x y : R) : bool := if Rle_dec x y then true else false.
(** [x >= y] *)
Definition geb (x y : R) : bool := leb y x.

(** p5's [dist(x1, y1, x2, y2)]. *)
Definition dist (x1 y1 x2 y2 : R) : R :=
  sqrt ((x2 - x1) * (x2 - x1) + (y2 - y1) * (y2 - y1)).

(** p5's [constrain(n, low, high)]. *)
Definition constrain (n low high : R) : R := Rmax (Rmin n high) low.

(** [Math.atan2(y, x)] (p5's [atan2]), by the usual case analysis. *)
Definition atan2 (y x : R) : R :=
  if Rlt_dec 0 x then atan (y / x)
  else if Rlt_dec x 0 then
    (if Rle_dec 0 y then atan (y / x) + PI else atan (y / x) - PI)
  else if Rlt_dec 0 y then PI / 2
  else if Rlt_dec y 0 then - (PI / 2)
  else 0.

End Num.

Infix "<?" := Num.ltb (at level 70, no associativity) : R_scope.
Infix ">?" := Num.gtb (at level 70, no associativity) : R_scope.
Infix "<=?" := Num.leb (at level 70, no associativity) : R_scope.
Infix ">=?" := Num.geb (at level 70, no associativity) : R_scope.

(** ** Data model *)

(** [{x, y}] objects: positions, velocities, forces. *)
Record Vec : Type := mkVec { vx : R; vy : R }.

(** The [type] string of a ball. *)
Module BallType.
Inductive t : Type :=
  | cue | red | yellow | green | brown | blue | pink | black.

(** [a === b] on type strings. *)
Definition eqb (a b : t) : bool :=
  match a, b with
  | cue, cue | red, red | yellow, yellow | green, green
  | brown, brown | blue, blue | pink, pink | black, black => true
  | _, _ => false
  end.
End BallType.

(** Shot classification of the cue ([this.shotType]). *)
Module ShotType.
Inductive t : Type := stun | follow | draw | english | normal.
End ShotType.

(** The [type] string of a pocket. *)
Inductive PocketType : Type := corner | middle.

(** A pocket object of [table.pockets] (the fields the core reads). *)
Record Pocket : Type := mkPocket {
  pocket_x : R;
  pocket_y : R;
  pocket_radius : R;
  pocket_type : PocketType
}.

(** The fields of a Matter.js body that the core reads or writes.  A body is
    an object with an identity: [body_id] is Matter's [body.id]. *)
Record Body : Type := mkBody {
  body_id : nat;
  position : Vec;
  velocity : Vec;
  angularVelocity : R;
  force : Vec
}.

(** [ball.currentSpin] *)
Record SpinData : Type := mkSpin {
  spin_english : R;
  spin_followDraw : R;
  spin_intensity : R;
  spin_shotType : ShotType.t;
  spin_active : bool;
  spin_timeApplied : R
}.

(** A [Ball] object (rendering-only fields left out). *)
Record Ball : Type := mkBall {
  startX : R;
  startY : R;
  radius : R;
  type : BallType.t;
  value : R;
  isPocketed : bool;
  body : Body;
  rollResistanceCoefficient : R;
  spinDecayRate : R;
  currentSpin : option SpinData;
  englishEffectActive : bool;
  englishAmount : R
}.

Definition set_body (b : Ball) (bd : Body) : Ball :=
  mkBall (startX b) (startY b) (radius b) (type b) (value b) (isPocketed b)
         bd (rollResistanceCoefficient b) (spinDecayRate b) (currentSpin b)
         (englishEffectActive b) (englishAmount b).

Definition set_isPocketed (b : Ball) (p : bool) : Ball :=
  mkBall (startX b) (startY b) (radius b) (type b) (value b) p
         (body b) (rollResistanceCoefficient b) (spinDecayRate b)
         (currentSpin b) (englishEffectActive b) (englishAmount b).

Definition set_currentSpin (b : Ball) (s : option SpinData) : Ball :=
  mkBall (startX b) (startY b) (radius b) (type b) (value b) (isPocketed b)
         (body b) (rollResistanceCoefficient b) (spinDecayRate b) s
         (englishEffectActive b) (englishAmount b).

(** ** Matter.Body operations on one body *)

Module MatterBody.

(** [Matter.Body.setVelocity(body, v)] *)
Definition setVelocity (bd : Body) (v : Vec) : Body :=
  mkBody (body_id bd) (position bd) v (angularVelocity bd) (force bd).

(** [Matter.Body.setAngularVelocity(body, w)] *)
Definition setAngularVelocity (bd : Body) (w : R) : Body :=
  mkBody (body_id bd) (position bd) (velocity bd) w (force bd).

(** [Matter.Body.setPosition(body, p)] *)
Definition setPosition (bd : Body) (p : Vec) : Body :=
  mkBody (body_id bd) p (velocity bd) (angularVelocity bd) (force bd).

(** [Matter.Body.applyForce(body, body.position, f)]: the force is added to
    the body's force accumulator; applied at the centre it adds no torque. *)
Definition applyForce (bd : Body) (f : Vec) : Body :=
  mkBody (body_id bd) (position bd) (velocity bd) (angularVelocity bd)
         (mkVec (vx (force bd) + vx f) (vy (force bd) + vy f)).

End MatterBody.

(** ** Ball.js *)

(** [Matter.Bodies.circle(x, y, radius, options)]: a new body at rest. *)
Definition Bodies_circle (id : nat) (x y : R) : Body :=
  mkBody id (mkVec x y) (mkVec 0 0) 0 (mkVec 0 0).

(** [new Ball(x, y, radius, color, type, value)] with body identity [id];
    adding the body to the world is left to the caller. *)
Definition newBall (id : nat) (x y radius_ : R) (type_ : BallType.t)
           (value_ : R) : Ball :=
  mkBall x y radius_ type_ value_ false (Bodies_circle id x y)
         0.0012 0.985 None false 0.

(** [Math.sqrt(v.x * v.x + v.y * v.y)] *)
Definition speedOf (v : Vec) : R := sqrt (vx v * vx v + vy v * vy v).

(** The capture threshold that [checkPocket] computes for one pocket. *)
Definition pocketThreshold (pocket : Pocket) (speed : R) : R :=
  match pocket_type pocket with
  | corner =>
      let t := pocket_radius pocket * 0.65 in
      if speed >? 10 then t * 0.9
      else if speed >? 5 then t * 0.95
      else t
  | middle =>
      let t := pocket_radius pocket * 0.7 in
      if speed >? 10 then t * 0.85
      else if speed >? 5 then t * 0.92
      else t
  end.

(** The body of the [for (let pocket of pockets)] loop of [checkPocket]:
    [continue] goes on with the remaining pockets, [return true] stops. *)
Fixpoint checkPocket_loop (pos vel : Vec) (speed : R) (pockets : list Pocket)
  : bool :=
  match pockets with
  | [] => false
  | pocket :: rest =>
      let d := Num.dist (vx pos) (vy pos) (pocket_x pocket) (pocket_y pocket) in
      if d <? pocketThreshold pocket speed then
        let toPocketX := pocket_x pocket - vx pos in
        let toPocketY := pocket_y pocket - vy pos in
        let dotProduct := vx vel * toPocketX + vy vel * toPocketY in
        if (dotProduct <? -2) && (speed >? 5)
        then checkPocket_loop pos vel speed rest
        else true
      else checkPocket_loop pos vel speed rest
  end.

(** [Ball.checkPocket(pockets)] *)
Definition checkPocket (b : Ball) (pockets : list Pocket) : bool :=
  let pos := position (body b) in
  let vel := velocity (body b) in
  let speed := speedOf vel in
  checkPocket_loop pos vel speed pockets.

(** The [decelerationFactor] that [applyProfessionalDeceleration] computes
    for a ball rolling at [speed]. *)
Definition decelerationFactor (b : Ball) (speed : R) : R :=
  let decelerationFactor := 1 - rollResistanceCoefficient b in
  let decelerationFactor :=
    if speed <? 2 then decelerationFactor - 0.0008
    else if speed <? 5 then decelerationFactor - 0.0004
    else decelerationFactor in
  Rmax 0.988 (Rmin 0.9985 decelerationFactor).

(** [Ball.applyProfessionalDeceleration()]; [this.body] is always an
    object. *)
Definition applyProfessionalDeceleration (b : Ball) : Ball :=
  if negb (isPocketed b) then
    let vel := velocity (body b) in
    let speed := speedOf vel in
    if speed >? 0.05 then
      let decelerationFactor := decelerationFactor b speed in
      let newVelocity :=
        mkVec (vx vel * decelerationFactor) (vy vel * decelerationFactor) in
      let bd := MatterBody.setVelocity (body b) newVelocity in
      let currentAngularVelocity := angularVelocity bd in
      let bd :=
        if Rabs currentAngularVelocity >? 0.01
        then MatterBody.setAngularVelocity bd
               (currentAngularVelocity * spinDecayRate b)
        else bd in
      set_body b bd
    else if (speed >? 0) && (speed <=? 0.05) then
      let bd := MatterBody.setVelocity (body b) (mkVec 0 0) in
      let bd := MatterBody.setAngularVelocity bd 0 in
      set_body b bd
    else b
  else b.

(** [Ball.isMoving()] *)
Definition isMoving (b : Ball) : bool :=
  speedOf (velocity (body b)) >? 0.05.

(** [Ball.applySpinData(spinData)]; [now] is the value of [Date.now()].
    (The [|| 0] defaults only replace a zero by a zero on numbers.) *)
Definition applySpinData (now : R) (b : Ball)
           (english_ followDraw_ intensity_ : R) (shotType_ : ShotType.t) : Ball :=
  set_currentSpin b
    (Some (mkSpin english_ followDraw_ intensity_ shotType_ true now)).

(** [Ball.updateSpinPhysics()]; [now] is the value of [Date.now()]. *)
Definition updateSpinPhysics (now : R) (b : Ball) : Ball :=
  match currentSpin b with
  | Some sp =>
      if spin_active sp then
        let timeSinceApplied := now - spin_timeApplied sp in
        if timeSinceApplied >? 500 then
          let intensity' := spin_intensity sp * 0.995 in
          let english' := spin_english sp * 0.998 in
          let followDraw' := spin_followDraw sp * 0.996 in
          let active' := if intensity' <? 0.01 then false else spin_active sp in
          set_currentSpin b
            (Some (mkSpin english' followDraw' intensity' (spin_shotType sp)
                          active' (spin_timeApplied sp)))
        else b
      else b
  | None => b
  end.

(** [Ball.applyForce(forceX, forceY)] *)
Definition Ball_applyForce (b : Ball) (forceX forceY : R) : Ball :=
  set_body b (MatterBody.applyForce (body b) (mkVec forceX forceY)).

(** ** SnookerTable.js *)

Record SnookerTable : Type := mkTable {
  table_x : R;
  table_y : R;
  table_width : R;
  table_length : R;
  ballRadius : R;
  cornerPocketRadius : R;
  middlePocketRadius : R;
  cushionWidth : R;
  playAreaX : R;
  playAreaY : R;
  playAreaWidth : R;
  playAreaLength : R;
  dRadius : R;
  balkLineY : R;
  pockets : list Pocket
}.

(** [SnookerTable.initializePockets()]: four corner pockets, then the two
    middle pockets of the long sides. *)
Definition initializePockets (x y width length_ cornerPocketRadius_
                              middlePocketRadius_ : R) : list Pocket :=
  let cornerPocketOffset := cornerPocketRadius_ * 0.3 in
  [ mkPocket (x - width / 2 + cornerPocketOffset)
             (y - length_ / 2 + cornerPocketOffset) cornerPocketRadius_ corner;
    mkPocket (x + width / 2 - cornerPocketOffset)
             (y - length_ / 2 + cornerPocketOffset) cornerPocketRadius_ corner;
    mkPocket (x - width / 2 + cornerPocketOffset)
             (y + length_ / 2 - cornerPocketOffset) cornerPocketRadius_ corner;
    mkPocket (x + width / 2 - cornerPocketOffset)
             (y + length_ / 2 - cornerPocketOffset) cornerPocketRadius_ corner;
    mkPocket (x - width / 2) y middlePocketRadius_ middle;
    mkPocket (x + width / 2) y middlePocketRadius_ middle ].

(** [new SnookerTable(x, y, width)] (geometry only). *)
Definition newSnookerTable (x y width : R) : SnookerTable :=
  let length_ := width * 2 in
  let ballRadius_ := width / 68 in
  let cornerPocketRadius_ := ballRadius_ * 3.27 in
  let middlePocketRadius_ := ballRadius_ * 3.96 in
  let cushionWidth_ := width * 0.06 - 25 - 15 in
  let playAreaX_ := x - width / 2 + cushionWidth_ in
  let playAreaY_ := y - length_ / 2 + cushionWidth_ in
  let playAreaWidth_ := width - 2 * cushionWidth_ in
  let playAreaLength_ := length_ - 2 * cushionWidth_ in
  let dRadius_ := playAreaWidth_ / 6.1 in
  let balkLineY_ := playAreaY_ + playAreaLength_ * 0.2927 in
  mkTable x y width length_ ballRadius_ cornerPocketRadius_ middlePocketRadius_
          cushionWidth_ playAreaX_ playAreaY_ playAreaWidth_ playAreaLength_
          dRadius_ balkLineY_
          (initializePockets x y width length_ cornerPocketRadius_
                             middlePocketRadius_).

(** [SnookerTable.isInDZone(x, y)] *)
Definition isInDZone (t : SnookerTable) (x y : R) : bool :=
  let dCenterX := table_x t in
  let dCenterY := balkLineY t in
  let distance := sqrt ((x - dCenterX) ^ 2 + (y - dCenterY) ^ 2) in
  (distance <=? dRadius t) && (y >=? balkLineY t).

(** The position pushed for [row] and [col] by [getRedBallPositions]. *)
Definition rackPosition (t : SnookerTable) (row col : nat) : Vec :=
  let pyramidSpotX := table_x t in
  let pyramidSpotY := table_y t + playAreaLength t * 0.25 in
  let ballSpacing := ballRadius t * 2.05 in
  mkVec (pyramidSpotX + (INR col - INR row / 2) * ballSpacing)
        (pyramidSpotY + INR row * ballSpacing * 0.866).

(** The positions pushed by the inner loop, [col = 0 .. row]. *)
Definition rackRow (t : SnookerTable) (row : nat) : list Vec :=
  map (rackPosition t row) (seq 0 (S row)).

(** [SnookerTable.getRedBallPositions()]: rows [0 .. 4], pushed in order. *)
Definition getRedBallPositions (t : SnookerTable) : list Vec :=
  flat_map (rackRow t) (seq 0 5).

(** [SnookerTable.getBallSpot(ballType)]; a type without a spot gets the
    table centre. *)
Definition getBallSpot (t : SnookerTable) (ballType : BallType.t) : Vec :=
  match ballType with
  | BallType.yellow =>
      mkVec (playAreaX t + playAreaWidth t * 0.25) (balkLineY t)
  | BallType.green =>
      mkVec (playAreaX t + playAreaWidth t * 0.75) (balkLineY t)
  | BallType.brown => mkVec (table_x t) (balkLineY t)
  | BallType.blue => mkVec (table_x t) (table_y t)
  | BallType.pink => mkVec (table_x t) (table_y t + playAreaLength t * 0.175)
  | BallType.black =>
      mkVec (table_x t) (playAreaY t + playAreaLength t * 0.875)
  | BallType.cue | BallType.red => mkVec (table_x t) (table_y t)
  end.

(** ** Cue.js *)

Record Cue : Type := mkCue {
  cue_length : R;
  tipWidth : R;
  buttWidth : R;
  isAiming : bool;
  isVisible : bool;
  angle : R;
  power : R;
  maxPower : R;
  offset : R;
  pullback : R;
  maxPullback : R;
  contactPoint : Vec;
  maxEnglish : R;
  maxFollowDraw : R;
  contactRadius : R;
  shotType : ShotType.t;
  spinTransferEfficiency : R;
  englishCurveIntensity : R;
  spinApplicationDelay : R
}.

(** [new Cue(length, tipWidth, buttWidth)] *)
Definition newCue (length_ tipWidth_ buttWidth_ : R) : Cue :=
  mkCue length_ tipWidth_ buttWidth_ false false 0 0.5 0.02 30 0 100
        (mkVec 0 0) 0.8 0.9 25 ShotType.normal 0.85 0.12 2.

Definition set_isAiming (c : Cue) (v : bool) : Cue :=
  mkCue (cue_length c) (tipWidth c) (buttWidth c) v (isVisible c) (angle c)
        (power c) (maxPower c) (offset c) (pullback c) (maxPullback c)
        (contactPoint c) (maxEnglish c) (maxFollowDraw c) (contactRadius c)
        (shotType c) (spinTransferEfficiency c) (englishCurveIntensity c)
        (spinApplicationDelay c).

Definition set_isVisible (c : Cue) (v : bool) : Cue :=
  mkCue (cue_length c) (tipWidth c) (buttWidth c) (isAiming c) v (angle c)
        (power c) (maxPower c) (offset c) (pullback c) (maxPullback c)
        (contactPoint c) (maxEnglish c) (maxFollowDraw c) (contactRadius c)
        (shotType c) (spinTransferEfficiency c) (englishCurveIntensity c)
        (spinApplicationDelay c).

Definition set_angle (c : Cue) (v : R) : Cue :=
  mkCue (cue_length c) (tipWidth c) (buttWidth c) (isAiming c) (isVisible c) v
        (power c) (maxPower c) (offset c) (pullback c) (maxPullback c)
        (contactPoint c) (maxEnglish c) (maxFollowDraw c) (contactRadius c)
        (shotType c) (spinTransferEfficiency c) (englishCurveIntensity c)
        (spinApplicationDelay c).

Definition set_power (c : Cue) (v : R) : Cue :=
  mkCue (cue_length c) (tipWidth c) (buttWidth c) (isAiming c) (isVisible c)
        (angle c) v (maxPower c) (offset c) (pullback c) (maxPullback c)
        (contactPoint c) (maxEnglish c) (maxFollowDraw c) (contactRadius c)
        (shotType c) (spinTransferEfficiency c) (englishCurveIntensity c)
        (spinApplicationDelay c).

Definition set_pullback (c : Cue) (v : R) : Cue :=
  mkCue (cue_length c) (tipWidth c) (buttWidth c) (isAiming c) (isVisible c)
        (angle c) (power c) (maxPower c) (offset c) v (maxPullback c)
        (contactPoint c) (maxEnglish c) (maxFollowDraw c) (contactRadius c)
        (shotType c) (spinTransferEfficiency c) (englishCurveIntensity c)
        (spinApplicationDelay c).

Definition set_contactPoint (c : Cue) (v : Vec) : Cue :=
  mkCue (cue_length c) (tipWidth c) (buttWidth c) (isAiming c) (isVisible c)
        (angle c) (power c) (maxPower c) (offset c) (pullback c)
        (maxPullback c) v (maxEnglish c) (maxFollowDraw c) (contactRadius c)
        (shotType c) (spinTransferEfficiency c) (englishCurveIntensity c)
        (spinApplicationDelay c).

Definition set_shotType (c : Cue) (v : ShotType.t) : Cue :=
  mkCue (cue_length c) (tipWidth c) (buttWidth c) (isAiming c) (isVisible c)
        (angle c) (power c) (maxPower c) (offset c) (pullback c)
        (maxPullback c) (contactPoint c) (maxEnglish c) (maxFollowDraw c)
        (contactRadius c) v (spinTransferEfficiency c)
        (englishCurveIntensity c) (spinApplicationDelay c).

(** [Cue.isAnyBallMoving(balls)] ([balls] is always an array here). *)
Definition Cue_isAnyBallMoving (balls : list Ball) : bool :=
  existsb (fun ball =>
             if isPocketed ball then false
             else speedOf (velocity (body ball)) >? 0.1) balls.

(** [Cue.startAiming(cueBall, balls)]; [cueBall] is [None] for [null]. *)
Definition startAiming (c : Cue) (cueBall : option Ball) (balls : list Ball)
  : Cue :=
  match cueBall with
  | Some cb =>
      if negb (isPocketed cb) && negb (Cue_isAnyBallMoving balls)
      then set_pullback (set_isVisible (set_isAiming c true) true) 0
      else c
  | None => c
  end.

(** [Cue.stopAiming()] *)
Definition stopAiming (c : Cue) : Cue :=
  set_pullback (set_isAiming c false) 0.

(** [Cue.hide()] *)
Definition hide (c : Cue) : Cue :=
  set_pullback (set_isAiming (set_isVisible c false) false) 0.

(** [Cue.updateAngle(cueBall, mouseX, mouseY)] *)
Definition updateAngle (c : Cue) (cueBall : option Ball) (mouseX mouseY : R)
  : Cue :=
  match cueBall with
  | Some cb =>
      if negb (isPocketed cb) then
        let pos := position (body cb) in
        set_angle c (Num.atan2 (mouseY - vy pos) (mouseX - vx pos))
      else c
  | None => c
  end.

(** [Cue.updatePullback(cueBall, mouseX, mouseY)] *)
Definition updatePullback (c : Cue) (cueBall : option Ball) (mouseX mouseY : R)
  : Cue :=
  match cueBall with
  | Some cb =>
      if isAiming c && negb (isPocketed cb) then
        let pos := position (body cb) in
        let distance := Num.dist mouseX mouseY (vx pos) (vy pos) in
        set_pullback c (Num.constrain (distance - offset c) 0 (maxPullback c))
      else c
  | None => c
  end.

(** [Cue.adjustPower(delta)] *)
Definition adjustPower (c : Cue) (delta : R) : Cue :=
  set_power c (Num.constrain (power c + delta * 0.1) 0.1 1).

(** [Cue.determineShotType()] *)
Definition determineShotType (c : Cue) : Cue :=
  let absX := Rabs (vx (contactPoint c)) in
  let absY := Rabs (vy (contactPoint c)) in
  if (absX <? 0.1) && (absY <? 0.1) then set_shotType c ShotType.stun
  else if absY >? 0.6 then
    set_shotType c (if vy (contactPoint c) >? 0
                    then ShotType.follow else ShotType.draw)
  else if absX >? 0.5 then set_shotType c ShotType.english
  else set_shotType c ShotType.normal.

(** [Cue.setContactPoint(cueBall, mouseX, mouseY)] *)
Definition setContactPoint (c : Cue) (cueBall : option Ball)
           (mouseX mouseY : R) : Cue :=
  match cueBall with
  | Some cb =>
      if negb (isPocketed cb) then
        let pos := position (body cb) in
        let relativeX := (mouseX - vx pos) / contactRadius c in
        let relativeY := (mouseY - vy pos) / contactRadius c in
        determineShotType
          (set_contactPoint c
             (mkVec (Num.constrain relativeX (- maxEnglish c) (maxEnglish c))
                    (Num.constrain relativeY (- maxFollowDraw c)
                                   (maxFollowDraw c))))
      else c
  | None => c
  end.

(** [Cue.show(cueBall)]: apart from drawing, it sets [isVisible]. *)
Definition Cue_show (c : Cue) (cueBall : option Ball) : Cue :=
  match cueBall with
  | Some cb => if negb (isPocketed cb) then set_isVisible c true else c
  | None => c
  end.

(** The force magnitude computed by [shoot]. *)
Definition forceMagnitude (c : Cue) : R :=
  (pullback c / maxPullback c) * power c * maxPower c.

(** The synchronous effect of [Cue.applyProfessionalSpin(cueBall, baseForceX,
    baseForceY)] on the cue ball; [now] is [Date.now()]. *)
Definition applyProfessionalSpin_ball (now : R) (c : Cue) (cb : Ball)
           (baseForceX baseForceY : R) : Ball :=
  let cb := Ball_applyForce cb baseForceX baseForceY in
  let horizontalSpin := vx (contactPoint c) * spinTransferEfficiency c in
  let verticalSpin := vy (contactPoint c) * spinTransferEfficiency c in
  let spinIntensity :=
    sqrt (baseForceX * baseForceX + baseForceY * baseForceY) * 200 in
  let englishSpin := horizontalSpin * spinIntensity in
  let followDrawSpin := verticalSpin * spinIntensity in
  let totalSpin := englishSpin + followDrawSpin * 0.6 in
  let cb := set_body cb (MatterBody.setAngularVelocity (body cb) totalSpin) in
  applySpinData now cb horizontalSpin verticalSpin spinIntensity (shotType c).

(** Whether [applyProfessionalSpin] schedules the english curve. *)
Definition schedulesEnglishCurve (c : Cue) : bool :=
  Rabs (vx (contactPoint c) * spinTransferEfficiency c) >? 0.1.

(** [Cue.applyEnglishCurve(cueBall, englishAmount, baseForceX, baseForceY)],
    run by the timer; it reads [this.angle] when it runs. *)
Definition applyEnglishCurve (c : Cue) (cb : Ball) (englishAmount_ : R) : Ball :=
  if negb (isPocketed cb) then
    let perpendicularAngle := angle c + PI / 2 in
    let curveForce := englishAmount_ * englishCurveIntensity c * 0.001 in
    let curveX := cos perpendicularAngle * curveForce in
    let curveY := sin perpendicularAngle * curveForce in
    Ball_applyForce cb curveX curveY
  else cb.

(** The text handed to [showMessage], by kind. *)
Inductive Message : Type :=
  | MsgNone
  | MsgPressMode
  | MsgMode (mode : nat)
  | MsgCueBallPocketed
  | MsgRedPocketed
  | MsgTwoConsecutiveColored      (* "ERROR: Two consecutive colored balls potted!" *)
  | MsgColoredPocketed (t : BallType.t)
  | MsgCueBallPlaced
  | MsgInvalidPosition
  | MsgPower (power_ : R)
  | MsgShotFeedback (shotType_ : ShotType.t) (contactPoint_ : Vec).

(** The callbacks that the game hands to [setTimeout] outside its collision
    handlers, with what their closures captured: the respawn of a potted
    colour ([handlePocketedBall], sketch.js) and the english curve of a shot
    ([Cue.applyProfessionalSpin]).  The callbacks scheduled while a
    collision is handled (the post-collision spin of sketch.js, its
    follow/draw push and english switch-off in Ball.js, the dampening of
    [handleCushionCollision]) are delayed effects of the physics step; they
    are not recorded here but covered by [step_engine] below. *)
Inductive Timer : Type :=
  | TimerRespawn (ball : nat) (spot : Vec)
  | TimerEnglishCurve (ball : nat) (horizontalSpin baseForceX baseForceY : R).

(** What one call of [Cue.shoot(cueBall)] does: the cue and the cue ball
    after it, the english-curve callback it scheduled with its delay, and
    the message it showed with its duration. *)
Record ShotOutcome : Type := mkShot {
  shot_cue : Cue;
  shot_ball : option Ball;
  shot_curve : option (R * R * R * R);
  shot_message : option (Message * R)
}.

(** [Cue.shoot(cueBall)]; [now] is [Date.now()]. *)
Definition shoot (now : R) (c : Cue) (cueBall : option Ball) : ShotOutcome :=
  match cueBall with
  | Some cb =>
      if isAiming c && negb (isPocketed cb) && (pullback c >? 10) then
        let forceMagnitude_ := forceMagnitude c in
        let baseForceX := cos (angle c) * forceMagnitude_ in
        let baseForceY := sin (angle c) * forceMagnitude_ in
        let cb' := applyProfessionalSpin_ball now c cb baseForceX baseForceY in
        let curve :=
          if schedulesEnglishCurve c
          then Some (vx (contactPoint c) * spinTransferEfficiency c,
                     baseForceX, baseForceY, spinApplicationDelay c * 16.67)
          else None in
        let msg := (MsgShotFeedback (shotType c) (contactPoint c), 3000) in
        mkShot (set_isVisible (stopAiming c) false) (Some cb') curve (Some msg)
      else mkShot c cueBall None None
  | None => mkShot c cueBall None None
  end.

(** ** The physics world

    Matter.js is an external library.  The world is taken through the three
    operations the game uses on it, on body identities. *)
Class MatterWorld : Type := {
  World : Type;
  (** [Matter.World.add(world, body)] *)
  World_add : World -> nat -> World;
  (** [Matter.World.remove(world, body)] *)
  World_remove : World -> nat -> World;
  (** whether the body is among the world's bodies *)
  World_has : World -> nat -> bool
}.

(** What adding and removing mean: after an addition the world holds the
    bodies it held and the added one; after a removal it holds the bodies
    it held apart from the removed one; removing a body that is not there
    changes nothing. *)
Class MatterWorldLaws (M : MatterWorld) : Prop := {
  World_has_add : forall w b b',
    World_has (World_add w b) b' = World_has w b' || Nat.eqb b' b;
  World_has_remove : forall w b b',
    World_has (World_remove w b) b' = World_has w b' && negb (Nat.eqb b' b);
  World_remove_missing : forall w b,
    World_has w b = false -> World_remove w b = w
}.

(** A world kept as the list of its body identities. *)
Definition ListWorld : MatterWorld := {|
  World := list nat;
  World_add := fun w b => w ++ [b];
  World_remove := fun w b => filter (fun b' => negb (Nat.eqb b' b)) w;
  World_has := fun w b => existsb (Nat.eqb b) w
|}.

(** The list world without bodies. *)
Definition ListWorld_empty : @World ListWorld := @nil nat.

(** ** sketch.js: the session state *)

Section Session.

Context {MW : MatterWorld}.

(** The module-level variables of sketch.js, the pending callbacks of
    [Timer], and the random generator ([rng] lists the values it will
    return in [0, 1), [rngPos] counts the draws made). *)
Record State : Type := mkState {
  world : World;
  nextId : nat;
  table : SnookerTable;
  cue : Cue;
  balls : list Ball;
  redBalls : list nat;
  coloredBalls : list nat;
  cueBall : option nat;
  gameMode : nat;
  cueBallPlaced : bool;
  placingCueBall : bool;
  lastPottedBalls : list BallType.t;
  message : Message;
  messageDuration : R;
  timers : list (Timer * R);
  rng : nat -> R;
  rngPos : nat
}.

Definition set_world (s : State) (v : World) : State :=
  mkState v (nextId s) (table s) (cue s) (balls s) (redBalls s)
          (coloredBalls s) (cueBall s) (gameMode s) (cueBallPlaced s)
          (placingCueBall s) (lastPottedBalls s) (message s)
          (messageDuration s) (timers s) (rng s) (rngPos s).

Definition set_nextId (s : State) (v : nat) : State :=
  mkState (world s) v (table s) (cue s) (balls s) (redBalls s)
          (coloredBalls s) (cueBall s) (gameMode s) (cueBallPlaced s)
          (placingCueBall s) (lastPottedBalls s) (message s)
          (messageDuration s) (timers s) (rng s) (rngPos s).

Definition set_cue (s : State) (v : Cue) : State :=
  mkState (world s) (nextId s) (table s) v (balls s) (redBalls s)
          (coloredBalls s) (cueBall s) (gameMode s) (cueBallPlaced s)
          (placingCueBall s) (lastPottedBalls s) (message s)
          (messageDuration s) (timers s) (rng s) (rngPos s).

Definition set_balls (s : State) (v : list Ball) : State :=
  mkState (world s) (nextId s) (table s) (cue s) v (redBalls s)
          (coloredBalls s) (cueBall s) (gameMode s) (cueBallPlaced s)
          (placingCueBall s) (lastPottedBalls s) (message s)
          (messageDuration s) (timers s) (rng s) (rngPos s).

Definition set_gameMode (s : State) (v : nat) : State :=
  mkState (world s) (nextId s) (table s) (cue s) (balls s) (redBalls s)
          (coloredBalls s) (cueBall s) v (cueBallPlaced s)
          (placingCueBall s) (lastPottedBalls s) (message s)
          (messageDuration s) (timers s) (rng s) (rngPos s).

Definition set_cueBallPlaced (s : State) (v : bool) : State :=
  mkState (world s) (nextId s) (table s) (cue s) (balls s) (redBalls s)
          (coloredBalls s) (cueBall s) (gameMode s) v
          (placingCueBall s) (lastPottedBalls s) (message s)
          (messageDuration s) (timers s) (rng s) (rngPos s).

Definition set_placingCueBall (s : State) (v : bool) : State :=
  mkState (world s) (nextId s) (table s) (cue s) (balls s) (redBalls s)
          (coloredBalls s) (cueBall s) (gameMode s) (cueBallPlaced s)
          v (lastPottedBalls s) (message s)
          (messageDuration s) (timers s) (rng s) (rngPos s).

Definition set_lastPottedBalls (s : State) (v : list BallType.t) : State :=
  mkState (world s) (nextId s) (table s) (cue s) (balls s) (redBalls s)
          (coloredBalls s) (cueBall s) (gameMode s) (cueBallPlaced s)
          (placingCueBall s) v (message s)
          (messageDuration s) (timers s) (rng s) (rngPos s).

Definition set_timers (s : State) (v : list (Timer * R)) : State :=
  mkState (world s) (nextId s) (table s) (cue s) (balls s) (redBalls s)
          (coloredBalls s) (cueBall s) (gameMode s) (cueBallPlaced s)
          (placingCueBall s) (lastPottedBalls s) (message s)
          (messageDuration s) v (rng s) (rngPos s).

Definition set_rngPos (s : State) (v : nat) : State :=
  mkState (world s) (nextId s) (table s) (cue s) (balls s) (redBalls s)
          (coloredBalls s) (cueBall s) (gameMode s) (cueBallPlaced s)
          (placingCueBall s) (lastPottedBalls s) (message s)
          (messageDuration s) (timers s) (rng s) v.

(** [showMessage(msg, duration = 2000)]; the expiry time [millis() +
    duration] is kept as the duration. *)
Definition showMessage (msg : Message) (duration : R) (s : State) : State :=
  mkState (world s) (nextId s) (table s) (cue s) (balls s) (redBalls s)
          (coloredBalls s) (cueBall s) (gameMode s) (cueBallPlaced s)
          (placingCueBall s) (lastPottedBalls s) msg duration (timers s)
          (rng s) (rngPos s).

(** [setTimeout(callback, delay)] *)
Definition setTimeout (t : Timer) (delay : R) (s : State) : State :=
  set_timers s (timers s ++ [(t, delay)]).

(** The ball object behind a reference; [None] for [null]. *)
Definition deref (s : State) (r : option nat) : option Ball :=
  match r with
  | Some i => nth_error (balls s) i
  | None => None
  end.

(** The list with its [i]-th element replaced by [f] of it. *)
Fixpoint list_update {A : Type} (i : nat) (f : A -> A) (l : list A) : list A :=
  match l, i with
  | [], _ => []
  | a :: l', O => f a :: l'
  | a :: l', S i' => a :: list_update i' f l'
  end.

(** A mutation of the ball object [balls[i]]. *)
Definition updateBall (i : nat) (f : Ball -> Ball) (s : State) : State :=
  set_balls s (list_update i f (balls s)).

(** [Ball.pocket()] on [balls[i]] *)
Definition pocket (i : nat) (s : State) : State :=
  match nth_error (balls s) i with
  | Some ball =>
      let s := updateBall i (fun b => set_isPocketed b true) s in
      set_world s (World_remove (world s) (body_id (body ball)))
  | None => s
  end.

(** The ball object after [Ball.respawn(x, y)] gave it the body [bd]. *)
Definition respawned (b : Ball) (bd : Body) : Ball :=
  mkBall (startX b) (startY b) (radius b) (type b) (value b) false
         (MatterBody.setAngularVelocity
            (MatterBody.setVelocity bd (mkVec 0 0)) 0)
         0.0012 0.985 (currentSpin b) (englishEffectActive b)
         (englishAmount b).

(** [Ball.respawn(x, y)] on [balls[i]] *)
Definition respawn (i : nat) (x y : R) (s : State) : State :=
  match nth_error (balls s) i with
  | Some ball =>
      let w := World_remove (world s) (body_id (body ball)) in
      let bd := Bodies_circle (nextId s) x y in
      let s := updateBall i (fun b => respawned b bd) s in
      let s := set_nextId s (S (nextId s)) in
      set_world s (World_add w (body_id bd))
  | None => s
  end.

(** [balls.forEach(ball => ...)] with the state threaded through. *)
Definition forEachBall (f : nat -> State -> State) (s : State) : State :=
  fold_left (fun st i => f i st) (seq 0 (length (balls s))) s.

(** [list.forEach(ball => ...)] over a list of ball references. *)
Definition forEachOf (l : list nat) (f : nat -> State -> State) (s : State)
  : State :=
  fold_left (fun st i => f i st) l s.

(** One ball of [initializeBalls]: constructed at the origin (which adds its
    body to the world), pushed onto [balls], its body removed again. *)
Definition createBall (type_ : BallType.t) (value_ : R) (s : State) : State :=
  let ball := newBall (nextId s) 0 0 (ballRadius (table s)) type_ value_ in
  let w := World_add (world s) (body_id (body ball)) in
  let w := World_remove w (body_id (body ball)) in
  set_world (set_nextId (set_balls s (balls s ++ [ball])) (S (nextId s))) w.

(** [initializeBalls()]: fifteen reds, the six colours, the cue ball. *)
Definition initializeBalls (s : State) : State :=
  let s := fold_left (fun st _ => createBall BallType.red 1 st) (seq 0 15) s in
  let s := createBall BallType.yellow 2 s in
  let s := createBall BallType.green 3 s in
  let s := createBall BallType.brown 4 s in
  let s := createBall BallType.blue 5 s in
  let s := createBall BallType.pink 6 s in
  let s := createBall BallType.black 7 s in
  let s := createBall BallType.cue 0 s in
  mkState (world s) (nextId s) (table s) (cue s) (balls s) (seq 0 15)
          (seq 15 6) (Some 21%nat) (gameMode s) (cueBallPlaced s)
          (placingCueBall s) (lastPottedBalls s) (message s)
          (messageDuration s) (timers s) (rng s) (rngPos s).

(** [setup()]: [w0] and [n0] are the world and the next body identity once
    the table has put its cushions into the world; [rng_] is the random
    generator. *)
Definition setup (w0 : World) (n0 : nat) (rng_ : nat -> R) : State :=
  let s := mkState w0 n0 (newSnookerTable (1100 / 2) (820 / 2) 400)
                   (newCue 150 6 12) [] [] [] None 0 false false []
                   MsgNone 0 [] rng_ 0 in
  showMessage MsgPressMode 2000 (initializeBalls s).

(** p5's [random(min, max)] *)
Definition random (min max : R) (s : State) : R * State :=
  (rng s (rngPos s) * (max - min) + min, set_rngPos s (S (rngPos s))).

(** [ref !== i]: the reference is not the ball object [balls[i]]. *)
Definition isNot (ref : option nat) (i : nat) : bool :=
  match ref with
  | Some j => negb (Nat.eqb j i)
  | None => true
  end.

(** The first loop of [isValidBallPosition], from ball index [i] on:
    [false] as soon as a ball that counts is too close. *)
Fixpoint farFromBalls (t : SnookerTable) (cueBall_ ballToPlace : option nat)
         (x y : R) (i : nat) (bs : list Ball) : bool :=
  match bs with
  | [] => true
  | ball :: rest =>
      if isNot ballToPlace i && negb (isPocketed ball) && isNot cueBall_ i
      then
        let d := Num.dist x y (vx (position (body ball)))
                          (vy (position (body ball))) in
        if d <? ballRadius t * 2.5 then false
        else farFromBalls t cueBall_ ballToPlace x y (S i) rest
      else farFromBalls t cueBall_ ballToPlace x y (S i) rest
  end.

(** The second loop of [isValidBallPosition]. *)
Fixpoint farFromPockets (t : SnookerTable) (x y : R) (ps : list Pocket)
  : bool :=
  match ps with
  | [] => true
  | pocket_ :: rest =>
      let d := Num.dist x y (pocket_x pocket_) (pocket_y pocket_) in
      if d <? pocket_radius pocket_ + ballRadius t * 2 then false
      else farFromPockets t x y rest
  end.

(** [isValidBallPosition(x, y, ballToPlace)] *)
Definition isValidBallPosition (x y : R) (ballToPlace : option nat) (s : State)
  : bool :=
  if farFromBalls (table s) (cueBall s) ballToPlace x y 0 (balls s)
  then farFromPockets (table s) x y (pockets (table s))
  else false.

(** The [while (!placed && attempts < 100)] loop of the random setups for
    [balls[i]], with [remaining = 100 - attempts] iterations left; it gives
    the state, [placed] and [attempts] at the exit of the loop. *)
Fixpoint placementLoop (remaining attempts i : nat) (s : State)
  : State * bool * nat :=
  match remaining with
  | O => (s, false, attempts)
  | S remaining' =>
      let t := table s in
      let '(x, s) := random (playAreaX t + ballRadius t * 2)
                            (playAreaX t + playAreaWidth t - ballRadius t * 2)
                            s in
      let '(y, s) := random (playAreaY t + ballRadius t * 2)
                            (playAreaY t + playAreaLength t - ballRadius t * 2)
                            s in
      if isValidBallPosition x y (Some i) s
      then (respawn i x y s, true, S attempts)
      else placementLoop remaining' (S attempts) i s
  end.

(** The body of the [forEach] of [setupRandomReds] and [setupRandomAll]. *)
Definition placeRandomly (i : nat) (s : State) : State :=
  fst (fst (placementLoop 100 0 i s)).

(** Placing [balls[i]] on its spot. *)
Definition placeOnSpot (i : nat) (s : State) : State :=
  match nth_error (balls s) i with
  | Some ball =>
      let spot := getBallSpot (table s) (type ball) in
      respawn i (vx spot) (vy spot) s
  | None => s
  end.

(** Placing the [k]-th red on the [k]-th rack position; with no such
    position the read of [redPositions[k].x] throws and the setup stops. *)
Fixpoint placeReds (positions : list Vec) (reds : list nat) (s : State)
  : State :=
  match reds, positions with
  | i :: reds', p :: positions' =>
      placeReds positions' reds' (respawn i (vx p) (vy p) s)
  | _, _ => s
  end.

(** [setupStartingPosition()] *)
Definition setupStartingPosition (s : State) : State :=
  let s := placeReds (getRedBallPositions (table s)) (redBalls s) s in
  forEachOf (coloredBalls s) placeOnSpot s.

(** [setupRandomReds()] *)
Definition setupRandomReds (s : State) : State :=
  let s := forEachOf (coloredBalls s) placeOnSpot s in
  forEachOf (redBalls s) placeRandomly s.

(** [setupRandomAll()] *)
Definition setupRandomAll (s : State) : State :=
  forEachOf (redBalls s ++ coloredBalls s) placeRandomly s.

(** The callback of [clearAllBalls] for [balls[i]]. *)
Definition clearBall (i : nat) (s : State) : State :=
  match nth_error (balls s) i with
  | Some ball =>
      let s :=
        if negb (isPocketed ball)
        then set_world s (World_remove (world s) (body_id (body ball)))
        else s in
      updateBall i (fun b => set_isPocketed b false) s
  | None => s
  end.

(** [clearAllBalls()] *)
Definition clearAllBalls (s : State) : State := forEachBall clearBall s.

(** [setupBallsMode(mode)] *)
Definition setupBallsMode (mode : nat) (s : State) : State :=
  let s := clearAllBalls s in
  let s := set_gameMode s mode in
  let s := set_cue s (hide (cue s)) in
  let s := set_cue s (stopAiming (cue s)) in
  let s :=
    match mode with
    | 1%nat => showMessage (MsgMode 1) 2000 (setupStartingPosition s)
    | 2%nat => showMessage (MsgMode 2) 2000 (setupRandomReds s)
    | 3%nat => showMessage (MsgMode 3) 2000 (setupRandomAll s)
    | _ => s
    end in
  let s := set_cueBallPlaced s false in
  set_placingCueBall s true.

(** [lastPottedBalls.includes('red')] *)
Definition includesRed (l : list BallType.t) : bool :=
  existsb (BallType.eqb BallType.red) l.

(** The foul test of [handlePocketedBall]. *)
Definition twoConsecutiveColored (l : list BallType.t) : bool :=
  Nat.eqb (length l) 2 && negb (includesRed l).

(** [lastPottedBalls.push(type)], then [shift()] when longer than two. *)
Definition pushPotted (l : list BallType.t) (t : BallType.t)
  : list BallType.t :=
  let l := l ++ [t] in
  if Nat.ltb 2 (length l) then tl l else l.

(** [handlePocketedBall(ball)] for [ball = balls[i]] *)
Definition handlePocketedBall (i : nat) (s : State) : State :=
  match nth_error (balls s) i with
  | Some ball =>
      match type ball with
      | BallType.cue =>
          let s := pocket i s in
          let s := set_cueBallPlaced s false in
          let s := set_placingCueBall s true in
          let s := showMessage MsgCueBallPocketed 2000 s in
          set_cue s (hide (cue s))
      | BallType.red =>
          let s := pocket i s in
          showMessage MsgRedPocketed 2000 s
      | _ =>
          let s := pocket i s in
          let spot := getBallSpot (table s) (type ball) in
          let s := set_lastPottedBalls s
                     (pushPotted (lastPottedBalls s) (type ball)) in
          let s :=
            if twoConsecutiveColored (lastPottedBalls s)
            then showMessage MsgTwoConsecutiveColored 5000 s
            else showMessage (MsgColoredPocketed (type ball)) 2000 s in
          setTimeout (TimerRespawn i spot) 1000 s
      end
  | None => s
  end.

(** The callback of [checkPocketedBalls] for [balls[i]]. *)
Definition checkPocketedBall (i : nat) (s : State) : State :=
  match nth_error (balls s) i with
  | Some ball =>
      if negb (isPocketed ball) && checkPocket ball (pockets (table s))
      then handlePocketedBall i s
      else s
  | None => s
  end.

(** [checkPocketedBalls()] *)
Definition checkPocketedBalls (s : State) : State :=
  forEachBall checkPocketedBall s.

(** [isAnyBallMoving()] of sketch.js *)
Definition isAnyBallMoving (s : State) : bool :=
  existsb (fun ball => negb (isPocketed ball) && isMoving ball) (balls s).

(** [mousePressed()] with the pointer at [(mouseX, mouseY)] *)
Definition mousePressed (mouseX mouseY : R) (s : State) : State :=
  if placingCueBall s && isInDZone (table s) mouseX mouseY then
    if isValidBallPosition mouseX mouseY (cueBall s) s then
      match cueBall s with
      | Some cb =>
          let s := respawn cb mouseX mouseY s in
          let s := set_cueBallPlaced s true in
          let s := set_placingCueBall s false in
          let s := set_cue s (set_isVisible (cue s) true) in
          let s := set_cue s (updateAngle (cue s) (deref s (cueBall s))
                                          mouseX mouseY) in
          showMessage MsgCueBallPlaced 2000 s
      | None => s   (* [cueBall.respawn] throws on [null] *)
      end
    else showMessage MsgInvalidPosition 2000 s
  else if cueBallPlaced s && negb (placingCueBall s)
          && negb (isAnyBallMoving s) then
    set_cue s (startAiming (cue s) (deref s (cueBall s)) (balls s))
  else s.


(** [mouseMoved()]; [shiftDown] is [keyIsDown(SHIFT)]. *)
Definition mouseMoved (shiftDown : bool) (mouseX mouseY : R) (s : State)
  : State :=
  match cueBall s with
  | Some _ =>
      if isAiming (cue s) && cueBallPlaced s then
        let s := set_cue s (updateAngle (cue s) (deref s (cueBall s))
                                        mouseX mouseY) in
        if shiftDown
        then set_cue s (setContactPoint (cue s) (deref s (cueBall s))
                                        mouseX mouseY)
        else s
      else s
  | None => s
  end.

(** [mouseDragged()] *)
Definition mouseDragged (mouseX mouseY : R) (s : State) : State :=
  if isAiming (cue s) then
    let s := set_cue s (updateAngle (cue s) (deref s (cueBall s))
                                    mouseX mouseY) in
    set_cue s (updatePullback (cue s) (deref s (cueBall s)) mouseX mouseY)
  else s.

(** The effects of one [cue.shoot(cueBall)] written back to the session. *)
Definition applyShot (o : ShotOutcome) (s : State) : State :=
  let s := set_cue s (shot_cue o) in
  let s :=
    match cueBall s, shot_ball o with
    | Some i, Some cb' => updateBall i (fun _ => cb') s
    | _, _ => s
    end in
  let s :=
    match shot_message o with
    | Some (msg, duration) => showMessage msg duration s
    | None => s
    end in
  match cueBall s, shot_curve o with
  | Some i, Some (horizontalSpin, baseForceX, baseForceY, delay) =>
      setTimeout (TimerEnglishCurve i horizontalSpin baseForceX baseForceY)
                 delay s
  | _, _ => s
  end.

(** [mouseReleased()]; [now] is [Date.now()]. *)
Definition mouseReleased (now : R) (s : State) : State :=
  if isAiming (cue s)
  then applyShot (shoot now (cue s) (deref s (cueBall s))) s
  else s.

(** The keys that [keyPressed] looks at. *)
Inductive Key : Type := Key1 | Key2 | Key3 | KeyUp | KeyDown | KeyOther.

(** [keyPressed()] *)
Definition keyPressed (k : Key) (s : State) : State :=
  match k with
  | Key1 => setupBallsMode 1 s
  | Key2 => setupBallsMode 2 s
  | Key3 => setupBallsMode 3 s
  | KeyUp =>
      let s := set_cue s (adjustPower (cue s) 1) in
      showMessage (MsgPower (power (cue s))) 500 s
  | KeyDown =>
      let s := set_cue s (adjustPower (cue s) (-1)) in
      showMessage (MsgPower (power (cue s))) 500 s
  | KeyOther => s
  end.

(** The first callback of [draw] for [balls[i]]: deceleration and spin
    decay of a ball that is not pocketed. *)
Definition rollBall (now : R) (i : nat) (s : State) : State :=
  match nth_error (balls s) i with
  | Some ball =>
      if negb (isPocketed ball)
      then updateBall i (fun b => updateSpinPhysics now
                                    (applyProfessionalDeceleration b)) s
      else s
  | None => s
  end.

(** [draw()] after [Engine.update], without the drawing; [now] is
    [Date.now()], the pointer is at [(mouseX, mouseY)]. *)
Definition draw (now mouseX mouseY : R) (s : State) : State :=
  let s := forEachBall (rollBall now) s in
  let s := checkPocketedBalls s in
  match cueBall s with
  | Some _ =>
      if cueBallPlaced s && negb (placingCueBall s)
         && negb (isAnyBallMoving s) then
        let s := set_cue s (set_isVisible (cue s) true) in
        let s :=
          if negb (isAiming (cue s))
          then set_cue s (updateAngle (cue s) (deref s (cueBall s))
                                      mouseX mouseY)
          else s in
        set_cue s (Cue_show (cue s) (deref s (cueBall s)))
      else s
  | None => s
  end.

(** Running a timer's callback. *)
Definition fireTimer (t : Timer) (s : State) : State :=
  match t with
  | TimerRespawn i spot => respawn i (vx spot) (vy spot) s
  | TimerEnglishCurve i horizontalSpin _ _ =>
      updateBall i (fun cb => applyEnglishCurve (cue s) cb horizontalSpin) s
  end.

(** What the physics step and the collision callbacks leave of a ball
    object: its kind, its pocketed flag and the identity of its body. *)
Definition sameIdentity (b b' : Ball) : Prop :=
  type b' = type b /\ isPocketed b' = isPocketed b
  /\ body_id (body b') = body_id (body b).

(** One turn of the browser's event loop.  The physics step, its collision
    callbacks and their delayed effects ([step_engine]) are
    over-approximated: they may move the balls, change their velocities,
    forces and spin data and show a message in any way; they touch neither
    the identity of a ball, nor the world's set of bodies, nor the cue, the
    placement flags or the potted history. *)
Inductive step : State -> State -> Prop :=
  | step_keyPressed : forall k s, step s (keyPressed k s)
  | step_mousePressed : forall mouseX mouseY s,
      step s (mousePressed mouseX mouseY s)
  | step_mouseMoved : forall shiftDown mouseX mouseY s,
      step s (mouseMoved shiftDown mouseX mouseY s)
  | step_mouseDragged : forall mouseX mouseY s,
      step s (mouseDragged mouseX mouseY s)
  | step_mouseReleased : forall now s, step s (mouseReleased now s)
  | step_draw : forall now mouseX mouseY s, step s (draw now mouseX mouseY s)
  | step_timer : forall t delay before after s,
      timers s = before ++ (t, delay) :: after ->
      step s (fireTimer t (set_timers s (before ++ after)))
  | step_engine : forall bs msg duration s,
      Forall2 sameIdentity (balls s) bs ->
      step s (showMessage msg duration (set_balls s bs)).

(** The states of a session: [setup()], then any number of turns. *)
Inductive reachable : State -> Prop :=
  | reachable_setup : forall w0 n0 rng_, reachable (setup w0 n0 rng_)
  | reachable_step : forall s s', reachable s -> step s s' -> reachable s'.

End Session.

(** ** The properties, in the words of the specification *)

(** Distance between two points. *)
Definition distance (p q : Vec) : R := Num.dist (vx p) (vy p) (vx q) (vy q).

(** Centre of a pocket. *)
Definition pocketCentre (p : Pocket) : Vec := mkVec (pocket_x p) (pocket_y p).

(** The capture fraction of the pocket radius: 0.65 corner, 0.70 middle. *)
Definition baseThreshold (k : PocketType) : R :=
  match k with corner => 0.65 | middle => 0.7 end.

(** The further factor for fast balls. *)
Definition speedFactor (k : PocketType) (speed : R) : R :=
  match k with
  | corner => if speed >? 10 then 0.9 else if speed >? 5 then 0.95 else 1
  | middle => if speed >? 10 then 0.85 else if speed >? 5 then 0.92 else 1
  end.

(** The ball skims past: it moves away from the pocket centre, fast. *)
Definition movingAway (p : Pocket) (b : Ball) : Prop :=
  let pos := position (body b) in
  let vel := velocity (body b) in
  vx vel * (pocket_x p - vx pos) + vy vel * (pocket_y p - vy pos) < -2
  /\ speedOf vel > 5.

(** The pocket [p] captures the ball [b]. *)
Definition capturedBy (p : Pocket) (b : Ball) : Prop :=
  distance (position (body b)) (pocketCentre p)
    < pocket_radius p * baseThreshold (pocket_type p)
      * speedFactor (pocket_type p) (speedOf (velocity (body b)))
  /\ ~ movingAway p b.

(** The ball is at rest: no velocity, no angular velocity. *)
Definition atRest (b : Ball) : Prop :=
  velocity (body b) = mkVec 0 0 /\ angularVelocity (body b) = 0.

(** A ball of the table (made by the constructor) that the engine has
    brought to position [pos], velocity [vel] and angular velocity [w]. *)
Definition ballAt (type_ : BallType.t) (pos vel : Vec) (w : R) : Ball :=
  set_body (newBall 0 0 0 (400 / 68) type_ 0)
           (mkBody 0 pos vel w (mkVec 0 0)).

(** The force that took the body of [before] to the body of [after]. *)
Definition appliedForce (before after : Ball) : Vec :=
  mkVec (vx (force (body after)) - vx (force (body before)))
        (vy (force (body after)) - vy (force (body before))).

(** The condition under which the specification lets a shot fire. *)
Definition shotAllowed (c : Cue) (cueBall_ : option Ball) : Prop :=
  isAiming c = true
  /\ (exists cb, cueBall_ = Some cb /\ isPocketed cb = false)
  /\ pullback c > 10.

(** The cue as the constructor and [adjustPower] keep it: maxPullback 100,
    maxPower 0.02, power between 0.1 and 1. *)
Definition cueCalibrated (c : Cue) : Prop :=
  maxPullback c = 100 /\ maxPower c = 0.02 /\ 0.1 <= power c <= 1.

(** What the specification says of one shot action: it applies a force to
    the cue ball exactly when the shot is allowed; the force then has the
    magnitude [(pullback / maxPullback) * power * maxPower] and the
    direction of the aim angle; otherwise nothing changes. *)
Definition shotSpec (now : R) (c : Cue) (cueBall_ : option Ball) : Prop :=
  let o := shoot now c cueBall_ in
  let m := pullback c / maxPullback c * power c * maxPower c in
  (shotAllowed c cueBall_ <-> shot_ball o <> cueBall_) /\
  (shotAllowed c cueBall_ ->
   exists cb cb',
     cueBall_ = Some cb /\ shot_ball o = Some cb' /\
     appliedForce cb cb' = mkVec (cos (angle c) * m) (sin (angle c) * m) /\
     speedOf (appliedForce cb cb') = m /\ 0 < m) /\
  (~ shotAllowed c cueBall_ -> o = mkShot c cueBall_ None None).

Section SessionProperties.

Context {MW : MatterWorld}.

(** The point [(x, y)] keeps the spacing that the placement test asks for:
    2.5 ball radii from every ball that is not pocketed, is not the ball
    being placed and is not the cue ball, and the pocket radius plus 2 ball
    radii from the centre of every pocket. *)
Definition wellSpaced (s : State) (x y : R) (ballToPlace : option nat)
  : Prop :=
  (forall j ball,
      nth_error (balls s) j = Some ball ->
      isNot ballToPlace j = true -> isNot (cueBall s) j = true ->
      isPocketed ball = false ->
      ballRadius (table s) * 2.5
        <= distance (mkVec x y) (position (body ball))) /\
  (forall p, In p (pockets (table s)) ->
      pocket_radius p + ballRadius (table s) * 2
        <= distance (mkVec x y) (pocketCentre p)).

(** The spacing from every other ball that is not pocketed, on the table or
    not, the cue ball included. *)
Definition spacedFromAllBalls (s : State) (x y : R) (ballToPlace : nat)
  : Prop :=
  forall j ball,
    nth_error (balls s) j = Some ball -> j <> ballToPlace ->
    isPocketed ball = false ->
    ballRadius (table s) * 2.5
      <= distance (mkVec x y) (position (body ball)).

(** The cue ball [balls[i]], whose body was [bd], has been pocketed and
    waits to be placed again: it is marked pocketed, its body is out of the
    world, the placement flags are set and the cue is hidden. *)
Definition cueBallPocketed (s : State) (i : nat) (bd : Body) : Prop :=
  (exists b, nth_error (balls s) i = Some b /\ isPocketed b = true
             /\ body b = bd) /\
  World_has (world s) (body_id bd) = false /\
  cueBallPlaced s = false /\
  placingCueBall s = true /\
  isVisible (cue s) = false /\
  isAiming (cue s) = false.

(** While the cue ball is to be placed, the cue is not aiming. *)
Definition noAimingWhilePlacing (s : State) : Prop :=
  placingCueBall s = true -> isAiming (cue s) = false.

(** The ball is on the table: its body is in the world. *)
Definition onTable (s : State) (b : Ball) : Prop :=
  World_has (world s) (body_id (body b)) = true.

(** The balls [balls[i]] and [balls[j]] are not both on the table less
    than 2.5 ball radii apart. *)
Definition apartOnTable (s : State) (i j : nat) : Prop :=
  forall bi bj,
    nth_error (balls s) i = Some bi -> nth_error (balls s) j = Some bj ->
    onTable s bi -> onTable s bj ->
    ballRadius (table s) * 2.5
      <= distance (position (body bi)) (position (body bj)).

(** The ball [balls[i]] is not on the table nearer to a pocket centre than
    the pocket radius plus 2 ball radii. *)
Definition clearOfPockets (s : State) (i : nat) : Prop :=
  forall bi p,
    nth_error (balls s) i = Some bi -> onTable s bi ->
    In p (pockets (table s)) ->
    pocket_radius p + ballRadius (table s) * 2
      <= distance (position (body bi)) (pocketCentre p).

(** What every state of a session satisfies: a pocketed ball has its body
    out of the world, the body identities in use are below the next fresh
    one, and the three ball lists are those of [initializeBalls]. *)
Definition wellFormed (s : State) : Prop :=
  (forall j b, nth_error (balls s) j = Some b -> isPocketed b = true ->
               World_has (world s) (body_id (body b)) = false) /\
  (forall j b, nth_error (balls s) j = Some b ->
               (body_id (body b) < nextId s)%nat) /\
  redBalls s = seq 0 15 /\ coloredBalls s = seq 15 6 /\
  cueBall s = Some 21%nat.

(** Every ball on the table is one that the placement test looks at: it is
    not pocketed and it is not the cue ball. *)
Definition onlyPlayableOnTable (s : State) : Prop :=
  forall j b, nth_error (balls s) j = Some b -> onTable s b ->
              isPocketed b = false /\ isNot (cueBall s) j = true.

(** The spacing on the table of the balls picked by [S]: each of them is
    2.5 ball radii apart from every other ball on the table, and clear of
    the pockets. *)
Definition spacedOnTable (S : nat -> Prop) (s : State) : Prop :=
  (forall i j, i <> j -> S i \/ S j -> apartOnTable s i j) /\
  (forall i, S i -> clearOfPockets s i).

(** Two states that differ at most in the number of random draws made. *)
Definition sameButDraws (s s0 : State) : Prop :=
  s0 = set_rngPos s (rngPos s0).

End SessionProperties.

(** ** The table of the game *)

(** The table that [setup()] makes. *)
Definition theTable : SnookerTable := newSnookerTable (1100 / 2) (820 / 2) 400.

(** ** The sessions used as examples *)

(** A session on the list world: [setup()], then key 1. *)
Definition tableInMode1 : State :=
  keyPressed Key1 (setup ListWorld_empty 0 (fun _ => 0)).

(** The same session after a click at (550, 265), in the D zone. *)
Definition cueBallPlacedInMode1 : State := mousePressed 550 265 tableInMode1.

(** The same session once the engine has carried the cue ball, at rest, to
    the centre of the left middle pocket at (350, 410). *)
Definition cueBallInPocket : State :=
  updateBall 21
    (fun b => set_body b (MatterBody.setPosition (body b) (mkVec 350 410)))
    cueBallPlacedInMode1.

(** ** Frames of one ball *)

(** n frames of [applyProfessionalDeceleration] on a ball that nothing else
    touches. *)
Definition decelerate (n : nat) (b : Ball) : Ball :=
  Nat.iter n applyProfessionalDeceleration b.

(** [updateSpinPhysics] in successive frames, at the times [times]. *)
Definition updateSpinPhysics_frames (times : list R) (b : Ball) : Ball :=
  fold_left (fun b now => updateSpinPhysics now b) times b.

(** The spin data of the ball is switched off ([currentSpin.active] is
    false). *)
Definition spinInactive (b : Ball) : Prop :=
  exists sp, currentSpin b = Some sp /\ spin_active sp = false.

(** ** Ball.js: spin after a collision and english on a cushion *)

Definition set_englishEffectActive (b : Ball) (v : bool) : Ball :=
  mkBall (startX b) (startY b) (radius b) (type b) (value b) (isPocketed b)
         (body b) (rollResistanceCoefficient b) (spinDecayRate b)
         (currentSpin b) v (englishAmount b).

Definition set_englishAmount (b : Ball) (v : R) : Ball :=
  mkBall (startX b) (startY b) (radius b) (type b) (value b) (isPocketed b)
         (body b) (rollResistanceCoefficient b) (spinDecayRate b)
         (currentSpin b) (englishEffectActive b) v.

(** A number in a boolean position: every number but zero counts as true. *)
Definition truthy (x : R) : bool := if Req_dec_T x 0 then false else true.

(** [Ball.applyEnglishToCushionBounce(incomingAngle, cushionNormal)]: the
    angle it returns and the ball after it. *)
Definition applyEnglishToCushionBounce (b : Ball)
           (incomingAngle cushionNormal : R) : R * Ball :=
  if BallType.eqb (type b) BallType.cue && englishEffectActive b
     && truthy (englishAmount b) then
    let englishModifier := englishAmount b * 0.15 in
    let modifiedAngle := incomingAngle + englishModifier in
    let maxDeviation := PI / 6 in
    let limitedAngle :=
      Rmax (incomingAngle - maxDeviation)
           (Rmin (incomingAngle + maxDeviation) modifiedAngle) in
    (limitedAngle, set_englishAmount b (englishAmount b * 0.75))
  else (incomingAngle, b).

(** The callbacks that [applyPostCollisionSpin] hands to [setTimeout], with
    what their closures captured. *)
Inductive SpinTimer : Type :=
  | TimerFollowDraw (followDrawAmount : R) (collisionVector : Vec)
  | TimerEnglishOff.

(** [Ball.applyPostCollisionSpin(targetBall, collisionVector)]: the ball
    after the call and the callbacks it scheduled, each with its delay. *)
Definition applyPostCollisionSpin (b : Ball) (collisionVector : Vec)
  : Ball * list (SpinTimer * R) :=
  match currentSpin b with
  | Some sp =>
      if BallType.eqb (type b) BallType.cue && spin_active sp then
        let followDrawAmount := spin_followDraw sp in
        let englishAmount_ := spin_english sp in
        let followDraw :=
          if Rabs followDrawAmount >? 0.1
          then [(TimerFollowDraw followDrawAmount collisionVector, 50)]
          else [] in
        if Rabs englishAmount_ >? 0.1
        then (set_englishAmount (set_englishEffectActive b true)
                                englishAmount_,
              followDraw ++ [(TimerEnglishOff, 3000)])
        else (b, followDraw)
      else (b, [])
  | None => (b, [])
  end.

(** The text of the message of the follow/draw callback. *)
Inductive SpinEffect : Type := FollowEffect | DrawEffect.

(** Running a callback of [applyPostCollisionSpin] on the ball as it is
    then: the ball after it, and the message shown with its duration. *)
Definition fireSpinTimer (t : SpinTimer) (b : Ball)
  : Ball * option (SpinEffect * R) :=
  match t with
  | TimerFollowDraw followDrawAmount collisionVector =>
      if negb (isPocketed b) then
        let speed := speedOf (velocity (body b)) in
        if speed >? 0.2 then
          let collisionAngle :=
            Num.atan2 (vy collisionVector) (vx collisionVector) in
          let spinDirection := if followDrawAmount >? 0 then 1 else -1 in
          let spinForce := Rabs followDrawAmount * 0.0015 in
          let spinX := cos collisionAngle * spinDirection * spinForce in
          let spinY := sin collisionAngle * spinDirection * spinForce in
          (Ball_applyForce b spinX spinY,
           Some (if followDrawAmount >? 0 then FollowEffect else DrawEffect,
                 1500))
        else (b, None)
      else (b, None)
  | TimerEnglishOff => (set_englishEffectActive b false, None)
  end.

(** ** The structure of a session *)

Section SessionInvariants.

Context {MW : MatterWorld}.

(** The ball objects of [s'] are those of [s] with the same kinds, pocketed
    flags and bodies, and the world, the next body identity, the table and
    the three ball lists are the same. *)
Definition sameStructure (s s' : State) : Prop :=
  Forall2 sameIdentity (balls s) (balls s') /\
  world s' = world s /\ nextId s' = nextId s /\ table s' = table s /\
  redBalls s' = redBalls s /\ coloredBalls s' = coloredBalls s /\
  cueBall s' = cueBall s.

(** No two ball objects share a body. *)
Definition distinctBodies (s : State) : Prop :=
  forall i j bi bj,
    nth_error (balls s) i = Some bi -> nth_error (balls s) j = Some bj ->
    i <> j -> body_id (body bi) <> body_id (body bj).

(** The kinds of the ball objects in the order of [initializeBalls]:
    fifteen reds, the six colours, the cue ball. *)
Definition ballTypes : list BallType.t :=
  repeat BallType.red 15
  ++ [BallType.yellow; BallType.green; BallType.brown; BallType.blue;
      BallType.pink; BallType.black; BallType.cue].

(** The shape that every state of a session has: it is well formed, no two
    balls share a body, the balls are the twenty-two of [initializeBalls]
    in their order, and the table is the one of [setup]. *)
Definition sessionShape (s : State) : Prop :=
  wellFormed s /\ distinctBodies s /\ map type (balls s) = ballTypes /\
  table s = theTable.

(** Any number of turns of the event loop. *)
Inductive steps : State -> State -> Prop :=
  | steps_refl : forall s, steps s s
  | steps_step : forall s s' s'', steps s s' -> step s' s'' -> steps s s''.

End SessionInvariants.

Section ControlDefinitions.

Context {MW : MatterWorld}.

(** The part of the session that the ball-level operations leave alone:
    table, cue, ball lists, mode, placement flags, potted history, message
    and timers. *)
Definition sameControl (s s' : State) : Prop :=
  table s' = table s /\ cue s' = cue s /\ redBalls s' = redBalls s /\
  coloredBalls s' = coloredBalls s /\ cueBall s' = cueBall s /\
  gameMode s' = gameMode s /\ cueBallPlaced s' = cueBallPlaced s /\
  placingCueBall s' = placingCueBall s /\
  lastPottedBalls s' = lastPottedBalls s /\ timers s' = timers s.

End ControlDefinitions.

(** ** The limits of the cue *)

(** The limits within which the cue stays: its constants are those of the
    constructor, the pullback is between 0 and maxPullback, the contact
    point is within maxEnglish and maxFollowDraw, the shot type is the
    classification of the contact point (or still the constructor's
    'normal' at the untouched contact point), and an aiming cue is
    visible. *)
Definition cueShape (c : Cue) : Prop :=
  (maxPullback c = 100 /\ maxEnglish c = 0.8 /\ maxFollowDraw c = 0.9 /\
   contactRadius c = 25 /\ spinTransferEfficiency c = 0.85 /\
   spinApplicationDelay c = 2 /\ englishCurveIntensity c = 0.12 /\
   offset c = 30) /\
  0 <= pullback c <= 100 /\
  (-0.8 <= vx (contactPoint c) <= 0.8 /\
   -0.9 <= vy (contactPoint c) <= 0.9) /\
  (shotType c = shotType (determineShotType c) \/
   (shotType c = ShotType.normal /\ contactPoint c = mkVec 0 0)) /\
  (isAiming c = true -> isVisible c = true).

(** ** Potted history, pending timers and aiming *)

(** One of the six colours: neither a red nor the cue ball. *)
Definition isColour (t : BallType.t) : Prop :=
  t <> BallType.red /\ t <> BallType.cue.

Section ControlShapes.

Context {MW : MatterWorld}.

(** The potted history holds at most two kinds, all of them colours. *)
Definition historyShape (s : State) : Prop :=
  (length (lastPottedBalls s) <= 2)%nat /\
  Forall isColour (lastPottedBalls s).

(** Every pending callback of [timers], those that [handlePocketedBall]
    and the cue's shot scheduled, is the respawn of a colour on its own
    spot after 1000 ms, or the english curve of the cue ball after two
    frames of 16.67 ms. *)
Definition pendingShape (s : State) : Prop :=
  forall t delay, In (t, delay) (timers s) ->
    match t with
    | TimerRespawn i spot =>
        delay = 1000 /\
        exists k, nth_error ballTypes i = Some k /\ isColour k /\
                  spot = getBallSpot theTable k
    | TimerEnglishCurve i horizontalSpin _ _ =>
        i = 21%nat /\ delay = 2 * 16.67 /\ Rabs horizontalSpin > 0.1
    end.

(** The cue ball is on the table: not pocketed, its body in the world. *)
Definition cueBallOnTable (s : State) : Prop :=
  exists cb, nth_error (balls s) 21 = Some cb /\ isPocketed cb = false /\
             onTable s cb.

(** The cue ball counts as placed only while it is on the table and is not
    being placed, and the cue aims only while the cue ball counts as
    placed. *)
Definition aimingShape (s : State) : Prop :=
  (cueBallPlaced s = true -> placingCueBall s = false /\ cueBallOnTable s) /\
  (isAiming (cue s) = true -> cueBallPlaced s = true).

(** The three together. *)
Definition controlShape (s : State) : Prop :=
  historyShape s /\ pendingShape s /\ aimingShape s.

End ControlShapes.

Section GhostDefinitions.

Context {MW : MatterWorld}.

(** Every body in the world of [s] was in the world [w0] before the balls
    were made, or is the body of a ball that is not pocketed. *)
Definition noGhostBodies (w0 : World) (s : State) : Prop :=
  forall id, World_has (world s) id = true ->
    World_has w0 id = true \/
    exists j b, nth_error (balls s) j = Some b /\ body_id (body b) = id /\
                isPocketed b = false.

End GhostDefinitions.

(** ** Balls on the table *)

(** What [checkPocketedBalls] makes of one ball object: a ball on the table
    that a pocket captures is marked pocketed. *)
Definition pocketedIfCaptured (pockets_ : list Pocket) (b : Ball) : Ball :=
  if negb (isPocketed b) && checkPocket b pockets_
  then set_isPocketed b true else b.

Section PlacedDefinitions.

Context {MW : MatterWorld}.

(** The ball object [balls[i]] lies on the table at [p], at rest. *)
Definition placedAt (s : State) (i : nat) (p : Vec) : Prop :=
  exists b, nth_error (balls s) i = Some b /\ isPocketed b = false /\
            position (body b) = p /\ atRest b /\ onTable s b.

End PlacedDefinitions.

Section SampleDefinitions.

Context {MW : MatterWorld}.

(** The point that the [k]-th attempt of a placement loop started in [s]
    draws: its two coordinates are the random numbers number [2k] and
    [2k + 1] from then on, scaled to the box of the random setups. *)
Definition samplePoint (s : State) (k : nat) : Vec :=
  let t := table s in
  mkVec (rng s (rngPos s + 2 * k)
         * (playAreaX t + playAreaWidth t - ballRadius t * 2
            - (playAreaX t + ballRadius t * 2))
         + (playAreaX t + ballRadius t * 2))
        (rng s (rngPos s + 2 * k + 1)
         * (playAreaY t + playAreaLength t - ballRadius t * 2
            - (playAreaY t + ballRadius t * 2))
         + (playAreaY t + ballRadius t * 2)).

End SampleDefinitions.

Section PlacementRuns.

Context {MW : MatterWorld}.

(** A run of respawns: each ball object of the list at its point. *)
Definition placeAll (l : list (nat * Vec)) (s : State) : State :=
  fold_left (fun st ip => respawn (fst ip) (vx (snd ip)) (vy (snd ip)) st)
            l s.

End PlacementRuns.

Section ModeDefinitions.

Context {MW : MatterWorld}.

(** The state of [setupBallsMode(mode)] when it reaches its [switch]: the
    balls cleared, the mode stored, the cue hidden. *)
Definition afterClear (mode : nat) (s : State) : State :=
  let s := clearAllBalls s in
  let s := set_gameMode s mode in
  let s := set_cue s (hide (cue s)) in
  set_cue s (stopAiming (cue s)).

End ModeDefinitions.

Section FrameDefinitions.

Context {MW : MatterWorld}.

(** No ball object is marked pocketed. *)
Definition nonePocketed (s : State) : Prop :=
  forall j b, nth_error (balls s) j = Some b -> isPocketed b = false.

End FrameDefinitions.

(** The force in newtons-of-the-engine that [applyEnglishCurve] computes. *)
Definition curveForce (c : Cue) (englishAmount_ : R) : R :=
  englishAmount_ * englishCurveIntensity c * 0.001.

(** The same session after a second click, which starts aiming, and a drag
    to (550, 465), 200 pixels from the cue ball. *)
Definition cueDrawnInMode1 : State :=
  mouseDragged 550 465 (mousePressed 550 265 cueBallPlacedInMode1).

(** What the first loop of [draw] makes of one ball object: a ball that is
    not pocketed is decelerated and its spin decays. *)
Definition rolled (now : R) (b : Ball) : Ball :=
  if negb (isPocketed b)
  then updateSpinPhysics now (applyProfessionalDeceleration b)
  else b.

Section CaptureDefinitions.

Context {MW : MatterWorld}.

(** No ball on the table is captured by a pocket of the table. *)
Definition noneCaptured (S : nat -> Prop) (s : State) : Prop :=
  forall j b, S j -> nth_error (balls s) j = Some b -> onTable s b ->
              checkPocket b (pockets theTable) = false.

End CaptureDefinitions.

(** Where [setupStartingPosition] puts the ball objects 0 to 20: the reds
    on the positions of the triangle, then yellow, green, brown, blue, pink
    and black on their spots. *)
Definition startPositions (t : SnookerTable) : list Vec :=
  getRedBallPositions t
  ++ map (getBallSpot t)
         [BallType.yellow; BallType.green; BallType.brown; BallType.blue;
          BallType.pink; BallType.black].

(** Two points more than two ball radii apart: balls there do not
    overlap. *)
Definition apart (t : SnookerTable) (p q : Vec) : Prop :=
  ballRadius t * 2 < distance p q.

(** ** The calls of the placement test *)

Section PlacementCalls.

Context {MW : MatterWorld}.

(** The point keeps the spacing from the balls that are placed already: it
    is 2.5 ball radii from every other ball on the table, none of which is
    pocketed, and the pocket radius plus 2 ball radii from the centre of
    every pocket. *)
Definition spacedFromPlacedBalls (s : State) (x y : R) (ballToPlace : nat)
  : Prop :=
  (forall j b,
      j <> ballToPlace -> nth_error (balls s) j = Some b -> onTable s b ->
      isPocketed b = false /\
      ballRadius (table s) * 2.5
        <= distance (mkVec x y) (position (body b))) /\
  (forall p, In p (pockets (table s)) ->
      pocket_radius p + ballRadius (table s) * 2
        <= distance (mkVec x y) (pocketCentre p)).

(** The placement loops that the random setups run: after key 2 or key 3
    in the state [s], the loop for [balls[i]] starts in the state [st].
    Key 2 ([setupRandomReds]) has put the colours on their spots and then
    goes through [redBalls]; key 3 ([setupRandomAll]) goes through
    [[...redBalls, ...coloredBalls]]; [l1] are the balls that had their
    turn before [balls[i]]. *)
Inductive randomPlacementOf (s : State) : nat -> State -> Prop :=
  | random_reds : forall l1 i l2,
      redBalls (forEachOf (coloredBalls (afterClear 2 s)) placeOnSpot
                          (afterClear 2 s))
      = l1 ++ i :: l2 ->
      randomPlacementOf s i
        (forEachOf l1 placeRandomly
           (forEachOf (coloredBalls (afterClear 2 s)) placeOnSpot
                      (afterClear 2 s)))
  | random_all : forall l1 i l2,
      redBalls (afterClear 3 s) ++ coloredBalls (afterClear 3 s)
      = l1 ++ i :: l2 ->
      randomPlacementOf s i (forEachOf l1 placeRandomly (afterClear 3 s)).

End PlacementCalls.

(** ** A session with balls placed at random *)

(** Random numbers for a session with two balls placed at random: 0.25,
    0.5, 0.75, and 0.5 ever after. *)
Definition rngExample (k : nat) : R :=
  match k with
  | 0%nat => 0.25
  | 2%nat => 0.75
  | _ => 0.5
  end.

(** A session on the list world that draws these numbers: [setup()]. *)
Definition randomSession : State := setup ListWorld_empty 0 rngExample.

(** ** A session with two colours potted *)

(** The session with the cue ball placed, once the engine has carried the
    blue, at rest, to the centre of the left middle pocket at (350, 410)
    and the pink to the centre of the right middle pocket at (750, 410). *)
Definition coloursInPockets : State :=
  updateBall 19
    (fun b => set_body b (MatterBody.setPosition (body b) (mkVec 750 410)))
    (updateBall 18
       (fun b => set_body b (MatterBody.setPosition (body b) (mkVec 350 410)))
       cueBallPlacedInMode1).

(** The next frame pots the two colours. *)
Definition twoColoursPotted : State := draw 0 550 265 coloursInPockets.

(** * Proofs *)

(** ** Number tests *)

Lemma ltb_true (x y : R) : (x <? y) = true <-> x < y.
Proof. unfold Num.ltb. destruct (Rlt_dec x y); split; intros; try easy. Qed.

Lemma ltb_false (x y : R) : (x <? y) = false <-> y <= x.
Proof.
  unfold Num.ltb. destruct (Rlt_dec x y); split; intros; try easy; lra.
Qed.

Lemma gtb_true (x y : R) : (x >? y) = true <-> x > y.
Proof. unfold Num.gtb. rewrite ltb_true. lra. Qed.

Lemma gtb_false (x y : R) : (x >? y) = false <-> x <= y.
Proof. unfold Num.gtb. rewrite ltb_false. lra. Qed.

Lemma leb_true (x y : R) : (x <=? y) = true <-> x <= y.
Proof. unfold Num.leb. destruct (Rle_dec x y); split; intros; try easy. Qed.

Lemma leb_false (x y : R) : (x <=? y) = false <-> y < x.
Proof.
  unfold Num.leb. destruct (Rle_dec x y); split; intros; try easy; lra.
Qed.

Lemma geb_true (x y : R) : (x >=? y) = true <-> y <= x.
Proof. unfold Num.geb. apply leb_true. Qed.

(** Decide one number test in the goal, keeping the fact it gives. *)
Ltac case_test t :=
  let H := fresh "Htest" in
  destruct t eqn:H;
  [ first [ apply ltb_true in H | apply gtb_true in H | apply leb_true in H ]
  | first [ apply ltb_false in H | apply gtb_false in H | apply leb_false in H ] ].

Lemma sqrt_sq_nonneg (a : R) : 0 <= a -> sqrt (a * a) = a.
Proof. intros. now apply sqrt_square. Qed.

Lemma speedOf_x_axis (a : R) : 0 <= a -> speedOf (mkVec a 0) = a.
Proof.
  intros Ha. unfold speedOf. simpl.
  replace (a * a + 0 * 0) with (a * a) by ring. now apply sqrt_square.
Qed.

Lemma speedOf_nonneg (v : Vec) : 0 <= speedOf v.
Proof. apply sqrt_pos. Qed.

Lemma dist_nonneg (x1 y1 x2 y2 : R) : 0 <= Num.dist x1 y1 x2 y2.
Proof. apply sqrt_pos. Qed.

(** ** Pocket capture *)

Lemma pocketThreshold_factor (p : Pocket) (speed : R) :
  pocketThreshold p speed
  = pocket_radius p * baseThreshold (pocket_type p)
    * speedFactor (pocket_type p) speed.
Proof.
  unfold pocketThreshold, baseThreshold, speedFactor.
  destruct (pocket_type p); cbv zeta;
    destruct (speed >? 10); [ | destruct (speed >? 5) | | destruct (speed >? 5) ];
    ring.
Qed.

Lemma checkPocket_loop_spec (pos vel : Vec) (pockets_ : list Pocket) :
  checkPocket_loop pos vel (speedOf vel) pockets_ = true <->
  exists p, In p pockets_ /\
    Num.dist (vx pos) (vy pos) (pocket_x p) (pocket_y p)
      < pocketThreshold p (speedOf vel) /\
    ~ (vx vel * (pocket_x p - vx pos) + vy vel * (pocket_y p - vy pos) < -2
       /\ speedOf vel > 5).
Proof.
  induction pockets_ as [ | q rest IH ]; simpl.
  - split; [ discriminate | intros [p [[] _]] ].
  - case_test (Num.dist (vx pos) (vy pos) (pocket_x q) (pocket_y q)
               <? pocketThreshold q (speedOf vel)).
    + destruct ((vx vel * (pocket_x q - vx pos) + vy vel * (pocket_y q - vy pos)
                 <? -2) && (speedOf vel >? 5)) eqn:Hveto.
      * apply andb_true_iff in Hveto. destruct Hveto as [Hd Hs].
        apply ltb_true in Hd. apply gtb_true in Hs.
        rewrite IH. split.
        -- intros [p [Hin Hp]]. exists p. split; [ now right | exact Hp ].
        -- intros [p [[Heq | Hin] [Hlt Hno]]].
           ++ subst p. exfalso. apply Hno. split; assumption.
           ++ exists p. repeat split; assumption.
      * split; [ intros _ | reflexivity ].
        exists q. split; [ now left | split; [ exact Htest | ] ].
        intros [Hd Hs]. apply ltb_true in Hd. apply gtb_true in Hs.
        rewrite Hd, Hs in Hveto. discriminate.
    + rewrite IH. split.
      * intros [p [Hin Hp]]. exists p. split; [ now right | exact Hp ].
      * intros [p [[Heq | Hin] [Hlt Hno]]].
        -- subst p. lra.
        -- exists p. repeat split; assumption.
Qed.

Lemma checkPocket_spec (b : Ball) (pockets_ : list Pocket) :
  checkPocket b pockets_ = true <-> exists p, In p pockets_ /\ capturedBy p b.
Proof.
  unfold checkPocket. rewrite checkPocket_loop_spec.
  unfold capturedBy, movingAway, distance, pocketCentre. simpl.
  split; intros [p [Hin [Hlt Hno]]]; exists p; (split; [ exact Hin | ]).
  - rewrite <- pocketThreshold_factor. split; assumption.
  - rewrite pocketThreshold_factor. split; assumption.
Qed.

Lemma speedFactor_range (k : PocketType) (speed : R) :
  (speed <= 5 -> speedFactor k speed = 1) /\
  (5 < speed -> 0.85 <= speedFactor k speed <= 0.95).
Proof.
  unfold speedFactor.
  destruct k; case_test (speed >? 10); try case_test (speed >? 5);
    split; intros; lra.
Qed.

Lemma speedFactor_antitone (k : PocketType) (speed speed' : R) :
  speed <= speed' -> speedFactor k speed' <= speedFactor k speed.
Proof.
  unfold speedFactor. intros Hle.
  destruct k; case_test (speed' >? 10); try case_test (speed' >? 5);
    case_test (speed >? 10); try case_test (speed >? 5); lra.
Qed.

(** C4.  The capture check is true exactly when some pocket captures the
    ball: the centre distance is below radius times 0.65 (corner) or 0.70
    (middle) times the speed factor, and the ball is not moving away from
    that pocket (dot product below -2 with speed above 5).  The speed factor
    is 1 up to speed 5, lies in [0.85, 0.95] above it, and does not grow
    with speed. *)
Theorem checkPocket_thresholds :
  (forall (b : Ball) (pockets_ : list Pocket),
      checkPocket b pockets_ = true <->
      exists p, In p pockets_ /\ capturedBy p b) /\
  (forall (k : PocketType) (speed : R),
      (speed <= 5 -> speedFactor k speed = 1) /\
      (5 < speed -> 0.85 <= speedFactor k speed <= 0.95)) /\
  (forall (k : PocketType) (speed speed' : R),
      speed <= speed' -> speedFactor k speed' <= speedFactor k speed) /\
  (forall speed, 10 < speed ->
      speedFactor corner speed = 0.9 /\ speedFactor middle speed = 0.85) /\
  (forall speed, 5 < speed <= 10 ->
      speedFactor corner speed = 0.95 /\ speedFactor middle speed = 0.92).
Proof.
  split; [ exact checkPocket_spec | ].
  split; [ exact speedFactor_range | ].
  split; [ exact speedFactor_antitone | ].
  split; intros speed Hs; unfold speedFactor.
  - case_test (speed >? 10); [ split; reflexivity | lra ].
  - case_test (speed >? 10); [ lra | ].
    case_test (speed >? 5); [ split; reflexivity | lra ].
Qed.

Lemma dist_x_axis (a b : R) : Num.dist a 0 b 0 = Rabs (b - a).
Proof.
  unfold Num.dist.
  replace ((b - a) * (b - a) + (0 - 0) * (0 - 0)) with (Rsqr (b - a))
    by (unfold Rsqr; ring).
  apply sqrt_Rsqr_abs.
Qed.

Lemma checkPocket_not_captured (b : Ball) (pockets_ : list Pocket) :
  (forall p, In p pockets_ -> ~ capturedBy p b) ->
  checkPocket b pockets_ = false.
Proof.
  intros Hno. destruct (checkPocket b pockets_) eqn:E; [ | reflexivity ].
  apply checkPocket_spec in E. destruct E as [p [Hin Hcap]].
  exfalso. exact (Hno p Hin Hcap).
Qed.

Lemma speedOf_along_x (a : R) : speedOf (mkVec a 0) = Rabs a.
Proof.
  unfold speedOf. cbn [vx vy].
  replace (a * a + 0 * 0) with (Rsqr a) by (unfold Rsqr; ring).
  apply sqrt_Rsqr_abs.
Qed.

Lemma distance_along_x (a b y : R) :
  distance (mkVec a y) (mkVec b y) = Rabs (b - a).
Proof.
  unfold distance, Num.dist. cbn [vx vy].
  replace ((b - a) * (b - a) + (y - y) * (y - y)) with (Rsqr (b - a))
    by (unfold Rsqr; ring).
  apply sqrt_Rsqr_abs.
Qed.

Lemma distance_at_least (c : R) (p q : Vec) :
  0 <= c ->
  c * c <= (vx q - vx p) * (vx q - vx p) + (vy q - vy p) * (vy q - vy p) ->
  c <= distance p q.
Proof.
  intros Hc Hsq. unfold distance, Num.dist.
  rewrite <- (sqrt_square c) by exact Hc. now apply sqrt_le_1_alt.
Qed.

Lemma speedFactor_fast (speed : R) :
  10 < speed ->
  speedFactor corner speed = 0.9 /\ speedFactor middle speed = 0.85.
Proof.
  intros Hs. unfold speedFactor.
  case_test (speed >? 10); [ split; reflexivity | lra ].
Qed.

Lemma speedFactor_medium (speed : R) :
  5 < speed <= 10 ->
  speedFactor corner speed = 0.95 /\ speedFactor middle speed = 0.92.
Proof.
  intros Hs. unfold speedFactor.
  case_test (speed >? 10); [ lra | ].
  case_test (speed >? 5); [ split; reflexivity | lra ].
Qed.

(** A ball that rolls along the line y = 410 with velocity (-24, 0) towards
    the centre (350, 410) of the left middle pocket of the table is captured
    by that pocket from less than 13.8 units before the centre. *)
Lemma incoming_ball_capturedBy (a : R) :
  0 < a < 13.8 ->
  capturedBy
    (mkPocket (1100 / 2 - 400 / 2) (820 / 2) (400 / 68 * 3.96) middle)
    (ballAt BallType.red (mkVec (350 + a) 410) (mkVec (-24) 0) 0).
Proof.
  intros Ha.
  assert (Hspeed : speedOf (mkVec (-24) 0) = 24).
  { rewrite speedOf_along_x, Rabs_left by lra. ring. }
  unfold capturedBy, movingAway, pocketCentre.
  cbn [body position velocity vx vy pocket_x pocket_y pocket_radius
       pocket_type set_body ballAt baseThreshold].
  replace (820 / 2) with 410 by lra.
  rewrite distance_along_x, Hspeed.
  destruct (speedFactor_fast 24 ltac:(lra)) as [_ ->].
  rewrite Rabs_left by lra. split; [ lra | ].
  intros [Hdot _]. nra.
Qed.

(** C3, as stated, fails: on the table, with the same velocity (-24, 0), a
    ball 12 units before the centre of the left middle pocket is captured,
    a ball 10 units past the centre is not, because it moves away from the
    centre. *)
Lemma capture_not_monotone_in_distance :
  let p := mkPocket 350 410 (400 / 68 * 3.96) middle in
  let b := ballAt BallType.red (mkVec 362 410) (mkVec (-24) 0) 0 in
  let b' := ballAt BallType.red (mkVec 340 410) (mkVec (-24) 0) 0 in
  In p (pockets theTable) /\
  velocity (body b') = velocity (body b) /\
  distance (position (body b')) (pocketCentre p)
    < distance (position (body b)) (pocketCentre p) /\
  checkPocket b (pockets theTable) = true /\
  checkPocket b' (pockets theTable) = false.
Proof.
  intros p b b'.
  assert (Hspeed : speedOf (mkVec (-24) 0) = 24).
  { rewrite speedOf_along_x, Rabs_left by lra. ring. }
  split.
  { unfold theTable, p. cbv [pockets newSnookerTable initializePockets].
    do 4 right. left. f_equal; lra. }
  split; [ reflexivity | ].
  split.
  { unfold b, b', p, pocketCentre.
    cbn [body position set_body ballAt vx vy pocket_x pocket_y].
    rewrite !distance_along_x, Rabs_right, Rabs_left; lra. }
  split.
  - apply checkPocket_spec.
    exists (mkPocket (1100 / 2 - 400 / 2) (820 / 2) (400 / 68 * 3.96) middle).
    split.
    + unfold theTable. cbv [pockets newSnookerTable initializePockets].
      do 4 right. left. reflexivity.
    + unfold b. replace 362 with (350 + 12) by lra.
      apply incoming_ball_capturedBy. lra.
  - apply checkPocket_not_captured. intros q Hin.
    unfold theTable in Hin.
    cbv [pockets newSnookerTable initializePockets In] in Hin.
    unfold capturedBy, movingAway, pocketCentre, b'.
    cbn [body position velocity set_body ballAt].
    rewrite Hspeed.
    destruct (speedFactor_fast 24 ltac:(lra)) as [Hcorner Hmiddle].
    repeat destruct Hin as [<- | Hin]; try contradiction;
      cbn [pocket_x pocket_y pocket_radius pocket_type baseThreshold vx vy];
      rewrite ?Hcorner, ?Hmiddle; intros [Hlt Hstay].
    + pose proof (distance_at_least 300 (mkVec 340 410)
                    (mkVec (1100 / 2 - 400 / 2 + 400 / 68 * 3.27 * 0.3)
                           (820 / 2 - 400 * 2 / 2 + 400 / 68 * 3.27 * 0.3)))
        as H. cbn [vx vy] in H. lra.
    + pose proof (distance_at_least 300 (mkVec 340 410)
                    (mkVec (1100 / 2 + 400 / 2 - 400 / 68 * 3.27 * 0.3)
                           (820 / 2 - 400 * 2 / 2 + 400 / 68 * 3.27 * 0.3)))
        as H. cbn [vx vy] in H. lra.
    + pose proof (distance_at_least 300 (mkVec 340 410)
                    (mkVec (1100 / 2 - 400 / 2 + 400 / 68 * 3.27 * 0.3)
                           (820 / 2 + 400 * 2 / 2 - 400 / 68 * 3.27 * 0.3)))
        as H. cbn [vx vy] in H. lra.
    + pose proof (distance_at_least 300 (mkVec 340 410)
                    (mkVec (1100 / 2 + 400 / 2 - 400 / 68 * 3.27 * 0.3)
                           (820 / 2 + 400 * 2 / 2 - 400 / 68 * 3.27 * 0.3)))
        as H. cbn [vx vy] in H. lra.
    + apply Hstay. split; lra.
    + pose proof (distance_at_least 300 (mkVec 340 410)
                    (mkVec (1100 / 2 + 400 / 2) (820 / 2))) as H.
      cbn [vx vy] in H. lra.
Qed.

(** A ball no faster than 5 never counts as moving away. *)
Lemma slow_ball_not_movingAway (p : Pocket) (b : Ball) :
  speedOf (velocity (body b)) <= 5 -> ~ movingAway p b.
Proof. intros Hslow [_ Hfast]. lra. Qed.

(** C3, amended.  For a fixed velocity, if the check is true for a ball on
    account of the pocket [p], it is true for every ball centre nearer to the
    centre of [p] that is not moving away from [p] (dot product below -2
    with speed above 5), whatever the other pockets are. *)
Theorem capture_monotone_unless_moving_away
        (pockets_ : list Pocket) (p : Pocket) (b b' : Ball) :
  In p pockets_ ->
  velocity (body b') = velocity (body b) ->
  distance (position (body b')) (pocketCentre p)
    < distance (position (body b)) (pocketCentre p) ->
  checkPocket b [p] = true ->
  ~ movingAway p b' ->
  checkPocket b' pockets_ = true.
Proof.
  intros Hin Hvel Hnear Hcap Hstay.
  apply checkPocket_spec in Hcap. destruct Hcap as [q [[<- | []] [Hlt _]]].
  apply checkPocket_spec. exists p. split; [ exact Hin | ].
  split; [ | exact Hstay ].
  rewrite Hvel. lra.
Qed.

Lemma capture_monotone_unless_moving_away_witness :
  let p := mkPocket (1100 / 2 - 400 / 2) (820 / 2) (400 / 68 * 3.96) middle in
  let b := ballAt BallType.red (mkVec (350 + 12) 410) (mkVec (-24) 0) 0 in
  let b' := ballAt BallType.red (mkVec 360 410) (mkVec (-24) 0) 0 in
  checkPocket b' (pockets theTable) = true.
Proof.
  intros p b b'.
  apply (capture_monotone_unless_moving_away (pockets theTable) p b b').
  - unfold theTable, p. cbv [pockets newSnookerTable initializePockets].
    do 4 right. left. reflexivity.
  - reflexivity.
  - unfold b, b', p, pocketCentre.
    cbn [body position set_body ballAt vx vy pocket_x pocket_y].
    replace (820 / 2) with 410 by lra.
    rewrite !distance_along_x, !Rabs_left; lra.
  - apply checkPocket_spec. exists p. split; [ now left | ].
    apply incoming_ball_capturedBy. lra.
  - unfold movingAway, b', p, pocketCentre.
    cbn [body position velocity set_body ballAt vx vy pocket_x pocket_y].
    intros [Hdot _]. lra.
Defined.

(** ** Rolling deceleration *)

Lemma decelerationFactor_bounds (b : Ball) (speed : R) :
  0.988 <= decelerationFactor b speed <= 0.9985.
Proof.
  unfold decelerationFactor. cbv zeta.
  set (f := if speed <? 2 then _ else _).
  unfold Rmax, Rmin.
  destruct (Rle_dec 0.9985 f); destruct (Rle_dec 0.988 _); lra.
Qed.

Lemma decelerationFactor_slow (b : Ball) (speed : R) :
  rollResistanceCoefficient b = 0.0012 -> speed < 2 ->
  decelerationFactor b speed = 0.998.
Proof.
  intros Hr Hs. unfold decelerationFactor. cbv zeta. rewrite Hr.
  case_test (speed <? 2); [ | lra ].
  unfold Rmax, Rmin.
  destruct (Rle_dec 0.9985 (1 - 0.0012 - 0.0008)); [ lra | ].
  destruct (Rle_dec 0.988 (1 - 0.0012 - 0.0008)); lra.
Qed.

(** What the step does to a ball that rolls faster than 0.05: the velocity
    is scaled by the deceleration factor. *)
Lemma deceleration_scales (b : Ball) :
  isPocketed b = false ->
  speedOf (velocity (body b)) > 0.05 ->
  velocity (body (applyProfessionalDeceleration b))
  = mkVec (vx (velocity (body b))
           * decelerationFactor b (speedOf (velocity (body b))))
          (vy (velocity (body b))
           * decelerationFactor b (speedOf (velocity (body b)))).
Proof.
  intros Hp Hs. unfold applyProfessionalDeceleration. rewrite Hp. simpl.
  case_test (speedOf (velocity (body b)) >? 0.05); [ | lra ].
  destruct (Rabs (angularVelocity (body b)) >? 0.01); reflexivity.
Qed.

(** C2, as stated, fails: a ball on the table that rolls at 0.0501 leaves
    the step with the velocity (0.0499998, 0): its speed is below 0.05 and
    it is not at rest. *)
Lemma slow_ball_not_at_rest_after_step :
  let b := ballAt BallType.red (mkVec 300 300) (mkVec 0.0501 0) 0 in
  let b' := applyProfessionalDeceleration b in
  isPocketed b = false /\
  velocity (body b') = mkVec 0.0499998 0 /\
  speedOf (velocity (body b')) < 0.05 /\
  ~ atRest b'.
Proof.
  intros b b'.
  assert (Hs : speedOf (velocity (body b)) = 0.0501)
    by (apply speedOf_x_axis; lra).
  assert (Hv : velocity (body b') = mkVec 0.0499998 0).
  { unfold b'. rewrite deceleration_scales; [ | reflexivity | rewrite Hs; lra ].
    rewrite decelerationFactor_slow; [ | reflexivity | rewrite Hs; lra ].
    simpl. f_equal; lra. }
  split; [ reflexivity | ]. split; [ exact Hv | ]. split.
  - rewrite Hv, speedOf_x_axis; lra.
  - intros [H0 _]. rewrite Hv in H0. injection H0 as H0. lra.
Qed.

(** C2, amended.  The test is on the speed before the step: a ball on the
    table whose speed before the step is positive and at most 0.05 is at
    rest after it, with velocity and angular velocity exactly zero. *)
Theorem deceleration_snaps_to_rest (b : Ball) :
  isPocketed b = false ->
  0 < speedOf (velocity (body b)) <= 0.05 ->
  atRest (applyProfessionalDeceleration b).
Proof.
  intros Hp [Hpos Hle]. unfold applyProfessionalDeceleration, atRest.
  rewrite Hp. simpl.
  case_test (speedOf (velocity (body b)) >? 0.05); [ lra | ].
  case_test (speedOf (velocity (body b)) >? 0); [ | lra ].
  case_test (speedOf (velocity (body b)) <=? 0.05); [ | lra ].
  simpl. split; reflexivity.
Qed.

Lemma deceleration_snaps_to_rest_witness :
  atRest (applyProfessionalDeceleration
            (ballAt BallType.red (mkVec 300 300) (mkVec 0.04 0) 0.3)).
Proof.
  apply deceleration_snaps_to_rest.
  - reflexivity.
  - simpl. rewrite speedOf_x_axis; lra.
Defined.

(** ** The triangle rack *)

Lemma sqrt_between (a lo hi : R) :
  0 <= lo -> 0 <= hi -> lo * lo <= a -> a <= hi * hi ->
  lo <= sqrt a <= hi.
Proof.
  intros Hlo Hhi Hl Hh. split.
  - rewrite <- (sqrt_square lo) by exact Hlo. now apply sqrt_le_1_alt.
  - rewrite <- (sqrt_square hi) by exact Hhi. now apply sqrt_le_1_alt.
Qed.

(** The distance from a rack position to either neighbour in the next row
    is [sqrt 0.999956] times the ball spacing. *)
Lemma rack_next_row_distance (t : SnookerTable) (row col col' : nat) :
  0 <= ballRadius t ->
  col' = col \/ col' = S col ->
  Rabs (distance (rackPosition t row col) (rackPosition t (S row) col')
        - 2.05 * ballRadius t) <= 0.00005 * ballRadius t.
Proof.
  intros Hr Hcol.
  set (s := ballRadius t * 2.05).
  assert (Hs : 0 <= s) by (unfold s; lra).
  assert (Hsq : (vx (rackPosition t (S row) col') - vx (rackPosition t row col))
                * (vx (rackPosition t (S row) col') - vx (rackPosition t row col))
                + (vy (rackPosition t (S row) col') - vy (rackPosition t row col))
                  * (vy (rackPosition t (S row) col') - vy (rackPosition t row col))
                = 0.999956 * (s * s)).
  { unfold rackPosition. cbn [vx vy]. fold s.
    replace 0.866 with (866 / 1000) by lra.
    replace 0.999956 with (999956 / 1000000) by lra.
    destruct Hcol as [-> | ->]; rewrite ?S_INR; field. }
  unfold distance, Num.dist. rewrite Hsq.
  destruct (sqrt_between (0.999956 * (s * s)) (0.999977 * s) s) as [Hl Hu];
    try nra.
  unfold s in *. apply Rabs_le. lra.
Qed.

Lemma rack_same_row_distance (t : SnookerTable) (row col : nat) :
  0 <= ballRadius t ->
  distance (rackPosition t row col) (rackPosition t row (S col))
  = 2.05 * ballRadius t.
Proof.
  intros Hr. unfold distance, Num.dist, rackPosition. cbn [vx vy].
  rewrite S_INR.
  replace (_ + _) with ((2.05 * ballRadius t) * (2.05 * ballRadius t)).
  - apply sqrt_square. lra.
  - set (s := ballRadius t * 2.05). replace (2.05 * ballRadius t) with s by (unfold s; lra). ring.
Qed.

Lemma rackRow_length (t : SnookerTable) (row : nat) :
  length (rackRow t row) = S row.
Proof. unfold rackRow. now rewrite length_map, length_seq. Qed.

Lemma rackRow_nth (t : SnookerTable) (row col : nat) :
  (col <= row)%nat ->
  nth_error (rackRow t row) col = Some (rackPosition t row col).
Proof.
  intros Hc. unfold rackRow.
  rewrite nth_error_map, nth_error_seq.
  destruct (Nat.ltb_spec col (S row)) as [_ | Hge]; [ reflexivity | lia ].
Qed.

(** C6.  The rack generator returns 15 positions, the rows 0 to 4 one after
    the other, row [row] with [row + 1] positions (1 at the apex, 5 at the
    base); a position and each of its two neighbours in the next row are
    2.05 ballRadius apart up to 0.00005 ballRadius, and neighbours within a
    row exactly 2.05 ballRadius. *)
Theorem triangle_rack_geometry (t : SnookerTable) :
  0 <= ballRadius t ->
  length (getRedBallPositions t) = 15%nat /\
  getRedBallPositions t
  = rackRow t 0 ++ rackRow t 1 ++ rackRow t 2 ++ rackRow t 3 ++ rackRow t 4 /\
  length (rackRow t 0) = 1%nat /\
  length (rackRow t 4) = 5%nat /\
  (forall row, length (rackRow t row) = S row) /\
  (forall row col, (col <= row)%nat ->
     nth_error (rackRow t row) col = Some (rackPosition t row col)) /\
  (forall row col, (col <= row)%nat ->
     Rabs (distance (rackPosition t row col) (rackPosition t (S row) col)
           - 2.05 * ballRadius t) <= 0.00005 * ballRadius t /\
     Rabs (distance (rackPosition t row col) (rackPosition t (S row) (S col))
           - 2.05 * ballRadius t) <= 0.00005 * ballRadius t) /\
  (forall row col, (S col <= row)%nat ->
     distance (rackPosition t row col) (rackPosition t row (S col))
     = 2.05 * ballRadius t).
Proof.
  intros Hr.
  split; [ reflexivity | ].
  split; [ unfold getRedBallPositions; cbn [seq flat_map];
          now rewrite app_nil_r | ].
  split; [ reflexivity | ]. split; [ reflexivity | ].
  split; [ apply rackRow_length | ].
  split; [ apply rackRow_nth | ].
  split.
  - intros row col _. split; apply rack_next_row_distance; auto.
  - intros row col _. now apply rack_same_row_distance.
Qed.

Lemma triangle_rack_geometry_witness :
  length (getRedBallPositions (newSnookerTable 550 410 400)) = 15%nat.
Proof.
  apply (triangle_rack_geometry (newSnookerTable 550 410 400)).
  simpl. lra.
Defined.

(** ** The shot *)

Lemma speedOf_polar (a m : R) :
  0 <= m -> speedOf (mkVec (cos a * m) (sin a * m)) = m.
Proof.
  intros Hm. unfold speedOf. cbn [vx vy].
  replace (cos a * m * (cos a * m) + sin a * m * (sin a * m))
    with ((Rsqr (sin a) + Rsqr (cos a)) * (m * m)) by (unfold Rsqr; ring).
  rewrite sin2_cos2, Rmult_1_l. now apply sqrt_square.
Qed.

(** The guard of [shoot] is the condition of the specification. *)
Lemma shoot_guard (c : Cue) (cb : Ball) :
  isAiming c && negb (isPocketed cb) && (pullback c >? 10) = true
  <-> shotAllowed c (Some cb).
Proof.
  unfold shotAllowed. rewrite !andb_true_iff, negb_true_iff, gtb_true.
  split.
  - intros [[Ha Hp] Hb]. split; [ exact Ha | split; [ | exact Hb ] ].
    exists cb. split; [ reflexivity | exact Hp ].
  - intros [Ha [[cb' [Heq Hp]] Hb]]. injection Heq as <-. auto.
Qed.

Lemma shoot_applied_force (now : R) (c : Cue) (cb : Ball) (fx fy : R) :
  appliedForce cb (applyProfessionalSpin_ball now c cb fx fy) = mkVec fx fy.
Proof.
  unfold appliedForce, applyProfessionalSpin_ball, applySpinData,
    Ball_applyForce. cbn. f_equal; ring.
Qed.

(** The shot obeys [shotSpec] when the cue constants maxPullback, power and
    maxPower are positive. *)
Lemma shotSpec_of_positive (now : R) (c : Cue) (cueBall_ : option Ball) :
  0 < maxPullback c -> 0 < power c -> 0 < maxPower c ->
  shotSpec now c cueBall_.
Proof.
  intros HmaxPull Hpower HmaxPower. unfold shotSpec. cbv zeta.
  set (m := pullback c / maxPullback c * power c * maxPower c).
  destruct cueBall_ as [cb | ].
  - destruct (isAiming c && negb (isPocketed cb) && (pullback c >? 10))
      eqn:Hguard.
    + assert (Hallowed : shotAllowed c (Some cb)) by now apply shoot_guard.
      assert (Hm : 0 < m).
      { destruct Hallowed as [_ [_ Hpull]]. unfold m.
        apply Rmult_lt_0_compat; [ apply Rmult_lt_0_compat | ]; try assumption.
        apply Rdiv_lt_0_compat; lra. }
      assert (Hforce :
                appliedForce cb
                  (applyProfessionalSpin_ball now c cb (cos (angle c) * m)
                                              (sin (angle c) * m))
                = mkVec (cos (angle c) * m) (sin (angle c) * m))
        by apply shoot_applied_force.
      unfold shoot. rewrite Hguard. unfold forceMagnitude. fold m. cbn.
      split; [ | split ].
      * split; [ intros _ | intros _; exact Hallowed ].
        intros Heq. injection Heq as Heq.
        rewrite Heq in Hforce. unfold appliedForce in Hforce.
        injection Hforce as Hx Hy.
        assert (Hs : speedOf (mkVec (cos (angle c) * m) (sin (angle c) * m))
                     = m) by (apply speedOf_polar; lra).
        rewrite <- Hx, <- Hy in Hs. unfold speedOf in Hs. cbn in Hs.
        replace ((vx (force (body cb)) - vx (force (body cb)))
                 * (vx (force (body cb)) - vx (force (body cb)))
                 + (vy (force (body cb)) - vy (force (body cb)))
                   * (vy (force (body cb)) - vy (force (body cb))))
          with 0 in Hs by ring.
        rewrite sqrt_0 in Hs. lra.
      * intros _. eexists. eexists. split; [ reflexivity | ].
        split; [ reflexivity | ].
        rewrite Hforce. split; [ reflexivity | ].
        split; [ apply speedOf_polar; lra | exact Hm ].
      * intros Hno. contradiction.
    + assert (Hno : ~ shotAllowed c (Some cb)).
      { intros H. apply shoot_guard in H. congruence. }
      unfold shoot. rewrite Hguard. cbn.
      split; [ | split ].
      * split; [ intros H; contradiction | intros H; now contradiction H ].
      * intros H; contradiction.
      * reflexivity.
  - assert (Hno : ~ shotAllowed c None).
    { intros [_ [[cb [Heq _]] _]]. discriminate. }
    cbn. split; [ | split ].
    + split; [ intros H; contradiction | intros H; now contradiction H ].
    + intros H; contradiction.
    + reflexivity.
Qed.


(** ** The two "any ball moving" gates *)

Lemma speedOf_zero : speedOf (mkVec 0 0) = 0.
Proof. rewrite speedOf_x_axis; lra. Qed.


(** The two gates on a list of balls of which one, not pocketed, rolls at a
    speed in (0.05, 0.1] and none rolls faster. *)
Lemma gates_between_thresholds {MW : MatterWorld} (s : State) (b : Ball) :
  In b (balls s) -> isPocketed b = false ->
  0.05 < speedOf (velocity (body b)) <= 0.1 ->
  (forall b', In b' (balls s) -> speedOf (velocity (body b')) <= 0.1) ->
  isAnyBallMoving s = true /\ Cue_isAnyBallMoving (balls s) = false.
Proof.
  intros Hin Hp Hs Hall. split.
  - unfold isAnyBallMoving. apply existsb_exists. exists b.
    split; [ exact Hin | ]. rewrite Hp. simpl. apply gtb_true. lra.
  - unfold Cue_isAnyBallMoving.
    destruct (existsb _ (balls s)) eqn:E; [ | reflexivity ].
    apply existsb_exists in E. destruct E as [b' [Hin' Hb']].
    destruct (isPocketed b'); [ discriminate | ].
    apply gtb_true in Hb'. specialize (Hall b' Hin'). lra.
Qed.

(** Run the session functions on a concrete state, leaving the numbers
    as they are written. *)
Ltac run_session :=
  cbv - [IZR Q2R Rplus Rminus Rmult Rdiv Ropp Rinv sqrt Rabs Rmax
         Rmin cos sin atan PI Rlt_dec Rle_dec Num.ltb Num.gtb Num.leb Num.geb
         Num.dist Num.atan2 speedOf].

Ltac run_session_in H :=
  cbv - [IZR Q2R Rplus Rminus Rmult Rdiv Ropp Rinv sqrt Rabs Rmax
         Rmin cos sin atan PI Rlt_dec Rle_dec Num.ltb Num.gtb Num.leb Num.geb
         Num.dist Num.atan2 speedOf] in H.



(** ** The potted history and the foul advisory *)

Section PottedHistory.

Context {MW : MatterWorld}.

(** The history never holds more than two entries. *)
Lemma pushPotted_capped (l : list BallType.t) (t : BallType.t) :
  (length l <= 2)%nat -> (length (pushPotted l t) <= 2)%nat.
Proof.
  intros Hl. unfold pushPotted.
  destruct (Nat.ltb_spec 2 (length (l ++ [t]))) as [Hlong | Hshort].
  - rewrite length_app in Hlong. simpl in Hlong.
    destruct l as [ | a l']; simpl in *; [ lia | ].
    rewrite length_app. simpl. lia.
  - exact Hshort.
Qed.

(** The last entry of the history is the kind just pushed. *)
Lemma pushPotted_last (l : list BallType.t) (t : BallType.t) :
  (length l <= 2)%nat ->
  pushPotted l t = match l with
                   | [] => [t]
                   | [a] => [a; t]
                   | _ :: b :: _ => [b; t]
                   end.
Proof.
  intros Hl. destruct l as [ | a [ | b [ | c l']]]; try reflexivity.
  simpl in Hl. lia.
Qed.

(** Potting a ball that is neither the cue ball nor a red pushes its kind
    and raises the advisory exactly when the foul test holds of the new
    history. *)
Lemma handlePocketedBall_colored (i : nat) (s : State) (ball : Ball) :
  nth_error (balls s) i = Some ball ->
  type ball <> BallType.cue -> type ball <> BallType.red ->
  let s' := handlePocketedBall i s in
  lastPottedBalls s' = pushPotted (lastPottedBalls s) (type ball) /\
  (message s' = MsgTwoConsecutiveColored <->
   twoConsecutiveColored (lastPottedBalls s') = true).
Proof.
  intros Hnth Hcue Hred. unfold handlePocketedBall. rewrite Hnth.
  unfold pocket. rewrite Hnth. destruct s. cbn in Hnth |- *.
  destruct (type ball) eqn:Ht; try contradiction;
    destruct (twoConsecutiveColored _) eqn:Hfoul; cbn;
    (split; [ reflexivity | ]);
    split; intros H; congruence.
Qed.

(** Potting a red leaves the history as it was: reds are never recorded. *)
Lemma handlePocketedBall_red (i : nat) (s : State) (ball : Ball) :
  nth_error (balls s) i = Some ball -> type ball = BallType.red ->
  lastPottedBalls (handlePocketedBall i s) = lastPottedBalls s.
Proof.
  intros Hnth Hred. unfold handlePocketedBall. rewrite Hnth, Hred.
  unfold pocket. rewrite Hnth. reflexivity.
Qed.

(** No kind that is ever pushed is red, so the [includes('red')] test of
    the foul check never succeeds on a history of pushed kinds. *)
Lemma includesRed_pushPotted (l : list BallType.t) (t : BallType.t) :
  includesRed l = false -> t <> BallType.red ->
  includesRed (pushPotted l t) = false.
Proof.
  intros Hl Ht. unfold pushPotted.
  assert (Happ : includesRed (l ++ [t]) = false).
  { unfold includesRed in *. rewrite existsb_app, Hl. simpl.
    destruct t; try reflexivity. contradiction. }
  destruct (Nat.ltb 2 (length (l ++ [t]))); [ | exact Happ ].
  destruct (l ++ [t]) as [ | a l']; [ reflexivity | ].
  unfold includesRed in *. simpl in Happ.
  apply orb_false_iff in Happ. apply Happ.
Qed.

End PottedHistory.

(** C1, on the code: on the table set up in mode 1, potting the black and
    then the pink raises the foul advisory, and so does potting the black,
    then a red, then the pink: the red is not recorded in the history,
    which is [black; pink] in both cases. *)
Theorem red_between_colored_still_flagged :
  let s0 := tableInMode1 in
  let consecutive := handlePocketedBall 19 (handlePocketedBall 20 s0) in
  let redBetween :=
    handlePocketedBall 19 (handlePocketedBall 0 (handlePocketedBall 20 s0)) in
  option_map type (nth_error (balls s0) 20) = Some BallType.black /\
  option_map type (nth_error (balls s0) 0) = Some BallType.red /\
  option_map type (nth_error (balls s0) 19) = Some BallType.pink /\
  lastPottedBalls s0 = [] /\
  message consecutive = MsgTwoConsecutiveColored /\
  lastPottedBalls consecutive = [BallType.black; BallType.pink] /\
  message redBetween = MsgTwoConsecutiveColored /\
  lastPottedBalls redBetween = [BallType.black; BallType.pink].
Proof.
  run_session. repeat split; reflexivity.
Qed.

(** ** Lists updated at an index *)

Lemma length_list_update {A : Type} (i : nat) (f : A -> A) (l : list A) :
  length (list_update i f l) = length l.
Proof.
  revert i. induction l as [ | a l IH]; intros [ | i]; simpl; auto.
Qed.

Lemma nth_error_list_update_same {A : Type} (i : nat) (f : A -> A)
      (l : list A) :
  nth_error (list_update i f l) i = option_map f (nth_error l i).
Proof.
  revert i. induction l as [ | a l IH]; intros [ | i]; simpl; auto.
Qed.

Lemma nth_error_list_update_other {A : Type} (i j : nat) (f : A -> A)
      (l : list A) :
  i <> j -> nth_error (list_update i f l) j = nth_error l j.
Proof.
  revert i j. induction l as [ | a l IH]; intros [ | i] [ | j] Hij; simpl;
    auto; try contradiction.
Qed.

Lemma list_update_twice {A : Type} (i : nat) (f : A -> A) (l : list A) :
  (forall a, f (f a) = f a) ->
  list_update i f (list_update i f l) = list_update i f l.
Proof.
  intros Hf. revert i.
  induction l as [ | a l IH]; intros [ | i]; simpl; auto.
  - now rewrite Hf.
  - now rewrite IH.
Qed.

(** ** The list world obeys the laws of the world *)

Lemma ListWorld_laws : MatterWorldLaws ListWorld.
Proof.
  split.
  - intros w b b'. simpl. rewrite existsb_app. simpl.
    now rewrite orb_false_r.
  - intros w b b'. simpl. induction w as [ | a w IH]; [ reflexivity | ].
    simpl. destruct (Nat.eqb a b) eqn:Eab; simpl; rewrite IH;
      destruct (Nat.eqb b' a) eqn:Eb'a; destruct (Nat.eqb b' b) eqn:Eb'b;
      simpl; rewrite ?andb_true_r, ?andb_false_r; try reflexivity;
      rewrite ?Nat.eqb_eq, ?Nat.eqb_neq in *; exfalso; lia.
  - intros w b. simpl. induction w as [ | a w IH]; [ reflexivity | ].
    simpl. intros H. apply orb_false_iff in H. destruct H as [Hba Hw].
    rewrite Nat.eqb_sym in Hba. rewrite Hba. simpl. now rewrite IH.
Qed.

(** ** Pocketing *)

Section Pocketing.

Context {MW : MatterWorld} {ML : MatterWorldLaws MW}.

Lemma World_remove_twice (w : World) (b : nat) :
  World_remove (World_remove w b) b = World_remove w b.
Proof.
  apply World_remove_missing. rewrite World_has_remove, Nat.eqb_refl.
  apply andb_false_r.
Qed.

(** C9.  Pocketing is idempotent: a second [pocket()] on the same ball
    leaves the ball objects, the world and the rest of the session as the
    first one left them, removal of a body that is not in the world being a
    no-op. *)
Theorem pocket_idempotent (i : nat) (s : State) :
  pocket i (pocket i s) = pocket i s.
Proof.
  unfold pocket at 2 3.
  destruct (nth_error (balls s) i) as [ball | ] eqn:Hnth.
  - unfold pocket. cbn [balls set_world updateBall set_balls world].
    rewrite nth_error_list_update_same, Hnth. cbn [option_map].
    destruct s. cbn in *. unfold set_world, updateBall, set_balls. cbn.
    rewrite list_update_twice by reflexivity.
    rewrite World_remove_twice. reflexivity.
  - unfold pocket. now rewrite Hnth.
Qed.

End Pocketing.

Lemma pocket_idempotent_witness :
  pocket 20 (pocket 20 tableInMode1) = pocket 20 tableInMode1.
Proof.
  apply (pocket_idempotent (ML := ListWorld_laws)).
Defined.

(** ** Placement by rejection sampling *)

Section Placement.

Context {MW : MatterWorld}.

Lemma farFromBalls_spec (t : SnookerTable) (cueBall_ ballToPlace : option nat)
      (x y : R) (k : nat) (bs : list Ball) :
  farFromBalls t cueBall_ ballToPlace x y k bs = true <->
  forall j ball,
    nth_error bs j = Some ball ->
    isNot ballToPlace (k + j) = true -> isNot cueBall_ (k + j) = true ->
    isPocketed ball = false ->
    ballRadius t * 2.5 <= distance (mkVec x y) (position (body ball)).
Proof.
  revert k. induction bs as [ | b rest IH]; intros k; simpl.
  - split; [ intros _ [ | j] ball H; discriminate | reflexivity ].
  - assert (Hrest :
              (forall j ball,
                  nth_error (b :: rest) j = Some ball ->
                  isNot ballToPlace (k + j) = true ->
                  isNot cueBall_ (k + j) = true ->
                  isPocketed ball = false ->
                  ballRadius t * 2.5
                    <= distance (mkVec x y) (position (body ball)))
              <->
              ((isNot ballToPlace k = true -> isNot cueBall_ k = true ->
                isPocketed b = false ->
                ballRadius t * 2.5 <= distance (mkVec x y) (position (body b)))
               /\ forall j ball,
                  nth_error rest j = Some ball ->
                  isNot ballToPlace (S k + j) = true ->
                  isNot cueBall_ (S k + j) = true ->
                  isPocketed ball = false ->
                  ballRadius t * 2.5
                    <= distance (mkVec x y) (position (body ball)))).
    { split.
      - intros H. split.
        + intros H1 H2 H3. apply (H 0%nat b); rewrite ?Nat.add_0_r; auto.
        + intros j ball Hj H1 H2 H3. apply (H (S j) ball); auto;
            rewrite <- plus_n_Sm; assumption.
      - intros [Hb Hr] [ | j] ball Hj H1 H2 H3.
        + injection Hj as <-. rewrite Nat.add_0_r in *. auto.
        + apply (Hr j ball); auto; rewrite <- plus_n_Sm in *; assumption. }
    rewrite Hrest. clear Hrest. rewrite <- IH.
    destruct (isNot ballToPlace k && negb (isPocketed b) && isNot cueBall_ k)
      eqn:Hcount.
    + apply andb_true_iff in Hcount. destruct Hcount as [Hcount H3].
      apply andb_true_iff in Hcount. destruct Hcount as [H1 H2].
      apply negb_true_iff in H2.
      change (distance (mkVec x y) (position (body b)))
        with (Num.dist x y (vx (position (body b)))
                       (vy (position (body b)))).
      case_test (Num.dist x y (vx (position (body b)))
                          (vy (position (body b)))
                 <? ballRadius t * 2.5).
      * split; [ intros H; discriminate H | ]. intros [Hb _].
        specialize (Hb H1 H3 H2). lra.
      * split; [ intros Hr; split; [ intros; lra | exact Hr ] | ].
        intros [_ Hr]. exact Hr.
    + split; [ intros Hr; split; [ | exact Hr ] | intros [_ Hr]; exact Hr ].
      intros H1 H3 H2. rewrite H1, H2, H3 in Hcount. discriminate.
Qed.

Lemma farFromPockets_spec (t : SnookerTable) (x y : R) (ps : list Pocket) :
  farFromPockets t x y ps = true <->
  forall p, In p ps ->
    pocket_radius p + ballRadius t * 2 <= distance (mkVec x y) (pocketCentre p).
Proof.
  induction ps as [ | q rest IH]; simpl.
  - split; [ intros _ p [] | reflexivity ].
  - case_test (Num.dist x y (pocket_x q) (pocket_y q)
               <? pocket_radius q + ballRadius t * 2).
    + split; [ intros H; discriminate H | ]. intros H.
      specialize (H q (or_introl eq_refl)).
      unfold distance, pocketCentre in H. cbn [vx vy] in H. lra.
    + rewrite IH. split.
      * intros H p [<- | Hin]; [ exact Htest | now apply H ].
      * intros H p Hin. apply H. now right.
Qed.

(** The placement test accepts exactly the well spaced points. *)
Lemma isValidBallPosition_spec (s : State) (x y : R)
      (ballToPlace : option nat) :
  isValidBallPosition x y ballToPlace s = true <-> wellSpaced s x y ballToPlace.
Proof.
  unfold isValidBallPosition, wellSpaced.
  rewrite <- farFromPockets_spec.
  rewrite <- (farFromBalls_spec (table s) (cueBall s) ballToPlace x y 0).
  destruct (farFromBalls _ _ _ _ _ _ _); split; intros H;
    try discriminate; try (split; [ reflexivity | exact H ]);
    destruct H as [H1 H2]; try discriminate; exact H2.
Qed.

Lemma random_sameButDraws (lo hi : R) (s : State) :
  sameButDraws s (snd (random lo hi s)).
Proof. unfold sameButDraws, random. destruct s. reflexivity. Qed.

Lemma sameButDraws_trans (s s1 s2 : State) :
  sameButDraws s s1 -> sameButDraws s1 s2 -> sameButDraws s s2.
Proof.
  unfold sameButDraws. intros H1 H2. rewrite H2, H1. destruct s. reflexivity.
Qed.

Lemma sameButDraws_refl (s : State) : sameButDraws s s.
Proof. unfold sameButDraws. destruct s. reflexivity. Qed.

Lemma wellSpaced_sameButDraws (s s0 : State) (x y : R) (b : option nat) :
  sameButDraws s s0 -> wellSpaced s0 x y b -> wellSpaced s x y b.
Proof.
  unfold sameButDraws. intros ->. destruct s. exact (fun H => H).
Qed.

Lemma random_rngPos (lo hi : R) (s : State) :
  rngPos (snd (random lo hi s)) = S (rngPos s).
Proof. reflexivity. Qed.

Lemma respawn_rngPos (i : nat) (x y : R) (s : State) :
  rngPos (respawn i x y s) = rngPos s.
Proof. unfold respawn. destruct (nth_error (balls s) i); reflexivity. Qed.

(** The loop makes at most [remaining] more attempts, with two random draws
    for each; when it places the ball, it does so at a point that the test
    accepted; when it gives up, all attempts are used and only random draws
    were made. *)
Lemma placementLoop_spec (remaining attempts i : nat) (s : State) :
  let '(s', placed, attempts') := placementLoop remaining attempts i s in
  (attempts <= attempts' <= attempts + remaining)%nat /\
  rngPos s' = (rngPos s + 2 * (attempts' - attempts))%nat /\
  (placed = true ->
   exists x y s0, sameButDraws s s0 /\ wellSpaced s x y (Some i) /\
                  s' = respawn i x y s0) /\
  (placed = false ->
   attempts' = (attempts + remaining)%nat /\ sameButDraws s s').
Proof.
  revert attempts s.
  induction remaining as [ | remaining IH]; intros attempts s.
  - simpl. split; [ lia | ]. split; [ lia | ]. split; [ discriminate | ].
    intros _. split; [ lia | apply sameButDraws_refl ].
  - cbn [placementLoop].
    set (t := table s).
    destruct (random (playAreaX t + ballRadius t * 2)
                     (playAreaX t + playAreaWidth t - ballRadius t * 2) s)
      as [x s1] eqn:Hx.
    destruct (random (playAreaY (table s) + ballRadius (table s) * 2)
                     (playAreaY (table s) + playAreaLength (table s)
                      - ballRadius (table s) * 2) s1)
      as [y s2] eqn:Hy.
    assert (Hs1 : sameButDraws s s1 /\ rngPos s1 = S (rngPos s)).
    { replace s1 with (snd (random (playAreaX t + ballRadius t * 2)
                                   (playAreaX t + playAreaWidth t
                                    - ballRadius t * 2) s))
        by now rewrite Hx.
      split; [ apply random_sameButDraws | apply random_rngPos ]. }
    assert (Hs2 : sameButDraws s s2 /\ rngPos s2 = S (S (rngPos s))).
    { replace s2 with (snd (random (playAreaY (table s) + ballRadius (table s) * 2)
                                   (playAreaY (table s) + playAreaLength (table s)
                                    - ballRadius (table s) * 2) s1))
        by now rewrite Hy.
      split.
      - apply (sameButDraws_trans s s1); [ apply Hs1 | ].
        apply random_sameButDraws.
      - rewrite random_rngPos. f_equal. apply Hs1. }
    destruct Hs2 as [Hs2 Hpos2]. clear Hs1.
    unfold t in *. rewrite Hy.
    destruct (isValidBallPosition x y (Some i) s2) eqn:Hvalid.
    + split; [ lia | ].
      split; [ rewrite respawn_rngPos, Hpos2; lia | ].
      split; [ | discriminate ].
      intros _. exists x, y, s2. split; [ exact Hs2 | ].
      split; [ | reflexivity ].
      apply (wellSpaced_sameButDraws s s2); [ exact Hs2 | ].
      now apply isValidBallPosition_spec.
    + specialize (IH (S attempts) s2).
      destruct (placementLoop remaining (S attempts) i s2)
        as [[s' placed] attempts'].
      destruct IH as [Hle [Hdraws [Hplaced Hgaveup]]].
      split; [ lia | ]. split; [ rewrite Hdraws, Hpos2; lia | ]. split.
      * intros Hp. destruct (Hplaced Hp) as [x' [y' [s0 [Hs0 [Hw Hs']]]]].
        exists x', y', s0. split; [ | split ].
        -- now apply (sameButDraws_trans s s2 s0).
        -- now apply (wellSpaced_sameButDraws s s2).
        -- exact Hs'.
      * intros Hp. destruct (Hgaveup Hp) as [Ha Hs']. split; [ lia | ].
        now apply (sameButDraws_trans s s2 s').
Qed.

End Placement.

(** ** A session in which the test accepts a point on the cue ball *)

Lemma dist_at_least (c x1 y1 x2 y2 : R) :
  0 <= c -> c * c <= (x2 - x1) * (x2 - x1) + (y2 - y1) * (y2 - y1) ->
  (Num.dist x1 y1 x2 y2 <? c) = false.
Proof.
  intros Hc Hsq. apply ltb_false. unfold Num.dist.
  rewrite <- (sqrt_square c) by exact Hc. now apply sqrt_le_1_alt.
Qed.

Lemma sqrt_at_most (a c : R) :
  0 <= c -> a <= c * c -> (sqrt a <=? c) = true.
Proof.
  intros Hc Ha. apply leb_true.
  rewrite <- (sqrt_square c) by exact Hc. now apply sqrt_le_1_alt.
Qed.

(** Decide the distance tests of a placement check on concrete numbers. *)
Ltac far_enough :=
  repeat match goal with
         | |- context [Num.ltb (Num.dist ?a ?b ?c ?d) ?e] =>
             rewrite (dist_at_least e a b c d) by lra
         end.

Lemma mode1_accepts_cue_ball :
  isValidBallPosition 550 265 (Some 21%nat) tableInMode1 = true.
Proof. unfold tableInMode1. run_session. far_enough. reflexivity. Qed.

Lemma mode1_in_D_zone : isInDZone (table tableInMode1) 550 265 = true.
Proof.
  unfold tableInMode1. run_session.
  rewrite sqrt_at_most by lra.
  rewrite (proj2 (geb_true _ _)) by lra. reflexivity.
Qed.

(** What [mousePressed] does when it places the cue ball. *)
Lemma mousePressed_places {MW : MatterWorld} (mouseX mouseY : R) (s : State)
      (cb : nat) :
  placingCueBall s = true -> isInDZone (table s) mouseX mouseY = true ->
  cueBall s = Some cb ->
  isValidBallPosition mouseX mouseY (Some cb) s = true ->
  mousePressed mouseX mouseY s
  = let s := respawn cb mouseX mouseY s in
    let s := set_cueBallPlaced s true in
    let s := set_placingCueBall s false in
    let s := set_cue s (set_isVisible (cue s) true) in
    let s := set_cue s (updateAngle (cue s) (deref s (cueBall s))
                                    mouseX mouseY) in
    showMessage MsgCueBallPlaced 2000 s.
Proof.
  intros Hplacing HinD Hcb Hvalid. unfold mousePressed.
  rewrite Hplacing, HinD, Hcb, Hvalid. reflexivity.
Qed.

Lemma cueBallPlacedInMode1_eq :
  cueBallPlacedInMode1
  = let s := respawn 21 550 265 tableInMode1 in
    let s := set_cueBallPlaced s true in
    let s := set_placingCueBall s false in
    let s := set_cue s (set_isVisible (cue s) true) in
    let s := set_cue s (updateAngle (cue s) (deref s (cueBall s)) 550 265) in
    showMessage MsgCueBallPlaced 2000 s.
Proof.
  apply mousePressed_places.
  - unfold tableInMode1. run_session. reflexivity.
  - exact mode1_in_D_zone.
  - unfold tableInMode1. run_session. reflexivity.
  - exact mode1_accepts_cue_ball.
Qed.

Lemma distance_to_itself (p : Vec) : distance p p = 0.
Proof.
  unfold distance, Num.dist.
  replace (_ + _) with 0 by ring. apply sqrt_0.
Qed.

Section PlacementClaim.

Context {MW : MatterWorld}.

(** With the cue ball as the ball being placed, no ball is skipped. *)
Lemma wellSpaced_cue_ball (s : State) (x y : R) (i : nat) :
  cueBall s = Some i -> wellSpaced s x y (Some i) ->
  spacedFromAllBalls s x y i.
Proof.
  intros Hcue [Hballs _] j ball Hnth Hji Hpock.
  apply (Hballs j ball Hnth); [ | | exact Hpock ].
  - simpl. now apply negb_true_iff, Nat.eqb_neq.
  - rewrite Hcue. simpl. now apply negb_true_iff, Nat.eqb_neq.
Qed.

(** In a state in which every ball on the table is one that the test looks
    at, a well spaced point is 2.5 ball radii from every other ball on the
    table. *)
Lemma wellSpaced_onTable (s : State) (x y : R) (i : nat) :
  onlyPlayableOnTable s -> wellSpaced s x y (Some i) ->
  forall j b, j <> i -> nth_error (balls s) j = Some b -> onTable s b ->
              ballRadius (table s) * 2.5
              <= distance (mkVec x y) (position (body b)).
Proof.
  intros Hplay [Hfar _] j b Hji Hj Hon.
  destruct (Hplay j b Hj Hon) as [Hnp Hcue].
  apply (Hfar j b Hj); [ | exact Hcue | exact Hnp ].
  simpl. now apply negb_true_iff, Nat.eqb_neq.
Qed.

End PlacementClaim.

(** ** The cue ball in a pocket *)

Lemma fold_left_preserves {A B : Type} (P : A -> Prop) (f : A -> B -> A)
      (l : list B) (a : A) :
  (forall a b, P a -> P (f a b)) -> P a -> P (fold_left f l a).
Proof.
  intros Hf. revert a. induction l as [ | b l IH]; intros a Ha; simpl; auto.
Qed.

Section Control.

Context {MW : MatterWorld}.

(** The part of the session that decides whether a shot can start: the cue
    and the flag [placingCueBall]. *)
Lemma forEachOf_preserves (P : State -> Prop) (l : list nat)
      (f : nat -> State -> State) (s : State) :
  (forall i st, P st -> P (f i st)) -> P s -> P (forEachOf l f s).
Proof.
  intros Hf Hs. unfold forEachOf.
  apply (fold_left_preserves P); [ | exact Hs ]. intros a b. apply Hf.
Qed.

Lemma forEachBall_preserves (P : State -> Prop) (f : nat -> State -> State)
      (s : State) :
  (forall i st, P st -> P (f i st)) -> P s -> P (forEachBall f s).
Proof.
  intros Hf Hs. unfold forEachBall.
  apply (fold_left_preserves P); [ | exact Hs ]. intros a b. apply Hf.
Qed.

Lemma respawn_control (i : nat) (x y : R) (s : State) :
  cue (respawn i x y s) = cue s /\
  placingCueBall (respawn i x y s) = placingCueBall s.
Proof.
  unfold respawn. destruct (nth_error (balls s) i); split; reflexivity.
Qed.

Lemma pocket_control (i : nat) (s : State) :
  cue (pocket i s) = cue s /\ placingCueBall (pocket i s) = placingCueBall s.
Proof.
  unfold pocket. destruct (nth_error (balls s) i); split; reflexivity.
Qed.

Lemma placeOnSpot_control (i : nat) (s : State) :
  cue (placeOnSpot i s) = cue s /\
  placingCueBall (placeOnSpot i s) = placingCueBall s.
Proof.
  unfold placeOnSpot. destruct (nth_error (balls s) i);
    [ apply respawn_control | split; reflexivity ].
Qed.

Lemma sameButDraws_control (s s0 : State) :
  sameButDraws s s0 ->
  cue s0 = cue s /\ placingCueBall s0 = placingCueBall s.
Proof. unfold sameButDraws. intros ->. split; reflexivity. Qed.

Lemma placeRandomly_control (i : nat) (s : State) :
  cue (placeRandomly i s) = cue s /\
  placingCueBall (placeRandomly i s) = placingCueBall s.
Proof.
  unfold placeRandomly.
  pose proof (placementLoop_spec 100 0 i s) as H.
  destruct (placementLoop 100 0 i s) as [[s' placed] attempts].
  destruct H as [_ [_ [Hplaced Hgaveup]]]. cbn [fst].
  destruct placed.
  - destruct (Hplaced eq_refl) as [x [y [s0 [Hs0 [_ ->]]]]].
    destruct (respawn_control i x y s0) as [-> ->].
    now apply sameButDraws_control.
  - destruct (Hgaveup eq_refl) as [_ Hs']. now apply sameButDraws_control.
Qed.

Lemma placeReds_control (positions : list Vec) (reds : list nat) (s : State) :
  cue (placeReds positions reds s) = cue s /\
  placingCueBall (placeReds positions reds s) = placingCueBall s.
Proof.
  revert positions s. induction reds as [ | i reds IH]; intros positions s.
  - destruct positions; split; reflexivity.
  - destruct positions as [ | p positions]; [ split; reflexivity | ].
    cbn [placeReds]. destruct (IH positions (respawn i (vx p) (vy p) s))
      as [-> ->].
    apply respawn_control.
Qed.

Lemma clearBall_control (i : nat) (s : State) :
  cue (clearBall i s) = cue s /\
  placingCueBall (clearBall i s) = placingCueBall s.
Proof.
  unfold clearBall. destruct (nth_error (balls s) i) as [ball | ];
    [ destruct (isPocketed ball) | ]; split; reflexivity.
Qed.

(** A step that keeps the cue and [placingCueBall], iterated. *)
Lemma forEachOf_control (l : list nat) (f : nat -> State -> State)
      (s : State) :
  (forall i st, cue (f i st) = cue st /\
                placingCueBall (f i st) = placingCueBall st) ->
  cue (forEachOf l f s) = cue s /\
  placingCueBall (forEachOf l f s) = placingCueBall s.
Proof.
  intros Hf.
  apply (forEachOf_preserves
           (fun st => cue st = cue s /\ placingCueBall st = placingCueBall s)).
  - intros i st [Hc Hp]. destruct (Hf i st) as [-> ->]. now split.
  - split; reflexivity.
Qed.

Lemma forEachBall_control (f : nat -> State -> State) (s : State) :
  (forall i st, cue (f i st) = cue st /\
                placingCueBall (f i st) = placingCueBall st) ->
  cue (forEachBall f s) = cue s /\
  placingCueBall (forEachBall f s) = placingCueBall s.
Proof.
  intros Hf.
  apply (forEachBall_preserves
           (fun st => cue st = cue s /\ placingCueBall st = placingCueBall s)).
  - intros i st [Hc Hp]. destruct (Hf i st) as [-> ->]. now split.
  - split; reflexivity.
Qed.

Lemma setupStartingPosition_control (s : State) :
  cue (setupStartingPosition s) = cue s /\
  placingCueBall (setupStartingPosition s) = placingCueBall s.
Proof.
  unfold setupStartingPosition.
  set (s1 := placeReds _ _ s).
  destruct (forEachOf_control (coloredBalls s1) placeOnSpot s1
                              placeOnSpot_control) as [-> ->].
  apply placeReds_control.
Qed.

Lemma setupRandomReds_control (s : State) :
  cue (setupRandomReds s) = cue s /\
  placingCueBall (setupRandomReds s) = placingCueBall s.
Proof.
  unfold setupRandomReds.
  set (s1 := forEachOf (coloredBalls s) placeOnSpot s).
  destruct (forEachOf_control (redBalls s1) placeRandomly s1
                              placeRandomly_control) as [-> ->].
  apply forEachOf_control, placeOnSpot_control.
Qed.

Lemma setupRandomAll_control (s : State) :
  cue (setupRandomAll s) = cue s /\
  placingCueBall (setupRandomAll s) = placingCueBall s.
Proof.
  unfold setupRandomAll. apply forEachOf_control, placeRandomly_control.
Qed.

Lemma clearAllBalls_control (s : State) :
  cue (clearAllBalls s) = cue s /\
  placingCueBall (clearAllBalls s) = placingCueBall s.
Proof. unfold clearAllBalls. apply forEachBall_control, clearBall_control. Qed.

(** Selecting a mode leaves the cue not aiming. *)
Lemma setupBallsMode_not_aiming (mode : nat) (s : State) :
  isAiming (cue (setupBallsMode mode s)) = false.
Proof.
  unfold setupBallsMode.
  set (s1 := set_cue _ (stopAiming _)).
  assert (H1 : isAiming (cue s1) = false) by reflexivity.
  destruct mode as [ | [ | [ | [ | mode]]]];
    unfold set_placingCueBall, set_cueBallPlaced, showMessage; cbn [cue];
    try exact H1.
  - destruct (setupStartingPosition_control s1) as [-> _]. exact H1.
  - destruct (setupRandomReds_control s1) as [-> _]. exact H1.
  - destruct (setupRandomAll_control s1) as [-> _]. exact H1.
Qed.

Lemma handlePocketedBall_noAiming (i : nat) (s : State) :
  noAimingWhilePlacing s -> noAimingWhilePlacing (handlePocketedBall i s).
Proof.
  unfold noAimingWhilePlacing, handlePocketedBall. intros Hs.
  destruct (nth_error (balls s) i) as [ball | ]; [ | exact Hs ].
  destruct (pocket_control i s) as [Hc Hp].
  destruct (type ball); cbn; try (intros _; reflexivity);
    try (rewrite Hc, Hp; exact Hs);
    destruct (twoConsecutiveColored _); cbn; rewrite Hc, Hp; exact Hs.
Qed.

Lemma checkPocketedBalls_noAiming (s : State) :
  noAimingWhilePlacing s -> noAimingWhilePlacing (checkPocketedBalls s).
Proof.
  unfold checkPocketedBalls. apply forEachBall_preserves.
  intros i st Hst. unfold checkPocketedBall.
  destruct (nth_error (balls st) i) as [ball | ]; [ | exact Hst ].
  destruct (_ && _); [ now apply handlePocketedBall_noAiming | exact Hst ].
Qed.

Lemma rollBall_control (now : R) (i : nat) (s : State) :
  cue (rollBall now i s) = cue s /\
  placingCueBall (rollBall now i s) = placingCueBall s.
Proof.
  unfold rollBall. destruct (nth_error (balls s) i) as [ball | ];
    [ destruct (isPocketed ball) | ]; split; reflexivity.
Qed.

Lemma updateAngle_isAiming (c : Cue) (cb : option Ball) (mouseX mouseY : R) :
  isAiming (updateAngle c cb mouseX mouseY) = isAiming c.
Proof.
  unfold updateAngle. destruct cb as [b | ]; [ destruct (isPocketed b) | ];
    reflexivity.
Qed.

Lemma setContactPoint_isAiming (c : Cue) (cb : option Ball)
      (mouseX mouseY : R) :
  isAiming (setContactPoint c cb mouseX mouseY) = isAiming c.
Proof.
  unfold setContactPoint. destruct cb as [b | ]; [ | reflexivity ].
  destruct (isPocketed b); [ reflexivity | ]. cbn [negb].
  unfold determineShotType.
  repeat match goal with
         | |- context [if ?c then _ else _] => destruct c
         end; reflexivity.
Qed.

(** [noAimingWhilePlacing] holds after [setup()] and is kept by every turn
    of the event loop. *)
Lemma setup_noAiming (w0 : World) (n0 : nat) (rng_ : nat -> R) :
  noAimingWhilePlacing (setup w0 n0 rng_).
Proof. intros _. reflexivity. Qed.

Lemma step_noAiming (s s' : State) :
  step s s' -> noAimingWhilePlacing s -> noAimingWhilePlacing s'.
Proof.
  intros Hstep Hs. destruct Hstep.
  - (* keyPressed *)
    destruct k; cbn [keyPressed];
      try (intros _; apply setupBallsMode_not_aiming); exact Hs.
  - (* mousePressed *)
    unfold mousePressed.
    destruct (placingCueBall s && isInDZone (table s) mouseX mouseY) eqn:Hpl.
    + destruct (isValidBallPosition _ _ _ _); [ | exact Hs ].
      destruct (cueBall s) as [cb | ]; [ | exact Hs ].
      intros H. discriminate H.
    + destruct (cueBallPlaced s && negb (placingCueBall s)
                && negb (isAnyBallMoving s)) eqn:Hready; [ | exact Hs ].
      intros H. cbn in H.
      apply andb_true_iff in Hready. destruct Hready as [Hready _].
      apply andb_true_iff in Hready. destruct Hready as [_ Hready].
      rewrite H in Hready. discriminate Hready.
  - (* mouseMoved *)
    unfold mouseMoved. destruct (cueBall s); [ | exact Hs ].
    destruct (isAiming (cue s) && cueBallPlaced s); [ | exact Hs ].
    destruct shiftDown; intros H; cbn in H |- *;
      rewrite ?setContactPoint_isAiming, updateAngle_isAiming; now apply Hs.
  - (* mouseDragged *)
    unfold mouseDragged. destruct (isAiming (cue s)) eqn:Ha; [ | exact Hs ].
    intros H. cbn in H. rewrite (Hs H) in Ha. discriminate Ha.
  - (* mouseReleased *)
    unfold mouseReleased. destruct (isAiming (cue s)) eqn:Ha; [ | exact Hs ].
    intros H.
    assert (Hpl : placingCueBall s = true).
    { revert H. unfold applyShot.
      repeat match goal with
             | |- context [match ?x with _ => _ end] => destruct x
             end; cbn; auto. }
    rewrite (Hs Hpl) in Ha. discriminate Ha.
  - (* draw *)
    unfold draw.
    set (s1 := forEachBall (rollBall now) s).
    assert (H1 : noAimingWhilePlacing s1).
    { unfold noAimingWhilePlacing.
      destruct (forEachBall_control (rollBall now) s (rollBall_control now))
        as [Hc Hp].
      fold s1 in Hc, Hp. rewrite Hc, Hp. exact Hs. }
    apply checkPocketedBalls_noAiming in H1.
    set (s2 := checkPocketedBalls s1) in *.
    destruct (cueBall s2); [ | exact H1 ].
    destruct (cueBallPlaced s2 && negb (placingCueBall s2)
              && negb (isAnyBallMoving s2)) eqn:Hready; [ | exact H1 ].
    apply andb_true_iff in Hready. destruct Hready as [Hready _].
    apply andb_true_iff in Hready. destruct Hready as [_ Hready].
    intros H. exfalso. revert H Hready.
    destruct (negb (isAiming (cue (set_cue s2 (set_isVisible (cue s2) true)))));
      cbn; intros ->; discriminate.
  - (* a timer *)
    intros Hpl. destruct t; cbn [fireTimer] in *.
    + destruct (respawn_control ball (vx spot) (vy spot)
                                (set_timers s (before ++ after))) as [Hc Hp].
      rewrite Hc. rewrite Hp in Hpl. now apply Hs.
    + now apply Hs.
  - (* the physics step *)
    exact Hs.
Qed.

Lemma reachable_noAiming (s : State) :
  reachable s -> noAimingWhilePlacing s.
Proof.
  induction 1 as [w0 n0 rng_ | s s' _ IH Hstep].
  - apply setup_noAiming.
  - now apply (step_noAiming s s').
Qed.

End Control.

Section CueBallPocketed.

Context {MW : MatterWorld} {ML : MatterWorldLaws MW}.

Lemma fold_left_preserves_in {A B : Type} (P : A -> Prop) (f : A -> B -> A)
      (l : list B) (a : A) :
  (forall a b, In b l -> P a -> P (f a b)) -> P a -> P (fold_left f l a).
Proof.
  revert a. induction l as [ | b l IH]; intros a Hf Ha; simpl; auto.
  apply IH.
  - intros a' b' Hin. apply Hf. now right.
  - apply Hf; [ now left | exact Ha ].
Qed.

(** Handling the cue ball in a pocket. *)
Lemma handlePocketedBall_cue (i : nat) (s : State) (ball : Ball) :
  nth_error (balls s) i = Some ball -> type ball = BallType.cue ->
  cueBallPocketed (handlePocketedBall i s) i (body ball).
Proof.
  intros Hnth Hcue. unfold handlePocketedBall. rewrite Hnth, Hcue.
  unfold pocket. rewrite Hnth. unfold cueBallPocketed. cbn.
  split; [ | repeat split ].
  - exists (set_isPocketed ball true).
    rewrite nth_error_list_update_same, Hnth. repeat split.
  - rewrite World_has_remove, Nat.eqb_refl. apply andb_false_r.
Qed.

(** Handling another ball changes neither the cue ball object nor the
    table. *)
Lemma handlePocketedBall_other (i j : nat) (s : State) :
  j <> i ->
  nth_error (balls (handlePocketedBall j s)) i = nth_error (balls s) i /\
  table (handlePocketedBall j s) = table s.
Proof.
  intros Hji. unfold handlePocketedBall.
  destruct (nth_error (balls s) j) as [bj | ] eqn:Hj; [ | now split ].
  unfold pocket. rewrite Hj.
  destruct (type bj); cbn;
    try destruct (twoConsecutiveColored _); cbn;
    (split; [ now apply nth_error_list_update_other | reflexivity ]).
Qed.

Lemma checkPocketedBall_other (i j : nat) (s : State) :
  j <> i ->
  nth_error (balls (checkPocketedBall j s)) i = nth_error (balls s) i /\
  table (checkPocketedBall j s) = table s.
Proof.
  intros Hji. unfold checkPocketedBall.
  destruct (nth_error (balls s) j) as [bj | ]; [ | now split ].
  destruct (_ && _); [ now apply handlePocketedBall_other | now split ].
Qed.

(** Once the cue ball is pocketed, handling the other balls of the same
    pass keeps it so. *)
Lemma checkPocketedBall_keeps (i j : nat) (bd : Body) (s : State) :
  cueBallPocketed s i bd -> cueBallPocketed (checkPocketedBall j s) i bd.
Proof.
  intros HQ. unfold checkPocketedBall.
  destruct (nth_error (balls s) j) as [bj | ] eqn:Hj; [ | exact HQ ].
  destruct (negb (isPocketed bj) && checkPocket bj (pockets (table s)))
    eqn:Hcond; [ | exact HQ ].
  apply andb_true_iff in Hcond. destruct Hcond as [Hnp _].
  apply negb_true_iff in Hnp.
  destruct HQ as [[b [Hi [Hpock Hbody]]] [Hworld [Hplaced [Hplacing [Hvis Haim]]]]].
  assert (Hji : j <> i).
  { intros ->. rewrite Hi in Hj. injection Hj as <-. congruence. }
  unfold handlePocketedBall. rewrite Hj. unfold pocket. rewrite Hj.
  unfold cueBallPocketed.
  destruct (type bj); cbn;
    try destruct (twoConsecutiveColored _); cbn;
    rewrite ?nth_error_list_update_other by exact Hji;
    rewrite World_has_remove, Hworld;
    (split; [ exists b; repeat split; assumption | ]);
    repeat split; auto.
Qed.

Lemma checkPocketedBalls_cue (s : State) (i : nat) (ball : Ball) :
  nth_error (balls s) i = Some ball -> type ball = BallType.cue ->
  isPocketed ball = false -> checkPocket ball (pockets (table s)) = true ->
  cueBallPocketed (checkPocketedBalls s) i (body ball).
Proof.
  intros Hnth Hcue Hnp Hcap.
  assert (Hlt : (i < length (balls s))%nat).
  { apply nth_error_Some. rewrite Hnth. discriminate. }
  unfold checkPocketedBalls, forEachBall.
  replace (length (balls s)) with (i + S (length (balls s) - S i))%nat by lia.
  rewrite seq_app, fold_left_app. cbn [seq fold_left Nat.add].
  set (s1 := fold_left _ (seq 0 i) s).
  assert (H1 : nth_error (balls s1) i = Some ball /\ table s1 = table s).
  { unfold s1.
    apply (fold_left_preserves_in
             (fun st => nth_error (balls st) i = Some ball
                        /\ table st = table s)).
    - intros st j Hin [Hb Ht]. apply in_seq in Hin.
      destruct (checkPocketedBall_other i j st) as [-> ->]; [ lia | ].
      now split.
    - now split. }
  destruct H1 as [Hb1 Ht1].
  apply fold_left_preserves.
  - intros st j. apply checkPocketedBall_keeps.
  - unfold checkPocketedBall. rewrite Hb1, Ht1, Hnp, Hcap. cbn [negb andb].
    now apply handlePocketedBall_cue.
Qed.

(** C5.  When the capture check of the cue ball is true, the pocket pass
    marks it pocketed and removes its body from the world, sets
    cueBallPlaced to false and placingCueBall to true, and hides the cue;
    and in every state of a session in which placingCueBall is true, a
    pointer-up changes nothing: the cue is not aiming, so no shot is
    made. *)
Theorem cue_ball_pocket_event :
  (forall (s : State) (i : nat) (ball : Ball),
      nth_error (balls s) i = Some ball -> type ball = BallType.cue ->
      isPocketed ball = false ->
      checkPocket ball (pockets (table s)) = true ->
      cueBallPocketed (checkPocketedBalls s) i (body ball)) /\
  (forall (s : State) (i : nat) (ball : Ball),
      nth_error (balls s) i = Some ball -> type ball = BallType.cue ->
      cueBallPocketed (handlePocketedBall i s) i (body ball)) /\
  (forall (s : State) (now : R),
      reachable s -> placingCueBall s = true ->
      isAiming (cue s) = false /\ mouseReleased now s = s).
Proof.
  split; [ exact checkPocketedBalls_cue | ].
  split; [ intros s i ball; apply handlePocketedBall_cue | ].
  intros s now Hreach Hplacing.
  assert (Haim : isAiming (cue s) = false)
    by now apply (reachable_noAiming s Hreach).
  split; [ exact Haim | ].
  unfold mouseReleased. now rewrite Haim.
Qed.

End CueBallPocketed.

Lemma cueBallInPocket_captured :
  exists ball,
    nth_error (balls cueBallInPocket) 21 = Some ball /\
    type ball = BallType.cue /\ isPocketed ball = false /\
    checkPocket ball (pockets (table cueBallInPocket)) = true.
Proof.
  unfold cueBallInPocket. rewrite cueBallPlacedInMode1_eq.
  unfold tableInMode1.
  eexists. split; [ run_session; reflexivity | ].
  split; [ reflexivity | ]. split; [ reflexivity | ].
  apply checkPocket_spec.
  exists (mkPocket (1100 / 2 - 400 / 2) (820 / 2) (400 / 68 * 3.96) middle).
  split; [ run_session; do 4 right; left; reflexivity | ].
  unfold capturedBy, movingAway, distance, Num.dist, pocketCentre.
  cbn [body position velocity vx vy pocket_x pocket_y pocket_radius
       pocket_type set_body baseThreshold].
  rewrite speedOf_zero.
  replace (_ + _) with 0 by lra. rewrite sqrt_0.
  unfold speedFactor.
  case_test (0 >? 10); [ lra | ]. case_test (0 >? 5); [ lra | ].
  split; [ lra | ]. intros [_ H]. lra.
Qed.

Lemma cue_ball_pocket_event_witness :
  (exists ball,
      nth_error (balls cueBallInPocket) 21 = Some ball /\
      cueBallPocketed (checkPocketedBalls cueBallInPocket) 21 (body ball)) /\
  isAiming (cue tableInMode1) = false /\
  mouseReleased 0 tableInMode1 = tableInMode1.
Proof.
  destruct (cue_ball_pocket_event (ML := ListWorld_laws)) as [Hpass [_ Hup]].
  split.
  - destruct cueBallInPocket_captured as [ball [Hnth [Hcue [Hnp Hcap]]]].
    exists ball. split; [ exact Hnth | ].
    exact (Hpass cueBallInPocket 21%nat ball Hnth Hcue Hnp Hcap).
  - apply Hup.
    + unfold tableInMode1.
      exact (reachable_step _ _ (reachable_setup ListWorld_empty 0 (fun _ => 0))
                            (step_keyPressed Key1 _)).
    + unfold tableInMode1. run_session. reflexivity.
Defined.

(** ** Every state of a session is well formed *)

Lemma Forall2_nth_error_right {A B : Type} (P : A -> B -> Prop)
      (l : list A) (l' : list B) :
  Forall2 P l l' ->
  forall j b', nth_error l' j = Some b' ->
               exists b, nth_error l j = Some b /\ P b b'.
Proof.
  induction 1 as [ | a a' l l' Ha _ IH]; intros [ | j] b' Hj;
    try discriminate Hj.
  - injection Hj as <-. exists a. now split.
  - now apply (IH j b').
Qed.

Section WellFormed.

Context {MW : MatterWorld} {ML : MatterWorldLaws MW}.

(** A change that keeps the world, the fresh identity and the ball lists,
    and the identity of every ball object. *)
Lemma wellFormed_sameIdentity (s s' : State) :
  (forall j b', nth_error (balls s') j = Some b' ->
                exists b, nth_error (balls s) j = Some b /\ sameIdentity b b') ->
  world s' = world s -> nextId s' = nextId s ->
  redBalls s' = redBalls s -> coloredBalls s' = coloredBalls s ->
  cueBall s' = cueBall s ->
  wellFormed s -> wellFormed s'.
Proof.
  intros Hballs Hw Hn Hr Hc Hcb [H1 [H2 [H3 [H4 H5]]]].
  unfold wellFormed. rewrite Hw, Hn, Hr, Hc, Hcb.
  split; [ | split; [ | auto ] ].
  - intros j b' Hj Hp. destruct (Hballs j b' Hj) as [b [Hb [_ [Hpb Hid]]]].
    rewrite Hid. apply (H1 j b Hb). congruence.
  - intros j b' Hj. destruct (Hballs j b' Hj) as [b [Hb [_ [_ Hid]]]].
    rewrite Hid. now apply (H2 j b).
Qed.

Lemma sameIdentity_refl (b : Ball) : sameIdentity b b.
Proof. repeat split. Qed.

(** A change of the other parts of the session. *)
Lemma wellFormed_same_balls (s s' : State) :
  balls s' = balls s -> world s' = world s -> nextId s' = nextId s ->
  redBalls s' = redBalls s -> coloredBalls s' = coloredBalls s ->
  cueBall s' = cueBall s ->
  wellFormed s -> wellFormed s'.
Proof.
  intros Hb. apply wellFormed_sameIdentity.
  intros j b' Hj. exists b'. rewrite <- Hb. split; [ exact Hj | ].
  apply sameIdentity_refl.
Qed.

Lemma updateBall_wellFormed (i : nat) (f : Ball -> Ball) (s : State) :
  (forall b, nth_error (balls s) i = Some b -> sameIdentity b (f b)) ->
  wellFormed s -> wellFormed (updateBall i f s).
Proof.
  intros Hf. apply wellFormed_sameIdentity; try reflexivity.
  intros j b' Hj. cbn in Hj.
  destruct (Nat.eq_dec i j) as [<- | Hij].
  - rewrite nth_error_list_update_same in Hj.
    destruct (nth_error (balls s) i) as [b | ] eqn:Hb; [ | discriminate ].
    injection Hj as <-. exists b. split; [ reflexivity | now apply Hf ].
  - rewrite nth_error_list_update_other in Hj by exact Hij.
    exists b'. split; [ exact Hj | apply sameIdentity_refl ].
Qed.

Lemma pocket_wellFormed (i : nat) (s : State) :
  wellFormed s -> wellFormed (pocket i s).
Proof.
  intros [H1 [H2 H3]]. unfold pocket.
  destruct (nth_error (balls s) i) as [ball | ] eqn:Hi;
    [ | now repeat split ].
  unfold wellFormed. cbn. split; [ | split; [ | exact H3 ] ].
  - intros j b Hj Hp. rewrite World_has_remove.
    destruct (Nat.eq_dec i j) as [<- | Hij].
    + rewrite nth_error_list_update_same, Hi in Hj. injection Hj as <-.
      cbn. rewrite Nat.eqb_refl. apply andb_false_r.
    + rewrite nth_error_list_update_other in Hj by exact Hij.
      now rewrite (H1 j b Hj Hp).
  - intros j b Hj.
    destruct (Nat.eq_dec i j) as [<- | Hij].
    + rewrite nth_error_list_update_same, Hi in Hj. injection Hj as <-.
      now apply (H2 i ball).
    + rewrite nth_error_list_update_other in Hj by exact Hij.
      now apply (H2 j b).
Qed.

Lemma clearBall_wellFormed (i : nat) (s : State) :
  wellFormed s -> wellFormed (clearBall i s).
Proof.
  intros [H1 [H2 H3]]. unfold clearBall.
  destruct (nth_error (balls s) i) as [ball | ] eqn:Hi;
    [ | now repeat split ].
  unfold wellFormed.
  destruct (isPocketed ball) eqn:Hp; cbn;
    (split; [ | split; [ | exact H3 ] ]).
  - intros j b Hj Hpj.
    destruct (Nat.eq_dec i j) as [<- | Hij].
    + rewrite nth_error_list_update_same, Hi in Hj. injection Hj as <-.
      discriminate Hpj.
    + rewrite nth_error_list_update_other in Hj by exact Hij.
      now apply (H1 j b).
  - intros j b Hj.
    destruct (Nat.eq_dec i j) as [<- | Hij].
    + rewrite nth_error_list_update_same, Hi in Hj. injection Hj as <-.
      now apply (H2 i ball).
    + rewrite nth_error_list_update_other in Hj by exact Hij.
      now apply (H2 j b).
  - intros j b Hj Hpj. rewrite World_has_remove.
    destruct (Nat.eq_dec i j) as [<- | Hij].
    + rewrite nth_error_list_update_same, Hi in Hj. injection Hj as <-.
      discriminate Hpj.
    + rewrite nth_error_list_update_other in Hj by exact Hij.
      now rewrite (H1 j b Hj Hpj).
  - intros j b Hj.
    destruct (Nat.eq_dec i j) as [<- | Hij].
    + rewrite nth_error_list_update_same, Hi in Hj. injection Hj as <-.
      now apply (H2 i ball).
    + rewrite nth_error_list_update_other in Hj by exact Hij.
      now apply (H2 j b).
Qed.

Lemma respawn_wellFormed (i : nat) (x y : R) (s : State) :
  wellFormed s -> wellFormed (respawn i x y s).
Proof.
  intros [H1 [H2 H3]]. unfold respawn.
  destruct (nth_error (balls s) i) as [ball | ] eqn:Hi;
    [ | now repeat split ].
  unfold wellFormed. cbn. split; [ | split; [ | exact H3 ] ].
  - intros j b Hj Hp. rewrite World_has_add, World_has_remove.
    destruct (Nat.eq_dec i j) as [<- | Hij].
    + rewrite nth_error_list_update_same, Hi in Hj. injection Hj as <-.
      discriminate Hp.
    + rewrite nth_error_list_update_other in Hj by exact Hij.
      rewrite (H1 j b Hj Hp). cbn.
      apply Nat.eqb_neq. specialize (H2 j b Hj). lia.
  - intros j b Hj.
    destruct (Nat.eq_dec i j) as [<- | Hij].
    + rewrite nth_error_list_update_same, Hi in Hj. injection Hj as <-.
      cbn. lia.
    + rewrite nth_error_list_update_other in Hj by exact Hij.
      specialize (H2 j b Hj). lia.
Qed.

Lemma sameButDraws_wellFormed (s s0 : State) :
  sameButDraws s s0 -> wellFormed s -> wellFormed s0.
Proof.
  unfold sameButDraws. intros ->. now apply wellFormed_same_balls.
Qed.

Lemma placeRandomly_wellFormed (i : nat) (s : State) :
  wellFormed s -> wellFormed (placeRandomly i s).
Proof.
  intros Hs. unfold placeRandomly.
  pose proof (placementLoop_spec 100 0 i s) as H.
  destruct (placementLoop 100 0 i s) as [[s' placed] attempts].
  destruct H as [_ [_ [Hplaced Hgaveup]]]. cbn [fst].
  destruct placed.
  - destruct (Hplaced eq_refl) as [x [y [s0 [Hs0 [_ ->]]]]].
    apply respawn_wellFormed. now apply (sameButDraws_wellFormed s).
  - destruct (Hgaveup eq_refl) as [_ Hs'].
    now apply (sameButDraws_wellFormed s).
Qed.

Lemma placeOnSpot_wellFormed (i : nat) (s : State) :
  wellFormed s -> wellFormed (placeOnSpot i s).
Proof.
  intros Hs. unfold placeOnSpot.
  destruct (nth_error (balls s) i); [ now apply respawn_wellFormed | exact Hs ].
Qed.

Lemma placeReds_wellFormed (positions : list Vec) (reds : list nat)
      (s : State) :
  wellFormed s -> wellFormed (placeReds positions reds s).
Proof.
  revert positions s. induction reds as [ | i reds IH]; intros positions s Hs.
  - destruct positions; exact Hs.
  - destruct positions as [ | p positions]; [ exact Hs | ].
    cbn [placeReds]. apply IH. now apply respawn_wellFormed.
Qed.

Lemma setupBallsMode_wellFormed (mode : nat) (s : State) :
  wellFormed s -> wellFormed (setupBallsMode mode s).
Proof.
  intros Hs. unfold setupBallsMode.
  set (s1 := set_cue _ (stopAiming _)).
  assert (H1 : wellFormed s1).
  { apply (wellFormed_same_balls (clearAllBalls s)); try reflexivity.
    unfold clearAllBalls. apply forEachBall_preserves; [ | exact Hs ].
    intros i st. apply clearBall_wellFormed. }
  match goal with
  | |- wellFormed (set_placingCueBall (set_cueBallPlaced ?m _) _) =>
      apply (wellFormed_same_balls m); try reflexivity
  end.
  destruct mode as [ | [ | [ | [ | mode]]]]; try exact H1.
  - match goal with
    | |- wellFormed (showMessage _ _ ?m) =>
        apply (wellFormed_same_balls m); try reflexivity
    end.
    unfold setupStartingPosition.
    apply forEachOf_preserves; [ intros i st; apply placeOnSpot_wellFormed | ].
    now apply placeReds_wellFormed.
  - match goal with
    | |- wellFormed (showMessage _ _ ?m) =>
        apply (wellFormed_same_balls m); try reflexivity
    end.
    unfold setupRandomReds.
    apply forEachOf_preserves; [ intros i st; apply placeRandomly_wellFormed | ].
    apply forEachOf_preserves; [ intros i st; apply placeOnSpot_wellFormed | ].
    exact H1.
  - match goal with
    | |- wellFormed (showMessage _ _ ?m) =>
        apply (wellFormed_same_balls m); try reflexivity
    end.
    unfold setupRandomAll.
    apply forEachOf_preserves; [ intros i st; apply placeRandomly_wellFormed | ].
    exact H1.
Qed.

Lemma handlePocketedBall_wellFormed (i : nat) (s : State) :
  wellFormed s -> wellFormed (handlePocketedBall i s).
Proof.
  intros Hs. unfold handlePocketedBall.
  destruct (nth_error (balls s) i) as [ball | ]; [ | exact Hs ].
  apply (pocket_wellFormed i) in Hs.
  destruct (type ball); cbv zeta;
    try destruct (twoConsecutiveColored _);
    apply (wellFormed_same_balls (pocket i s)); try reflexivity; exact Hs.
Qed.

Lemma checkPocketedBalls_wellFormed (s : State) :
  wellFormed s -> wellFormed (checkPocketedBalls s).
Proof.
  unfold checkPocketedBalls. apply forEachBall_preserves.
  intros i st Hst. unfold checkPocketedBall.
  destruct (nth_error (balls st) i) as [ball | ]; [ | exact Hst ].
  destruct (_ && _); [ now apply handlePocketedBall_wellFormed | exact Hst ].
Qed.

Lemma rolled_sameIdentity (now : R) (b : Ball) :
  sameIdentity b (updateSpinPhysics now (applyProfessionalDeceleration b)).
Proof.
  unfold updateSpinPhysics, applyProfessionalDeceleration, sameIdentity.
  repeat match goal with
         | |- context [match ?c with _ => _ end] => destruct c
         end; repeat split.
Qed.

Lemma rollBall_wellFormed (now : R) (i : nat) (s : State) :
  wellFormed s -> wellFormed (rollBall now i s).
Proof.
  intros Hs. unfold rollBall.
  destruct (nth_error (balls s) i) as [ball | ]; [ | exact Hs ].
  destruct (negb (isPocketed ball)); [ | exact Hs ].
  apply updateBall_wellFormed; [ | exact Hs ].
  intros b _. apply rolled_sameIdentity.
Qed.

Lemma shot_sameIdentity (now : R) (c : Cue) (cb cb' : Ball) :
  shot_ball (shoot now c (Some cb)) = Some cb' -> sameIdentity cb cb'.
Proof.
  unfold shoot. destruct (_ && _); cbn; intros H; injection H as <-;
    repeat split.
Qed.

Lemma createBall_fresh (t : BallType.t) (v : R) (s : State) :
  (forall j b, nth_error (balls s) j = Some b ->
               isPocketed b = false /\ (body_id (body b) < nextId s)%nat) ->
  forall j b, nth_error (balls (createBall t v s)) j = Some b ->
              isPocketed b = false
              /\ (body_id (body b) < nextId (createBall t v s))%nat.
Proof.
  intros Hs j b. unfold createBall. cbn. intros Hj.
  destruct (Nat.lt_ge_cases j (length (balls s))) as [Hlt | Hge].
  - rewrite nth_error_app1 in Hj by exact Hlt.
    destruct (Hs j b Hj) as [Hp Hid]. split; [ exact Hp | lia ].
  - rewrite nth_error_app2 in Hj by exact Hge.
    destruct (j - length (balls s))%nat as [ | k]; cbn in Hj.
    + injection Hj as <-. cbn. split; [ reflexivity | lia ].
    + destruct k; discriminate Hj.
Qed.

Lemma wellFormed_ball_lists (s : State) :
  (forall j b, nth_error (balls s) j = Some b ->
               isPocketed b = false /\ (body_id (body b) < nextId s)%nat) ->
  wellFormed
    (mkState (world s) (nextId s) (table s) (cue s) (balls s) (seq 0 15)
             (seq 15 6) (Some 21%nat) (gameMode s) (cueBallPlaced s)
             (placingCueBall s) (lastPottedBalls s) (message s)
             (messageDuration s) (timers s) (rng s) (rngPos s)).
Proof.
  intros Hs. unfold wellFormed.
  cbn [balls world nextId redBalls coloredBalls cueBall].
  split; [ | split; [ | repeat split ] ].
  - intros j b Hj Hp. destruct (Hs j b Hj) as [Hnp _]. congruence.
  - intros j b Hj. now destruct (Hs j b Hj).
Qed.

Lemma initializeBalls_wellFormed (s : State) :
  balls s = [] -> wellFormed (initializeBalls s).
Proof.
  intros Hempty. unfold initializeBalls. cbv zeta.
  apply wellFormed_ball_lists.
  do 7 apply createBall_fresh.
  apply (fold_left_preserves
           (fun st => forall j b, nth_error (balls st) j = Some b ->
                                  isPocketed b = false
                                  /\ (body_id (body b) < nextId st)%nat)).
  - intros st _ Hst. now apply createBall_fresh.
  - rewrite Hempty. intros [ | j] b Hj; discriminate Hj.
Qed.

Lemma setup_wellFormed (w0 : World) (n0 : nat) (rng_ : nat -> R) :
  wellFormed (setup w0 n0 rng_).
Proof.
  unfold setup. cbv zeta.
  match goal with
  | |- wellFormed (showMessage _ _ (initializeBalls ?s0)) =>
      pose proof (initializeBalls_wellFormed s0 eq_refl) as H;
      generalize dependent (initializeBalls s0)
  end.
  intros m Hm. apply (wellFormed_same_balls m); try reflexivity. exact Hm.
Qed.

Lemma step_wellFormed (s s' : State) :
  step s s' -> wellFormed s -> wellFormed s'.
Proof.
  intros Hstep Hs. destruct Hstep.
  - (* keyPressed *)
    destruct k; cbn [keyPressed]; try (now apply setupBallsMode_wellFormed);
      try exact Hs;
      apply (wellFormed_same_balls s); try reflexivity; exact Hs.
  - (* mousePressed *)
    unfold mousePressed.
    destruct (placingCueBall s && isInDZone (table s) mouseX mouseY).
    + destruct (isValidBallPosition _ _ _ _).
      * destruct (cueBall s) as [cb | ]; [ | exact Hs ].
        apply (wellFormed_same_balls (respawn cb mouseX mouseY s));
          try reflexivity.
        now apply respawn_wellFormed.
      * apply (wellFormed_same_balls s); try reflexivity; exact Hs.
    + destruct (cueBallPlaced s && negb (placingCueBall s)
                && negb (isAnyBallMoving s)); [ | exact Hs ].
      apply (wellFormed_same_balls s); try reflexivity; exact Hs.
  - (* mouseMoved *)
    unfold mouseMoved. destruct (cueBall s); [ | exact Hs ].
    destruct (isAiming (cue s) && cueBallPlaced s); [ | exact Hs ].
    destruct shiftDown;
      apply (wellFormed_same_balls s); try reflexivity; exact Hs.
  - (* mouseDragged *)
    unfold mouseDragged. destruct (isAiming (cue s)); [ | exact Hs ].
    apply (wellFormed_same_balls s); try reflexivity; exact Hs.
  - (* mouseReleased *)
    unfold mouseReleased. destruct (isAiming (cue s)); [ | exact Hs ].
    unfold applyShot.
    set (o := shoot now (cue s) (deref s (cueBall s))).
    set (s1 := set_cue s (shot_cue o)).
    assert (H1 : wellFormed s1)
      by (apply (wellFormed_same_balls s); try reflexivity; exact Hs).
    set (s2 := match cueBall s1, shot_ball o with
               | Some i, Some cb' => updateBall i (fun _ => cb') s1
               | _, _ => s1
               end).
    assert (H2 : wellFormed s2).
    { unfold s2. destruct (cueBall s1) as [i | ] eqn:Hi; [ | exact H1 ].
      destruct (shot_ball o) as [cb' | ] eqn:Hcb'; [ | exact H1 ].
      apply updateBall_wellFormed; [ | exact H1 ].
      intros b Hb. apply (shot_sameIdentity now (cue s)).
      unfold o in Hcb'. cbn in Hi. unfold deref in Hcb'. rewrite Hi in Hcb'.
      cbn in Hb. now rewrite Hb in Hcb'. }
    set (s3 := match shot_message o with
               | Some (msg, duration) => showMessage msg duration s2
               | None => s2
               end).
    assert (H3 : wellFormed s3).
    { unfold s3. destruct (shot_message o) as [[msg d] | ]; [ | exact H2 ].
      apply (wellFormed_same_balls s2); try reflexivity; exact H2. }
    destruct (cueBall s3); [ | exact H3 ].
    destruct (shot_curve o) as [[[[h fx] fy] d] | ]; [ | exact H3 ].
    apply (wellFormed_same_balls s3); try reflexivity; exact H3.
  - (* draw *)
    unfold draw.
    set (s1 := forEachBall (rollBall now) s).
    assert (H1 : wellFormed s1).
    { unfold s1. apply forEachBall_preserves; [ | exact Hs ].
      intros i st. apply rollBall_wellFormed. }
    apply checkPocketedBalls_wellFormed in H1.
    set (s2 := checkPocketedBalls s1) in *.
    destruct (cueBall s2); [ | exact H1 ].
    destruct (cueBallPlaced s2 && negb (placingCueBall s2)
              && negb (isAnyBallMoving s2)); [ | exact H1 ].
    destruct (negb (isAiming (cue (set_cue s2 (set_isVisible (cue s2) true)))));
      apply (wellFormed_same_balls s2); try reflexivity; exact H1.
  - (* a timer *)
    assert (H1 : wellFormed (set_timers s (before ++ after)))
      by (apply (wellFormed_same_balls s); try reflexivity; exact Hs).
    destruct t; cbn [fireTimer].
    + now apply respawn_wellFormed.
    + apply updateBall_wellFormed; [ | exact H1 ].
      intros b _. unfold applyEnglishCurve.
      destruct (negb (isPocketed b)); repeat split.
  - (* the physics step *)
    apply (wellFormed_sameIdentity s); try reflexivity; [ | exact Hs ].
    intros j b' Hj. cbn in Hj.
    destruct (Forall2_nth_error_right _ _ _ H j b' Hj) as [b [Hb Hsame]].
    exists b. split; assumption.
Qed.

Lemma reachable_wellFormed (s : State) : reachable s -> wellFormed s.
Proof.
  induction 1 as [w0 n0 rng_ | s s' _ IH Hstep].
  - apply setup_wellFormed.
  - now apply (step_wellFormed s s').
Qed.

End WellFormed.

(** ** Spacing on the table after a random setup *)

Lemma distance_sym (p q : Vec) : distance p q = distance q p.
Proof. unfold distance, Num.dist. f_equal. ring. Qed.

Section RandomSetup.

Context {MW : MatterWorld} {ML : MatterWorldLaws MW}.

Lemma isNot_Some (j i : nat) : j <> i -> isNot (Some j) i = true.
Proof. intros H. unfold isNot. now apply negb_true_iff, Nat.eqb_neq. Qed.

Lemma forEachOf_preserves_in (P : State -> Prop) (l : list nat)
      (f : nat -> State -> State) (s : State) :
  (forall i st, In i l -> P st -> P (f i st)) -> P s -> P (forEachOf l f s).
Proof.
  intros Hf Hs. unfold forEachOf.
  apply (fold_left_preserves_in P); [ | exact Hs ].
  intros a b Hin. now apply Hf.
Qed.

(** The ball objects after a respawn of [balls[i]]. *)
Lemma respawn_ball (i : nat) (x y : R) (s : State) (ball : Ball) :
  nth_error (balls s) i = Some ball ->
  exists b', nth_error (balls (respawn i x y s)) i = Some b' /\
             isPocketed b' = false /\ position (body b') = mkVec x y /\
             body_id (body b') = nextId s.
Proof.
  intros Hi. unfold respawn. rewrite Hi. cbn.
  rewrite nth_error_list_update_same, Hi. cbn.
  eexists. split; [ reflexivity | ]. repeat split.
Qed.

Lemma respawn_other (i j : nat) (x y : R) (s : State) :
  i <> j ->
  nth_error (balls (respawn i x y s)) j = nth_error (balls s) j.
Proof.
  intros Hij. unfold respawn.
  destruct (nth_error (balls s) i); [ | reflexivity ]. cbn.
  now apply nth_error_list_update_other.
Qed.

Lemma respawn_table (i : nat) (x y : R) (s : State) :
  table (respawn i x y s) = table s /\ cueBall (respawn i x y s) = cueBall s.
Proof.
  unfold respawn. destruct (nth_error (balls s) i); split; reflexivity.
Qed.

(** A respawn puts no other ball onto the table. *)
Lemma respawn_onTable_other (i j : nat) (x y : R) (s : State) (b : Ball) :
  wellFormed s -> i <> j -> nth_error (balls s) j = Some b ->
  onTable (respawn i x y s) b -> onTable s b.
Proof.
  intros [_ [Hfresh _]] Hij Hj. unfold onTable, respawn.
  destruct (nth_error (balls s) i) as [ball | ]; [ | exact (fun H => H) ].
  cbn. rewrite World_has_add, World_has_remove.
  specialize (Hfresh j b Hj).
  replace (Nat.eqb (body_id (body b)) (nextId s)) with false
    by (symmetry; apply Nat.eqb_neq; lia).
  rewrite orb_false_r. intros H. apply andb_true_iff in H. apply H.
Qed.

(** Placing [balls[i]], which is not the cue ball, at a well spaced point
    keeps the spacing of the balls picked by [S], of which it is one. *)
Lemma respawn_spaced (S : nat -> Prop) (i : nat) (x y : R) (s : State) :
  wellFormed s -> onlyPlayableOnTable s ->
  isNot (cueBall s) i = true -> S i ->
  wellSpaced s x y (Some i) -> spacedOnTable S s ->
  onlyPlayableOnTable (respawn i x y s) /\ spacedOnTable S (respawn i x y s).
Proof.
  intros Hwf Hplay Hcue HS [Hfar Hpock] [Hapart Hclear].
  destruct (nth_error (balls s) i) as [ball | ] eqn:Hi.
  2: { unfold respawn. rewrite Hi. split; [ exact Hplay | now split ]. }
  destruct (respawn_ball i x y s ball Hi) as [bi [Hbi [Hnp [Hpos _]]]].
  destruct (respawn_table i x y s) as [Htable Hcb].
  assert (Hold : forall j b, i <> j ->
                   nth_error (balls (respawn i x y s)) j = Some b ->
                   onTable (respawn i x y s) b ->
                   nth_error (balls s) j = Some b /\ onTable s b
                   /\ isPocketed b = false /\ isNot (cueBall s) j = true).
  { intros j b Hij Hj Hon. rewrite respawn_other in Hj by exact Hij.
    assert (Hon' : onTable s b)
      by now apply (respawn_onTable_other i j x y s b).
    destruct (Hplay j b Hj Hon') as [Hp Hc]. auto. }
  assert (Hnew : forall j b, i <> j ->
                   nth_error (balls (respawn i x y s)) j = Some b ->
                   onTable (respawn i x y s) b ->
                   ballRadius (table s) * 2.5
                   <= distance (mkVec x y) (position (body b))).
  { intros j b Hij Hj Hon.
    destruct (Hold j b Hij Hj Hon) as [Hj' [_ [Hp Hc]]].
    apply (Hfar j b Hj'); [ | exact Hc | exact Hp ].
    simpl. apply negb_true_iff, Nat.eqb_neq. congruence. }
  split; [ | split ].
  - intros j b Hj Hon. rewrite Hcb.
    destruct (Nat.eq_dec i j) as [<- | Hij].
    + rewrite Hbi in Hj. injection Hj as <-. now split.
    + destruct (Hold j b Hij Hj Hon) as [_ [_ [Hp Hc]]]. now split.
  - intros a b Hab HSab ba bb Ha Hb Hona Honb. rewrite Htable.
    destruct (Nat.eq_dec i a) as [<- | Hia].
    + rewrite Hbi in Ha. injection Ha as <-. rewrite Hpos.
      now apply (Hnew b bb).
    + destruct (Nat.eq_dec i b) as [<- | Hib].
      * rewrite Hbi in Hb. injection Hb as <-. rewrite Hpos, distance_sym.
        now apply (Hnew a ba).
      * destruct (Hold a ba Hia Ha Hona) as [Ha' [Hona' _]].
        destruct (Hold b bb Hib Hb Honb) as [Hb' [Honb' _]].
        now apply (Hapart a b Hab HSab ba bb).
  - intros a HSa ba p Ha Hona Hp. rewrite Htable in *.
    destruct (Nat.eq_dec i a) as [<- | Hia].
    + rewrite Hbi in Ha. injection Ha as <-. rewrite Hpos. now apply Hpock.
    + destruct (Hold a ba Hia Ha Hona) as [Ha' [Hona' _]].
      now apply (Hclear a HSa ba p).
Qed.

(** The predicates of this section do not look at the random draws. *)
Lemma sameButDraws_spaced (S : nat -> Prop) (s s0 : State) :
  sameButDraws s s0 ->
  (onlyPlayableOnTable s -> onlyPlayableOnTable s0) /\
  (spacedOnTable S s -> spacedOnTable S s0) /\
  (forall x y b, wellSpaced s x y b -> wellSpaced s0 x y b) /\
  cueBall s0 = cueBall s.
Proof.
  unfold sameButDraws. intros ->.
  split; [ exact (fun H => H) | ].
  split; [ exact (fun H => H) | ].
  split; [ intros x y b H; exact H | reflexivity ].
Qed.

Lemma placeRandomly_spaced (S : nat -> Prop) (i : nat) (s : State) :
  isNot (cueBall s) i = true -> S i ->
  wellFormed s /\ onlyPlayableOnTable s /\ spacedOnTable S s ->
  wellFormed (placeRandomly i s) /\ onlyPlayableOnTable (placeRandomly i s)
  /\ spacedOnTable S (placeRandomly i s).
Proof.
  intros Hcue HS [Hwf [Hplay Hsp]].
  split; [ now apply placeRandomly_wellFormed | ].
  unfold placeRandomly.
  pose proof (placementLoop_spec 100 0 i s) as H.
  destruct (placementLoop 100 0 i s) as [[s' placed] attempts].
  destruct H as [_ [_ [Hplaced Hgaveup]]]. cbn [fst].
  destruct placed.
  - destruct (Hplaced eq_refl) as [x [y [s0 [Hs0 [Hw ->]]]]].
    destruct (sameButDraws_spaced S s s0 Hs0) as [Hp0 [Hsp0 [Hw0 Hcb0]]].
    apply respawn_spaced; auto.
    + now apply (sameButDraws_wellFormed s).
    + now rewrite Hcb0.
  - destruct (Hgaveup eq_refl) as [_ Hs'].
    destruct (sameButDraws_spaced S s s' Hs') as [Hp0 [Hsp0 _]]. auto.
Qed.

(** Of the balls picked by [S], none is on the table. *)
Lemma none_onTable_spaced (S : nat -> Prop) (s : State) :
  (forall j b, nth_error (balls s) j = Some b -> S j -> ~ onTable s b) ->
  spacedOnTable S s.
Proof.
  intros Hnone. split.
  - intros i j _ [HS | HS] bi bj Hi Hj Honi Honj; exfalso.
    + exact (Hnone i bi Hi HS Honi).
    + exact (Hnone j bj Hj HS Honj).
  - intros i HS bi p Hi Hon. exfalso. exact (Hnone i bi Hi HS Hon).
Qed.

(** [clearAllBalls] takes every ball off the table. *)
Lemma clearAllBalls_empties (s : State) :
  wellFormed s ->
  forall j b, nth_error (balls (clearAllBalls s)) j = Some b ->
              ~ onTable (clearAllBalls s) b.
Proof.
  intros Hwf.
  assert (Hgen : forall l st,
             wellFormed st ->
             (forall j b, nth_error (balls st) j = Some b -> onTable st b ->
                          In j l) ->
             forall j b,
               nth_error (balls (fold_left (fun st i => clearBall i st) l st))
                         j = Some b ->
               ~ onTable (fold_left (fun st i => clearBall i st) l st) b).
  { induction l as [ | i l IH]; intros st Hst Hrem j b Hj Hon.
    - exact (Hrem j b Hj Hon).
    - cbn [fold_left] in Hj, Hon. revert j b Hj Hon.
      apply IH; [ now apply clearBall_wellFormed | ].
      intros j b Hj Hon.
      destruct Hst as [Hout _].
      unfold clearBall in Hj, Hon.
      destruct (nth_error (balls st) i) as [ball | ] eqn:Hi.
      2: { destruct (Hrem j b Hj Hon) as [<- | Hin]; [ | exact Hin ].
           rewrite Hi in Hj. discriminate Hj. }
      unfold onTable in Hon.
      destruct (isPocketed ball) eqn:Hp; cbn in Hj, Hon;
        (destruct (Nat.eq_dec i j) as [<- | Hij];
         [ exfalso; rewrite nth_error_list_update_same, Hi in Hj;
           injection Hj as <-; cbn in Hon
         | rewrite nth_error_list_update_other in Hj by exact Hij ]).
      + rewrite (Hout i ball Hi Hp) in Hon. discriminate Hon.
      + destruct (Hrem j b Hj Hon) as [-> | Hin]; [ contradiction | exact Hin ].
      + rewrite World_has_remove, Nat.eqb_refl, andb_false_r in Hon.
        discriminate Hon.
      + rewrite World_has_remove in Hon. apply andb_true_iff in Hon.
        destruct Hon as [Hon _].
        destruct (Hrem j b Hj Hon) as [-> | Hin]; [ contradiction | exact Hin ]. }
  unfold clearAllBalls, forEachBall. apply Hgen; [ exact Hwf | ].
  intros j b Hj _. apply in_seq. split; [ lia | ].
  cbn. apply nth_error_Some. rewrite Hj. discriminate.
Qed.

(** The predicates of this section look at the balls, the world, the
    table and the cue ball reference only. *)
Lemma spaced_same_table (S : nat -> Prop) (s s' : State) :
  balls s' = balls s -> world s' = world s -> table s' = table s ->
  cueBall s' = cueBall s ->
  (onlyPlayableOnTable s -> onlyPlayableOnTable s') /\
  (spacedOnTable S s -> spacedOnTable S s') /\
  ((forall j b, nth_error (balls s) j = Some b -> ~ onTable s b) ->
   forall j b, nth_error (balls s') j = Some b -> ~ onTable s' b).
Proof.
  intros Hb Hw Ht Hc.
  unfold onlyPlayableOnTable, spacedOnTable, apartOnTable, clearOfPockets,
    onTable.
  rewrite Hb, Hw, Ht, Hc. auto.
Qed.

(** Placing a ball that is not the cue ball keeps [onlyPlayableOnTable]. *)
Lemma respawn_playable (i : nat) (x y : R) (s : State) :
  wellFormed s -> onlyPlayableOnTable s -> isNot (cueBall s) i = true ->
  onlyPlayableOnTable (respawn i x y s).
Proof.
  intros Hwf Hplay Hcue j b Hj Hon.
  destruct (respawn_table i x y s) as [_ Hcb]. rewrite Hcb.
  destruct (nth_error (balls s) i) as [ball | ] eqn:Hi.
  2: { unfold respawn in Hj, Hon. rewrite Hi in Hj, Hon.
       now apply (Hplay j b). }
  destruct (respawn_ball i x y s ball Hi) as [bi [Hbi [Hnp _]]].
  destruct (Nat.eq_dec i j) as [<- | Hij].
  - rewrite Hbi in Hj. injection Hj as <-. now split.
  - rewrite respawn_other in Hj by exact Hij.
    apply (Hplay j b Hj). now apply (respawn_onTable_other i j x y s b).
Qed.

(** The spacing of the table after [setupRandomAll] on a cleared table. *)
Lemma setupRandomAll_spaced (s : State) :
  wellFormed s ->
  (forall j b, nth_error (balls s) j = Some b -> ~ onTable s b) ->
  onlyPlayableOnTable (setupRandomAll s)
  /\ spacedOnTable (fun _ => True) (setupRandomAll s).
Proof.
  intros Hwf Hempty. unfold setupRandomAll.
  assert (Hl : forall i, In i (redBalls s ++ coloredBalls s) -> (i < 21)%nat).
  { destruct Hwf as [_ [_ [-> [-> _]]]]. intros i Hin.
    apply in_app_or in Hin. destruct Hin as [Hin | Hin];
      apply in_seq in Hin; lia. }
  apply (forEachOf_preserves_in
           (fun st => wellFormed st /\ onlyPlayableOnTable st
                      /\ spacedOnTable (fun _ => True) st)).
  - intros i st Hin [Hst H]. apply placeRandomly_spaced; auto.
    destruct Hst as [_ [_ [_ [_ ->]]]].
    apply isNot_Some. specialize (Hl i Hin). lia.
  - split; [ exact Hwf | ]. split.
    + intros j b Hj Hon. exfalso. exact (Hempty j b Hj Hon).
    + apply none_onTable_spaced. intros j b Hj _. exact (Hempty j b Hj).
Qed.

(** The spacing of the reds after [setupRandomReds] on a cleared table. *)
Lemma setupRandomReds_spaced (s : State) :
  wellFormed s ->
  (forall j b, nth_error (balls s) j = Some b -> ~ onTable s b) ->
  onlyPlayableOnTable (setupRandomReds s)
  /\ spacedOnTable (fun i => (i < 15)%nat) (setupRandomReds s).
Proof.
  intros Hwf Hempty. unfold setupRandomReds.
  set (s1 := forEachOf (coloredBalls s) placeOnSpot s).
  assert (H1 : wellFormed s1 /\ onlyPlayableOnTable s1 /\
               forall j b, nth_error (balls s1) j = Some b -> (j < 15)%nat ->
                           ~ onTable s1 b).
  { unfold s1.
    apply (forEachOf_preserves_in
             (fun st => wellFormed st /\ onlyPlayableOnTable st /\
                        forall j b, nth_error (balls st) j = Some b ->
                                    (j < 15)%nat -> ~ onTable st b)).
    - intros i st Hin [Hst [Hplay Hnored]].
      assert (Hi : (15 <= i < 21)%nat).
      { destruct Hwf as [_ [_ [_ [Hc _]]]]. rewrite Hc in Hin.
        apply in_seq in Hin. lia. }
      assert (Hcue : isNot (cueBall st) i = true).
      { destruct Hst as [_ [_ [_ [_ ->]]]]. apply isNot_Some. lia. }
      unfold placeOnSpot.
      destruct (nth_error (balls st) i) as [ball | ]; [ | auto ].
      split; [ now apply respawn_wellFormed | ].
      split; [ now apply respawn_playable | ].
      intros j b Hj Hlt Hon.
      rewrite respawn_other in Hj by lia.
      apply (Hnored j b Hj Hlt).
      revert Hon. apply (respawn_onTable_other i j); auto. lia.
    - split; [ exact Hwf | ]. split.
      + intros j b Hj Hon. exfalso. exact (Hempty j b Hj Hon).
      + intros j b Hj _. exact (Hempty j b Hj). }
  destruct H1 as [Hwf1 [Hplay1 Hnored1]].
  apply (forEachOf_preserves_in
           (fun st => wellFormed st /\ onlyPlayableOnTable st
                      /\ spacedOnTable (fun i => (i < 15)%nat) st)).
  - intros i st Hin [Hst H].
    assert (Hi : (i < 15)%nat).
    { destruct Hwf1 as [_ [_ [Hr _]]]. rewrite Hr in Hin.
      apply in_seq in Hin. lia. }
    apply placeRandomly_spaced; auto.
    destruct Hst as [_ [_ [_ [_ ->]]]]. apply isNot_Some. lia.
  - split; [ exact Hwf1 | ]. split; [ exact Hplay1 | ].
    apply none_onTable_spaced. intros j b Hj Hlt. exact (Hnored1 j b Hj Hlt).
Qed.

(** X1.  In a session, after the random setup of mode 3 all balls on the
    table are 2.5 ball radii apart and clear of the pockets; after the
    random setup of mode 2 so is every red with respect to every other ball
    on the table.  The cue ball is off the table in both. *)
Theorem random_setup_spacing (s : State) :
  reachable s ->
  (onlyPlayableOnTable (keyPressed Key3 s)
   /\ spacedOnTable (fun _ => True) (keyPressed Key3 s)) /\
  (onlyPlayableOnTable (keyPressed Key2 s)
   /\ spacedOnTable (fun i => In i (redBalls s)) (keyPressed Key2 s)).
Proof.
  intros Hreach. pose proof (reachable_wellFormed s Hreach) as Hwf.
  assert (Hc : wellFormed (clearAllBalls s)).
  { unfold clearAllBalls. apply forEachBall_preserves; [ | exact Hwf ].
    intros i st. apply clearBall_wellFormed. }
  pose proof (clearAllBalls_empties s Hwf) as Hempty.
  assert (Hreds : forall i, In i (redBalls s) <-> (i < 15)%nat).
  { destruct Hwf as [_ [_ [-> _]]]. intros i. rewrite in_seq. lia. }
  cbn [keyPressed]. unfold setupBallsMode. cbv zeta.
  split.
  - set (s1 := set_cue _ (stopAiming _)).
    assert (H1 : wellFormed s1 /\
                 forall j b, nth_error (balls s1) j = Some b -> ~ onTable s1 b).
    { split.
      - apply (wellFormed_same_balls (clearAllBalls s)); try reflexivity.
        exact Hc.
      - exact Hempty. }
    destruct H1 as [Hwf1 Hempty1].
    destruct (setupRandomAll_spaced s1 Hwf1 Hempty1) as [Hplay Hsp].
    generalize dependent (setupRandomAll s1). intros m Hplay Hsp.
    split; [ exact Hplay | exact Hsp ].
  - set (s1 := set_cue _ (stopAiming _)).
    assert (H1 : wellFormed s1 /\
                 forall j b, nth_error (balls s1) j = Some b -> ~ onTable s1 b).
    { split.
      - apply (wellFormed_same_balls (clearAllBalls s)); try reflexivity.
        exact Hc.
      - exact Hempty. }
    destruct H1 as [Hwf1 Hempty1].
    destruct (setupRandomReds_spaced s1 Hwf1 Hempty1) as [Hplay Hsp].
    generalize dependent (setupRandomReds s1). intros m Hplay Hsp.
    split; [ exact Hplay | ].
    destruct Hsp as [Hapart Hclear]. split.
    + intros i j Hij HS. apply Hapart; [ exact Hij | ].
      destruct HS as [HS | HS]; [ left | right ]; now apply Hreds.
    + intros i HS. apply Hclear. now apply Hreds.
Qed.

End RandomSetup.

(** ** The cue stays calibrated in a session *)

Lemma constrain_between (n low high : R) :
  low <= high -> low <= Num.constrain n low high <= high.
Proof.
  intros H. unfold Num.constrain, Rmax, Rmin.
  destruct (Rle_dec n high); destruct (Rle_dec _ low); lra.
Qed.

Lemma adjustPower_calibrated (c : Cue) (delta : R) :
  cueCalibrated c -> cueCalibrated (adjustPower c delta).
Proof.
  intros [Hpull [Hpow _]]. unfold cueCalibrated, adjustPower. cbn.
  split; [ exact Hpull | split; [ exact Hpow | ] ].
  apply constrain_between. lra.
Qed.

(** An operation that keeps the three calibrated fields. *)
Lemma calibrated_same (c c' : Cue) :
  maxPullback c' = maxPullback c -> maxPower c' = maxPower c ->
  power c' = power c ->
  cueCalibrated c -> cueCalibrated c'.
Proof. unfold cueCalibrated. intros -> -> ->. exact (fun H => H). Qed.

Ltac cue_cases :=
  repeat match goal with
         | |- context [match ?x with _ => _ end] => destruct x
         end.

Lemma startAiming_calibrated (c : Cue) (cb : option Ball) (bs : list Ball) :
  cueCalibrated c -> cueCalibrated (startAiming c cb bs).
Proof.
  unfold startAiming. cue_cases; try exact (fun H => H);
    apply calibrated_same; reflexivity.
Qed.

Lemma updateAngle_calibrated (c : Cue) (cb : option Ball) (mx my : R) :
  cueCalibrated c -> cueCalibrated (updateAngle c cb mx my).
Proof.
  unfold updateAngle. destruct cb as [b | ]; [ | exact (fun H => H) ].
  destruct (negb (isPocketed b)); [ | exact (fun H => H) ].
  apply calibrated_same; reflexivity.
Qed.

Lemma updatePullback_calibrated (c : Cue) (cb : option Ball) (mx my : R) :
  cueCalibrated c -> cueCalibrated (updatePullback c cb mx my).
Proof.
  unfold updatePullback. destruct cb as [b | ]; [ | exact (fun H => H) ].
  destruct (isAiming c && negb (isPocketed b)); [ | exact (fun H => H) ].
  apply calibrated_same; reflexivity.
Qed.

Lemma setContactPoint_calibrated (c : Cue) (cb : option Ball) (mx my : R) :
  cueCalibrated c -> cueCalibrated (setContactPoint c cb mx my).
Proof.
  unfold setContactPoint. destruct cb as [b | ]; [ | exact (fun H => H) ].
  destruct (negb (isPocketed b)); [ | exact (fun H => H) ].
  unfold determineShotType. cue_cases; apply calibrated_same; reflexivity.
Qed.

Lemma Cue_show_calibrated (c : Cue) (cb : option Ball) :
  cueCalibrated c -> cueCalibrated (Cue_show c cb).
Proof.
  unfold Cue_show. destruct cb as [b | ]; [ | exact (fun H => H) ].
  destruct (negb (isPocketed b)); [ | exact (fun H => H) ].
  apply calibrated_same; reflexivity.
Qed.

Lemma shoot_calibrated (now : R) (c : Cue) (cb : option Ball) :
  cueCalibrated c -> cueCalibrated (shot_cue (shoot now c cb)).
Proof.
  unfold shoot. destruct cb as [b | ]; [ | exact (fun H => H) ].
  destruct (_ && _); [ | exact (fun H => H) ].
  apply calibrated_same; reflexivity.
Qed.

Section Calibrated.

Context {MW : MatterWorld}.

Lemma setupBallsMode_cue (mode : nat) (s : State) :
  cue (setupBallsMode mode s) = stopAiming (hide (cue s)).
Proof.
  unfold setupBallsMode.
  set (s1 := set_cue _ (stopAiming _)).
  assert (H1 : cue s1 = stopAiming (hide (cue s))).
  { unfold s1. cbn [cue set_cue set_gameMode].
    now destruct (clearAllBalls_control s) as [-> _]. }
  destruct mode as [ | [ | [ | [ | mode]]]];
    unfold set_placingCueBall, set_cueBallPlaced, showMessage; cbn [cue];
    try exact H1.
  - now destruct (setupStartingPosition_control s1) as [-> _].
  - now destruct (setupRandomReds_control s1) as [-> _].
  - now destruct (setupRandomAll_control s1) as [-> _].
Qed.

Lemma handlePocketedBall_calibrated (i : nat) (s : State) :
  cueCalibrated (cue s) -> cueCalibrated (cue (handlePocketedBall i s)).
Proof.
  unfold handlePocketedBall. intros Hs.
  destruct (nth_error (balls s) i) as [ball | ]; [ | exact Hs ].
  destruct (pocket_control i s) as [Hc _].
  destruct (type ball); cbn;
    try destruct (twoConsecutiveColored _); cbn; rewrite Hc;
    try exact Hs; revert Hs; apply calibrated_same; reflexivity.
Qed.

Lemma checkPocketedBalls_calibrated (s : State) :
  cueCalibrated (cue s) -> cueCalibrated (cue (checkPocketedBalls s)).
Proof.
  unfold checkPocketedBalls.
  apply (forEachBall_preserves (fun st => cueCalibrated (cue st))).
  intros i st Hst. unfold checkPocketedBall.
  destruct (nth_error (balls st) i) as [ball | ]; [ | exact Hst ].
  destruct (_ && _); [ now apply handlePocketedBall_calibrated | exact Hst ].
Qed.

Lemma step_calibrated (s s' : State) :
  step s s' -> cueCalibrated (cue s) -> cueCalibrated (cue s').
Proof.
  intros Hstep Hs. destruct Hstep.
  - (* keyPressed *)
    destruct k; cbn [keyPressed]; rewrite ?setupBallsMode_cue;
      try exact Hs;
      try (revert Hs; apply calibrated_same; reflexivity);
      cbn; now apply adjustPower_calibrated.
  - (* mousePressed *)
    unfold mousePressed.
    destruct (placingCueBall s && isInDZone (table s) mouseX mouseY).
    + destruct (isValidBallPosition _ _ _ _); [ | exact Hs ].
      destruct (cueBall s) as [cb | ]; [ | exact Hs ].
      cbn. apply updateAngle_calibrated.
      destruct (respawn_control cb mouseX mouseY s) as [-> _].
      revert Hs. apply calibrated_same; reflexivity.
    + destruct (cueBallPlaced s && negb (placingCueBall s)
                && negb (isAnyBallMoving s)); [ | exact Hs ].
      cbn. now apply startAiming_calibrated.
  - (* mouseMoved *)
    unfold mouseMoved. destruct (cueBall s); [ | exact Hs ].
    destruct (isAiming (cue s) && cueBallPlaced s); [ | exact Hs ].
    destruct shiftDown; cbn;
      [ apply setContactPoint_calibrated | ]; now apply updateAngle_calibrated.
  - (* mouseDragged *)
    unfold mouseDragged. destruct (isAiming (cue s)); [ | exact Hs ].
    cbn. apply updatePullback_calibrated. now apply updateAngle_calibrated.
  - (* mouseReleased *)
    unfold mouseReleased. destruct (isAiming (cue s)); [ | exact Hs ].
    pose proof (shoot_calibrated now (cue s) (deref s (cueBall s)) Hs) as Hc.
    unfold applyShot. cue_cases; cbn; exact Hc.
  - (* draw *)
    unfold draw.
    set (s1 := forEachBall (rollBall now) s).
    assert (H1 : cueCalibrated (cue s1)).
    { destruct (forEachBall_control (rollBall now) s (rollBall_control now))
        as [Hc _].
      fold s1 in Hc. now rewrite Hc. }
    apply checkPocketedBalls_calibrated in H1.
    set (s2 := checkPocketedBalls s1) in *.
    destruct (cueBall s2); [ | exact H1 ].
    destruct (cueBallPlaced s2 && negb (placingCueBall s2)
              && negb (isAnyBallMoving s2)); [ | exact H1 ].
    assert (H2 : cueCalibrated (set_isVisible (cue s2) true))
      by (revert H1; apply calibrated_same; reflexivity).
    destruct (negb (isAiming (cue (set_cue s2 (set_isVisible (cue s2) true)))));
      cbn; apply Cue_show_calibrated; [ apply updateAngle_calibrated | ];
      exact H2.
  - (* a timer *)
    destruct t; cbn [fireTimer].
    + now destruct (respawn_control ball (vx spot) (vy spot)
                                    (set_timers s (before ++ after)))
        as [-> _].
    + exact Hs.
  - (* the physics step *)
    exact Hs.
Qed.

Lemma createBall_cue (t : BallType.t) (v : R) (s : State) :
  cue (createBall t v s) = cue s.
Proof. reflexivity. Qed.

Lemma initializeBalls_cue (s : State) : cue (initializeBalls s) = cue s.
Proof.
  unfold initializeBalls. cbv zeta.
  set (reds := fold_left _ (seq 0 15) s).
  assert (Hreds : cue reds = cue s).
  { unfold reds.
    apply (fold_left_preserves (fun st => cue st = cue s)); [ | reflexivity ].
    intros st _ Hst. now rewrite createBall_cue. }
  clearbody reds. rewrite <- Hreds. reflexivity.
Qed.

Lemma setup_calibrated (w0 : World) (n0 : nat) (rng_ : nat -> R) :
  cueCalibrated (cue (setup w0 n0 rng_)).
Proof.
  unfold setup. cbv zeta.
  match goal with
  | |- cueCalibrated (cue (showMessage _ _ (initializeBalls ?s0))) =>
      pose proof (initializeBalls_cue s0) as H;
      generalize dependent (initializeBalls s0)
  end.
  intros m Hm. unfold showMessage. cbn [cue]. rewrite Hm.
  unfold cueCalibrated. cbn. repeat split; lra.
Qed.

Lemma reachable_calibrated (s : State) :
  reachable s -> cueCalibrated (cue s).
Proof.
  induction 1 as [w0 n0 rng_ | s s' _ IH Hstep].
  - apply setup_calibrated.
  - now apply (step_calibrated s s').
Qed.

(** C8.  The shot applies a force to the cue ball if and only if the cue is
    aiming, the cue ball exists and is not pocketed, and pullback > 10; the
    force then is (pullback / maxPullback) * power * maxPower along the aim
    angle; otherwise the shot changes nothing.  This holds of every cue
    whose constants maxPullback, power and maxPower are positive, and so of
    the cue and the cue ball of every state of a session. *)
Theorem shoot_force :
  (forall (now : R) (c : Cue) (cueBall_ : option Ball),
      0 < maxPullback c -> 0 < power c -> 0 < maxPower c ->
      shotSpec now c cueBall_) /\
  (forall (now : R) (s : State),
      reachable s -> shotSpec now (cue s) (deref s (cueBall s))).
Proof.
  split; [ exact shotSpec_of_positive | ].
  intros now s Hreach.
  destruct (reachable_calibrated s Hreach) as [Hpull [Hpow Hpower]].
  apply shotSpec_of_positive; lra.
Qed.

End Calibrated.

Lemma shoot_force_witness :
  shotSpec 0 (set_pullback (set_isAiming (newCue 150 6 12) true) 50)
           (Some (ballAt BallType.cue (mkVec 550 300) (mkVec 0 0) 0)) /\
  shotSpec 0 (cue tableInMode1) (deref tableInMode1 (cueBall tableInMode1)).
Proof.
  destruct (shoot_force (MW := ListWorld)) as [Hcue Hsession].
  split.
  - apply Hcue; simpl; lra.
  - apply Hsession. unfold tableInMode1.
    exact (reachable_step _ _ (reachable_setup ListWorld_empty 0 (fun _ => 0))
                          (step_keyPressed Key1 _)).
Defined.

(** ** Rolling to rest *)

Lemma speedOf_scale (k : R) (v : Vec) :
  0 <= k -> speedOf (mkVec (vx v * k) (vy v * k)) = k * speedOf v.
Proof.
  intros Hk. unfold speedOf. cbn [vx vy].
  replace (vx v * k * (vx v * k) + vy v * k * (vy v * k))
    with (k * k * (vx v * vx v + vy v * vy v)) by ring.
  rewrite sqrt_mult_alt by nra.
  now rewrite sqrt_sq_nonneg.
Qed.

Lemma speedOf_zero_inv (v : Vec) : speedOf v = 0 -> v = mkVec 0 0.
Proof.
  unfold speedOf. intros H. destruct v as [x y]. cbn [vx vy] in H.
  apply sqrt_eq_0 in H; [ | nra ].
  assert (x = 0) by nra. assert (y = 0) by nra. now subst.
Qed.

Lemma deceleration_isPocketed (b : Ball) :
  isPocketed (applyProfessionalDeceleration b) = isPocketed b.
Proof.
  unfold applyProfessionalDeceleration.
  destruct (isPocketed b) eqn:Hp; cbn [negb]; [ exact Hp | ]. cbv zeta.
  repeat match goal with
         | |- context [if ?c then _ else _] => destruct c
         end; exact Hp.
Qed.

Lemma deceleration_velocity_cases (b : Ball) :
  let v := velocity (body b) in
  let v' := velocity (body (applyProfessionalDeceleration b)) in
  (isPocketed b = false /\ speedOf v > 0.05 /\
   v' = mkVec (vx v * decelerationFactor b (speedOf v))
              (vy v * decelerationFactor b (speedOf v))) \/
  (isPocketed b = false /\ 0 < speedOf v <= 0.05 /\ v' = mkVec 0 0) \/
  ((isPocketed b = true \/ speedOf v = 0) /\
   applyProfessionalDeceleration b = b).
Proof.
  cbv zeta. destruct (isPocketed b) eqn:Hp.
  - right. right. split; [ now left | ].
    unfold applyProfessionalDeceleration. now rewrite Hp.
  - destruct (Rlt_dec 0.05 (speedOf (velocity (body b)))) as [Hfast | Hslow].
    + left. split; [ reflexivity | ]. split; [ lra | ].
      now apply deceleration_scales.
    + destruct (Rlt_dec 0 (speedOf (velocity (body b)))) as [Hpos | Hzero].
      * right. left. split; [ reflexivity | ]. split; [ lra | ].
        unfold applyProfessionalDeceleration. rewrite Hp. cbn [negb]. cbv zeta.
        case_test (speedOf (velocity (body b)) >? 0.05); [ lra | ].
        case_test (speedOf (velocity (body b)) >? 0); [ | lra ].
        case_test (speedOf (velocity (body b)) <=? 0.05); [ | lra ].
        reflexivity.
      * right. right. pose proof (speedOf_nonneg (velocity (body b))).
        split; [ right; lra | ].
        unfold applyProfessionalDeceleration. rewrite Hp. cbn [negb]. cbv zeta.
        case_test (speedOf (velocity (body b)) >? 0.05); [ lra | ].
        case_test (speedOf (velocity (body b)) >? 0); [ lra | ].
        reflexivity.
Qed.

Lemma deceleration_keeps_place (b : Ball) :
  position (body (applyProfessionalDeceleration b)) = position (body b) /\
  body_id (body (applyProfessionalDeceleration b)) = body_id (body b) /\
  force (body (applyProfessionalDeceleration b)) = force (body b) /\
  type (applyProfessionalDeceleration b) = type b.
Proof.
  unfold applyProfessionalDeceleration.
  destruct (negb (isPocketed b)); [ | now repeat split ]. cbv zeta.
  repeat match goal with
         | |- context [if ?c then _ else _] => destruct c
         end; now repeat split.
Qed.

(** X2.  One step of the rolling deceleration never speeds a ball up and
    never moves it: the speed after the step is at most 0.9985 times the
    speed before it for a ball on the table, the position, the body and the
    pending force are untouched, and the velocity keeps its direction (it
    is the old velocity times a factor between 0 and 0.9985). *)
Theorem deceleration_never_speeds_up (b : Ball) :
  let b' := applyProfessionalDeceleration b in
  speedOf (velocity (body b')) <= speedOf (velocity (body b)) /\
  (isPocketed b = false ->
   speedOf (velocity (body b')) <= 0.9985 * speedOf (velocity (body b))) /\
  (exists k, 0 <= k <= 1 /\
             velocity (body b') = mkVec (vx (velocity (body b)) * k)
                                        (vy (velocity (body b)) * k)) /\
  position (body b') = position (body b) /\
  body_id (body b') = body_id (body b) /\
  force (body b') = force (body b) /\
  isPocketed b' = isPocketed b.
Proof.
  cbv zeta.
  pose proof (speedOf_nonneg (velocity (body b))) as Hnn.
  pose proof (decelerationFactor_bounds b (speedOf (velocity (body b))))
    as Hk.
  destruct (deceleration_keeps_place b) as [Hpos [Hid [Hf _]]].
  assert (H : speedOf (velocity (body (applyProfessionalDeceleration b)))
              <= speedOf (velocity (body b)) /\
              (isPocketed b = false ->
               speedOf (velocity (body (applyProfessionalDeceleration b)))
               <= 0.9985 * speedOf (velocity (body b))) /\
              exists k, 0 <= k <= 1 /\
                velocity (body (applyProfessionalDeceleration b))
                = mkVec (vx (velocity (body b)) * k)
                        (vy (velocity (body b)) * k)).
  { destruct (deceleration_velocity_cases b)
      as [[Hp [Hs Hv]] | [[Hp [Hs Hv]] | [Hs Hv]]].
    - rewrite Hv, speedOf_scale by lra.
      split; [ nra | ]. split; [ intros _; nra | ].
      exists (decelerationFactor b (speedOf (velocity (body b)))).
      split; [ lra | reflexivity ].
    - rewrite Hv, speedOf_zero.
      split; [ lra | ]. split; [ intros _; lra | ].
      exists 0. split; [ lra | ]. f_equal; ring.
    - rewrite Hv. split; [ lra | ]. split.
      + intros Hp. destruct Hs as [Hs | Hs]; [ congruence | lra ].
      + exists 1. split; [ lra | ].
        destruct (velocity (body b)) as [x y]. cbn [vx vy]. f_equal; ring. }
  destruct H as [H1 [H2 H3]].
  repeat split; auto using deceleration_isPocketed.
Qed.

Lemma decelerate_isPocketed (n : nat) (b : Ball) :
  isPocketed (decelerate n b) = isPocketed b.
Proof.
  induction n as [ | n IH]; [ reflexivity | ].
  change (decelerate (S n) b)
    with (applyProfessionalDeceleration (decelerate n b)).
  now rewrite deceleration_isPocketed.
Qed.

Lemma deceleration_speed_le (b : Ball) :
  isPocketed b = false ->
  speedOf (velocity (body (applyProfessionalDeceleration b)))
  <= 0.9985 * speedOf (velocity (body b)).
Proof.
  intros Hp.
  pose proof (speedOf_nonneg (velocity (body b))) as Hnn.
  pose proof (decelerationFactor_bounds b (speedOf (velocity (body b))))
    as Hk.
  destruct (deceleration_velocity_cases b)
    as [[_ [Hs Hv]] | [[_ [Hs Hv]] | [Hs Hv]]].
  - rewrite Hv, speedOf_scale by lra. nra.
  - rewrite Hv, speedOf_zero. lra.
  - rewrite Hv. destruct Hs as [Hs | Hs]; [ congruence | lra ].
Qed.

Lemma deceleration_stops_slow (b : Ball) :
  isPocketed b = false -> speedOf (velocity (body b)) <= 0.05 ->
  velocity (body (applyProfessionalDeceleration b)) = mkVec 0 0.
Proof.
  intros Hp Hslow.
  destruct (deceleration_velocity_cases b)
    as [[_ [Hs Hv]] | [[_ [Hs Hv]] | [Hs Hv]]].
  - lra.
  - exact Hv.
  - rewrite Hv. destruct Hs as [Hs | Hs]; [ congruence | ].
    now apply speedOf_zero_inv.
Qed.

Lemma decelerate_speed (n : nat) (b : Ball) :
  isPocketed b = false ->
  speedOf (velocity (body (decelerate n b)))
  <= 0.9985 ^ n * speedOf (velocity (body b)).
Proof.
  intros Hp. induction n as [ | n IH].
  - cbn. lra.
  - change (decelerate (S n) b)
      with (applyProfessionalDeceleration (decelerate n b)).
    pose proof (deceleration_speed_le (decelerate n b)
                  (eq_trans (decelerate_isPocketed n b) Hp)) as H.
    cbn [pow]. nra.
Qed.

(** X3.  Left to the rolling deceleration alone, a ball on the table comes
    to a standstill after finitely many frames and stays there. *)
Theorem rolling_ball_comes_to_rest (b : Ball) :
  isPocketed b = false ->
  exists n, forall m, (n <= m)%nat ->
    velocity (body (decelerate m b)) = mkVec 0 0.
Proof.
  intros Hp.
  pose proof (speedOf_nonneg (velocity (body b))) as Hnn.
  set (s0 := speedOf (velocity (body b))) in *.
  destruct (pow_lt_1_zero 0.9985) with (y := 0.05 / (s0 + 1)) as [N HN].
  - rewrite Rabs_right; lra.
  - apply Rdiv_lt_0_compat; lra.
  - exists (S N). intros m Hm.
    assert (Hslow : speedOf (velocity (body (decelerate N b))) <= 0.05).
    { pose proof (decelerate_speed N b Hp) as H. fold s0 in H.
      specialize (HN N (le_n N)).
      rewrite Rabs_right in HN by (apply Rle_ge, pow_le; lra).
      assert (Hpow : 0 <= 0.9985 ^ N) by (apply pow_le; lra).
      assert (Hq : 0.05 / (s0 + 1) * s0 <= 0.05).
      { unfold Rdiv. rewrite Rmult_assoc.
        assert (/ (s0 + 1) * s0 <= 1).
        { apply (Rmult_le_reg_l (s0 + 1)); [ lra | ].
          rewrite <- Rmult_assoc, Rinv_r by lra. lra. }
        nra. }
      nra. }
    induction Hm as [ | m Hm IH].
    + change (decelerate (S N) b)
        with (applyProfessionalDeceleration (decelerate N b)).
      apply deceleration_stops_slow; [ | exact Hslow ].
      now rewrite decelerate_isPocketed.
    + change (decelerate (S m) b)
        with (applyProfessionalDeceleration (decelerate m b)).
      apply deceleration_stops_slow.
      * now rewrite decelerate_isPocketed.
      * rewrite IH, speedOf_zero. lra.
Qed.

Lemma rolling_ball_comes_to_rest_witness :
  exists n, forall m, (n <= m)%nat ->
    velocity (body (decelerate m
       (ballAt BallType.red (mkVec 300 300) (mkVec 3 4) 0)))
    = mkVec 0 0.
Proof.
  apply rolling_ball_comes_to_rest. reflexivity.
Defined.

(** ** The roll resistance of a ball *)

(** X4.  For a ball as the constructor or a respawn leaves it (roll resistance
    0.0012) the deceleration factor takes just three values: 0.998 below
    speed 2, 0.9984 from 2 to below 5, and from 5 on the upper bound 0.9985
    of the clamp, not the nominal 1 - 0.0012. *)
Theorem constructor_deceleration_factor
        (id : nat) (x y r v : R) (t : BallType.t) (bd : Body) (speed : R) :
  let factor := if speed <? 2 then 0.998
                else if speed <? 5 then 0.9984 else 0.9985 in
  decelerationFactor (newBall id x y r t v) speed = factor /\
  decelerationFactor (respawned (newBall id x y r t v) bd) speed = factor.
Proof.
  cbv zeta. unfold decelerationFactor. cbv zeta.
  cbn [rollResistanceCoefficient newBall respawned].
  unfold Rmax, Rmin.
  destruct (speed <? 2); [ | destruct (speed <? 5) ];
    match goal with
    | |- context [Rle_dec 0.9985 ?f] =>
        destruct (Rle_dec 0.9985 f); destruct (Rle_dec 0.988 _)
    end; split; lra.
Qed.

(** ** Spin data *)

Lemma updateSpinPhysics_late (now : R) (b : Ball) (sp : SpinData) :
  currentSpin b = Some sp -> now - spin_timeApplied sp > 500 ->
  exists sp', currentSpin (updateSpinPhysics now b) = Some sp' /\
              spin_timeApplied sp' = spin_timeApplied sp /\
              (spin_active sp' = true ->
               spin_active sp = true /\
               spin_intensity sp' = spin_intensity sp * 0.995 /\
               0.01 <= spin_intensity sp').
Proof.
  intros Hsp Hlate. unfold updateSpinPhysics. rewrite Hsp.
  destruct (spin_active sp) eqn:Hact.
  - case_test (now - spin_timeApplied sp >? 500); [ | lra ].
    cbv zeta.
    case_test (spin_intensity sp * 0.995 <? 0.01).
    + eexists. split; [ reflexivity | ]. split; [ reflexivity | ].
      cbn. discriminate.
    + eexists. split; [ reflexivity | ]. split; [ reflexivity | ].
      cbn. intros _. repeat split. lra.
  - exists sp. split; [ exact Hsp | ]. split; [ reflexivity | ].
    rewrite Hact. discriminate.
Qed.

Lemma updateSpinPhysics_frames_late (times : list R) (b : Ball)
      (sp : SpinData) :
  currentSpin b = Some sp ->
  Forall (fun now => now - spin_timeApplied sp > 500) times ->
  exists sp', currentSpin (updateSpinPhysics_frames times b) = Some sp' /\
              spin_timeApplied sp' = spin_timeApplied sp /\
              (spin_active sp' = true ->
               spin_intensity sp'
               = spin_intensity sp * 0.995 ^ length times /\
               (times <> [] -> 0.01 <= spin_intensity sp')).
Proof.
  intros Hsp. induction times as [ | now times IH] using rev_ind;
    intros Hlate.
  - exists sp. split; [ exact Hsp | ]. split; [ reflexivity | ].
    intros _. cbn. split; [ lra | ]. congruence.
  - apply Forall_app in Hlate. destruct Hlate as [Hlate Hnow].
    apply Forall_inv in Hnow.
    destruct (IH Hlate) as [sp1 [Hsp1 [Ht1 Hact1]]].
    unfold updateSpinPhysics_frames in *. rewrite fold_left_app. cbn.
    destruct (updateSpinPhysics_late now _ sp1 Hsp1) as [sp2 [Hsp2 [Ht2 Hact2]]].
    + rewrite Ht1. exact Hnow.
    + exists sp2. split; [ exact Hsp2 | ]. split; [ congruence | ].
      intros Hact. destruct (Hact2 Hact) as [Hact1' [Hi Hlow]].
      destruct (Hact1 Hact1') as [Hi1 _].
      split; [ | intros _; exact Hlow ].
      rewrite Hi, Hi1, length_app. cbn [length].
      rewrite Nat.add_1_r. cbn [pow]. ring.
Qed.

(** X5.  The spin data of a ball fades out: once more than 500 ms have
    passed since it was applied, finitely many frames of [updateSpinPhysics]
    switch it off, and it stays off. *)
Theorem spin_switches_off (b : Ball) (sp : SpinData) :
  currentSpin b = Some sp ->
  exists n, forall times, (n <= length times)%nat ->
    Forall (fun now => now - spin_timeApplied sp > 500) times ->
    spinInactive (updateSpinPhysics_frames times b).
Proof.
  intros Hsp.
  destruct (pow_lt_1_zero 0.995) with (y := 0.01 / (Rabs (spin_intensity sp) + 1))
    as [N HN].
  - rewrite Rabs_right; lra.
  - pose proof (Rabs_pos (spin_intensity sp)).
    apply Rdiv_lt_0_compat; lra.
  - exists (S N). intros times Hlen Hlate.
    destruct (updateSpinPhysics_frames_late times b sp Hsp Hlate)
      as [sp' [Hsp' [_ Hact]]].
    exists sp'. split; [ exact Hsp' | ].
    destruct (spin_active sp') eqn:Ha; [ exfalso | reflexivity ].
    destruct (Hact eq_refl) as [Hi Hlow].
    assert (Hne : times <> []) by (destruct times; [ cbn in Hlen; lia | discriminate ]).
    specialize (Hlow Hne). rewrite Hi in Hlow.
    specialize (HN (length times) ltac:(lia)).
    rewrite Rabs_right in HN by (apply Rle_ge, pow_le; lra).
    pose proof (Rabs_pos (spin_intensity sp)) as Hpos.
    pose proof (Rle_abs (spin_intensity sp)) as Hle.
    assert (Hpow : 0 <= 0.995 ^ length times) by (apply pow_le; lra).
    assert (Hq : 0.01 / (Rabs (spin_intensity sp) + 1)
                 * Rabs (spin_intensity sp) < 0.01).
    { unfold Rdiv. rewrite Rmult_assoc.
      assert (/ (Rabs (spin_intensity sp) + 1) * Rabs (spin_intensity sp) < 1).
      { apply (Rmult_lt_reg_l (Rabs (spin_intensity sp) + 1)); [ lra | ].
        rewrite <- Rmult_assoc, Rinv_r by lra. lra. }
      nra. }
    nra.
Qed.

Lemma spin_switches_off_witness :
  exists n, forall times, (n <= length times)%nat ->
    Forall (fun now => now - 1000 > 500) times ->
    spinInactive
      (updateSpinPhysics_frames times
         (applySpinData 1000 (ballAt BallType.cue (mkVec 550 300) (mkVec 3 0) 0)
                        0.4 0.2 3 ShotType.normal)).
Proof.
  apply (spin_switches_off
           (applySpinData 1000
              (ballAt BallType.cue (mkVec 550 300) (mkVec 3 0) 0)
              0.4 0.2 3 ShotType.normal)
           (mkSpin 0.4 0.2 3 ShotType.normal true 1000)).
  reflexivity.
Defined.

(** ** English on a cushion *)

(** X6.  The english changes the angle of a cushion bounce by at most 30
    degrees and by at most 0.15 times the english amount, only for a cue
    ball whose english effect is active; each bounce leaves three quarters
    of the english amount, and nothing else of the ball changes. *)
Theorem english_bounce_bounded (b : Ball) (incomingAngle cushionNormal : R) :
  let r := applyEnglishToCushionBounce b incomingAngle cushionNormal in
  Rabs (fst r - incomingAngle) <= PI / 6 /\
  Rabs (fst r - incomingAngle) <= 0.15 * Rabs (englishAmount b) /\
  (fst r <> incomingAngle ->
   type b = BallType.cue /\ englishEffectActive b = true) /\
  (englishAmount (snd r) = englishAmount b * 0.75 \/ snd r = b) /\
  body (snd r) = body b /\ isPocketed (snd r) = isPocketed b /\
  englishEffectActive (snd r) = englishEffectActive b.
Proof.
  cbv zeta. unfold applyEnglishToCushionBounce.
  pose proof PI_RGT_0 as Hpi.
  pose proof (Rabs_pos (englishAmount b)) as Habs.
  destruct (BallType.eqb (type b) BallType.cue) eqn:Ht;
    [ destruct (englishEffectActive b) eqn:He;
      [ destruct (truthy (englishAmount b)) | ] | ];
    cbn [andb fst snd];
    try (replace (incomingAngle - incomingAngle) with 0 by ring;
         rewrite Rabs_R0;
         repeat split; try lra; try (now right); try reflexivity;
         try exact He; intros H; now contradict H).
  cbv zeta.
  assert (Hcue : type b = BallType.cue) by (destruct (type b); easy).
  unfold Rmax, Rmin.
  destruct (Rle_dec (incomingAngle + PI / 6)
                    (incomingAngle + englishAmount b * 0.15));
    match goal with
    | |- context [Rle_dec ?a ?c] => destruct (Rle_dec a c)
    end;
    (split; [ apply Rabs_le; lra | ]);
    (split; [ apply Rabs_le; unfold Rabs in *;
              destruct (Rcase_abs (englishAmount b)); lra | ]);
    (split; [ intros _; now split | ]);
    (split; [ now left | ]); repeat split; exact He.
Qed.

(** ** Spin after a collision *)

Lemma speedOf_polar_abs (a m : R) :
  speedOf (mkVec (cos a * m) (sin a * m)) = Rabs m.
Proof.
  unfold speedOf. cbn [vx vy].
  replace (cos a * m * (cos a * m) + sin a * m * (sin a * m))
    with ((Rsqr (sin a) + Rsqr (cos a)) * Rsqr m) by (unfold Rsqr; ring).
  rewrite sin2_cos2, Rmult_1_l. apply sqrt_Rsqr_abs.
Qed.

Lemma applyPostCollisionSpin_timers (b : Ball) (collisionVector : Vec)
      (t : SpinTimer) (delay : R) :
  In (t, delay) (snd (applyPostCollisionSpin b collisionVector)) ->
  type b = BallType.cue /\
  exists sp, currentSpin b = Some sp /\ spin_active sp = true /\
    ((t = TimerFollowDraw (spin_followDraw sp) collisionVector /\ delay = 50
      /\ Rabs (spin_followDraw sp) > 0.1) \/
     (t = TimerEnglishOff /\ delay = 3000 /\ Rabs (spin_english sp) > 0.1)).
Proof.
  unfold applyPostCollisionSpin.
  destruct (currentSpin b) as [sp | ]; [ | intros [] ].
  destruct (BallType.eqb (type b) BallType.cue) eqn:Ht; [ | intros [] ].
  destruct (spin_active sp) eqn:Ha; [ | intros [] ].
  cbn [andb]. cbv zeta. intros Hin.
  split; [ destruct (type b); easy | ].
  exists sp. split; [ reflexivity | ]. split; [ exact Ha | ].
  revert Hin.
  case_test (Rabs (spin_english sp) >? 0.1);
    case_test (Rabs (spin_followDraw sp) >? 0.1); intros Hin; cbn in Hin;
    repeat match type of Hin with
           | _ \/ _ => destruct Hin as [Hin | Hin]
           | False => contradiction
           | (_, _) = (_, _) => injection Hin as <- <-
           end;
    try (left; repeat split; lra); right; repeat split; lra.
Qed.

(** X7.  What the callbacks of [applyPostCollisionSpin] do.  They are
    scheduled only for a cue ball with active spin data.  The follow/draw
    callback (delay 50, only when the follow/draw amount exceeds 0.1 in
    size) pushes a ball that is on the table and faster than 0.2 with a
    force of size 0.0015 times the size of the amount, and leaves any other
    ball alone.  The english callback (delay 3000) switches the english
    effect off, after which a cushion bounce returns the incoming angle. *)
Theorem post_collision_callbacks (b : Ball) (collisionVector : Vec)
        (t : SpinTimer) (delay : R) (b1 : Ball) :
  In (t, delay) (snd (applyPostCollisionSpin b collisionVector)) ->
  type b = BallType.cue /\
  match t with
  | TimerFollowDraw a v =>
      delay = 50 /\ Rabs a > 0.1 /\ v = collisionVector /\
      (isPocketed b1 = false -> speedOf (velocity (body b1)) > 0.2 ->
       speedOf (appliedForce b1 (fst (fireSpinTimer t b1)))
       = 0.0015 * Rabs a) /\
      (isPocketed b1 = true \/ speedOf (velocity (body b1)) <= 0.2 ->
       fireSpinTimer t b1 = (b1, None))
  | TimerEnglishOff =>
      delay = 3000 /\
      forall incomingAngle cushionNormal,
        applyEnglishToCushionBounce (fst (fireSpinTimer t b1))
                                    incomingAngle cushionNormal
        = (incomingAngle, fst (fireSpinTimer t b1))
  end.
Proof.
  intros Hin.
  destruct (applyPostCollisionSpin_timers b collisionVector t delay Hin)
    as [Hcue [sp [_ [_ [[-> [-> Hbig]] | [-> [-> _]]]]]]].
  - split; [ exact Hcue | ].
    split; [ reflexivity | ]. split; [ exact Hbig | ].
    split; [ reflexivity | ]. split.
    + intros Hp Hs. cbn [fireSpinTimer]. rewrite Hp. cbn [negb]. cbv zeta.
      case_test (speedOf (velocity (body b1)) >? 0.2); [ | lra ].
      cbn [fst]. unfold appliedForce, Ball_applyForce. cbn.
      set (a := Num.atan2 _ _).
      set (d := if _ >? 0 then 1 else -1).
      replace (vx (force (body b1))
               + cos a * d * (Rabs (spin_followDraw sp) * 0.0015)
               - vx (force (body b1)))
        with (cos a * (d * (Rabs (spin_followDraw sp) * 0.0015))) by ring.
      replace (vy (force (body b1))
               + sin a * d * (Rabs (spin_followDraw sp) * 0.0015)
               - vy (force (body b1)))
        with (sin a * (d * (Rabs (spin_followDraw sp) * 0.0015))) by ring.
      rewrite speedOf_polar_abs.
      pose proof (Rabs_pos (spin_followDraw sp)) as Hpos.
      unfold d. destruct (spin_followDraw sp >? 0).
      * rewrite Rabs_right; lra.
      * rewrite Rabs_left; lra.
    + intros Hstill. cbn [fireSpinTimer].
      destruct (isPocketed b1) eqn:Hp; [ reflexivity | ]. cbn [negb].
      cbv zeta.
      case_test (speedOf (velocity (body b1)) >? 0.2); [ | reflexivity ].
      destruct Hstill as [Hstill | Hstill]; [ discriminate | lra ].
  - split; [ exact Hcue | ]. split; [ reflexivity | ].
    intros incomingAngle cushionNormal. cbn [fireSpinTimer fst].
    unfold applyEnglishToCushionBounce. cbn [englishEffectActive
      set_englishEffectActive type].
    now rewrite andb_false_r.
Qed.

Lemma post_collision_callbacks_witness :
  let b := applySpinData 0 (ballAt BallType.cue (mkVec 550 300) (mkVec 3 0) 0)
                         0 0.5 3 ShotType.follow in
  type b = BallType.cue /\
  50 = 50 /\ Rabs 0.5 > 0.1 /\ mkVec 1 0 = mkVec 1 0 /\
  (isPocketed b = false -> speedOf (velocity (body b)) > 0.2 ->
   speedOf (appliedForce b
              (fst (fireSpinTimer (TimerFollowDraw 0.5 (mkVec 1 0)) b)))
   = 0.0015 * Rabs 0.5) /\
  (isPocketed b = true \/ speedOf (velocity (body b)) <= 0.2 ->
   fireSpinTimer (TimerFollowDraw 0.5 (mkVec 1 0)) b = (b, None)).
Proof.
  intros b.
  apply (post_collision_callbacks b (mkVec 1 0)
           (TimerFollowDraw 0.5 (mkVec 1 0)) 50 b).
  unfold applyPostCollisionSpin, b. cbn [currentSpin applySpinData
    set_currentSpin type ballAt set_body newBall BallType.eqb spin_active
    spin_followDraw spin_english andb].
  case_test (Rabs 0.5 >? 0.1); [ | rewrite Rabs_right in *; lra ].
  case_test (Rabs 0 >? 0.1); [ rewrite Rabs_R0 in *; lra | ].
  left. reflexivity.
Defined.

(** ** Changes that keep the structure of a session *)

Lemma Forall2_refl_on {A : Type} (R : A -> A -> Prop) (l : list A) :
  (forall a, R a a) -> Forall2 R l l.
Proof. intros HR. induction l; constructor; auto. Qed.

Lemma Forall2_list_update {A : Type} (R : A -> A -> Prop) (i : nat)
      (f : A -> A) (l : list A) :
  (forall a, R a a) ->
  (forall a, nth_error l i = Some a -> R a (f a)) ->
  Forall2 R l (list_update i f l).
Proof.
  intros HR. revert i. induction l as [ | a l IH]; intros i Hf.
  - destruct i; constructor.
  - destruct i as [ | i]; cbn.
    + constructor; [ now apply Hf | now apply Forall2_refl_on ].
    + constructor; [ apply HR | ]. apply IH. intros a' Ha'. now apply Hf.
Qed.

Lemma Forall2_nth_error_left {A B : Type} (P : A -> B -> Prop)
      (l : list A) (l' : list B) :
  Forall2 P l l' ->
  forall j b, nth_error l j = Some b ->
              exists b', nth_error l' j = Some b' /\ P b b'.
Proof.
  induction 1 as [ | a a' l l' Ha _ IH]; intros [ | j] b Hj;
    try discriminate Hj.
  - injection Hj as <-. exists a'. now split.
  - now apply (IH j b).
Qed.

Section Structural.

Context {MW : MatterWorld}.

Lemma sameStructure_fields (s s' : State) :
  balls s' = balls s -> world s' = world s -> nextId s' = nextId s ->
  table s' = table s -> redBalls s' = redBalls s ->
  coloredBalls s' = coloredBalls s -> cueBall s' = cueBall s ->
  sameStructure s s'.
Proof.
  intros Hb. unfold sameStructure. rewrite Hb. repeat split; auto.
  apply Forall2_refl_on, sameIdentity_refl.
Qed.

Lemma sameStructure_updateBall (i : nat) (f : Ball -> Ball) (s : State) :
  (forall b, nth_error (balls s) i = Some b -> sameIdentity b (f b)) ->
  sameStructure s (updateBall i f s).
Proof.
  intros Hf. unfold sameStructure. cbn. repeat split.
  apply Forall2_list_update; [ apply sameIdentity_refl | exact Hf ].
Qed.

Lemma sameStructure_sameButDraws (s s0 : State) :
  sameButDraws s s0 -> sameStructure s s0.
Proof.
  unfold sameButDraws. intros ->. now apply sameStructure_fields.
Qed.

(** A property of the balls and the world that the primitive changes keep
    is kept by every turn of the event loop. *)
Variable P : State -> Prop.
Hypothesis P_same : forall s s', sameStructure s s' -> P s -> P s'.
Hypothesis P_pocket : forall i s, P s -> P (pocket i s).
Hypothesis P_respawn : forall i x y s, P s -> P (respawn i x y s).
Hypothesis P_clear : forall i s, P s -> P (clearBall i s).

Ltac same_fields s0 :=
  apply (P_same s0); [ now apply sameStructure_fields | ].

Lemma placeRandomly_structural (i : nat) (s : State) :
  P s -> P (placeRandomly i s).
Proof.
  intros Hs. unfold placeRandomly.
  pose proof (placementLoop_spec 100 0 i s) as H.
  destruct (placementLoop 100 0 i s) as [[s' placed] attempts].
  destruct H as [_ [_ [Hplaced Hgaveup]]]. cbn [fst].
  destruct placed.
  - destruct (Hplaced eq_refl) as [x [y [s0 [Hs0 [_ ->]]]]].
    apply P_respawn. apply (P_same s); [ | exact Hs ].
    now apply sameStructure_sameButDraws.
  - destruct (Hgaveup eq_refl) as [_ Hs'].
    apply (P_same s); [ | exact Hs ]. now apply sameStructure_sameButDraws.
Qed.

Lemma placeOnSpot_structural (i : nat) (s : State) :
  P s -> P (placeOnSpot i s).
Proof.
  intros Hs. unfold placeOnSpot.
  destruct (nth_error (balls s) i); [ now apply P_respawn | exact Hs ].
Qed.

Lemma placeReds_structural (positions : list Vec) (reds : list nat)
      (s : State) :
  P s -> P (placeReds positions reds s).
Proof.
  revert positions s. induction reds as [ | i reds IH]; intros positions s Hs.
  - destruct positions; exact Hs.
  - destruct positions as [ | p positions]; [ exact Hs | ].
    cbn [placeReds]. apply IH. now apply P_respawn.
Qed.

Lemma clearAllBalls_structural (s : State) : P s -> P (clearAllBalls s).
Proof.
  unfold clearAllBalls. apply forEachBall_preserves.
  intros i st. apply P_clear.
Qed.

Lemma setupBallsMode_structural (mode : nat) (s : State) :
  P s -> P (setupBallsMode mode s).
Proof.
  intros Hs. unfold setupBallsMode.
  set (s1 := set_cue _ (stopAiming _)).
  assert (H1 : P s1).
  { same_fields (clearAllBalls s). now apply clearAllBalls_structural. }
  match goal with
  | |- P (set_placingCueBall (set_cueBallPlaced ?m _) _) => same_fields m
  end.
  destruct mode as [ | [ | [ | [ | mode]]]]; try exact H1.
  - match goal with
    | |- P (showMessage _ _ ?m) => same_fields m
    end.
    unfold setupStartingPosition.
    apply forEachOf_preserves; [ intros i st; apply placeOnSpot_structural | ].
    now apply placeReds_structural.
  - match goal with
    | |- P (showMessage _ _ ?m) => same_fields m
    end.
    unfold setupRandomReds.
    apply forEachOf_preserves; [ intros i st; apply placeRandomly_structural | ].
    apply forEachOf_preserves; [ intros i st; apply placeOnSpot_structural | ].
    exact H1.
  - match goal with
    | |- P (showMessage _ _ ?m) => same_fields m
    end.
    unfold setupRandomAll.
    apply forEachOf_preserves; [ intros i st; apply placeRandomly_structural | ].
    exact H1.
Qed.

Lemma handlePocketedBall_structural (i : nat) (s : State) :
  P s -> P (handlePocketedBall i s).
Proof.
  intros Hs. unfold handlePocketedBall.
  destruct (nth_error (balls s) i) as [ball | ]; [ | exact Hs ].
  apply (P_pocket i) in Hs.
  destruct (type ball); cbv zeta;
    try destruct (twoConsecutiveColored _);
    same_fields (pocket i s); exact Hs.
Qed.

Lemma checkPocketedBalls_structural (s : State) :
  P s -> P (checkPocketedBalls s).
Proof.
  unfold checkPocketedBalls. apply forEachBall_preserves.
  intros i st Hst. unfold checkPocketedBall.
  destruct (nth_error (balls st) i) as [ball | ]; [ | exact Hst ].
  destruct (_ && _); [ now apply handlePocketedBall_structural | exact Hst ].
Qed.

Lemma rollBall_structural (now : R) (i : nat) (s : State) :
  P s -> P (rollBall now i s).
Proof.
  intros Hs. unfold rollBall.
  destruct (nth_error (balls s) i) as [ball | ]; [ | exact Hs ].
  destruct (negb (isPocketed ball)); [ | exact Hs ].
  apply (P_same s); [ | exact Hs ]. apply sameStructure_updateBall.
  intros b _. apply rolled_sameIdentity.
Qed.

Lemma step_structural (s s' : State) : step s s' -> P s -> P s'.
Proof.
  intros Hstep Hs. destruct Hstep.
  - (* keyPressed *)
    destruct k; cbn [keyPressed]; try (now apply setupBallsMode_structural);
      try exact Hs; same_fields s; exact Hs.
  - (* mousePressed *)
    unfold mousePressed.
    destruct (placingCueBall s && isInDZone (table s) mouseX mouseY).
    + destruct (isValidBallPosition _ _ _ _).
      * destruct (cueBall s) as [cb | ]; [ | exact Hs ].
        same_fields (respawn cb mouseX mouseY s). now apply P_respawn.
      * same_fields s; exact Hs.
    + destruct (cueBallPlaced s && negb (placingCueBall s)
                && negb (isAnyBallMoving s)); [ | exact Hs ].
      same_fields s; exact Hs.
  - (* mouseMoved *)
    unfold mouseMoved. destruct (cueBall s); [ | exact Hs ].
    destruct (isAiming (cue s) && cueBallPlaced s); [ | exact Hs ].
    destruct shiftDown; same_fields s; exact Hs.
  - (* mouseDragged *)
    unfold mouseDragged. destruct (isAiming (cue s)); [ | exact Hs ].
    same_fields s; exact Hs.
  - (* mouseReleased *)
    unfold mouseReleased. destruct (isAiming (cue s)); [ | exact Hs ].
    unfold applyShot.
    set (o := shoot now (cue s) (deref s (cueBall s))).
    set (s1 := set_cue s (shot_cue o)).
    assert (H1 : P s1) by (same_fields s; exact Hs).
    set (s2 := match cueBall s1, shot_ball o with
               | Some i, Some cb' => updateBall i (fun _ => cb') s1
               | _, _ => s1
               end).
    assert (H2 : P s2).
    { unfold s2. destruct (cueBall s1) as [i | ] eqn:Hi; [ | exact H1 ].
      destruct (shot_ball o) as [cb' | ] eqn:Hcb'; [ | exact H1 ].
      apply (P_same s1); [ | exact H1 ]. apply sameStructure_updateBall.
      intros b Hb. apply (shot_sameIdentity now (cue s)).
      unfold o in Hcb'. cbn in Hi. unfold deref in Hcb'. rewrite Hi in Hcb'.
      cbn in Hb. now rewrite Hb in Hcb'. }
    set (s3 := match shot_message o with
               | Some (msg, duration) => showMessage msg duration s2
               | None => s2
               end).
    assert (H3 : P s3).
    { unfold s3. destruct (shot_message o) as [[msg d] | ]; [ | exact H2 ].
      same_fields s2; exact H2. }
    destruct (cueBall s3); [ | exact H3 ].
    destruct (shot_curve o) as [[[[h fx] fy] d] | ]; [ | exact H3 ].
    same_fields s3; exact H3.
  - (* draw *)
    unfold draw.
    set (s1 := forEachBall (rollBall now) s).
    assert (H1 : P s1).
    { unfold s1. apply forEachBall_preserves; [ | exact Hs ].
      intros i st. apply rollBall_structural. }
    apply checkPocketedBalls_structural in H1.
    set (s2 := checkPocketedBalls s1) in *.
    destruct (cueBall s2); [ | exact H1 ].
    destruct (cueBallPlaced s2 && negb (placingCueBall s2)
              && negb (isAnyBallMoving s2)); [ | exact H1 ].
    destruct (negb (isAiming (cue (set_cue s2 (set_isVisible (cue s2) true)))));
      same_fields s2; exact H1.
  - (* a timer *)
    assert (H1 : P (set_timers s (before ++ after)))
      by (same_fields s; exact Hs).
    destruct t; cbn [fireTimer].
    + now apply P_respawn.
    + apply (P_same (set_timers s (before ++ after))); [ | exact H1 ].
      apply sameStructure_updateBall.
      intros b _. unfold applyEnglishCurve.
      destruct (negb (isPocketed b)); repeat split.
  - (* the physics step *)
    apply (P_same s); [ | exact Hs ].
    unfold sameStructure. cbn. now repeat split.
Qed.

End Structural.

(** ** The shape of every state of a session *)

Lemma Forall2_map_eq {A B : Type} (f : A -> B) (l l' : list A) :
  Forall2 (fun a a' => f a' = f a) l l' -> map f l' = map f l.
Proof. induction 1; cbn; congruence. Qed.

Lemma Forall2_impl {A B : Type} (P Q : A -> B -> Prop) (l : list A)
      (l' : list B) :
  (forall a b, P a b -> Q a b) -> Forall2 P l l' -> Forall2 Q l l'.
Proof. intros H. induction 1; constructor; auto. Qed.

Section Shape.

Context {MW : MatterWorld} {ML : MatterWorldLaws MW}.

(** Ball objects with the same kinds and bodies. *)
Lemma distinctBodies_same_ids (s s' : State) :
  Forall2 (fun b b' => body_id (body b') = body_id (body b))
          (balls s) (balls s') ->
  distinctBodies s -> distinctBodies s'.
Proof.
  intros Hall Hs i j bi' bj' Hi Hj Hij.
  destruct (Forall2_nth_error_right _ _ _ Hall i bi' Hi) as [bi [Hbi ->]].
  destruct (Forall2_nth_error_right _ _ _ Hall j bj' Hj) as [bj [Hbj ->]].
  now apply (Hs i j).
Qed.

Lemma shape_same (s s' : State) :
  sameStructure s s' -> sessionShape s -> sessionShape s'.
Proof.
  intros [Hballs [Hw [Hn [Ht [Hr [Hc Hcb]]]]]] [Hwf [Hd [Hty Htab]]].
  split; [ | split; [ | split ] ].
  - apply (wellFormed_sameIdentity s); auto.
    intros j b' Hj.
    destruct (Forall2_nth_error_right _ _ _ Hballs j b' Hj) as [b [Hb Hsame]].
    exists b. now split.
  - apply (distinctBodies_same_ids s); [ | exact Hd ].
    revert Hballs. apply Forall2_impl. intros b b' [_ [_ H]]. exact H.
  - rewrite <- Hty. apply Forall2_map_eq.
    revert Hballs. apply Forall2_impl. intros b b' [H _]. exact H.
  - congruence.
Qed.

Lemma shape_pocket (i : nat) (s : State) :
  sessionShape s -> sessionShape (pocket i s).
Proof.
  intros [Hwf [Hd [Hty Htab]]].
  split; [ now apply pocket_wellFormed | ].
  unfold pocket. destruct (nth_error (balls s) i) as [ball | ];
    [ | now repeat split ].
  assert (Hall : Forall2 (fun b b' => type b' = type b
                                      /\ body_id (body b') = body_id (body b))
                         (balls s)
                         (list_update i (fun b => set_isPocketed b true)
                                      (balls s))).
  { apply Forall2_list_update; intros; now split. }
  split; [ | split; [ | exact Htab ] ].
  - apply (distinctBodies_same_ids s); [ | exact Hd ]. cbn.
    revert Hall. apply Forall2_impl. intros b b' [_ H]. exact H.
  - rewrite <- Hty. cbn. apply Forall2_map_eq.
    revert Hall. apply Forall2_impl. intros b b' [H _]. exact H.
Qed.

Lemma shape_clear (i : nat) (s : State) :
  sessionShape s -> sessionShape (clearBall i s).
Proof.
  intros [Hwf [Hd [Hty Htab]]].
  split; [ now apply clearBall_wellFormed | ].
  unfold clearBall. destruct (nth_error (balls s) i) as [ball | ];
    [ | now repeat split ].
  assert (Hall : Forall2 (fun b b' => type b' = type b
                                      /\ body_id (body b') = body_id (body b))
                         (balls s)
                         (list_update i (fun b => set_isPocketed b false)
                                      (balls s))).
  { apply Forall2_list_update; intros; now split. }
  destruct (negb (isPocketed ball)); (split; [ | split; [ | exact Htab ] ]).
  - apply (distinctBodies_same_ids s); [ | exact Hd ]. cbn.
    revert Hall. apply Forall2_impl. intros b b' [_ H]. exact H.
  - rewrite <- Hty. cbn. apply Forall2_map_eq.
    revert Hall. apply Forall2_impl. intros b b' [H _]. exact H.
  - apply (distinctBodies_same_ids s); [ | exact Hd ]. cbn.
    revert Hall. apply Forall2_impl. intros b b' [_ H]. exact H.
  - rewrite <- Hty. cbn. apply Forall2_map_eq.
    revert Hall. apply Forall2_impl. intros b b' [H _]. exact H.
Qed.

Lemma shape_respawn (i : nat) (x y : R) (s : State) :
  sessionShape s -> sessionShape (respawn i x y s).
Proof.
  intros [Hwf [Hd [Hty Htab]]].
  split; [ now apply respawn_wellFormed | ].
  destruct Hwf as [_ [Hfresh _]].
  unfold respawn. destruct (nth_error (balls s) i) as [ball | ] eqn:Hi;
    [ | now repeat split ].
  split; [ | split; [ | exact Htab ] ].
  - intros j k bj bk Hj Hk Hjk. cbn in Hj, Hk.
    destruct (Nat.eq_dec i j) as [<- | Hij];
      destruct (Nat.eq_dec i k) as [<- | Hik]; try congruence.
    + rewrite nth_error_list_update_same, Hi in Hj. injection Hj as <-.
      rewrite nth_error_list_update_other in Hk by exact Hik.
      cbn. specialize (Hfresh k bk Hk). lia.
    + rewrite nth_error_list_update_same, Hi in Hk. injection Hk as <-.
      rewrite nth_error_list_update_other in Hj by exact Hij.
      cbn. specialize (Hfresh j bj Hj). lia.
    + rewrite nth_error_list_update_other in Hj by exact Hij.
      rewrite nth_error_list_update_other in Hk by exact Hik.
      now apply (Hd j k).
  - rewrite <- Hty. cbn. apply Forall2_map_eq.
    apply Forall2_list_update; intros; reflexivity.
Qed.

(** Every turn of the event loop keeps the shape. *)
Lemma step_shape (s s' : State) :
  step s s' -> sessionShape s -> sessionShape s'.
Proof.
  apply step_structural.
  - exact shape_same.
  - exact shape_pocket.
  - exact shape_respawn.
  - exact shape_clear.
Qed.

Lemma createBall_balls (t : BallType.t) (v : R) (s : State) :
  balls (createBall t v s)
  = balls s ++ [newBall (nextId s) 0 0 (ballRadius (table s)) t v] /\
  nextId (createBall t v s) = S (nextId s) /\
  table (createBall t v s) = table s.
Proof. repeat split. Qed.

Lemma createBall_distinct (t : BallType.t) (v : R) (s : State) :
  (distinctBodies s /\
   forall j b, nth_error (balls s) j = Some b ->
               (body_id (body b) < nextId s)%nat) ->
  distinctBodies (createBall t v s) /\
  forall j b, nth_error (balls (createBall t v s)) j = Some b ->
              (body_id (body b) < nextId (createBall t v s))%nat.
Proof.
  intros [Hd Hfresh].
  assert (Hnth : forall j b,
             nth_error (balls (createBall t v s)) j = Some b ->
             (nth_error (balls s) j = Some b) \/
             (j = length (balls s) /\ body_id (body b) = nextId s)).
  { intros j b. cbn. intros Hj.
    destruct (Nat.lt_ge_cases j (length (balls s))) as [Hlt | Hge].
    - rewrite nth_error_app1 in Hj by exact Hlt. now left.
    - rewrite nth_error_app2 in Hj by exact Hge. right.
      destruct (j - length (balls s))%nat as [ | k] eqn:Hk; cbn in Hj.
      + injection Hj as <-. split; [ lia | reflexivity ].
      + destruct k; discriminate Hj. }
  split.
  - intros j k bj bk Hj Hk Hjk.
    destruct (Hnth j bj Hj) as [Hj' | [Hj' Hidj]];
      destruct (Hnth k bk Hk) as [Hk' | [Hk' Hidk]].
    + now apply (Hd j k).
    + specialize (Hfresh j bj Hj'). lia.
    + specialize (Hfresh k bk Hk'). lia.
    + lia.
  - intros j b Hj. cbn [nextId createBall set_world set_nextId set_balls].
    destruct (Hnth j b Hj) as [Hj' | [_ Hid]].
    + specialize (Hfresh j b Hj'). lia.
    + lia.
Qed.

Lemma createBall_types (t : BallType.t) (v : R) (s : State) :
  map type (balls (createBall t v s)) = map type (balls s) ++ [t].
Proof. cbn. now rewrite map_app. Qed.

Lemma createReds_types (l : list nat) (s : State) :
  map type (balls (fold_left (fun st _ => createBall BallType.red 1 st) l s))
  = map type (balls s) ++ repeat BallType.red (length l).
Proof.
  revert s. induction l as [ | a l IH]; intros s; cbn [fold_left length repeat].
  - now rewrite app_nil_r.
  - rewrite IH, createBall_types, <- app_assoc. reflexivity.
Qed.

(** What [initializeBalls] builds up, one ball at a time. *)
Lemma createBall_shape (t : BallType.t) (v : R) (s : State)
      (l : list BallType.t) (tab : SnookerTable) :
  (distinctBodies s /\
   forall j b, nth_error (balls s) j = Some b ->
               (body_id (body b) < nextId s)%nat) /\
  map type (balls s) = l /\ table s = tab ->
  (distinctBodies (createBall t v s) /\
   forall j b, nth_error (balls (createBall t v s)) j = Some b ->
               (body_id (body b) < nextId (createBall t v s))%nat) /\
  map type (balls (createBall t v s)) = l ++ [t] /\
  table (createBall t v s) = tab.
Proof.
  intros [Hd [Hty Htab]]. split; [ now apply createBall_distinct | ].
  split; [ now rewrite createBall_types, Hty | exact Htab ].
Qed.

Lemma shape_ball_lists (s : State) (tab : SnookerTable) :
  (distinctBodies s /\
   forall j b, nth_error (balls s) j = Some b ->
               (body_id (body b) < nextId s)%nat) /\
  map type (balls s)
  = ((((((repeat BallType.red 15 ++ [BallType.yellow]) ++ [BallType.green])
         ++ [BallType.brown]) ++ [BallType.blue]) ++ [BallType.pink])
       ++ [BallType.black]) ++ [BallType.cue] /\
  table s = tab ->
  let s' := mkState (world s) (nextId s) (table s) (cue s) (balls s)
                    (seq 0 15) (seq 15 6) (Some 21%nat) (gameMode s)
                    (cueBallPlaced s) (placingCueBall s) (lastPottedBalls s)
                    (message s) (messageDuration s) (timers s) (rng s)
                    (rngPos s) in
  distinctBodies s' /\ map type (balls s') = ballTypes /\ table s' = tab.
Proof.
  intros [[Hd _] [Hty Htab]]. cbv zeta. split; [ exact Hd | ].
  split; [ | exact Htab ]. cbn [balls]. rewrite Hty. reflexivity.
Qed.

Lemma initializeBalls_shape (s : State) :
  balls s = [] ->
  distinctBodies (initializeBalls s) /\
  map type (balls (initializeBalls s)) = ballTypes /\
  table (initializeBalls s) = table s.
Proof.
  intros Hempty. unfold initializeBalls. cbv zeta.
  apply shape_ball_lists.
  do 7 apply createBall_shape.
  split; [ | split ].
  - apply (fold_left_preserves
             (fun st => distinctBodies st /\
                        forall j b, nth_error (balls st) j = Some b ->
                                    (body_id (body b) < nextId st)%nat)).
    + intros st _. apply createBall_distinct.
    + unfold distinctBodies. rewrite Hempty. split.
      * intros [ | i] j bi bj Hi; discriminate Hi.
      * intros [ | j] b Hj; discriminate Hj.
  - rewrite createReds_types, Hempty. reflexivity.
  - apply (fold_left_preserves (fun st => table st = table s));
      [ | reflexivity ].
    intros st _ Hst. exact Hst.
Qed.

Lemma setup_shape (w0 : World) (n0 : nat) (rng_ : nat -> R) :
  sessionShape (setup w0 n0 rng_).
Proof.
  split; [ apply setup_wellFormed | ].
  unfold setup. cbv zeta.
  match goal with
  | |- context [initializeBalls ?s0] =>
      pose proof (initializeBalls_shape s0 eq_refl) as H;
      generalize dependent (initializeBalls s0)
  end.
  intros m [Hd [Hty Htab]]. repeat split; assumption.
Qed.

Lemma reachable_shape (s : State) : reachable s -> sessionShape s.
Proof.
  induction 1 as [w0 n0 rng_ | s s' _ IH Hstep].
  - apply setup_shape.
  - now apply (step_shape s s').
Qed.

End Shape.

(** ** What the operations on balls leave alone *)

Section ControlFrame.

Context {MW : MatterWorld}.

Lemma sameControl_refl (s : State) : sameControl s s.
Proof. now repeat split. Qed.

Lemma sameControl_trans (s1 s2 s3 : State) :
  sameControl s1 s2 -> sameControl s2 s3 -> sameControl s1 s3.
Proof.
  unfold sameControl.
  intros [H1 [H2 [H3 [H4 [H5 [H6 [H7 [H8 [H9 H10]]]]]]]]]
         [K1 [K2 [K3 [K4 [K5 [K6 [K7 [K8 [K9 K10]]]]]]]]].
  repeat split; congruence.
Qed.

Lemma respawn_sameControl (i : nat) (x y : R) (s : State) :
  sameControl s (respawn i x y s).
Proof.
  unfold respawn. destruct (nth_error (balls s) i); now repeat split.
Qed.

Lemma pocket_sameControl (i : nat) (s : State) : sameControl s (pocket i s).
Proof.
  unfold pocket. destruct (nth_error (balls s) i); now repeat split.
Qed.

Lemma clearBall_sameControl (i : nat) (s : State) :
  sameControl s (clearBall i s).
Proof.
  unfold clearBall. destruct (nth_error (balls s) i) as [ball | ];
    [ destruct (isPocketed ball) | ]; now repeat split.
Qed.

Lemma updateBall_sameControl (i : nat) (f : Ball -> Ball) (s : State) :
  sameControl s (updateBall i f s).
Proof. now repeat split. Qed.

Lemma sameButDraws_sameControl (s s0 : State) :
  sameButDraws s s0 -> sameControl s s0.
Proof. unfold sameButDraws. intros ->. now repeat split. Qed.

Lemma forEachOf_sameControl (l : list nat) (f : nat -> State -> State)
      (s : State) :
  (forall i st, sameControl st (f i st)) -> sameControl s (forEachOf l f s).
Proof.
  intros Hf. apply (forEachOf_preserves (sameControl s)).
  - intros i st Hst. apply (sameControl_trans s st); [ exact Hst | apply Hf ].
  - apply sameControl_refl.
Qed.

Lemma forEachBall_sameControl (f : nat -> State -> State) (s : State) :
  (forall i st, sameControl st (f i st)) -> sameControl s (forEachBall f s).
Proof.
  intros Hf. apply (forEachBall_preserves (sameControl s)).
  - intros i st Hst. apply (sameControl_trans s st); [ exact Hst | apply Hf ].
  - apply sameControl_refl.
Qed.

Lemma placeOnSpot_sameControl (i : nat) (s : State) :
  sameControl s (placeOnSpot i s).
Proof.
  unfold placeOnSpot. destruct (nth_error (balls s) i);
    [ apply respawn_sameControl | apply sameControl_refl ].
Qed.

Lemma placeRandomly_sameControl (i : nat) (s : State) :
  sameControl s (placeRandomly i s).
Proof.
  unfold placeRandomly.
  pose proof (placementLoop_spec 100 0 i s) as H.
  destruct (placementLoop 100 0 i s) as [[s' placed] attempts].
  destruct H as [_ [_ [Hplaced Hgaveup]]]. cbn [fst].
  destruct placed.
  - destruct (Hplaced eq_refl) as [x [y [s0 [Hs0 [_ ->]]]]].
    apply (sameControl_trans s s0);
      [ now apply sameButDraws_sameControl | apply respawn_sameControl ].
  - destruct (Hgaveup eq_refl) as [_ Hs'].
    now apply sameButDraws_sameControl.
Qed.

Lemma placeReds_sameControl (positions : list Vec) (reds : list nat)
      (s : State) :
  sameControl s (placeReds positions reds s).
Proof.
  revert positions s. induction reds as [ | i reds IH]; intros positions s.
  - destruct positions; apply sameControl_refl.
  - destruct positions as [ | p positions]; [ apply sameControl_refl | ].
    cbn [placeReds].
    apply (sameControl_trans s (respawn i (vx p) (vy p) s));
      [ apply respawn_sameControl | apply IH ].
Qed.

Lemma setupStartingPosition_sameControl (s : State) :
  sameControl s (setupStartingPosition s).
Proof.
  unfold setupStartingPosition.
  eapply sameControl_trans; [ apply placeReds_sameControl | ].
  apply forEachOf_sameControl, placeOnSpot_sameControl.
Qed.

Lemma setupRandomReds_sameControl (s : State) :
  sameControl s (setupRandomReds s).
Proof.
  unfold setupRandomReds.
  eapply sameControl_trans;
    [ apply forEachOf_sameControl, placeOnSpot_sameControl | ].
  apply forEachOf_sameControl, placeRandomly_sameControl.
Qed.

Lemma setupRandomAll_sameControl (s : State) :
  sameControl s (setupRandomAll s).
Proof.
  unfold setupRandomAll.
  apply forEachOf_sameControl, placeRandomly_sameControl.
Qed.

Lemma clearAllBalls_sameControl (s : State) :
  sameControl s (clearAllBalls s).
Proof.
  unfold clearAllBalls. apply forEachBall_sameControl, clearBall_sameControl.
Qed.

Lemma rollBall_sameControl (now : R) (i : nat) (s : State) :
  sameControl s (rollBall now i s).
Proof.
  unfold rollBall. destruct (nth_error (balls s) i) as [ball | ];
    [ destruct (isPocketed ball) | ]; now repeat split.
Qed.

(** What selecting a mode does to the control part. *)
Lemma setupBallsMode_fields (mode : nat) (s : State) :
  cueBallPlaced (setupBallsMode mode s) = false /\
  placingCueBall (setupBallsMode mode s) = true /\
  gameMode (setupBallsMode mode s) = mode /\
  cue (setupBallsMode mode s) = stopAiming (hide (cue s)) /\
  lastPottedBalls (setupBallsMode mode s) = lastPottedBalls s /\
  timers (setupBallsMode mode s) = timers s /\
  table (setupBallsMode mode s) = table s.
Proof.
  split; [ reflexivity | ]. split; [ reflexivity | ].
  unfold setupBallsMode.
  set (s1 := set_cue _ (stopAiming _)).
  assert (H1 : gameMode s1 = mode /\ cue s1 = stopAiming (hide (cue s)) /\
               lastPottedBalls s1 = lastPottedBalls s /\
               timers s1 = timers s /\ table s1 = table s).
  { destruct (clearAllBalls_sameControl s)
      as [Ht [Hc [_ [_ [_ [_ [_ [_ [Hh Htm]]]]]]]]].
    unfold s1. cbn. rewrite Hc, Hh, Htm, Ht. now repeat split. }
  destruct H1 as [Hm [Hc [Hh [Htm Ht]]]].
  destruct mode as [ | [ | [ | [ | mode]]]];
    unfold set_placingCueBall, set_cueBallPlaced, showMessage;
    cbn [cue gameMode lastPottedBalls timers table];
    try (now repeat split).
  - destruct (setupStartingPosition_sameControl s1)
      as [Kt [Kc [_ [_ [_ [Km [_ [_ [Kh Ktm]]]]]]]]].
    rewrite Kt, Kc, Km, Kh, Ktm. now repeat split.
  - destruct (setupRandomReds_sameControl s1)
      as [Kt [Kc [_ [_ [_ [Km [_ [_ [Kh Ktm]]]]]]]]].
    rewrite Kt, Kc, Km, Kh, Ktm. now repeat split.
  - destruct (setupRandomAll_sameControl s1)
      as [Kt [Kc [_ [_ [_ [Km [_ [_ [Kh Ktm]]]]]]]]].
    rewrite Kt, Kc, Km, Kh, Ktm. now repeat split.
Qed.

End ControlFrame.

(** ** The cue stays within its limits *)

Lemma determineShotType_fields (c : Cue) :
  maxPullback (determineShotType c) = maxPullback c /\
  maxEnglish (determineShotType c) = maxEnglish c /\
  maxFollowDraw (determineShotType c) = maxFollowDraw c /\
  contactRadius (determineShotType c) = contactRadius c /\
  spinTransferEfficiency (determineShotType c) = spinTransferEfficiency c /\
  spinApplicationDelay (determineShotType c) = spinApplicationDelay c /\
  englishCurveIntensity (determineShotType c) = englishCurveIntensity c /\
  offset (determineShotType c) = offset c /\
  pullback (determineShotType c) = pullback c /\
  contactPoint (determineShotType c) = contactPoint c /\
  isAiming (determineShotType c) = isAiming c /\
  isVisible (determineShotType c) = isVisible c /\
  power (determineShotType c) = power c /\
  maxPower (determineShotType c) = maxPower c /\
  angle (determineShotType c) = angle c.
Proof.
  unfold determineShotType.
  repeat match goal with
         | |- context [if ?c then _ else _] => destruct c
         end; now repeat split.
Qed.

Lemma determineShotType_idempotent (c : Cue) :
  shotType (determineShotType (determineShotType c))
  = shotType (determineShotType c).
Proof.
  unfold determineShotType at 1.
  destruct (determineShotType_fields c)
    as [_ [_ [_ [_ [_ [_ [_ [_ [_ [-> _]]]]]]]]]].
  unfold determineShotType.
  repeat match goal with
         | |- context [if ?c then _ else _] => destruct c
         end; reflexivity.
Qed.

Lemma determineShotType_contact (c c' : Cue) :
  contactPoint c' = contactPoint c ->
  shotType (determineShotType c') = shotType (determineShotType c).
Proof.
  intros E. unfold determineShotType. rewrite E.
  repeat match goal with
         | |- context [if ?c then _ else _] => destruct c
         end; reflexivity.
Qed.

(** An operation that keeps what [cueShape] looks at. *)
Lemma cueShape_same (c c' : Cue) :
  maxPullback c' = maxPullback c -> maxEnglish c' = maxEnglish c ->
  maxFollowDraw c' = maxFollowDraw c -> contactRadius c' = contactRadius c ->
  spinTransferEfficiency c' = spinTransferEfficiency c ->
  spinApplicationDelay c' = spinApplicationDelay c ->
  englishCurveIntensity c' = englishCurveIntensity c ->
  offset c' = offset c ->
  pullback c' = pullback c -> contactPoint c' = contactPoint c ->
  shotType c' = shotType c ->
  (isAiming c' = true -> isAiming c = true) ->
  (isVisible c = true -> isVisible c' = true) ->
  cueShape c -> cueShape c'.
Proof.
  intros E1 E2 E3 E4 E5 E6 E7 E8 E9 E10 E11 Ha Hv.
  unfold cueShape. rewrite E1, E2, E3, E4, E5, E6, E7, E8, E9, E10, E11.
  intros [Hc [Hp [Hcp [Hst Hav]]]].
  split; [ exact Hc | ]. split; [ exact Hp | ]. split; [ exact Hcp | ].
  split; [ | auto ].
  destruct Hst as [Hst | Hst]; [ left | now right ].
  rewrite Hst. unfold determineShotType. rewrite E10.
  repeat match goal with
         | |- context [if ?c then _ else _] => destruct c
         end; reflexivity.
Qed.

Lemma cueShape_pullback_zero (c c' : Cue) :
  maxPullback c' = maxPullback c -> maxEnglish c' = maxEnglish c ->
  maxFollowDraw c' = maxFollowDraw c -> contactRadius c' = contactRadius c ->
  spinTransferEfficiency c' = spinTransferEfficiency c ->
  spinApplicationDelay c' = spinApplicationDelay c ->
  englishCurveIntensity c' = englishCurveIntensity c ->
  offset c' = offset c ->
  pullback c' = 0 -> contactPoint c' = contactPoint c ->
  shotType c' = shotType c ->
  (isAiming c' = true -> isVisible c' = true) ->
  cueShape c -> cueShape c'.
Proof.
  intros E1 E2 E3 E4 E5 E6 E7 E8 E9 E10 E11 Hav.
  unfold cueShape. rewrite E1, E2, E3, E4, E5, E6, E7, E8, E9, E10, E11.
  intros [Hc [Hp [Hcp [Hst _]]]].
  split; [ exact Hc | ]. split; [ lra | ]. split; [ exact Hcp | ].
  split; [ | exact Hav ].
  destruct Hst as [Hst | Hst]; [ left | now right ].
  rewrite Hst. unfold determineShotType. rewrite E10.
  repeat match goal with
         | |- context [if ?c then _ else _] => destruct c
         end; reflexivity.
Qed.

Lemma newCue_shape : cueShape (newCue 150 6 12).
Proof.
  unfold cueShape. cbn. repeat split; try lra; try discriminate.
  right. now split.
Qed.

Lemma adjustPower_shape (c : Cue) (delta : R) :
  cueShape c -> cueShape (adjustPower c delta).
Proof. apply cueShape_same; auto. Qed.

Lemma startAiming_shape (c : Cue) (cb : option Ball) (bs : list Ball) :
  cueShape c -> cueShape (startAiming c cb bs).
Proof.
  unfold startAiming. cue_cases; try exact (fun H => H).
  apply cueShape_pullback_zero; auto.
Qed.

Lemma updateAngle_shape (c : Cue) (cb : option Ball) (mx my : R) :
  cueShape c -> cueShape (updateAngle c cb mx my).
Proof.
  unfold updateAngle. destruct cb as [b | ]; [ | exact (fun H => H) ].
  destruct (negb (isPocketed b)); [ | exact (fun H => H) ].
  apply cueShape_same; auto.
Qed.

Lemma updatePullback_shape (c : Cue) (cb : option Ball) (mx my : R) :
  cueShape c -> cueShape (updatePullback c cb mx my).
Proof.
  unfold updatePullback. destruct cb as [b | ]; [ | exact (fun H => H) ].
  destruct (isAiming c && negb (isPocketed b)); [ | exact (fun H => H) ].
  intros [Hc [Hp [Hcp [Hst Hav]]]].
  split; [ exact Hc | ]. split; [ | split; [ exact Hcp | split ] ].
  - cbn [pullback set_pullback]. destruct Hc as [-> _].
    apply constrain_between. lra.
  - destruct Hst as [Hst | Hst]; [ left | now right ].
    rewrite (determineShotType_contact c (set_pullback c _)) by reflexivity.
    exact Hst.
  - exact Hav.
Qed.

Lemma setContactPoint_shape (c : Cue) (cb : option Ball) (mx my : R) :
  cueShape c -> cueShape (setContactPoint c cb mx my).
Proof.
  unfold setContactPoint. destruct cb as [b | ]; [ | exact (fun H => H) ].
  destruct (negb (isPocketed b)); [ | exact (fun H => H) ].
  intros [Hc [Hp [Hcp [Hst Hav]]]].
  set (c1 := set_contactPoint c _).
  destruct (determineShotType_fields c1)
    as [E1 [E2 [E3 [E4 [E5 [E6 [E7 [E8 [E9 [E10 [E11 [E12 _]]]]]]]]]]]].
  unfold cueShape.
  rewrite E1, E2, E3, E4, E5, E6, E7, E8, E9, E10, E11, E12.
  split; [ exact Hc | ]. split; [ exact Hp | ].
  split; [ | split; [ | exact Hav ] ].
  - destruct Hc as [_ [Hme [Hmf _]]].
    unfold c1. cbn [contactPoint set_contactPoint vx vy].
    rewrite Hme, Hmf.
    pose proof (constrain_between
                  ((mx - vx (position (body b))) / contactRadius c)
                  (Ropp 0.8) 0.8 ltac:(lra)).
    pose proof (constrain_between
                  ((my - vy (position (body b))) / contactRadius c)
                  (Ropp 0.9) 0.9 ltac:(lra)).
    split; lra.
  - left. symmetry. apply determineShotType_idempotent.
Qed.

Lemma Cue_show_shape (c : Cue) (cb : option Ball) :
  cueShape c -> cueShape (Cue_show c cb).
Proof.
  unfold Cue_show. destruct cb as [b | ]; [ | exact (fun H => H) ].
  destruct (negb (isPocketed b)); [ | exact (fun H => H) ].
  apply cueShape_same; auto.
Qed.

Lemma shoot_shape (now : R) (c : Cue) (cb : option Ball) :
  cueShape c -> cueShape (shot_cue (shoot now c cb)).
Proof.
  unfold shoot. destruct cb as [b | ]; [ | exact (fun H => H) ].
  destruct (_ && _); [ | exact (fun H => H) ].
  apply cueShape_pullback_zero; auto; discriminate.
Qed.

Lemma hide_shape (c : Cue) : cueShape c -> cueShape (hide c).
Proof. apply cueShape_pullback_zero; auto; discriminate. Qed.

Lemma stopAiming_shape (c : Cue) : cueShape c -> cueShape (stopAiming c).
Proof. apply cueShape_pullback_zero; auto; discriminate. Qed.

Lemma visible_shape (c : Cue) : cueShape c -> cueShape (set_isVisible c true).
Proof. apply cueShape_same; auto. Qed.

Section CueInSession.

Context {MW : MatterWorld}.

Lemma handlePocketedBall_cueShape (i : nat) (s : State) :
  cueShape (cue s) -> cueShape (cue (handlePocketedBall i s)).
Proof.
  unfold handlePocketedBall. intros Hs.
  destruct (nth_error (balls s) i) as [ball | ]; [ | exact Hs ].
  destruct (pocket_control i s) as [Hc _].
  destruct (type ball); cbn;
    try destruct (twoConsecutiveColored _); cbn; rewrite Hc;
    try exact Hs; now apply hide_shape.
Qed.

Lemma checkPocketedBalls_cueShape (s : State) :
  cueShape (cue s) -> cueShape (cue (checkPocketedBalls s)).
Proof.
  unfold checkPocketedBalls.
  apply (forEachBall_preserves (fun st => cueShape (cue st))).
  intros i st Hst. unfold checkPocketedBall.
  destruct (nth_error (balls st) i) as [ball | ]; [ | exact Hst ].
  destruct (_ && _); [ now apply handlePocketedBall_cueShape | exact Hst ].
Qed.

Lemma step_cueShape (s s' : State) :
  step s s' -> cueShape (cue s) -> cueShape (cue s').
Proof.
  intros Hstep Hs. destruct Hstep.
  - (* keyPressed *)
    destruct k; cbn [keyPressed]; rewrite ?setupBallsMode_cue;
      try exact Hs;
      try (now apply stopAiming_shape, hide_shape);
      cbn; now apply adjustPower_shape.
  - (* mousePressed *)
    unfold mousePressed.
    destruct (placingCueBall s && isInDZone (table s) mouseX mouseY).
    + destruct (isValidBallPosition _ _ _ _); [ | exact Hs ].
      destruct (cueBall s) as [cb | ]; [ | exact Hs ].
      cbn. apply updateAngle_shape.
      destruct (respawn_control cb mouseX mouseY s) as [-> _].
      now apply visible_shape.
    + destruct (cueBallPlaced s && negb (placingCueBall s)
                && negb (isAnyBallMoving s)); [ | exact Hs ].
      cbn. now apply startAiming_shape.
  - (* mouseMoved *)
    unfold mouseMoved. destruct (cueBall s); [ | exact Hs ].
    destruct (isAiming (cue s) && cueBallPlaced s); [ | exact Hs ].
    destruct shiftDown; cbn;
      [ apply setContactPoint_shape | ]; now apply updateAngle_shape.
  - (* mouseDragged *)
    unfold mouseDragged. destruct (isAiming (cue s)); [ | exact Hs ].
    cbn. apply updatePullback_shape. now apply updateAngle_shape.
  - (* mouseReleased *)
    unfold mouseReleased. destruct (isAiming (cue s)); [ | exact Hs ].
    pose proof (shoot_shape now (cue s) (deref s (cueBall s)) Hs) as Hc.
    unfold applyShot. cue_cases; cbn; exact Hc.
  - (* draw *)
    unfold draw.
    set (s1 := forEachBall (rollBall now) s).
    assert (H1 : cueShape (cue s1)).
    { destruct (forEachBall_control (rollBall now) s (rollBall_control now))
        as [Hc _].
      fold s1 in Hc. now rewrite Hc. }
    apply checkPocketedBalls_cueShape in H1.
    set (s2 := checkPocketedBalls s1) in *.
    destruct (cueBall s2); [ | exact H1 ].
    destruct (cueBallPlaced s2 && negb (placingCueBall s2)
              && negb (isAnyBallMoving s2)); [ | exact H1 ].
    assert (H2 : cueShape (set_isVisible (cue s2) true))
      by now apply visible_shape.
    destruct (negb (isAiming (cue (set_cue s2 (set_isVisible (cue s2) true)))));
      cbn; apply Cue_show_shape; [ apply updateAngle_shape | ];
      exact H2.
  - (* a timer *)
    destruct t; cbn [fireTimer].
    + now destruct (respawn_control ball (vx spot) (vy spot)
                                    (set_timers s (before ++ after)))
        as [-> _].
    + exact Hs.
  - (* the physics step *)
    exact Hs.
Qed.

Lemma setup_cue (w0 : World) (n0 : nat) (rng_ : nat -> R) :
  cue (setup w0 n0 rng_) = newCue 150 6 12.
Proof.
  unfold setup. cbv zeta.
  match goal with
  | |- cue (showMessage _ _ (initializeBalls ?s0)) = _ =>
      pose proof (initializeBalls_cue s0) as H;
      generalize dependent (initializeBalls s0)
  end.
  intros m Hm. unfold showMessage. cbn [cue]. exact Hm.
Qed.

Lemma reachable_cueShape (s : State) : reachable s -> cueShape (cue s).
Proof.
  induction 1 as [w0 n0 rng_ | s s' _ IH Hstep].
  - rewrite setup_cue. apply newCue_shape.
  - now apply (step_cueShape s s').
Qed.

End CueInSession.

(** ** Potted history, pending timers and aiming in a session *)

Lemma isColour_cases (t : BallType.t) :
  isColour t \/ t = BallType.red \/ t = BallType.cue.
Proof.
  destruct t; try (left; split; discriminate); right; auto.
Qed.

Lemma pushPotted_colours (l : list BallType.t) (t : BallType.t) :
  Forall isColour l -> isColour t -> Forall isColour (pushPotted l t).
Proof.
  intros Hl Ht. unfold pushPotted.
  assert (Happ : Forall isColour (l ++ [t])).
  { apply Forall_app. split; [ exact Hl | ]. constructor; [ exact Ht | ].
    constructor. }
  destruct (Nat.ltb 2 (length (l ++ [t]))); [ | exact Happ ].
  destruct (l ++ [t]) as [ | a l']; [ constructor | ].
  cbn. now apply Forall_inv_tail in Happ.
Qed.

Lemma ballTypes_cue (i : nat) :
  nth_error ballTypes i = Some BallType.cue <-> i = 21%nat.
Proof.
  split.
  - do 22 (destruct i as [ | i]; [ try discriminate; reflexivity | ]).
    destruct i; discriminate.
  - intros ->. reflexivity.
Qed.

Section ControlInSession.

Context {MW : MatterWorld} {ML : MatterWorldLaws MW}.

Lemma shape_type_at (s : State) (i : nat) (b : Ball) :
  sessionShape s -> nth_error (balls s) i = Some b ->
  nth_error ballTypes i = Some (type b).
Proof.
  intros [_ [_ [Hty _]]] Hi. rewrite <- Hty.
  now apply map_nth_error.
Qed.

Lemma shape_not_cue (s : State) (i : nat) (b : Ball) :
  sessionShape s -> nth_error (balls s) i = Some b ->
  type b <> BallType.cue -> i <> 21%nat.
Proof.
  intros Hs Hi Ht ->. apply Ht.
  pose proof (shape_type_at s 21 b Hs Hi) as H. cbn in H. congruence.
Qed.

(** ** The cue ball on the table *)

Lemma cueBallOnTable_same (s s' : State) :
  sameStructure s s' -> cueBallOnTable s -> cueBallOnTable s'.
Proof.
  intros [Hballs [Hw _]] [cb [Hcb [Hp Hon]]].
  destruct (Forall2_nth_error_left _ _ _ Hballs 21%nat cb Hcb)
    as [cb' [Hcb' [_ [Hp' Hid]]]].
  exists cb'. split; [ exact Hcb' | ]. split; [ congruence | ].
  unfold onTable in *. now rewrite Hw, Hid.
Qed.

Lemma cueBallOnTable_pocket (i : nat) (s : State) :
  sessionShape s -> i <> 21%nat ->
  cueBallOnTable s -> cueBallOnTable (pocket i s).
Proof.
  intros [_ [Hd _]] Hi [cb [Hcb [Hp Hon]]]. unfold pocket.
  destruct (nth_error (balls s) i) as [ball | ] eqn:Hball;
    [ | exists cb; now repeat split ].
  exists cb. split; [ | split; [ exact Hp | ] ].
  - cbn [balls set_world updateBall set_balls].
    now rewrite nth_error_list_update_other.
  - unfold onTable in *.
    cbn [world set_world updateBall set_balls set_nextId].
    rewrite World_has_remove, Hon. cbn [andb].
    apply negb_true_iff, Nat.eqb_neq. apply (Hd 21%nat i); auto.
Qed.

Lemma cueBallOnTable_respawn_cue (x y : R) (s : State) (cb : Ball) :
  nth_error (balls s) 21 = Some cb ->
  cueBallOnTable (respawn 21 x y s).
Proof.
  intros Hcb. unfold respawn. rewrite Hcb.
  eexists. split; [ | split ].
  - cbn [balls set_world updateBall set_balls set_nextId].
    rewrite nth_error_list_update_same, Hcb. reflexivity.
  - reflexivity.
  - unfold onTable. cbn [world set_world updateBall set_balls set_nextId
                         body respawned body_id
                         MatterBody.setAngularVelocity MatterBody.setVelocity
                         Bodies_circle].
    rewrite World_has_add, Nat.eqb_refl.
    apply orb_true_r.
Qed.

Lemma cueBallOnTable_respawn (i : nat) (x y : R) (s : State) :
  sessionShape s ->
  cueBallOnTable s -> cueBallOnTable (respawn i x y s).
Proof.
  intros [_ [Hd _]] [cb [Hcb [Hp Hon]]].
  destruct (Nat.eq_dec i 21) as [-> | Hi];
    [ now apply (cueBallOnTable_respawn_cue x y s cb) | ].
  unfold respawn.
  destruct (nth_error (balls s) i) as [ball | ] eqn:Hball;
    [ | exists cb; now repeat split ].
  exists cb. split; [ | split; [ exact Hp | ] ].
  - cbn [balls set_world updateBall set_balls set_nextId].
    now rewrite nth_error_list_update_other.
  - unfold onTable in *.
    cbn [world set_world updateBall set_balls set_nextId].
    rewrite World_has_add, World_has_remove, Hon. cbn [andb].
    assert (Hne : body_id (body cb) <> body_id (body ball))
      by (apply (Hd 21%nat i); auto).
    apply Nat.eqb_neq in Hne. now rewrite Hne.
Qed.

(** ** Changes that keep the control shape *)

Lemma controlShape_same (s s' : State) :
  sameStructure s s' ->
  lastPottedBalls s' = lastPottedBalls s -> timers s' = timers s ->
  cueBallPlaced s' = cueBallPlaced s ->
  placingCueBall s' = placingCueBall s ->
  (isAiming (cue s') = true -> isAiming (cue s) = true) ->
  controlShape s -> controlShape s'.
Proof.
  intros Hst Hh Ht Hpl Hpg Ha [[Hlen Hcol] [Hpend [Hplaced Haim]]].
  unfold controlShape, historyShape, pendingShape, aimingShape.
  rewrite Hh, Ht, Hpl, Hpg.
  split; [ now split | ]. split; [ exact Hpend | ].
  split.
  - intros H. destruct (Hplaced H) as [H1 H2]. split; [ exact H1 | ].
    now apply (cueBallOnTable_same s).
  - auto.
Qed.

Lemma controlShape_respawn (i : nat) (x y : R) (s : State) :
  sessionShape s -> controlShape s -> controlShape (respawn i x y s).
Proof.
  intros Hs [[Hlen Hcol] [Hpend [Hplaced Haim]]].
  destruct (respawn_sameControl i x y s)
    as [_ [Hc [_ [_ [_ [_ [Hpl [Hpg [Hh Ht]]]]]]]]].
  unfold controlShape, historyShape, pendingShape, aimingShape.
  rewrite Hh, Ht, Hpl, Hpg, Hc.
  split; [ now split | ]. split; [ exact Hpend | ].
  split; [ | exact Haim ].
  intros H. destruct (Hplaced H) as [H1 H2]. split; [ exact H1 | ].
  now apply cueBallOnTable_respawn.
Qed.

(** What [handlePocketedBall] does, by the kind of the ball. *)
Lemma handlePocketedBall_summary (i : nat) (s : State) (ball : Ball) :
  nth_error (balls s) i = Some ball ->
  let s' := handlePocketedBall i s in
  balls s' = balls (pocket i s) /\ world s' = world (pocket i s) /\
  match type ball with
  | BallType.cue =>
      cueBallPlaced s' = false /\ placingCueBall s' = true /\
      cue s' = hide (cue s) /\
      lastPottedBalls s' = lastPottedBalls s /\ timers s' = timers s
  | BallType.red =>
      cueBallPlaced s' = cueBallPlaced s /\
      placingCueBall s' = placingCueBall s /\ cue s' = cue s /\
      lastPottedBalls s' = lastPottedBalls s /\ timers s' = timers s
  | k =>
      cueBallPlaced s' = cueBallPlaced s /\
      placingCueBall s' = placingCueBall s /\ cue s' = cue s /\
      lastPottedBalls s' = pushPotted (lastPottedBalls s) k /\
      timers s' = timers s ++ [(TimerRespawn i (getBallSpot (table s) k),
                                1000)]
  end.
Proof.
  intros Hnth. unfold handlePocketedBall. rewrite Hnth.
  unfold pocket. rewrite Hnth. destruct s. cbn in Hnth |- *.
  destruct (type ball); try destruct (twoConsecutiveColored _); cbn;
    now repeat split.
Qed.

Lemma controlShape_handlePocketedBall (i : nat) (s : State) :
  sessionShape s -> controlShape s -> controlShape (handlePocketedBall i s).
Proof.
  intros Hs Hc.
  destruct (nth_error (balls s) i) as [ball | ] eqn:Hball;
    [ | unfold handlePocketedBall; now rewrite Hball ].
  pose proof (handlePocketedBall_summary i s ball Hball) as Hsum.
  cbv zeta in Hsum. destruct Hsum as [Hb [Hw Hsum]].
  pose proof (shape_type_at s i ball Hs Hball) as Hty.
  assert (Htab : table s = theTable) by apply Hs.
  destruct Hc as [[Hlen Hcol] [Hpend [Hplaced Haim]]].
  assert (Hon : type ball <> BallType.cue -> cueBallOnTable s ->
                cueBallOnTable (handlePocketedBall i s)).
  { intros Hnc H.
    apply (cueBallOnTable_pocket i s Hs) in H;
      [ | now apply (shape_not_cue s i ball) ].
    destruct H as [cb [Hcb [Hp Hon]]]. exists cb.
    unfold onTable in *. rewrite Hb, Hw. now repeat split. }
  unfold controlShape, historyShape, pendingShape, aimingShape.
  destruct (isColour_cases (type ball)) as [Hk | [Hk | Hk]].
  - assert (Hsum' :
              cueBallPlaced (handlePocketedBall i s) = cueBallPlaced s /\
              placingCueBall (handlePocketedBall i s) = placingCueBall s /\
              cue (handlePocketedBall i s) = cue s /\
              lastPottedBalls (handlePocketedBall i s)
              = pushPotted (lastPottedBalls s) (type ball) /\
              timers (handlePocketedBall i s)
              = timers s ++ [(TimerRespawn i (getBallSpot (table s)
                                                          (type ball)),
                              1000)]).
    { destruct Hk as [Hnr Hnc].
      destruct (type ball); try contradiction; exact Hsum. }
    destruct Hsum' as [Hpl [Hpg [Hcue [Hh Ht]]]].
    rewrite Hpl, Hpg, Hcue, Hh, Ht.
    split; [ split; [ now apply pushPotted_capped
                    | now apply pushPotted_colours ] | ].
    split.
    + intros t delay Hin. apply in_app_or in Hin.
      destruct Hin as [Hin | [Hin | []]]; [ now apply Hpend | ].
      injection Hin as <- <-. split; [ reflexivity | ].
      exists (type ball). rewrite Htab.
      split; [ exact Hty | ]. split; [ exact Hk | reflexivity ].
    + split; [ | exact Haim ].
      intros H. destruct (Hplaced H) as [H1 H2]. split; [ exact H1 | ].
      apply Hon; [ apply Hk | exact H2 ].
  - rewrite Hk in Hsum. destruct Hsum as [Hpl [Hpg [Hcue [Hh Ht]]]].
    rewrite Hpl, Hpg, Hcue, Hh, Ht.
    split; [ now split | ]. split; [ exact Hpend | ].
    split; [ | exact Haim ].
    intros H. destruct (Hplaced H) as [H1 H2]. split; [ exact H1 | ].
    apply Hon; [ rewrite Hk; discriminate | exact H2 ].
  - rewrite Hk in Hsum. destruct Hsum as [Hpl [Hpg [Hcue [Hh Ht]]]].
    rewrite Hpl, Hpg, Hcue, Hh, Ht.
    split; [ now split | ]. split; [ exact Hpend | ].
    split; [ discriminate | discriminate ].
Qed.

End ControlInSession.

Lemma Cue_show_isAiming (c : Cue) (cb : option Ball) :
  isAiming (Cue_show c cb) = isAiming c.
Proof.
  unfold Cue_show. destruct cb as [b | ]; [ destruct (isPocketed b) | ];
    reflexivity.
Qed.

Lemma updatePullback_isAiming (c : Cue) (cb : option Ball) (mx my : R) :
  isAiming (updatePullback c cb mx my) = isAiming c.
Proof.
  unfold updatePullback. destruct cb as [b | ]; [ | reflexivity ].
  destruct (_ && _); reflexivity.
Qed.

Section ControlSteps.

Context {MW : MatterWorld} {ML : MatterWorldLaws MW}.

(** What a shot writes back to the session. *)
Lemma applyShot_summary (now : R) (s : State) :
  cueBall s = Some 21%nat ->
  let s' := applyShot (shoot now (cue s) (deref s (cueBall s))) s in
  sameStructure s s' /\
  cueBallPlaced s' = cueBallPlaced s /\
  placingCueBall s' = placingCueBall s /\
  lastPottedBalls s' = lastPottedBalls s /\
  cue s' = shot_cue (shoot now (cue s) (deref s (cueBall s))) /\
  (timers s' = timers s \/
   exists h fx fy,
     Rabs h > 0.1 /\
     timers s' = timers s ++ [(TimerEnglishCurve 21 h fx fy,
                               spinApplicationDelay (cue s) * 16.67)]).
Proof.
  intros Hcb. cbv zeta. unfold deref. rewrite Hcb.
  destruct (nth_error (balls s) 21) as [cb | ] eqn:Hball.
  - unfold shoot.
    destruct (isAiming (cue s) && negb (isPocketed cb) && (pullback (cue s) >? 10)).
    + unfold applyShot. cbn [shot_cue shot_ball shot_message shot_curve].
      cbn [cueBall set_cue showMessage updateBall set_balls]. rewrite Hcb.
      cbn [cueBall set_cue showMessage updateBall set_balls].
      assert (Hst : sameStructure s
                      (updateBall 21
                         (fun _ => applyProfessionalSpin_ball now (cue s) cb
                                     (cos (angle (cue s)) * forceMagnitude (cue s))
                                     (sin (angle (cue s)) * forceMagnitude (cue s)))
                         s)).
      { apply sameStructure_updateBall. intros b Hb.
        rewrite Hball in Hb. injection Hb as <-. repeat split. }
      destruct Hst as [Hballs _]. cbn [balls updateBall set_balls] in Hballs.
      case_test (schedulesEnglishCurve (cue s)); rewrite ?Hcb.
      * cbn [cueBall setTimeout set_timers].
        split; [ unfold sameStructure; repeat split; exact Hballs | ].
        do 4 (split; [ reflexivity | ]).
        right. do 3 eexists. split; [ | reflexivity ].
        unfold schedulesEnglishCurve in Htest. exact Htest.
      * split; [ unfold sameStructure; repeat split; exact Hballs | ].
        do 4 (split; [ reflexivity | ]). now left.
    + unfold applyShot. cbn [shot_cue shot_ball shot_message shot_curve].
      cbn [cueBall set_cue showMessage updateBall set_balls]. rewrite Hcb.
      cbn [cueBall set_cue showMessage updateBall set_balls].
      assert (Hst : sameStructure s (updateBall 21 (fun _ => cb) s)).
      { apply sameStructure_updateBall. intros b Hb.
        rewrite Hball in Hb. injection Hb as <-. apply sameIdentity_refl. }
      destruct Hst as [Hballs _]. cbn [balls updateBall set_balls] in Hballs.
      rewrite Hcb.
      split; [ unfold sameStructure; repeat split; exact Hballs | ].
      do 4 (split; [ reflexivity | ]). now left.
  - unfold shoot, applyShot. cbn [shot_cue shot_ball shot_message shot_curve].
    cue_cases;
      (split; [ now apply sameStructure_fields | ]);
      do 4 (split; [ reflexivity | ]); now left.
Qed.

Lemma shoot_isAiming (now : R) (c : Cue) (cb : option Ball) :
  isAiming (shot_cue (shoot now c cb)) = true -> isAiming c = true.
Proof.
  unfold shoot. destruct cb as [b | ]; [ | exact (fun H => H) ].
  destruct (_ && _); [ | exact (fun H => H) ].
  cbn. discriminate.
Qed.

Lemma controlShape_checkPocketedBalls (s : State) :
  sessionShape s -> controlShape s ->
  sessionShape (checkPocketedBalls s) /\ controlShape (checkPocketedBalls s).
Proof.
  intros Hs Hc. unfold checkPocketedBalls.
  apply (forEachBall_preserves
           (fun st => sessionShape st /\ controlShape st));
    [ | now split ].
  intros i st [Hst Hct]. unfold checkPocketedBall.
  destruct (nth_error (balls st) i) as [ball | ]; [ | now split ].
  destruct (_ && _); [ | now split ].
  split.
  - now apply (handlePocketedBall_structural sessionShape shape_same
                                             shape_pocket).
  - now apply controlShape_handlePocketedBall.
Qed.

Lemma step_controlShape (s s' : State) :
  step s s' -> sessionShape s -> cueShape (cue s) ->
  controlShape s -> controlShape s'.
Proof.
  intros Hstep Hs Hq Hc.
  assert (Hcb : cueBall s = Some 21%nat) by apply Hs.
  destruct Hstep.
  - (* keyPressed *)
    destruct k; cbn [keyPressed]; try exact Hc.
    1-3: match goal with
         | |- controlShape (setupBallsMode ?m ?st) =>
             destruct (setupBallsMode_fields m st)
               as [Hpl [Hpg [_ [Hcue [Hh [Ht _]]]]]];
             destruct Hc as [Hhist [Hpend _]];
             unfold controlShape, historyShape, pendingShape, aimingShape;
             rewrite Hpl, Hcue, Hh, Ht;
             (split; [ exact Hhist | ]); (split; [ exact Hpend | ]);
             split; discriminate
         end.
  - (* mousePressed *)
    unfold mousePressed.
    destruct (placingCueBall s && isInDZone (table s) mouseX mouseY).
    + destruct (isValidBallPosition _ _ _ _).
      * rewrite Hcb.
        destruct Hs as [[_ [_ [_ [_ _]]]] [_ [Hty _]]].
        assert (Hlen : (21 < length (balls s))%nat).
        { rewrite <- (length_map type), Hty. cbn. lia. }
        destruct (nth_error (balls s) 21) as [cb | ] eqn:Hball;
          [ | apply nth_error_None in Hball; lia ].
        pose proof (cueBallOnTable_respawn_cue mouseX mouseY s cb Hball)
          as Hon.
        destruct (respawn_sameControl 21 mouseX mouseY s)
          as [_ [_ [_ [_ [_ [_ [_ [_ [Hh Ht]]]]]]]]].
        destruct Hc as [Hhist [Hpend _]].
        unfold controlShape, historyShape, pendingShape, aimingShape.
        cbn [lastPottedBalls timers cueBallPlaced placingCueBall
             showMessage set_cue set_placingCueBall set_cueBallPlaced].
        rewrite Hh, Ht.
        split; [ exact Hhist | ]. split; [ exact Hpend | ].
        split; [ | reflexivity ].
        intros _. split; [ reflexivity | ].
        destruct Hon as [cb' [Hcb' [Hp' Hon']]]. exists cb'.
        unfold onTable in *. now repeat split.
      * revert Hc. apply controlShape_same; try reflexivity;
          [ now apply sameStructure_fields | exact (fun H => H) ].
    + destruct (cueBallPlaced s && negb (placingCueBall s)
                && negb (isAnyBallMoving s)) eqn:Hready; [ | exact Hc ].
      apply andb_true_iff in Hready. destruct Hready as [Hready _].
      apply andb_true_iff in Hready. destruct Hready as [Hplaced _].
      destruct Hc as [Hhist [Hpend [Hpl Haim]]].
      split; [ exact Hhist | ]. split; [ exact Hpend | ].
      split; [ | intros _; exact Hplaced ].
      intros H. destruct (Hpl H) as [H1 [cb [Hb [Hp Hon]]]].
      split; [ exact H1 | ]. exists cb. now repeat split.
  - (* mouseMoved *)
    unfold mouseMoved. destruct (cueBall s); [ | exact Hc ].
    destruct (isAiming (cue s) && cueBallPlaced s); [ | exact Hc ].
    destruct shiftDown; revert Hc; apply controlShape_same;
      try reflexivity; try (now apply sameStructure_fields);
      cbn [cue set_cue];
      rewrite ?setContactPoint_isAiming, updateAngle_isAiming;
      exact (fun H => H).
  - (* mouseDragged *)
    unfold mouseDragged. destruct (isAiming (cue s)); [ | exact Hc ].
    revert Hc. apply controlShape_same;
      try reflexivity; try (now apply sameStructure_fields).
    cbn [cue set_cue].
    rewrite updatePullback_isAiming, updateAngle_isAiming.
    exact (fun H => H).
  - (* mouseReleased *)
    unfold mouseReleased. destruct (isAiming (cue s)); [ | exact Hc ].
    destruct (applyShot_summary now s Hcb)
      as [Hst [Hpl [Hpg [Hh [Hcue Ht]]]]].
    destruct Hc as [Hhist [Hpend [Hplaced Haim]]].
    unfold controlShape, historyShape, pendingShape, aimingShape.
    rewrite Hpl, Hpg, Hh, Hcue.
    split; [ exact Hhist | ]. split; [ | split ].
    + intros t delay Hin.
      destruct Ht as [Ht | [h [fx [fy [Hbig Ht]]]]]; rewrite Ht in Hin;
        [ now apply Hpend | ].
      apply in_app_or in Hin.
      destruct Hin as [Hin | [Hin | []]]; [ now apply Hpend | ].
      injection Hin as <- <-.
      destruct Hq as [[_ [_ [_ [_ [_ [-> _]]]]]] _]. now repeat split.
    + intros H. destruct (Hplaced H) as [H1 H2]. split; [ exact H1 | ].
      now apply (cueBallOnTable_same s).
    + intros H. apply Haim. revert H. apply shoot_isAiming.
  - (* draw *)
    unfold draw.
    set (s1 := forEachBall (rollBall now) s).
    assert (H1 : sessionShape s1 /\ controlShape s1).
    { unfold s1.
      apply (forEachBall_preserves
               (fun st => sessionShape st /\ controlShape st));
        [ | now split ].
      intros i st [Hst Hct]. split.
      - now apply (rollBall_structural sessionShape shape_same).
      - unfold rollBall.
        destruct (nth_error (balls st) i) as [ball | ]; [ | exact Hct ].
        destruct (negb (isPocketed ball)); [ | exact Hct ].
        revert Hct. apply controlShape_same; try reflexivity;
          [ | exact (fun H => H) ].
        apply sameStructure_updateBall. intros b _.
        apply rolled_sameIdentity. }
    destruct H1 as [Hs1 Hc1].
    destruct (controlShape_checkPocketedBalls s1 Hs1 Hc1) as [Hs2 Hc2].
    set (s2 := checkPocketedBalls s1) in *.
    destruct (cueBall s2); [ | exact Hc2 ].
    destruct (cueBallPlaced s2 && negb (placingCueBall s2)
              && negb (isAnyBallMoving s2)); [ | exact Hc2 ].
    destruct (negb (isAiming (cue (set_cue s2 (set_isVisible (cue s2) true)))));
      revert Hc2; apply controlShape_same; try reflexivity;
      try (now apply sameStructure_fields);
      cbn [cue set_cue];
      rewrite Cue_show_isAiming, ?updateAngle_isAiming;
      exact (fun H => H).
  - (* a timer *)
    set (s0 := set_timers s (before ++ after)).
    assert (Hs0 : sessionShape s0).
    { apply (shape_same s); [ now apply sameStructure_fields | exact Hs ]. }
    assert (Hc0 : controlShape s0).
    { destruct Hc as [Hhist [Hpend [Hplaced Haim]]].
      split; [ exact Hhist | ]. split; [ | split ].
      - intros t' delay' Hin. apply Hpend. rewrite H.
        cbn [timers s0 set_timers] in Hin.
        apply in_app_or in Hin. apply in_or_app.
        destruct Hin as [Hin | Hin]; [ now left | right; now right ].
      - intros Hp. destruct (Hplaced Hp) as [H1 [cb [Hb [Hpk Hon]]]].
        split; [ exact H1 | ]. exists cb. now repeat split.
      - exact Haim. }
    destruct t; cbn [fireTimer].
    + now apply controlShape_respawn.
    + revert Hc0. apply controlShape_same; try reflexivity;
        [ | exact (fun H => H) ].
      apply sameStructure_updateBall.
      intros b _. unfold applyEnglishCurve.
      destruct (negb (isPocketed b)); repeat split.
  - (* the physics step *)
    revert Hc. apply controlShape_same; try reflexivity;
      [ | exact (fun H => H) ].
    unfold sameStructure. cbn. now repeat split.
Qed.

Lemma setup_controlShape (w0 : World) (n0 : nat) (rng_ : nat -> R) :
  controlShape (setup w0 n0 rng_).
Proof.
  unfold controlShape, historyShape, pendingShape, aimingShape.
  rewrite setup_cue.
  split; [ split; [ cbn; lia | constructor ] | ].
  split; [ intros t delay [] | ].
  split; discriminate.
Qed.

(** Every state of a session has the three shapes. *)
Lemma reachable_shapes (s : State) :
  reachable s -> sessionShape s /\ cueShape (cue s) /\ controlShape s.
Proof.
  induction 1 as [w0 n0 rng_ | s s' _ [IH1 [IH2 IH3]] Hstep].
  - split; [ apply setup_shape | ].
    split; [ rewrite setup_cue; apply newCue_shape | ].
    apply setup_controlShape.
  - split; [ now apply (step_shape s s') | ].
    split; [ now apply (step_cueShape s s') | ].
    now apply (step_controlShape s s').
Qed.

End ControlSteps.

(** ** What holds in every state of a session *)

Lemma reachable_tableInMode1 : reachable tableInMode1.
Proof.
  exact (reachable_step _ _ (reachable_setup ListWorld_empty 0 (fun _ => 0))
                        (step_keyPressed Key1 _)).
Qed.

Section SessionTheorems.

Context {MW : MatterWorld} {ML : MatterWorldLaws MW}.

(** X8.  In every state of a session the ball objects are the twenty-two
    that [initializeBalls] made, in their order and with their kinds; no
    two of them share a body; the body of a pocketed ball is not in the
    world; the ball lists and the table never change. *)
Theorem session_keeps_its_balls (s : State) :
  reachable s ->
  map type (balls s) = ballTypes /\
  distinctBodies s /\
  (forall j b, nth_error (balls s) j = Some b -> isPocketed b = true ->
               World_has (world s) (body_id (body b)) = false) /\
  redBalls s = seq 0 15 /\ coloredBalls s = seq 15 6 /\
  cueBall s = Some 21%nat /\ table s = theTable.
Proof.
  intros Hreach.
  destruct (reachable_shape s Hreach)
    as [[Hpk [_ [Hr [Hc Hcb]]]] [Hd [Hty Htab]]].
  repeat split; assumption.
Qed.

(** X9.  In every state of a session the cue keeps the constants of its
    constructor, the pullback stays between 0 and maxPullback = 100, the
    contact point stays within maxEnglish = 0.8 and maxFollowDraw = 0.9, an
    aiming cue is visible, and the shot type is the classification of the
    contact point, or is still the 'normal' of the constructor at the
    untouched contact point (0, 0), which the classification calls
    'stun'. *)
Theorem cue_stays_within_limits (s : State) :
  reachable s ->
  cueShape (cue s) /\
  0 <= pullback (cue s) <= maxPullback (cue s) /\
  Rabs (vx (contactPoint (cue s))) <= maxEnglish (cue s) /\
  Rabs (vy (contactPoint (cue s))) <= maxFollowDraw (cue s) /\
  shotType (newCue 150 6 12) = ShotType.normal /\
  shotType (determineShotType (newCue 150 6 12)) = ShotType.stun.
Proof.
  intros Hreach. pose proof (reachable_cueShape s Hreach) as Hq.
  split; [ exact Hq | ].
  destruct Hq as [[Hmp [Hme [Hmf _]]] [Hp [[Hx Hy] _]]].
  rewrite Hmp, Hme, Hmf.
  split; [ exact Hp | ].
  split; [ apply Rabs_le; lra | ].
  split; [ apply Rabs_le; lra | ].
  split; [ reflexivity | ].
  unfold determineShotType. cbn [contactPoint newCue vx vy].
  rewrite Rabs_R0.
  case_test (0 <? 0.1); [ reflexivity | lra ].
Qed.

(** X10.  In every state of a session, of the callbacks that
    [handlePocketedBall] and the cue's shot have handed to [setTimeout]
    (the [timers] of the state; the callbacks of the collision handlers
    are delayed effects of the engine's step and are not among them), each
    pending one is the respawn of one of the six colours on its own spot
    after 1000 ms, or the english curve of the cue ball after two frames of
    16.67 ms: a red or the cue ball is never scheduled to respawn. *)
Theorem pending_timers_shape (s : State) :
  reachable s -> pendingShape s.
Proof.
  intros Hreach. now destruct (reachable_shapes s Hreach) as [_ [_ [_ [H _]]]].
Qed.

(** X11.  In every state of a session the potted history holds at most two
    kinds and never a red; so once it holds two kinds, every further
    colour that is potted is reported as two consecutive colours, whatever
    was potted in between. *)
Theorem potted_history_shape (s : State) :
  reachable s ->
  (length (lastPottedBalls s) <= 2)%nat /\
  Forall isColour (lastPottedBalls s) /\
  includesRed (lastPottedBalls s) = false /\
  (length (lastPottedBalls s) = 2%nat ->
   forall i ball, nth_error (balls s) i = Some ball ->
                  isColour (type ball) ->
                  message (handlePocketedBall i s)
                  = MsgTwoConsecutiveColored).
Proof.
  intros Hreach.
  destruct (reachable_shapes s Hreach) as [_ [_ [[Hlen Hcol] _]]].
  assert (Hred : includesRed (lastPottedBalls s) = false).
  { unfold includesRed. clear Hlen.
    induction Hcol as [ | t l Ht _ IH]; [ reflexivity | ].
    cbn. rewrite IH. destruct Ht as [Ht _].
    destruct t; try reflexivity. contradiction. }
  split; [ exact Hlen | ]. split; [ exact Hcol | ]. split; [ exact Hred | ].
  intros Hfull i ball Hball [Hnr Hnc].
  destruct (handlePocketedBall_colored i s ball Hball Hnc Hnr) as [Hh Hmsg].
  apply Hmsg. rewrite Hh. unfold twoConsecutiveColored.
  rewrite includesRed_pushPotted by assumption.
  rewrite andb_true_r. apply Nat.eqb_eq.
  destruct (lastPottedBalls s) as [ | a [ | b [ | c l]]];
    try discriminate Hfull. reflexivity.
Qed.

(** X12.  In every state of a session the cue aims only while the cue ball
    counts as placed, and the cue ball counts as placed only while it is
    not being placed, is not pocketed and has its body in the world. *)
Theorem aiming_needs_cue_ball_on_table (s : State) :
  reachable s ->
  (isAiming (cue s) = true ->
   cueBallPlaced s = true /\ isVisible (cue s) = true) /\
  (cueBallPlaced s = true ->
   placingCueBall s = false /\
   exists cb, deref s (cueBall s) = Some cb /\ isPocketed cb = false /\
              onTable s cb).
Proof.
  intros Hreach.
  destruct (reachable_shapes s Hreach)
    as [Hs [Hq [_ [_ [Hplaced Haim]]]]].
  split.
  - intros Ha. split; [ now apply Haim | ].
    destruct Hq as [_ [_ [_ [_ Hv]]]]. now apply Hv.
  - intros Hp. destruct (Hplaced Hp) as [H1 [cb [Hcb H2]]].
    split; [ exact H1 | ]. exists cb. split; [ | exact H2 ].
    destruct Hs as [[_ [_ [_ [_ ->]]]] _]. exact Hcb.
Qed.

End SessionTheorems.

Lemma session_keeps_its_balls_witness :
  map type (balls tableInMode1) = ballTypes /\
  distinctBodies tableInMode1 /\
  (forall j b, nth_error (balls tableInMode1) j = Some b ->
               isPocketed b = true ->
               World_has (world tableInMode1) (body_id (body b)) = false) /\
  redBalls tableInMode1 = seq 0 15 /\ coloredBalls tableInMode1 = seq 15 6 /\
  cueBall tableInMode1 = Some 21%nat /\ table tableInMode1 = theTable.
Proof.
  apply (session_keeps_its_balls (ML := ListWorld_laws)).
  exact reachable_tableInMode1.
Defined.

Lemma cue_stays_within_limits_witness :
  cueShape (cue tableInMode1) /\
  0 <= pullback (cue tableInMode1) <= maxPullback (cue tableInMode1) /\
  Rabs (vx (contactPoint (cue tableInMode1))) <= maxEnglish (cue tableInMode1) /\
  Rabs (vy (contactPoint (cue tableInMode1)))
  <= maxFollowDraw (cue tableInMode1) /\
  shotType (newCue 150 6 12) = ShotType.normal /\
  shotType (determineShotType (newCue 150 6 12)) = ShotType.stun.
Proof.
  apply (cue_stays_within_limits (MW := ListWorld)).
  exact reachable_tableInMode1.
Defined.

(** ** No body without a ball *)

Section Ghosts.

Context {MW : MatterWorld} {ML : MatterWorldLaws MW}.

Lemma steps_preserves (P : State -> Prop) (s0 s : State) :
  (forall a b, step a b -> P a -> P b) -> steps s0 s -> P s0 -> P s.
Proof.
  intros Hstep Hsteps H0. induction Hsteps as [ | s0 s s' _ IH Hs]; auto.
  apply (Hstep s s'); auto.
Qed.

Lemma steps_reachable (w0 : World) (n0 : nat) (rng_ : nat -> R) (s : State) :
  steps (setup w0 n0 rng_) s -> reachable s.
Proof.
  intros H. apply (steps_preserves reachable (setup w0 n0 rng_) s);
    [ | exact H | apply reachable_setup ].
  intros a b Hab Ha. now apply (reachable_step a b).
Qed.

Lemma ghost_same (w0 : World) (s s' : State) :
  sameStructure s s' -> noGhostBodies w0 s -> noGhostBodies w0 s'.
Proof.
  intros [Hballs [Hw _]] Hs id Hid. rewrite Hw in Hid.
  destruct (Hs id Hid) as [H0 | [j [b [Hj [Hb Hp]]]]]; [ now left | right ].
  destruct (Forall2_nth_error_left _ _ _ Hballs j b Hj)
    as [b' [Hj' [_ [Hp' Hid']]]].
  exists j, b'. split; [ exact Hj' | ]. split; congruence.
Qed.

Lemma ghost_pocket (w0 : World) (i : nat) (s : State) :
  noGhostBodies w0 s -> noGhostBodies w0 (pocket i s).
Proof.
  intros Hs. unfold pocket.
  destruct (nth_error (balls s) i) as [ball | ] eqn:Hi; [ | exact Hs ].
  intros id Hid. cbn [world set_world updateBall set_balls] in Hid.
  rewrite World_has_remove in Hid. apply andb_true_iff in Hid.
  destruct Hid as [Hid Hne]. apply negb_true_iff, Nat.eqb_neq in Hne.
  destruct (Hs id Hid) as [H0 | [j [b [Hj [Hb Hp]]]]]; [ now left | right ].
  exists j, b. split; [ | now split ].
  cbn [balls set_world updateBall set_balls].
  rewrite nth_error_list_update_other; [ exact Hj | ].
  intros ->. rewrite Hi in Hj. injection Hj as <-. congruence.
Qed.

Lemma ghost_clear (w0 : World) (i : nat) (s : State) :
  noGhostBodies w0 s -> noGhostBodies w0 (clearBall i s).
Proof.
  intros Hs. unfold clearBall.
  destruct (nth_error (balls s) i) as [ball | ] eqn:Hi; [ | exact Hs ].
  destruct (isPocketed ball) eqn:Hp; cbn [negb]; intros id Hid;
    cbn [world set_world updateBall set_balls] in Hid.
  - destruct (Hs id Hid) as [H0 | [j [b [Hj [Hb Hpb]]]]]; [ now left | right ].
    exists j, b. split; [ | now split ].
    cbn [balls set_world updateBall set_balls].
    rewrite nth_error_list_update_other; [ exact Hj | ].
    intros ->. rewrite Hi in Hj. injection Hj as <-. congruence.
  - rewrite World_has_remove in Hid. apply andb_true_iff in Hid.
    destruct Hid as [Hid Hne]. apply negb_true_iff, Nat.eqb_neq in Hne.
    destruct (Hs id Hid) as [H0 | [j [b [Hj [Hb Hpb]]]]]; [ now left | right ].
    exists j, b. split; [ | now split ].
    cbn [balls set_world updateBall set_balls].
    rewrite nth_error_list_update_other; [ exact Hj | ].
    intros ->. rewrite Hi in Hj. injection Hj as <-. congruence.
Qed.

Lemma ghost_respawn (w0 : World) (i : nat) (x y : R) (s : State) :
  noGhostBodies w0 s -> noGhostBodies w0 (respawn i x y s).
Proof.
  intros Hs. unfold respawn.
  destruct (nth_error (balls s) i) as [ball | ] eqn:Hi; [ | exact Hs ].
  intros id Hid. cbn [world set_world updateBall set_balls set_nextId] in Hid.
  rewrite World_has_add, World_has_remove in Hid.
  apply orb_true_iff in Hid. destruct Hid as [Hid | Hid].
  - apply andb_true_iff in Hid.
    destruct Hid as [Hid Hne]. apply negb_true_iff, Nat.eqb_neq in Hne.
    destruct (Hs id Hid) as [H0 | [j [b [Hj [Hb Hpb]]]]]; [ now left | right ].
    exists j, b. split; [ | now split ].
    cbn [balls set_world updateBall set_balls set_nextId].
    rewrite nth_error_list_update_other; [ exact Hj | ].
    intros ->. rewrite Hi in Hj. injection Hj as <-. congruence.
  - apply Nat.eqb_eq in Hid. right. eexists i, _. split; [ | split ].
    + cbn [balls set_world updateBall set_balls set_nextId].
      rewrite nth_error_list_update_same, Hi. reflexivity.
    + cbn. now rewrite Hid.
    + reflexivity.
Qed.

Lemma createBall_world (t : BallType.t) (v : R) (w0 : World) (s : State) :
  (forall id, World_has (world s) id = true -> World_has w0 id = true) ->
  forall id, World_has (world (createBall t v s)) id = true ->
             World_has w0 id = true.
Proof.
  intros Hs id. unfold createBall. cbn [world set_world].
  rewrite World_has_remove, World_has_add. intros H. apply Hs.
  apply andb_true_iff in H. destruct H as [H Hne].
  apply orb_true_iff in H. destruct H as [H | H]; [ exact H | ].
  rewrite H in Hne. discriminate Hne.
Qed.

Lemma world_ball_lists (w0 : World) (s : State) :
  (forall id, World_has (world s) id = true -> World_has w0 id = true) ->
  noGhostBodies w0
    (showMessage MsgPressMode 2000
       (mkState (world s) (nextId s) (table s) (cue s) (balls s) (seq 0 15)
                (seq 15 6) (Some 21%nat) (gameMode s) (cueBallPlaced s)
                (placingCueBall s) (lastPottedBalls s) (message s)
                (messageDuration s) (timers s) (rng s) (rngPos s))).
Proof. intros Hs id Hid. left. now apply Hs. Qed.

Lemma setup_ghost (w0 : World) (n0 : nat) (rng_ : nat -> R) :
  noGhostBodies w0 (setup w0 n0 rng_).
Proof.
  unfold setup, initializeBalls. cbv zeta.
  apply world_ball_lists.
  do 7 apply createBall_world.
  apply (fold_left_preserves
           (fun st => forall id, World_has (world st) id = true ->
                                 World_has w0 id = true)).
  - intros st _. apply createBall_world.
  - intros id Hid. exact Hid.
Qed.

(** X13.  The world never holds a stray ball body: in every state of a
    session, a body in the world was put there before the balls were made
    (a cushion), or is the body of a ball object that is not pocketed.  A
    respawn or a change of mode leaves no old body behind. *)
Theorem no_ghost_bodies (w0 : World) (n0 : nat) (rng_ : nat -> R)
        (s : State) :
  steps (setup w0 n0 rng_) s -> noGhostBodies w0 s.
Proof.
  intros Hsteps.
  apply (steps_preserves (noGhostBodies w0) (setup w0 n0 rng_) s);
    [ | exact Hsteps | apply setup_ghost ].
  apply step_structural.
  - apply ghost_same.
  - intros i st. apply ghost_pocket.
  - intros i x y st. apply ghost_respawn.
  - intros i st. apply ghost_clear.
Qed.

End Ghosts.

Lemma no_ghost_bodies_witness :
  noGhostBodies ListWorld_empty tableInMode1.
Proof.
  apply (no_ghost_bodies (ML := ListWorld_laws) ListWorld_empty 0
                         (fun _ => 0)).
  unfold tableInMode1.
  exact (steps_step _ _ _ (steps_refl _) (step_keyPressed Key1 _)).
Defined.

(** ** The pocket pass, respawns and random placement *)

Section PocketCheck.

Context {MW : MatterWorld}.

Lemma handlePocketedBall_balls (i : nat) (s : State) :
  balls (handlePocketedBall i s)
  = list_update i (fun b => set_isPocketed b true) (balls s) /\
  table (handlePocketedBall i s) = table s.
Proof.
  unfold handlePocketedBall.
  destruct (nth_error (balls s) i) as [ball | ] eqn:Hi.
  - unfold pocket. rewrite Hi.
    destruct (type ball); try destruct (twoConsecutiveColored _);
      split; reflexivity.
  - split; [ | reflexivity ].
    clear - Hi. revert i Hi.
    induction (balls s) as [ | a l IH]; intros [ | i] Hi; cbn in *;
      try reflexivity; try discriminate.
    f_equal. now apply IH.
Qed.

(** The state after the callback of [checkPocketedBalls] has run for the
    ball objects [0 .. k - 1]. *)
Lemma checkPocketedBalls_prefix (s : State) (k : nat) :
  (k <= length (balls s))%nat ->
  let st := fold_left (fun st i => checkPocketedBall i st) (seq 0 k) s in
  table st = table s /\ length (balls st) = length (balls s) /\
  forall i b, nth_error (balls s) i = Some b ->
              nth_error (balls st) i
              = Some (if Nat.ltb i k
                      then pocketedIfCaptured (pockets (table s)) b else b).
Proof.
  induction k as [ | k IH]; intros Hk; cbv zeta.
  - cbn. split; [ reflexivity | ]. split; [ reflexivity | ].
    intros i b Hi. exact Hi.
  - rewrite seq_S, fold_left_app. cbn [fold_left Nat.add].
    destruct (IH ltac:(lia)) as [Htab [Hlen Hballs]].
    set (st := fold_left _ (seq 0 k) s) in *. clearbody st.
    assert (Hlt : (k < length (balls s))%nat) by lia.
    apply nth_error_Some in Hlt.
    destruct (nth_error (balls s) k) as [bk | ] eqn:Hbk; [ | congruence ].
    pose proof (Hballs k bk Hbk) as Hstk.
    rewrite Nat.ltb_irrefl in Hstk.
    unfold checkPocketedBall. rewrite Hstk, Htab.
    destruct (negb (isPocketed bk) && checkPocket bk (pockets (table s)))
      eqn:Hcap.
    + destruct (handlePocketedBall_balls k st) as [-> ->].
      split; [ exact Htab | ].
      split; [ now rewrite length_list_update | ]. intros i b Hi.
      destruct (Nat.eq_dec k i) as [<- | Hki].
      * rewrite nth_error_list_update_same, Hstk.
        rewrite Hbk in Hi. injection Hi as <-.
        replace (Nat.ltb k (S k)) with true
          by (symmetry; apply Nat.ltb_lt; lia).
        unfold pocketedIfCaptured. now rewrite Hcap.
      * rewrite nth_error_list_update_other by exact Hki.
        rewrite (Hballs i b Hi).
        replace (Nat.ltb i (S k)) with (Nat.ltb i k); [ reflexivity | ].
        destruct (Nat.ltb_spec i k); symmetry;
          [ apply Nat.ltb_lt | apply Nat.ltb_ge ]; lia.
    + split; [ exact Htab | ]. split; [ exact Hlen | ]. intros i b Hi.
      rewrite (Hballs i b Hi).
      destruct (Nat.eq_dec k i) as [<- | Hki].
      * rewrite Hbk in Hi. injection Hi as <-.
        rewrite Nat.ltb_irrefl.
        replace (Nat.ltb k (S k)) with true
          by (symmetry; apply Nat.ltb_lt; lia).
        unfold pocketedIfCaptured. now rewrite Hcap.
      * replace (Nat.ltb i (S k)) with (Nat.ltb i k); [ reflexivity | ].
        destruct (Nat.ltb_spec i k); symmetry;
          [ apply Nat.ltb_lt | apply Nat.ltb_ge ]; lia.
Qed.

Lemma checkPocketedBalls_map (s : State) :
  balls (checkPocketedBalls s)
  = map (pocketedIfCaptured (pockets (table s))) (balls s) /\
  table (checkPocketedBalls s) = table s.
Proof.
  destruct (checkPocketedBalls_prefix s (length (balls s)) (le_n _))
    as [Htab [Hlen Hballs]].
  unfold checkPocketedBalls, forEachBall.
  set (st := fold_left _ _ s) in *. clearbody st.
  split; [ | exact Htab ].
  apply nth_error_ext. intros i.
  destruct (nth_error (balls s) i) as [b | ] eqn:Hi.
  - rewrite (Hballs i b Hi), (map_nth_error _ _ _ Hi).
    replace (Nat.ltb i (length (balls s))) with true; [ reflexivity | ].
    symmetry. apply Nat.ltb_lt. apply nth_error_Some. congruence.
  - assert (Hmap : nth_error (map (pocketedIfCaptured (pockets (table s)))
                                  (balls s)) i = None).
    { apply nth_error_None. rewrite length_map.
      now apply nth_error_None. }
    rewrite Hmap.
    apply nth_error_None. rewrite Hlen. now apply nth_error_None.
Qed.

End PocketCheck.

Section Respawning.

Context {MW : MatterWorld} {ML : MatterWorldLaws MW}.

(** What a respawn makes of the ball. *)
Lemma respawn_placedAt (i : nat) (x y : R) (s : State) (ball : Ball) :
  nth_error (balls s) i = Some ball ->
  placedAt (respawn i x y s) i (mkVec x y) /\
  exists b', nth_error (balls (respawn i x y s)) i = Some b' /\
             type b' = type ball /\ body_id (body b') = nextId s.
Proof.
  intros Hi. unfold placedAt, respawn. rewrite Hi.
  cbn [balls set_world updateBall set_balls set_nextId].
  rewrite nth_error_list_update_same, Hi. cbn [option_map].
  split.
  - eexists. split; [ reflexivity | ].
    split; [ reflexivity | ]. split; [ reflexivity | ].
    split; [ split; reflexivity | ].
    unfold onTable. cbn. rewrite World_has_add, Nat.eqb_refl.
    apply orb_true_r.
  - eexists. split; [ reflexivity | ]. split; reflexivity.
Qed.

(** X14.  A potted colour comes back on its spot.  Potting a colour marks
    it pocketed, takes its body out of the world and schedules one respawn
    on the spot of its kind after 1000 ms.  When that timer fires, in
    whatever state the session then is, the ball is on the table again on
    its spot, at rest and not pocketed; the respawn does not look at the
    other ball objects, which stay as they are even if one lies on the
    spot. *)
Theorem potted_colour_returns_to_its_spot
        (i : nat) (s s' : State) (ball ball' : Ball) :
  nth_error (balls s) i = Some ball -> isColour (type ball) ->
  nth_error (balls s') i = Some ball' ->
  let spot := getBallSpot (table s) (type ball) in
  let potted := handlePocketedBall i s in
  let back := fireTimer (TimerRespawn i spot) s' in
  timers potted = timers s ++ [(TimerRespawn i spot, 1000)] /\
  (exists b, nth_error (balls potted) i = Some b /\ isPocketed b = true /\
             World_has (world potted) (body_id (body b)) = false) /\
  placedAt back i spot /\
  (forall j, j <> i -> nth_error (balls back) j = nth_error (balls s') j).
Proof.
  intros Hi [Hnr Hnc] Hi'. cbv zeta.
  pose proof (handlePocketedBall_summary i s ball Hi) as Hsum.
  cbv zeta in Hsum. destruct Hsum as [Hb [Hw Hsum]].
  split; [ | split; [ | split ] ].
  - destruct (type ball); try contradiction; apply Hsum.
  - rewrite Hb, Hw. unfold pocket. rewrite Hi.
    cbn [balls world set_world updateBall set_balls].
    rewrite nth_error_list_update_same, Hi. cbn [option_map].
    eexists. split; [ reflexivity | ]. split; [ reflexivity | ].
    cbn. rewrite World_has_remove, Nat.eqb_refl. apply andb_false_r.
  - cbn [fireTimer].
    destruct (getBallSpot (table s) (type ball)) as [x y] eqn:Hspot.
    cbn [vx vy]. now apply (respawn_placedAt i x y s' ball').
  - intros j Hj. cbn [fireTimer]. apply respawn_other. congruence.
Qed.

End Respawning.

Lemma potted_colour_returns_to_its_spot_witness :
  let s := mkState (MW := ListWorld) [7%nat] 8 theTable (newCue 150 6 12)
                   [set_body (newBall 7 0 0 (400 / 68) BallType.blue 5)
                             (mkBody 7 (mkVec 350 410) (mkVec 0 0) 0
                                     (mkVec 0 0))]
                   [] [0%nat] None 1 false true [] MsgNone 0 []
                   (fun _ => 0) 0 in
  let potted := handlePocketedBall 0 s in
  let back := fireTimer (TimerRespawn 0 (getBallSpot theTable BallType.blue))
                        potted in
  timers potted = [(TimerRespawn 0 (getBallSpot theTable BallType.blue), 1000)] /\
  (exists b, nth_error (balls potted) 0 = Some b /\ isPocketed b = true /\
             World_has (world potted) (body_id (body b)) = false) /\
  placedAt back 0 (getBallSpot theTable BallType.blue) /\
  (forall j, j <> 0%nat ->
             nth_error (balls back) j = nth_error (balls potted) j).
Proof.
  intros s potted back.
  apply (potted_colour_returns_to_its_spot
           (ML := ListWorld_laws) 0 s potted
           (set_body (newBall 7 0 0 (400 / 68) BallType.blue 5)
                     (mkBody 7 (mkVec 350 410) (mkVec 0 0) 0 (mkVec 0 0)))
           (set_isPocketed
              (set_body (newBall 7 0 0 (400 / 68) BallType.blue 5)
                        (mkBody 7 (mkVec 350 410) (mkVec 0 0) 0 (mkVec 0 0)))
              true)).
  - reflexivity.
  - split; discriminate.
  - reflexivity.
Defined.

Section RandomPlacement.

Context {MW : MatterWorld}.

Lemma isValidBallPosition_rngPos (x y : R) (b : option nat) (s : State)
      (n : nat) :
  isValidBallPosition x y b (set_rngPos s n) = isValidBallPosition x y b s.
Proof. reflexivity. Qed.

Lemma samplePoint_rngPos (s : State) (n k : nat) :
  samplePoint (set_rngPos s (rngPos s + 2 * n)) k = samplePoint s (n + k).
Proof.
  unfold samplePoint. cbn [rng rngPos table set_rngPos].
  replace (rngPos s + 2 * n + 2 * k)%nat with (rngPos s + 2 * (n + k))%nat
    by lia.
  reflexivity.
Qed.

(** The loop, attempt by attempt. *)
Lemma placementLoop_trace (remaining attempts i : nat) (s : State) :
  (exists k, (k < remaining)%nat /\
     (forall j, (j < k)%nat ->
        isValidBallPosition (vx (samplePoint s j)) (vy (samplePoint s j))
                            (Some i) s = false) /\
     isValidBallPosition (vx (samplePoint s k)) (vy (samplePoint s k))
                         (Some i) s = true /\
     placementLoop remaining attempts i s
     = (respawn i (vx (samplePoint s k)) (vy (samplePoint s k))
                (set_rngPos s (rngPos s + 2 * S k)),
        true, (attempts + S k)%nat)) \/
  ((forall j, (j < remaining)%nat ->
      isValidBallPosition (vx (samplePoint s j)) (vy (samplePoint s j))
                          (Some i) s = false) /\
   placementLoop remaining attempts i s
   = (set_rngPos s (rngPos s + 2 * remaining), false,
      (attempts + remaining)%nat)).
Proof.
  revert attempts s.
  induction remaining as [ | remaining IH]; intros attempts s.
  - right. split; [ intros j Hj; lia | ].
    cbn. rewrite !Nat.add_0_r. destruct s. reflexivity.
  - cbn [placementLoop]. unfold random. cbv zeta.
    cbn [rng rngPos table set_rngPos].
    set (p := samplePoint s 0).
    assert (Hp : p = mkVec (rng s (rngPos s)
                            * (playAreaX (table s) + playAreaWidth (table s)
                               - ballRadius (table s) * 2
                               - (playAreaX (table s)
                                  + ballRadius (table s) * 2))
                            + (playAreaX (table s) + ballRadius (table s) * 2))
                           (rng s (S (rngPos s))
                            * (playAreaY (table s) + playAreaLength (table s)
                               - ballRadius (table s) * 2
                               - (playAreaY (table s)
                                  + ballRadius (table s) * 2))
                            + (playAreaY (table s) + ballRadius (table s) * 2))).
    { unfold p, samplePoint. rewrite Nat.mul_0_r, Nat.add_0_r.
      replace (rngPos s + 1)%nat with (S (rngPos s)) by lia. reflexivity. }
    apply (f_equal vx) in Hp as Hpx. apply (f_equal vy) in Hp as Hpy.
    cbn [vx vy] in Hpx, Hpy. rewrite <- Hpx, <- Hpy.
    change (isValidBallPosition (vx p) (vy p) (Some i)
              (set_rngPos (set_rngPos s (S (rngPos s))) (S (S (rngPos s)))))
      with (isValidBallPosition (vx p) (vy p) (Some i) s).
    replace (set_rngPos (set_rngPos s (S (rngPos s))) (S (S (rngPos s))))
      with (set_rngPos s (rngPos s + 2 * 1))
      by (destruct s; unfold set_rngPos; cbn; f_equal; lia).
    destruct (isValidBallPosition (vx p) (vy p) (Some i) s) eqn:Hvalid.
    + left. exists 0%nat. split; [ lia | ].
      split; [ intros j Hj; lia | ]. split; [ exact Hvalid | ].
      fold p. do 2 f_equal. lia.
    + destruct (IH (S attempts) (set_rngPos s (rngPos s + 2 * 1)))
        as [[k [Hk [Hrej [Hacc Hloop]]]] | [Hrej Hloop]].
      * left. exists (S k). split; [ lia | ].
        rewrite samplePoint_rngPos, isValidBallPosition_rngPos in Hacc.
        rewrite samplePoint_rngPos in Hloop.
        split; [ | split; [ exact Hacc | ] ].
        -- intros [ | j] Hj; [ exact Hvalid | ].
           specialize (Hrej j ltac:(lia)).
           now rewrite samplePoint_rngPos, isValidBallPosition_rngPos in Hrej.
        -- rewrite Hloop. f_equal; [ f_equal | lia ].
           f_equal. destruct s; unfold set_rngPos; cbn. f_equal. lia.
      * right. split.
        -- intros [ | j] Hj; [ exact Hvalid | ].
           specialize (Hrej j ltac:(lia)).
           now rewrite samplePoint_rngPos, isValidBallPosition_rngPos in Hrej.
        -- rewrite Hloop. f_equal; [ f_equal | lia ].
           destruct s; unfold set_rngPos; cbn. f_equal. lia.
Qed.

(** X15.  The random placement of one ball tries the sample points in turn,
    two random draws for each, and at most 100 of them.  It respawns the
    ball at the first point that the placement test accepts; when the test
    rejects all 100, it gives up without a message and changes nothing but
    the count of draws, so that the ball stays off the table. *)
Theorem placeRandomly_attempts (i : nat) (s : State) :
  (exists k, (k < 100)%nat /\
     (forall j, (j < k)%nat ->
        isValidBallPosition (vx (samplePoint s j)) (vy (samplePoint s j))
                            (Some i) s = false) /\
     isValidBallPosition (vx (samplePoint s k)) (vy (samplePoint s k))
                         (Some i) s = true /\
     placeRandomly i s
     = respawn i (vx (samplePoint s k)) (vy (samplePoint s k))
               (set_rngPos s (rngPos s + 2 * S k))) \/
  ((forall j, (j < 100)%nat ->
      isValidBallPosition (vx (samplePoint s j)) (vy (samplePoint s j))
                          (Some i) s = false) /\
   placeRandomly i s = set_rngPos s (rngPos s + 200)).
Proof.
  unfold placeRandomly.
  destruct (placementLoop_trace 100 0 i s)
    as [[k [Hk [Hrej [Hacc Hloop]]]] | [Hrej Hloop]]; rewrite Hloop.
  - left. exists k. now repeat split.
  - right. now split.
Qed.

End RandomPlacement.

Lemma list_update_beyond {A : Type} (i : nat) (f : A -> A) (l : list A) :
  nth_error l i = None -> list_update i f l = l.
Proof.
  revert i. induction l as [ | a l IH]; intros [ | i] Hi; cbn in *;
    try reflexivity; try discriminate.
  f_equal. now apply IH.
Qed.

Section Layout.

Context {MW : MatterWorld} {ML : MatterWorldLaws MW}.

Lemma clearBall_balls (i : nat) (s : State) :
  balls (clearBall i s)
  = list_update i (fun b => set_isPocketed b false) (balls s).
Proof.
  unfold clearBall. destruct (nth_error (balls s) i) as [ball | ] eqn:Hi.
  - destruct (isPocketed ball); reflexivity.
  - symmetry. now apply list_update_beyond.
Qed.

(** After [clearAllBalls] no ball object is marked pocketed. *)
Lemma clearAllBalls_unpockets (s : State) :
  forall j b, nth_error (balls (clearAllBalls s)) j = Some b ->
              isPocketed b = false.
Proof.
  assert (Hgen : forall l st j b,
             (In j l \/ forall b', nth_error (balls st) j = Some b' ->
                                   isPocketed b' = false) ->
             nth_error (balls (fold_left (fun st i => clearBall i st) l st))
                       j = Some b ->
             isPocketed b = false).
  { induction l as [ | i l IH]; intros st j b Hj Hb.
    - cbn in Hb. destruct Hj as [[] | Hj]. now apply Hj.
    - cbn [fold_left] in Hb. revert Hb. apply IH.
      destruct (Nat.eq_dec i j) as [<- | Hij].
      + right. intros b'. rewrite clearBall_balls.
        rewrite nth_error_list_update_same.
        destruct (nth_error (balls st) i); [ | discriminate ].
        intros H. injection H as <-. reflexivity.
      + destruct Hj as [[Hj | Hj] | Hj]; [ contradiction | now left | right ].
        intros b'. rewrite clearBall_balls.
        rewrite nth_error_list_update_other by exact Hij. apply Hj. }
  intros j b Hb. unfold clearAllBalls, forEachBall in Hb.
  revert Hb. apply Hgen.
  destruct (Nat.lt_ge_cases j (length (balls s))) as [Hlt | Hge].
  - left. apply in_seq. lia.
  - right. intros b' Hb'. apply nth_error_None in Hge. congruence.
Qed.

(** ** Runs of respawns *)

Lemma placedAt_respawn_other (i j : nat) (x y : R) (p : Vec) (s : State) :
  sessionShape s -> i <> j ->
  placedAt s j p -> placedAt (respawn i x y s) j p.
Proof.
  intros [_ [Hd _]] Hij [b [Hb [Hp [Hpos [Hrest Hon]]]]].
  exists b. rewrite respawn_other by exact Hij.
  split; [ exact Hb | ]. split; [ exact Hp | ]. split; [ exact Hpos | ].
  split; [ exact Hrest | ].
  unfold onTable, respawn in *.
  destruct (nth_error (balls s) i) as [ball | ] eqn:Hi; [ | exact Hon ].
  cbn [world set_world updateBall set_balls set_nextId].
  rewrite World_has_add, World_has_remove, Hon. cbn [andb].
  assert (Hne : body_id (body b) <> body_id (body ball))
    by (apply (Hd j i); auto).
  apply Nat.eqb_neq in Hne. now rewrite Hne.
Qed.

Lemma placeAll_shape (l : list (nat * Vec)) (s : State) :
  sessionShape s -> sessionShape (placeAll l s).
Proof.
  unfold placeAll. apply fold_left_preserves. intros st ip.
  apply shape_respawn.
Qed.

Lemma placeAll_other (l : list (nat * Vec)) (s : State) (j : nat) :
  sessionShape s -> ~ In j (map fst l) ->
  nth_error (balls (placeAll l s)) j = nth_error (balls s) j /\
  (forall p, placedAt s j p -> placedAt (placeAll l s) j p) /\
  (forall b, nth_error (balls s) j = Some b -> ~ onTable s b ->
             ~ onTable (placeAll l s) b).
Proof.
  revert s. induction l as [ | [i q] l IH]; intros s Hs Hj.
  - cbn. repeat split; auto.
  - cbn [map fst In] in Hj.
    assert (Hij : i <> j) by tauto.
    assert (Hjl : ~ In j (map fst l)) by tauto.
    change (placeAll ((i, q) :: l) s)
      with (placeAll l (respawn i (vx q) (vy q) s)).
    destruct (IH (respawn i (vx q) (vy q) s)
                 (shape_respawn i (vx q) (vy q) s Hs) Hjl)
      as [Hnth [Hplaced Hoff]].
    split; [ | split ].
    + rewrite Hnth. now apply respawn_other.
    + intros p Hp. apply Hplaced. now apply placedAt_respawn_other.
    + intros b Hb Hnot. apply Hoff.
      * now rewrite respawn_other.
      * intros Hon. apply Hnot.
        apply (respawn_onTable_other i j (vx q) (vy q) s b); auto.
        apply Hs.
Qed.

Lemma placeAll_placed (l : list (nat * Vec)) (s : State) :
  sessionShape s -> NoDup (map fst l) ->
  (forall i p, In (i, p) l -> (i < length (balls s))%nat) ->
  forall i p, In (i, p) l -> placedAt (placeAll l s) i p.
Proof.
  revert s. induction l as [ | [i q] l IH]; intros s Hs Hnd Hlen j p Hin.
  - destruct Hin.
  - cbn [map fst] in Hnd. apply NoDup_cons_iff in Hnd.
    destruct Hnd as [Hil Hnd].
    change (placeAll ((i, q) :: l) s)
      with (placeAll l (respawn i (vx q) (vy q) s)).
    pose proof (shape_respawn i (vx q) (vy q) s Hs) as Hs1.
    destruct Hin as [Hin | Hin].
    + injection Hin as <- <-.
      apply (placeAll_other l _ i Hs1 Hil).
      assert (Hi : (i < length (balls s))%nat)
        by (apply (Hlen i q); now left).
      apply nth_error_Some in Hi.
      destruct (nth_error (balls s) i) as [ball | ] eqn:Hball;
        [ | congruence ].
      destruct q as [x y].
      now apply (respawn_placedAt i x y s ball).
    + apply IH; auto.
      intros i' p' Hin'.
      assert (Hl : length (balls (respawn i (vx q) (vy q) s))
                   = length (balls s)).
      { destruct Hs as [_ [_ [Hty _]]]. destruct Hs1 as [_ [_ [Hty1 _]]].
        rewrite <- (length_map type), Hty1, <- Hty. apply length_map. }
      rewrite Hl. apply (Hlen i' p'). now right.
Qed.

Lemma placeReds_placeAll (positions : list Vec) (reds : list nat)
      (s : State) :
  placeReds positions reds s = placeAll (combine reds positions) s.
Proof.
  revert positions s. induction reds as [ | i reds IH]; intros positions s.
  - destruct positions; reflexivity.
  - destruct positions as [ | p positions]; [ reflexivity | ].
    cbn [placeReds combine]. now rewrite IH.
Qed.

Lemma placeOnSpots_placeAll (l : list nat) (s : State) :
  sessionShape s -> (forall i, In i l -> (i < 22)%nat) ->
  forEachOf l placeOnSpot s
  = placeAll (map (fun i => (i, getBallSpot theTable
                                            (nth i ballTypes BallType.cue)))
                  l) s.
Proof.
  revert s. induction l as [ | i l IH]; intros s Hs Hl; [ reflexivity | ].
  unfold forEachOf, placeAll in *. cbn [fold_left map fst snd].
  assert (Hi : (i < 22)%nat) by (apply Hl; now left).
  assert (Hlen : length (balls s) = 22%nat).
  { destruct Hs as [_ [_ [Hty _]]].
    rewrite <- (length_map type), Hty. reflexivity. }
  assert (Hsome : nth_error (balls s) i <> None)
    by (apply nth_error_Some; lia).
  destruct (nth_error (balls s) i) as [ball | ] eqn:Hball; [ | congruence ].
  assert (Hstep : placeOnSpot i s
                  = respawn i
                      (vx (getBallSpot theTable (nth i ballTypes BallType.cue)))
                      (vy (getBallSpot theTable (nth i ballTypes BallType.cue)))
                      s).
  { unfold placeOnSpot. rewrite Hball.
    pose proof (shape_type_at s i ball Hs Hball) as Hty.
    apply (nth_error_nth _ _ BallType.cue) in Hty. rewrite Hty.
    destruct Hs as [_ [_ [_ ->]]]. reflexivity. }
  rewrite Hstep. apply IH.
  - now apply shape_respawn.
  - intros i' Hi'. apply Hl. now right.
Qed.

End Layout.

(** ** The starting position *)

Section ModeKeys.

Context {MW : MatterWorld} {ML : MatterWorldLaws MW}.

Lemma placedAt_same (s s' : State) (i : nat) (p : Vec) :
  balls s' = balls s -> world s' = world s ->
  placedAt s i p -> placedAt s' i p.
Proof.
  intros Hb Hw. unfold placedAt, onTable. now rewrite Hb, Hw.
Qed.

Lemma setupBallsMode_unfold (mode : nat) (s : State) :
  setupBallsMode mode s
  = set_placingCueBall
      (set_cueBallPlaced
         (match mode with
          | 1%nat => showMessage (MsgMode 1) 2000
                                 (setupStartingPosition (afterClear mode s))
          | 2%nat => showMessage (MsgMode 2) 2000
                                 (setupRandomReds (afterClear mode s))
          | 3%nat => showMessage (MsgMode 3) 2000
                                 (setupRandomAll (afterClear mode s))
          | _ => afterClear mode s
          end) false) true.
Proof. reflexivity. Qed.

(** The state in which the setups of [setupBallsMode] start: no ball is
    pocketed or on the table. *)
Lemma cleared_table (mode : nat) (s : State) :
  reachable s ->
  sessionShape (afterClear mode s) /\
  (forall j b, nth_error (balls (afterClear mode s)) j = Some b ->
               isPocketed b = false /\ ~ onTable (afterClear mode s) b).
Proof.
  intros Hreach.
  pose proof (reachable_shape s Hreach) as Hs.
  assert (Hs0 : sessionShape (clearAllBalls s)).
  { now apply (clearAllBalls_structural sessionShape shape_clear). }
  split.
  - apply (shape_same (clearAllBalls s)); [ | exact Hs0 ].
    now apply sameStructure_fields.
  - intros j b Hj. change (balls (afterClear mode s))
      with (balls (clearAllBalls s)) in Hj. split.
    + now apply (clearAllBalls_unpockets s j).
    + unfold onTable.
      change (world (afterClear mode s)) with (world (clearAllBalls s)).
      destruct Hs as [Hwf _].
      exact (clearAllBalls_empties s Hwf j b Hj).
Qed.

Lemma shape_length (s : State) : sessionShape s -> length (balls s) = 22%nat.
Proof.
  intros [_ [_ [Hty _]]]. rewrite <- (length_map type), Hty. reflexivity.
Qed.

Lemma rack_length : length (getRedBallPositions theTable) = 15%nat.
Proof. reflexivity. Qed.

Lemma combine_seq_nth {A : Type} (l : list A) (start k : nat) (a : A) :
  nth_error l k = Some a ->
  nth_error (combine (seq start (length l)) l) k = Some ((start + k)%nat, a).
Proof.
  revert start k. induction l as [ | b l IH]; intros start [ | k] Hk;
    try discriminate Hk.
  - cbn in *. injection Hk as <-. now rewrite Nat.add_0_r.
  - cbn [length seq combine nth_error] in *.
    rewrite (IH (S start) k Hk). do 2 f_equal. lia.
Qed.

(** The starting position, from a cleared table. *)
Lemma setupStartingPosition_layout (s1 : State) :
  sessionShape s1 ->
  (forall j b, nth_error (balls s1) j = Some b ->
               isPocketed b = false /\ ~ onTable s1 b) ->
  let s3 := setupStartingPosition s1 in
  (forall k p, nth_error (getRedBallPositions theTable) k = Some p ->
               placedAt s3 k p) /\
  (forall i t, (15 <= i < 21)%nat -> nth_error ballTypes i = Some t ->
               placedAt s3 i (getBallSpot theTable t)) /\
  (exists cb, nth_error (balls s3) 21 = Some cb /\ isPocketed cb = false /\
              ~ onTable s3 cb).
Proof.
  intros Hs1 Hclear. cbv zeta.
  assert (Htab : table s1 = theTable) by apply Hs1.
  assert (Hreds : redBalls s1 = seq 0 15) by apply Hs1.
  pose proof (shape_length s1 Hs1) as Hlen.
  unfold setupStartingPosition.
  rewrite Htab, Hreds, placeReds_placeAll.
  set (reds := combine (seq 0 15) (getRedBallPositions theTable)).
  assert (Hredidx : map fst reds = seq 0 15) by reflexivity.
  assert (Hrednth : forall k p,
             nth_error (getRedBallPositions theTable) k = Some p ->
             In (k, p) reds).
  { intros k p Hk. apply (nth_error_In _ k). unfold reds.
    rewrite <- rack_length. now apply (combine_seq_nth _ 0 k p). }
  clearbody reds.
  set (s2 := placeAll reds s1).
  assert (Hs2 : sessionShape s2) by now apply placeAll_shape.
  assert (Hc2 : coloredBalls s2 = seq 15 6) by apply Hs2.
  rewrite Hc2.
  rewrite (placeOnSpots_placeAll (seq 15 6) s2 Hs2)
    by (intros i Hi; apply in_seq in Hi; lia).
  set (cols := map _ (seq 15 6)).
  assert (Hcolidx : map fst cols = seq 15 6).
  { unfold cols. rewrite map_map. cbn [fst]. apply map_id. }
  assert (Hcolnth : forall i t, (15 <= i < 21)%nat ->
                                nth_error ballTypes i = Some t ->
                                In (i, getBallSpot theTable t) cols).
  { intros i t Hi Ht. unfold cols. apply in_map_iff. exists i. split.
    - f_equal. f_equal. now apply nth_error_nth.
    - apply in_seq. lia. }
  clearbody cols.
  assert (Hred2 : forall k p,
             nth_error (getRedBallPositions theTable) k = Some p ->
             placedAt s2 k p).
  { intros k p Hk. apply (placeAll_placed reds s1 Hs1).
    - rewrite Hredidx. apply seq_NoDup.
    - intros i q Hin.
      assert (Hi : In i (map fst reds))
        by (apply in_map_iff; now exists (i, q)).
      rewrite Hredidx in Hi. apply in_seq in Hi. lia.
    - now apply Hrednth. }
  assert (H21 : nth_error (balls s1) 21 <> None)
    by (apply nth_error_Some; lia).
  destruct (nth_error (balls s1) 21) as [cb | ] eqn:Hcb; [ | congruence ].
  destruct (Hclear 21%nat cb Hcb) as [Hp Hoff].
  destruct (placeAll_other reds s1 21 Hs1) as [Hn2 [_ Hoff2]].
  { rewrite Hredidx. intros Hin. apply in_seq in Hin. lia. }
  fold s2 in Hn2, Hoff2. clearbody s2.
  destruct (placeAll_other cols s2 21 Hs2) as [Hn3 [_ Hoff3]].
  { rewrite Hcolidx. intros Hin. apply in_seq in Hin. lia. }
  split; [ | split ].
  - intros k p Hk.
    assert (Hk15 : (k < 15)%nat).
    { rewrite <- rack_length. apply nth_error_Some. congruence. }
    apply (placeAll_other cols s2 k Hs2).
    + rewrite Hcolidx. intros Hin. apply in_seq in Hin. lia.
    + now apply Hred2.
  - intros i t Hi Ht. apply (placeAll_placed cols s2 Hs2).
    + rewrite Hcolidx. apply seq_NoDup.
    + intros j q Hin.
      assert (Hj : In j (map fst cols))
        by (apply in_map_iff; now exists (j, q)).
      rewrite Hcolidx in Hj. apply in_seq in Hj.
      rewrite (shape_length s2 Hs2). lia.
    + now apply Hcolnth.
  - exists cb. split; [ now rewrite Hn3, Hn2 | ]. split; [ exact Hp | ].
    apply Hoff3; [ now rewrite Hn2 | ]. apply Hoff2; [ exact Hcb | exact Hoff ].
Qed.

(** X16.  Key 1 lays out the starting position: the k-th red lies on the
    k-th position of the triangle and each colour on its own spot, all at
    rest, on the table and not pocketed; the cue ball is not pocketed and
    not on the table, and has to be placed. *)
Theorem starting_position_layout (s : State) :
  reachable s ->
  let s' := keyPressed Key1 s in
  (forall k p, nth_error (getRedBallPositions theTable) k = Some p ->
               placedAt s' k p) /\
  (forall i t, (15 <= i < 21)%nat -> nth_error ballTypes i = Some t ->
               placedAt s' i (getBallSpot theTable t)) /\
  (exists cb, nth_error (balls s') 21 = Some cb /\ isPocketed cb = false /\
              ~ onTable s' cb) /\
  cueBallPlaced s' = false /\ placingCueBall s' = true /\
  gameMode s' = 1%nat /\ isAiming (cue s') = false.
Proof.
  intros Hreach. cbv zeta. cbn [keyPressed].
  destruct (setupBallsMode_fields 1 s)
    as [Hpl [Hpg [Hgm [Hcue _]]]].
  destruct (cleared_table 1 s Hreach) as [Hs1 Hclear].
  destruct (setupStartingPosition_layout (afterClear 1 s) Hs1 Hclear)
    as [Hred [Hcol [cb [Hcb [Hp Hoff]]]]].
  rewrite Hpl, Hpg, Hgm, Hcue.
  rewrite setupBallsMode_unfold.
  set (s3 := setupStartingPosition (afterClear 1 s)) in *. clearbody s3.
  split; [ | split; [ | split ] ].
  - intros k p Hk. apply (placedAt_same s3); try reflexivity.
    now apply Hred.
  - intros i t Hi Ht. apply (placedAt_same s3); try reflexivity.
    now apply Hcol.
  - exists cb. now repeat split.
  - now repeat split.
Qed.

End ModeKeys.

Lemma starting_position_layout_witness :
  let s' := keyPressed Key1 tableInMode1 in
  (forall k p, nth_error (getRedBallPositions theTable) k = Some p ->
               placedAt s' k p) /\
  (forall i t, (15 <= i < 21)%nat -> nth_error ballTypes i = Some t ->
               placedAt s' i (getBallSpot theTable t)) /\
  (exists cb, nth_error (balls s') 21 = Some cb /\ isPocketed cb = false /\
              ~ onTable s' cb) /\
  cueBallPlaced s' = false /\ placingCueBall s' = true /\
  gameMode s' = 1%nat /\ isAiming (cue s') = false.
Proof.
  apply (starting_position_layout (ML := ListWorld_laws)).
  exact reachable_tableInMode1.
Defined.

(** ** Mode keys, the english curve and the D zone *)

Section ModeKey.

Context {MW : MatterWorld}.

Lemma nonePocketed_same (s s' : State) :
  sameStructure s s' -> nonePocketed s -> nonePocketed s'.
Proof.
  intros [Hb _] Hs j b' Hj.
  destruct (Forall2_nth_error_right _ _ _ Hb j b' Hj) as [b [Hb0 [_ [Hp _]]]].
  rewrite Hp. exact (Hs j b Hb0).
Qed.

Lemma nonePocketed_respawn (i : nat) (x y : R) (s : State) :
  nonePocketed s -> nonePocketed (respawn i x y s).
Proof.
  intros Hs j b Hj.
  destruct (Nat.eq_dec i j) as [<- | Hij].
  - destruct (nth_error (balls s) i) as [ball | ] eqn:Hi.
    + destruct (respawn_ball i x y s ball Hi) as [b' [Hb' [Hp _]]].
      congruence.
    + unfold respawn in Hj. rewrite Hi in Hj. rewrite Hi in Hj. discriminate.
  - rewrite respawn_other in Hj by exact Hij. exact (Hs j b Hj).
Qed.

Lemma setups_nonePocketed (mode : nat) (s : State) :
  nonePocketed (setupBallsMode mode s).
Proof.
  rewrite setupBallsMode_unfold.
  assert (H1 : nonePocketed (afterClear mode s)).
  { intros j b Hj. exact (clearAllBalls_unpockets s j b Hj). }
  set (s1 := afterClear mode s) in *. clearbody s1.
  assert (Hspot : forall l st, nonePocketed st ->
                               nonePocketed (forEachOf l placeOnSpot st)).
  { intros l st. apply forEachOf_preserves. intros i st'.
    apply (placeOnSpot_structural nonePocketed nonePocketed_respawn). }
  assert (Hrand : forall l st, nonePocketed st ->
                               nonePocketed (forEachOf l placeRandomly st)).
  { intros l st. apply forEachOf_preserves. intros i st'.
    apply (placeRandomly_structural nonePocketed nonePocketed_same
                                    nonePocketed_respawn). }
  destruct mode as [ | [ | [ | [ | mode ] ] ] ]; try exact H1.
  - change (nonePocketed (setupStartingPosition s1)).
    unfold setupStartingPosition. apply Hspot.
    now apply (placeReds_structural nonePocketed nonePocketed_respawn).
  - change (nonePocketed (setupRandomReds s1)).
    unfold setupRandomReds. apply Hrand. now apply Hspot.
  - change (nonePocketed (setupRandomAll s1)).
    unfold setupRandomAll. now apply Hrand.
Qed.

(** X17.  A mode key leaves no ball marked pocketed and asks for the cue ball
    to be placed; the cue is hidden, stops aiming and loses its pullback,
    but keeps its power, its contact point and its shot type.  The potted
    history and the pending timers are not touched: a respawn or an english
    curve scheduled before the key still fires after it. *)
Theorem mode_key_resets (mode : nat) (s : State) :
  let s' := setupBallsMode mode s in
  nonePocketed s' /\
  cueBallPlaced s' = false /\ placingCueBall s' = true /\
  gameMode s' = mode /\
  isAiming (cue s') = false /\ isVisible (cue s') = false /\
  pullback (cue s') = 0 /\ power (cue s') = power (cue s) /\
  contactPoint (cue s') = contactPoint (cue s) /\
  shotType (cue s') = shotType (cue s) /\
  lastPottedBalls s' = lastPottedBalls s /\ timers s' = timers s.
Proof.
  cbv zeta.
  destruct (setupBallsMode_fields mode s)
    as [Hpl [Hpg [Hgm [Hcue [Hhist [Htim _]]]]]].
  split; [ apply setups_nonePocketed | ].
  rewrite Hpl, Hpg, Hgm, Hcue, Hhist, Htim. now repeat split.
Qed.

End ModeKey.

(** X18.  The english curve pushes a cue ball that is not pocketed sideways:
    the force is at a right angle to the aim angle that the cue has when
    the callback runs, its size is the english amount times the curve
    intensity times 0.001, and the base force handed to the callback plays
    no part.  Position and velocity are left alone; a pocketed cue ball is
    not touched. *)
Theorem english_curve_force (c : Cue) (cb : Ball) (englishAmount_ : R) :
  let cb' := applyEnglishCurve c cb englishAmount_ in
  let f := appliedForce cb cb' in
  (isPocketed cb = true -> cb' = cb) /\
  (isPocketed cb = false ->
   f = mkVec (- sin (angle c) * curveForce c englishAmount_)
             (cos (angle c) * curveForce c englishAmount_) /\
   vx f * cos (angle c) + vy f * sin (angle c) = 0 /\
   speedOf f = Rabs (curveForce c englishAmount_) /\
   position (body cb') = position (body cb) /\
   velocity (body cb') = velocity (body cb) /\
   sameIdentity cb cb').
Proof.
  cbv zeta. unfold applyEnglishCurve. split; intros Hp; rewrite Hp.
  - reflexivity.
  - cbn [negb]. fold (curveForce c englishAmount_).
    set (m := curveForce c englishAmount_).
    assert (Hf : appliedForce cb
                   (Ball_applyForce cb (cos (angle c + PI / 2) * m)
                                    (sin (angle c + PI / 2) * m))
                 = mkVec (cos (angle c + PI / 2) * m)
                         (sin (angle c + PI / 2) * m)).
    { unfold appliedForce, Ball_applyForce. cbn. f_equal; lra. }
    assert (Hcos : cos (angle c + PI / 2) = - sin (angle c)).
    { rewrite (sin_cos (angle c)), (Rplus_comm (angle c)). ring. }
    assert (Hsin : sin (angle c + PI / 2) = cos (angle c)).
    { rewrite (cos_sin (angle c)), (Rplus_comm (angle c)). reflexivity. }
    rewrite Hf. split; [ | split; [ | split ] ].
    + now rewrite Hcos, Hsin.
    + cbn [vx vy]. rewrite Hcos, Hsin. ring.
    + apply speedOf_polar_abs.
    + now repeat split.
Qed.

(** X19.  The D zone of a table: a point that [isInDZone] accepts lies within
    the D radius of the table's centre line and between the balk line and
    one D radius below it.  The brown spot is in the D zone; the yellow and
    the green spot, a quarter of the play area's width from its sides, are
    outside it. *)
Theorem d_zone_geometry (x y width : R) :
  0 < width ->
  let t := newSnookerTable x y width in
  (forall px py, isInDZone t px py = true ->
                 x - dRadius t <= px <= x + dRadius t /\
                 balkLineY t <= py <= balkLineY t + dRadius t) /\
  isInDZone t (vx (getBallSpot t BallType.brown))
              (vy (getBallSpot t BallType.brown)) = true /\
  isInDZone t (vx (getBallSpot t BallType.yellow))
              (vy (getBallSpot t BallType.yellow)) = false /\
  isInDZone t (vx (getBallSpot t BallType.green))
              (vy (getBallSpot t BallType.green)) = false.
Proof.
  intros Hw t.
  assert (Hpw : playAreaWidth t = 0.88 * width + 80)
    by (unfold t, newSnookerTable; cbn [playAreaWidth]; lra).
  assert (Hd : dRadius t = (0.88 * width + 80) / 6.1)
    by (unfold t, newSnookerTable; cbn [dRadius]; lra).
  assert (Hd0 : 0 < dRadius t) by (rewrite Hd; lra).
  assert (Hx : table_x t = x) by reflexivity.
  assert (Hpx : playAreaX t = x - (0.88 * width + 80) / 2)
    by (unfold t, newSnookerTable; cbn [playAreaX]; lra).
  unfold isInDZone. cbv zeta. cbn [getBallSpot vx vy]. rewrite Hx, Hpx, Hpw.
  generalize dependent (balkLineY t). intros by_.
  generalize dependent (dRadius t). intros d Hd Hd0.
  assert (Hside : forall q, q = 0.25 \/ q = 0.75 ->
            d < sqrt ((x - (0.88 * width + 80) / 2 + (0.88 * width + 80) * q
                       - x) ^ 2 + (by_ - by_) ^ 2)).
  { intros q Hq. set (W := 0.88 * width + 80) in *.
    assert (HW : 0 < W) by (unfold W; lra).
    assert (Hd' : d = W * (10 / 61)) by (rewrite Hd; lra).
    rewrite <- (sqrt_square d) by lra. apply sqrt_lt_1_alt.
    replace ((x - W / 2 + W * q - x) ^ 2 + (by_ - by_) ^ 2)
      with ((W * (q - 1 / 2)) * (W * (q - 1 / 2))) by field.
    assert (HWW : 0 < W * W) by nra.
    rewrite Hd'. split; [ nra | ].
    destruct Hq as [-> | ->].
    - replace (0.25 - 1 / 2) with (- (1 / 4)) by lra. nra.
    - replace (0.75 - 1 / 2) with (1 / 4) by lra. nra. }
  split; [ | split; [ | split ] ].
  - intros px py H. apply andb_true_iff in H. destruct H as [Hdist Hy].
    apply leb_true in Hdist. apply geb_true in Hy.
    pose proof (pow2_ge_0 (px - x)) as Hpx2.
    pose proof (pow2_ge_0 (py - by_)) as Hpy2.
    assert (Hsq : (px - x) ^ 2 + (py - by_) ^ 2 <= d * d).
    { rewrite <- (sqrt_sqrt ((px - x) ^ 2 + (py - by_) ^ 2)) by lra.
      apply Rmult_le_compat; try apply sqrt_pos; exact Hdist. }
    replace ((px - x) ^ 2) with ((px - x) * (px - x)) in * by ring.
    replace ((py - by_) ^ 2) with ((py - by_) * (py - by_)) in * by ring.
    split; split; nra.
  - replace ((x - x) ^ 2 + (by_ - by_) ^ 2) with 0 by ring.
    rewrite sqrt_0, (proj2 (leb_true _ _)) by lra.
    rewrite (proj2 (geb_true _ _)) by lra. reflexivity.
  - apply andb_false_iff. left. apply leb_false. apply Hside. now left.
  - apply andb_false_iff. left. apply leb_false. apply Hside. now right.
Qed.

Lemma d_zone_geometry_witness :
  let t := newSnookerTable (1100 / 2) (820 / 2) 400 in
  (forall px py, isInDZone t px py = true ->
                 1100 / 2 - dRadius t <= px <= 1100 / 2 + dRadius t /\
                 balkLineY t <= py <= balkLineY t + dRadius t) /\
  isInDZone t (vx (getBallSpot t BallType.brown))
              (vy (getBallSpot t BallType.brown)) = true /\
  isInDZone t (vx (getBallSpot t BallType.yellow))
              (vy (getBallSpot t BallType.yellow)) = false /\
  isInDZone t (vx (getBallSpot t BallType.green))
              (vy (getBallSpot t BallType.green)) = false.
Proof. apply (d_zone_geometry (1100 / 2) (820 / 2) 400). lra. Defined.

(** ** Placing the cue ball *)

Section CueBallPlacement.

Context {MW : MatterWorld} {ML : MatterWorldLaws MW}.

(** X20.  A click while the cue ball is to be placed.  Outside the D zone it
    does nothing.  In the D zone, at a point that the placement test
    rejects, it only shows the message about the invalid position.  In the
    D zone at a point that the test accepts, the cue ball is put there, at
    rest, on the table and not pocketed, placement is over and the cue is
    visible and not aiming; no other ball changes. *)
Theorem cue_ball_placement (mouseX mouseY : R) (s : State) :
  reachable s -> placingCueBall s = true ->
  let s' := mousePressed mouseX mouseY s in
  (isInDZone theTable mouseX mouseY = false -> s' = s) /\
  (isInDZone theTable mouseX mouseY = true ->
   isValidBallPosition mouseX mouseY (Some 21%nat) s = false ->
   s' = showMessage MsgInvalidPosition 2000 s) /\
  (isInDZone theTable mouseX mouseY = true ->
   isValidBallPosition mouseX mouseY (Some 21%nat) s = true ->
   placedAt s' 21 (mkVec mouseX mouseY) /\
   cueBallPlaced s' = true /\ placingCueBall s' = false /\
   isVisible (cue s') = true /\ isAiming (cue s') = false /\
   forall j, j <> 21%nat -> nth_error (balls s') j = nth_error (balls s) j).
Proof.
  intros Hreach Hplacing. cbv zeta.
  destruct (reachable_shapes s Hreach) as [Hshape _].
  pose proof (reachable_noAiming s Hreach Hplacing) as Hnoaim.
  assert (Htab : table s = theTable) by apply Hshape.
  assert (Hcb : cueBall s = Some 21%nat) by apply Hshape.
  unfold mousePressed. rewrite Hplacing, Htab, Hcb. cbn [andb negb].
  split; [ | split ].
  - intros ->. now rewrite andb_false_r.
  - intros -> ->. reflexivity.
  - intros -> ->.
    assert (H21 : nth_error (balls s) 21 <> None).
    { apply nth_error_Some. rewrite (shape_length s Hshape). lia. }
    destruct (nth_error (balls s) 21) as [cb | ] eqn:Hball; [ | congruence ].
    destruct (respawn_placedAt 21 mouseX mouseY s cb Hball) as [Hplaced _].
    set (s1 := respawn 21 mouseX mouseY s) in *.
    assert (Hcue1 : cue s1 = cue s).
    { unfold s1, respawn. rewrite Hball. reflexivity. }
    assert (Hother : forall j, j <> 21%nat ->
                               nth_error (balls s1) j = nth_error (balls s) j).
    { intros j Hj. apply respawn_other. congruence. }
    clearbody s1.
    split; [ | split; [ reflexivity | split; [ reflexivity | ] ] ].
    + apply (placedAt_same s1); try reflexivity. exact Hplaced.
    + cbn [cue set_cue showMessage set_cueBallPlaced set_placingCueBall].
      rewrite Hcue1.
      split; [ | split ].
      * unfold updateAngle. cue_cases; reflexivity.
      * rewrite updateAngle_isAiming. exact Hnoaim.
      * intros j Hj.
        cbn [balls set_cue showMessage set_cueBallPlaced set_placingCueBall].
        now apply Hother.
Qed.

End CueBallPlacement.

Lemma cue_ball_placement_witness :
  placedAt cueBallPlacedInMode1 21 (mkVec 550 265) /\
  cueBallPlaced cueBallPlacedInMode1 = true /\
  placingCueBall cueBallPlacedInMode1 = false /\
  isVisible (cue cueBallPlacedInMode1) = true /\
  isAiming (cue cueBallPlacedInMode1) = false /\
  forall j, j <> 21%nat ->
            nth_error (balls cueBallPlacedInMode1) j
            = nth_error (balls tableInMode1) j.
Proof.
  apply (cue_ball_placement (ML := ListWorld_laws) 550 265 tableInMode1
                            reachable_tableInMode1 eq_refl).
  - exact mode1_in_D_zone.
  - exact mode1_accepts_cue_ball.
Defined.

(** ** The released shot *)

Section ReleasedShot.

Context {MW : MatterWorld} {ML : MatterWorldLaws MW}.

(** X21.  Releasing the mouse when the shot is allowed, in a session: the cue
    ball gets the force (pullback / 100) * power * 0.02 along the aim
    angle, which is more than 0.0002 and at most 0.02; its angular velocity
    is set from the contact point and the force; its position and velocity
    are left to the engine.  The cue stops aiming, is hidden and loses its
    pullback, and no other ball changes. *)
Theorem released_shot (now : R) (s : State) (cb : Ball) :
  reachable s -> nth_error (balls s) 21 = Some cb ->
  shotAllowed (cue s) (Some cb) ->
  let s' := mouseReleased now s in
  let m := pullback (cue s) / 100 * power (cue s) * 0.02 in
  0.0002 < m <= 0.02 /\
  (exists cb',
      nth_error (balls s') 21 = Some cb' /\
      appliedForce cb cb'
      = mkVec (cos (angle (cue s)) * m) (sin (angle (cue s)) * m) /\
      speedOf (appliedForce cb cb') = m /\
      angularVelocity (body cb')
      = (vx (contactPoint (cue s)) + vy (contactPoint (cue s)) * 0.6)
        * 0.85 * (m * 200) /\
      position (body cb') = position (body cb) /\
      velocity (body cb') = velocity (body cb)) /\
  isAiming (cue s') = false /\ isVisible (cue s') = false /\
  pullback (cue s') = 0 /\
  (forall j, j <> 21%nat -> nth_error (balls s') j = nth_error (balls s) j).
Proof.
  intros Hreach Hball Hallowed. cbv zeta.
  destruct (reachable_shapes s Hreach) as [Hshape [Hcue _]].
  destruct (reachable_calibrated s Hreach) as [Hmp [Hmpow Hpow]].
  assert (Hcb : cueBall s = Some 21%nat) by apply Hshape.
  assert (Hpull : 10 < pullback (cue s) <= 100).
  { destruct Hallowed as [_ [_ Hgt]]. destruct Hcue as [_ [Hp _]]. lra. }
  assert (Heff : spinTransferEfficiency (cue s) = 0.85) by apply Hcue.
  set (m := pullback (cue s) / 100 * power (cue s) * 0.02).
  assert (Hm : forceMagnitude (cue s) = m).
  { unfold forceMagnitude, m. now rewrite Hmp, Hmpow. }
  assert (Hmb : 0.0002 < m <= 0.02) by (unfold m; nra).
  split; [ exact Hmb | ].
  unfold mouseReleased.
  replace (isAiming (cue s)) with true by (symmetry; apply Hallowed).
  unfold deref. rewrite Hcb, Hball. unfold shoot.
  rewrite (proj2 (shoot_guard (cue s) cb) Hallowed).
  unfold applyShot. cbn [shot_cue shot_ball shot_message shot_curve].
  cbn [cueBall set_cue showMessage updateBall set_balls]. rewrite Hcb.
  cbn [cueBall set_cue showMessage updateBall set_balls].
  rewrite Hm.
  set (cb' := applyProfessionalSpin_ball now (cue s) cb
                (cos (angle (cue s)) * m) (sin (angle (cue s)) * m)).
  assert (Hforce : appliedForce cb cb'
                   = mkVec (cos (angle (cue s)) * m) (sin (angle (cue s)) * m))
    by apply shoot_applied_force.
  assert (Hballs : forall st,
             balls st = list_update 21 (fun _ => cb') (balls s) ->
             (exists b,
                 nth_error (balls st) 21 = Some b /\
                 appliedForce cb b
                 = mkVec (cos (angle (cue s)) * m) (sin (angle (cue s)) * m) /\
                 speedOf (appliedForce cb b) = m /\
                 angularVelocity (body b)
                 = (vx (contactPoint (cue s)) + vy (contactPoint (cue s)) * 0.6)
                   * 0.85 * (m * 200) /\
                 position (body b) = position (body cb) /\
                 velocity (body b) = velocity (body cb)) /\
             (forall j, j <> 21%nat ->
                        nth_error (balls st) j = nth_error (balls s) j)).
  { intros st ->. split.
    - exists cb'. rewrite nth_error_list_update_same, Hball.
      split; [ reflexivity | ]. split; [ exact Hforce | ].
      split; [ rewrite Hforce; apply speedOf_polar; lra | ].
      split; [ | split; reflexivity ].
      unfold cb', applyProfessionalSpin_ball, applySpinData.
      cbn [body set_currentSpin set_body angularVelocity
           MatterBody.setAngularVelocity].
      rewrite Heff.
      pose proof (speedOf_polar (angle (cue s)) m ltac:(lra)) as Hsp.
      unfold speedOf in Hsp. cbn [vx vy] in Hsp. rewrite Hsp. ring.
    - intros j Hj. apply nth_error_list_update_other. congruence. }
  clearbody cb'.
  case_test (schedulesEnglishCurve (cue s)); rewrite ?Hcb;
    cbn [cueBall setTimeout set_timers];
    match goal with
    | |- context [balls ?st] => destruct (Hballs st eq_refl) as [H21 Hother]
    end.
  - split; [ exact H21 | ]. now repeat split.
  - split; [ exact H21 | ]. now repeat split.
Qed.

End ReleasedShot.

Lemma at_rest_not_moving {MW : MatterWorld} (s : State) :
  Forall (fun b => velocity (body b) = mkVec 0 0) (balls s) ->
  isAnyBallMoving s = false /\ Cue_isAnyBallMoving (balls s) = false.
Proof.
  intros Hrest.
  assert (Hcue : Cue_isAnyBallMoving (balls s) = false).
  { unfold Cue_isAnyBallMoving.
    destruct (existsb _ (balls s)) eqn:E; [ | reflexivity ].
    apply existsb_exists in E. destruct E as [b [Hin Hb]].
    rewrite Forall_forall in Hrest. rewrite (Hrest b Hin) in Hb.
    destruct (isPocketed b); [ discriminate | ].
    apply gtb_true in Hb. rewrite speedOf_zero in Hb. lra. }
  split; [ | exact Hcue ].
  destruct (isAnyBallMoving s) eqn:E; [ | reflexivity ].
  unfold isAnyBallMoving in E. apply existsb_exists in E.
  destruct E as [b [Hin Hb]]. apply andb_true_iff in Hb.
  destruct Hb as [_ Hb]. unfold isMoving in Hb.
  rewrite Forall_forall in Hrest. rewrite (Hrest b Hin) in Hb.
  apply gtb_true in Hb. rewrite speedOf_zero in Hb. lra.
Qed.

(** A click when the cue ball is placed and all balls are at rest starts
    aiming. *)
Lemma mousePressed_aims {MW : MatterWorld} (mouseX mouseY : R) (s : State)
      (cb : Ball) :
  placingCueBall s = false -> cueBallPlaced s = true ->
  Forall (fun b => velocity (body b) = mkVec 0 0) (balls s) ->
  deref s (cueBall s) = Some cb -> isPocketed cb = false ->
  mousePressed mouseX mouseY s
  = set_cue s (set_pullback (set_isVisible (set_isAiming (cue s) true) true) 0).
Proof.
  intros Hplacing Hplaced Hrest Hcb Hp.
  destruct (at_rest_not_moving s Hrest) as [Hmov Hcmov].
  unfold mousePressed. rewrite Hplacing, Hplaced, Hmov. cbn [andb negb].
  unfold startAiming. now rewrite Hcb, Hp, Hcmov.
Qed.

(** A drag while aiming turns the cue and pulls it back. *)
Lemma mouseDragged_pulls {MW : MatterWorld} (mouseX mouseY : R) (s : State)
      (cb : Ball) :
  isAiming (cue s) = true ->
  deref s (cueBall s) = Some cb -> isPocketed cb = false ->
  balls (mouseDragged mouseX mouseY s) = balls s /\
  isAiming (cue (mouseDragged mouseX mouseY s)) = true /\
  pullback (cue (mouseDragged mouseX mouseY s))
  = Num.constrain (Num.dist mouseX mouseY (vx (position (body cb)))
                            (vy (position (body cb))) - offset (cue s))
                  0 (maxPullback (cue s)).
Proof.
  intros Haim Hcb Hp. unfold mouseDragged. rewrite Haim.
  cbv zeta.
  change (deref (set_cue s _) (cueBall (set_cue s _)))
    with (deref s (cueBall s)).
  rewrite Hcb. unfold updateAngle, updatePullback. rewrite Hp.
  cbn [negb cue set_cue isAiming set_angle]. rewrite Haim.
  cbn [andb]. split; [ reflexivity | ]. split; [ exact Haim | reflexivity ].
Qed.

Lemma cueBallPlacedInMode1_ready :
  placingCueBall cueBallPlacedInMode1 = false /\
  cueBallPlaced cueBallPlacedInMode1 = true /\
  Forall (fun b => velocity (body b) = mkVec 0 0)
         (balls cueBallPlacedInMode1) /\
  offset (cue cueBallPlacedInMode1) = 30 /\
  maxPullback (cue cueBallPlacedInMode1) = 100 /\
  cueBall cueBallPlacedInMode1 = Some 21%nat /\
  exists cb,
    nth_error (balls cueBallPlacedInMode1) 21 = Some cb /\
    isPocketed cb = false /\ position (body cb) = mkVec 550 265.
Proof.
  rewrite cueBallPlacedInMode1_eq. unfold tableInMode1.
  split; [ reflexivity | ]. split; [ reflexivity | ].
  split.
  - run_session. repeat (apply Forall_cons; [ reflexivity | ]).
    apply Forall_nil.
  - split; [ run_session; reflexivity | ].
    split; [ run_session; reflexivity | ].
    split; [ reflexivity | ].
    eexists. split; [ run_session; reflexivity | ].
    split; reflexivity.
Qed.

Lemma cueDrawnInMode1_ready :
  exists cb,
    nth_error (balls cueDrawnInMode1) 21 = Some cb /\
    shotAllowed (cue cueDrawnInMode1) (Some cb).
Proof.
  destruct cueBallPlacedInMode1_ready
    as [Hplacing [Hplaced [Hrest [Hoff [Hmax [Hcue [cb [H21 [Hp Hpos]]]]]]]]].
  assert (Hcb : deref cueBallPlacedInMode1 (cueBall cueBallPlacedInMode1)
                = Some cb) by (rewrite Hcue; exact H21).
  unfold cueDrawnInMode1.
  rewrite (mousePressed_aims 550 265 _ cb Hplacing Hplaced Hrest Hcb Hp).
  set (s1 := set_cue cueBallPlacedInMode1 _).
  assert (Hcb1 : deref s1 (cueBall s1) = Some cb) by exact Hcb.
  destruct (mouseDragged_pulls 550 465 s1 cb eq_refl Hcb1 Hp)
    as [Hballs [Haim Hpull]].
  exists cb. rewrite Hballs. split; [ exact H21 | ].
  split; [ exact Haim | ]. split; [ now exists cb | ].
  rewrite Hpull, Hpos. cbn [vx vy].
  change (offset (cue s1)) with (offset (cue cueBallPlacedInMode1)).
  change (maxPullback (cue s1)) with (maxPullback (cue cueBallPlacedInMode1)).
  rewrite Hoff, Hmax.
  assert (Hd : Num.dist 550 465 550 265 = 200).
  { unfold Num.dist.
    replace ((550 - 550) * (550 - 550) + (265 - 465) * (265 - 465))
      with (200 * 200) by ring.
    apply sqrt_square. lra. }
  rewrite Hd. unfold Num.constrain, Rmax, Rmin.
  destruct (Rle_dec (200 - 30) 100); destruct (Rle_dec _ 0); lra.
Qed.

Lemma reachable_cueDrawnInMode1 : reachable cueDrawnInMode1.
Proof.
  unfold cueDrawnInMode1, cueBallPlacedInMode1.
  apply (reachable_step _ _ (reachable_step _ _
           (reachable_step _ _ reachable_tableInMode1
                           (step_mousePressed 550 265 _))
           (step_mousePressed 550 265 _))
         (step_mouseDragged 550 465 _)).
Qed.

Lemma released_shot_witness :
  exists cb,
    nth_error (balls cueDrawnInMode1) 21 = Some cb /\
    shotAllowed (cue cueDrawnInMode1) (Some cb) /\
    let s' := mouseReleased 0 cueDrawnInMode1 in
    let m := pullback (cue cueDrawnInMode1) / 100
             * power (cue cueDrawnInMode1) * 0.02 in
    0.0002 < m <= 0.02 /\
    (exists cb',
        nth_error (balls s') 21 = Some cb' /\
        appliedForce cb cb'
        = mkVec (cos (angle (cue cueDrawnInMode1)) * m)
                (sin (angle (cue cueDrawnInMode1)) * m) /\
        speedOf (appliedForce cb cb') = m /\
        angularVelocity (body cb')
        = (vx (contactPoint (cue cueDrawnInMode1))
           + vy (contactPoint (cue cueDrawnInMode1)) * 0.6)
          * 0.85 * (m * 200) /\
        position (body cb') = position (body cb) /\
        velocity (body cb') = velocity (body cb)) /\
    isAiming (cue s') = false /\ isVisible (cue s') = false /\
    pullback (cue s') = 0 /\
    (forall j, j <> 21%nat ->
               nth_error (balls s') j = nth_error (balls cueDrawnInMode1) j).
Proof.
  destruct cueDrawnInMode1_ready as [cb [Hball Hallowed]].
  exists cb. split; [ exact Hball | ]. split; [ exact Hallowed | ].
  exact (released_shot (ML := ListWorld_laws) 0 cueDrawnInMode1 cb
                       reachable_cueDrawnInMode1 Hball Hallowed).
Defined.

(** ** One frame of the game loop *)

Section Frame.

Context {MW : MatterWorld}.

Lemma updateSpinPhysics_body (now : R) (b : Ball) :
  body (updateSpinPhysics now b) = body b.
Proof.
  unfold updateSpinPhysics.
  repeat match goal with
         | |- context [match ?c with _ => _ end] => destruct c
         end; reflexivity.
Qed.

(** The state after the first callback of [draw] has run for the ball
    objects [0 .. k - 1]. *)
Lemma rollBall_prefix (now : R) (s : State) (k : nat) :
  (k <= length (balls s))%nat ->
  let st := fold_left (fun st i => rollBall now i st) (seq 0 k) s in
  st = set_balls s (balls st) /\ length (balls st) = length (balls s) /\
  forall i b, nth_error (balls s) i = Some b ->
              nth_error (balls st) i
              = Some (if Nat.ltb i k then rolled now b else b).
Proof.
  induction k as [ | k IH]; intros Hk; cbv zeta.
  - cbn. split; [ now destruct s | ]. split; [ reflexivity | ].
    intros i b Hi. exact Hi.
  - rewrite seq_S, fold_left_app. cbn [fold_left Nat.add].
    destruct (IH ltac:(lia)) as [Hst [Hlen Hballs]].
    set (st := fold_left _ (seq 0 k) s) in *. clearbody st.
    assert (Hlt : (k < length (balls s))%nat) by lia.
    apply nth_error_Some in Hlt.
    destruct (nth_error (balls s) k) as [bk | ] eqn:Hbk; [ | congruence ].
    pose proof (Hballs k bk Hbk) as Hstk.
    rewrite Nat.ltb_irrefl in Hstk.
    unfold rollBall. rewrite Hstk.
    destruct (negb (isPocketed bk)) eqn:Hp.
    + split; [ rewrite Hst at 1; reflexivity | ].
      cbn [balls updateBall set_balls].
      split; [ now rewrite length_list_update | ].
      intros i b Hi.
      destruct (Nat.eq_dec k i) as [<- | Hki].
      * rewrite nth_error_list_update_same, Hstk. cbn [option_map].
        rewrite Hbk in Hi. injection Hi as <-.
        replace (Nat.ltb k (S k)) with true
          by (symmetry; apply Nat.ltb_lt; lia).
        unfold rolled. now rewrite Hp.
      * rewrite nth_error_list_update_other by exact Hki.
        rewrite (Hballs i b Hi).
        replace (Nat.ltb i (S k)) with (Nat.ltb i k); [ reflexivity | ].
        destruct (Nat.ltb_spec i k); symmetry;
          [ apply Nat.ltb_lt | apply Nat.ltb_ge ]; lia.
    + split; [ exact Hst | ]. split; [ exact Hlen | ]. intros i b Hi.
      rewrite (Hballs i b Hi).
      destruct (Nat.eq_dec k i) as [<- | Hki].
      * rewrite Hbk in Hi. injection Hi as <-.
        rewrite Nat.ltb_irrefl.
        replace (Nat.ltb k (S k)) with true
          by (symmetry; apply Nat.ltb_lt; lia).
        unfold rolled. now rewrite Hp.
      * replace (Nat.ltb i (S k)) with (Nat.ltb i k); [ reflexivity | ].
        destruct (Nat.ltb_spec i k); symmetry;
          [ apply Nat.ltb_lt | apply Nat.ltb_ge ]; lia.
Qed.

Lemma rollBalls_map (now : R) (s : State) :
  forEachBall (rollBall now) s = set_balls s (map (rolled now) (balls s)).
Proof.
  destruct (rollBall_prefix now s (length (balls s)) (le_n _))
    as [Hst [Hlen Hballs]].
  unfold forEachBall.
  set (st := fold_left _ _ s) in *. clearbody st.
  rewrite Hst. f_equal.
  apply nth_error_ext. intros i.
  destruct (nth_error (balls s) i) as [b | ] eqn:Hi.
  - rewrite (Hballs i b Hi), (map_nth_error _ _ _ Hi).
    replace (Nat.ltb i (length (balls s))) with true; [ reflexivity | ].
    symmetry. apply Nat.ltb_lt. apply nth_error_Some. congruence.
  - assert (Hmap : nth_error (map (rolled now) (balls s)) i = None).
    { apply nth_error_None. rewrite length_map. now apply nth_error_None. }
    rewrite Hmap.
    apply nth_error_None. rewrite Hlen. now apply nth_error_None.
Qed.

(** X22.  What [draw] does to the balls once the physics step is over: every
    ball that is not pocketed is decelerated and its spin decays, and then
    it is marked pocketed if a pocket captures it with its new velocity; a
    ball that is pocketed already is left as it is.  This moves no ball and
    gives none a new body. *)
Theorem draw_frame (now mouseX mouseY : R) (s : State) :
  balls (draw now mouseX mouseY s)
  = map (fun b => pocketedIfCaptured (pockets (table s)) (rolled now b))
        (balls s) /\
  (forall b, isPocketed b = true ->
             pocketedIfCaptured (pockets (table s)) (rolled now b) = b) /\
  (forall b,
      let b' := pocketedIfCaptured (pockets (table s)) (rolled now b) in
      position (body b') = position (body b) /\
      body_id (body b') = body_id (body b) /\ type b' = type b).
Proof.
  split; [ | split ].
  - unfold draw. cbv zeta. rewrite rollBalls_map.
    set (s1 := set_balls s _).
    destruct (checkPocketedBalls_map s1) as [Hb Ht].
    assert (Hballs : balls (checkPocketedBalls s1)
                     = map (fun b => pocketedIfCaptured (pockets (table s))
                                                        (rolled now b))
                           (balls s)).
    { rewrite Hb. unfold s1. cbn [balls set_balls table]. apply map_map. }
    clearbody s1. generalize dependent (checkPocketedBalls s1).
    intros s2 _ _ Hballs.
    destruct (cueBall s2); [ | exact Hballs ].
    destruct (_ && _); [ | exact Hballs ].
    cbn [cue set_cue isAiming set_isVisible].
    destruct (negb (isAiming (cue s2))); exact Hballs.
  - intros b Hp. unfold rolled, pocketedIfCaptured. rewrite Hp.
    cbn [negb]. rewrite Hp. reflexivity.
  - intros b. cbv zeta. unfold pocketedIfCaptured, rolled.
    assert (Hroll : position (body (updateSpinPhysics now
                                      (applyProfessionalDeceleration b)))
                    = position (body b) /\
                    body_id (body (updateSpinPhysics now
                                     (applyProfessionalDeceleration b)))
                    = body_id (body b) /\
                    type (updateSpinPhysics now
                            (applyProfessionalDeceleration b)) = type b).
    { destruct (rolled_sameIdentity now b) as [Hty [_ Hid]].
      split; [ | split; [ exact Hid | exact Hty ] ].
      rewrite updateSpinPhysics_body. apply deceleration_keeps_place. }
    destruct (negb (isPocketed b)).
    + destruct (_ && _); exact Hroll.
    + destruct (_ && _); repeat split.
Qed.

End Frame.

(** ** Out of the reach of the pockets *)

(** A ball that keeps the pocket clearance of the placement test is out of
    the reach of the pocket, whatever its velocity. *)
Lemma clear_not_captured (p : Pocket) (b : Ball) (r : R) :
  0 < pocket_radius p -> 0 <= r ->
  pocket_radius p + r * 2 <= distance (position (body b)) (pocketCentre p) ->
  ~ capturedBy p b.
Proof.
  intros Hrad Hr Hfar [Hnear _].
  set (v := speedOf (velocity (body b))) in *.
  assert (Hf : 0 < speedFactor (pocket_type p) v <= 1).
  { destruct (speedFactor_range (pocket_type p) v) as [Hslow Hfast].
    destruct (Rle_dec v 5) as [Hv | Hv].
    - rewrite (Hslow Hv). lra.
    - specialize (Hfast ltac:(lra)). lra. }
  assert (Hb : 0 < baseThreshold (pocket_type p) <= 0.7)
    by (destruct (pocket_type p); cbn; lra).
  assert (H1 : baseThreshold (pocket_type p) * speedFactor (pocket_type p) v
               <= 0.7 * 1) by (apply Rmult_le_compat; lra).
  pose proof (Rmult_le_compat_l (pocket_radius p) _ _ (Rlt_le _ _ Hrad) H1)
    as Hprod.
  rewrite <- Rmult_assoc in Hprod. lra.
Qed.

Lemma theTable_pockets (p : Pocket) :
  In p (pockets theTable) ->
  0 < pocket_radius p <= 24 /\ (pocket_x p <= 356 \/ 744 <= pocket_x p).
Proof.
  unfold theTable, newSnookerTable, initializePockets. cbv zeta.
  cbn [pockets In].
  intros [<- | [<- | [<- | [<- | [<- | [<- | []]]]]]];
    cbn [pocket_radius pocket_x]; split; try lra; (left; lra) || (right; lra).
Qed.

(** A ball between x = 440 and x = 660 is out of the reach of every pocket
    of the table. *)
Lemma middle_not_captured (b : Ball) :
  440 <= vx (position (body b)) <= 660 ->
  checkPocket b (pockets theTable) = false.
Proof.
  intros Hx. apply checkPocket_not_captured. intros p Hin.
  destruct (theTable_pockets p Hin) as [Hrad Hside].
  apply (clear_not_captured p b 0); try lra.
  apply distance_at_least; [ lra | ].
  cbn [pocketCentre vx vy].
  set (dx := pocket_x p - vx (position (body b))).
  set (dy := pocket_y p - vy (position (body b))).
  assert (Hdy : 0 <= dy * dy) by nra.
  assert (Hdx : 84 * 84 <= dx * dx) by (unfold dx; destruct Hside; nra).
  assert (Hc : (pocket_radius p + 0 * 2) * (pocket_radius p + 0 * 2)
               <= 24 * 24) by nra.
  lra.
Qed.

Lemma rack_x (p : Vec) :
  In p (getRedBallPositions theTable) -> 440 <= vx p <= 660.
Proof.
  unfold getRedBallPositions. intros Hin.
  apply in_flat_map in Hin. destruct Hin as [row [Hrow Hin]].
  apply in_map_iff in Hin. destruct Hin as [col [<- Hcol]].
  apply in_seq in Hrow. apply in_seq in Hcol.
  assert (Hr : 0 <= INR row <= 4).
  { split; [ apply pos_INR | ].
    replace 4 with (INR 4) by (cbn; lra). apply le_INR. lia. }
  assert (Hc : 0 <= INR col <= INR row).
  { split; [ apply pos_INR | apply le_INR; lia ]. }
  unfold rackPosition, theTable, newSnookerTable. cbv zeta.
  cbn [vx table_x ballRadius].
  set (d := INR col - INR row / 2).
  assert (Hd : -2 <= d <= 4) by (unfold d; lra).
  nra.
Qed.

Lemma spot_x (t : BallType.t) : 440 <= vx (getBallSpot theTable t) <= 660.
Proof.
  unfold theTable, newSnookerTable. cbv zeta.
  destruct t; cbn [getBallSpot vx table_x playAreaX playAreaWidth]; lra.
Qed.

Section FreshLayout.

Context {MW : MatterWorld} {ML : MatterWorldLaws MW}.

Lemma noneCaptured_same (S : nat -> Prop) (s s' : State) :
  balls s' = balls s -> world s' = world s ->
  noneCaptured S s -> noneCaptured S s'.
Proof.
  intros Hb Hw H j b HS Hj Hon. unfold onTable in Hon.
  rewrite Hb in Hj. rewrite Hw in Hon. exact (H j b HS Hj Hon).
Qed.

Lemma spaced_noneCaptured (S : nat -> Prop) (s : State) :
  table s = theTable -> spacedOnTable S s -> noneCaptured S s.
Proof.
  intros Htab [_ Hclear] j b HS Hj Hon.
  apply checkPocket_not_captured. intros p Hin.
  destruct (theTable_pockets p Hin) as [Hrad _].
  apply (clear_not_captured p b (ballRadius theTable)).
  - lra.
  - unfold theTable, newSnookerTable. cbv zeta. cbn [ballRadius]. lra.
  - rewrite <- Htab. apply (Hclear j HS b p Hj Hon). now rewrite Htab.
Qed.

(** X23.  No setup puts a ball within the reach of a pocket.  In a session,
    after key 1 no ball on the table is captured by a pocket, and neither
    after key 3; after key 2 this holds of the reds.  The same holds of the
    cue ball where a click has placed it. *)
Theorem fresh_layout_not_captured (s : State) :
  reachable s ->
  noneCaptured (fun _ => True) (keyPressed Key1 s) /\
  noneCaptured (fun _ => True) (keyPressed Key3 s) /\
  noneCaptured (fun j => (j < 15)%nat) (keyPressed Key2 s) /\
  (forall mouseX mouseY,
      placingCueBall s = true -> isInDZone theTable mouseX mouseY = true ->
      isValidBallPosition mouseX mouseY (Some 21%nat) s = true ->
      noneCaptured (fun j => j = 21%nat) (mousePressed mouseX mouseY s)).
Proof.
  intros Hreach.
  destruct (reachable_shapes s Hreach) as [Hshape _].
  split; [ | split; [ | split ] ].
  - cbn [keyPressed].
    destruct (cleared_table 1 s Hreach) as [Hs1 Hclear].
    destruct (setupStartingPosition_layout (afterClear 1 s) Hs1 Hclear)
      as [Hred [Hcol [cb [Hcb [_ Hoff]]]]].
    rewrite setupBallsMode_unfold.
    set (s3 := setupStartingPosition (afterClear 1 s)) in *.
    assert (Hs3 : sessionShape s3).
    { unfold s3, setupStartingPosition.
      apply forEachOf_preserves.
      - intros i st.
        apply (placeOnSpot_structural sessionShape shape_respawn).
      - now apply (placeReds_structural sessionShape shape_respawn). }
    clearbody s3.
    apply (noneCaptured_same _ s3); try reflexivity.
    intros j b _ Hj Hon.
    apply middle_not_captured.
    assert (Hlen : (j < 22)%nat).
    { rewrite <- (shape_length s3 Hs3). apply nth_error_Some. congruence. }
    destruct (Nat.lt_ge_cases j 15) as [Hj15 | Hj15].
    + assert (Hp : nth_error (getRedBallPositions theTable) j <> None)
        by (apply nth_error_Some; rewrite rack_length; exact Hj15).
      destruct (nth_error (getRedBallPositions theTable) j) as [p | ] eqn:Hpj;
        [ | congruence ].
      destruct (Hred j p Hpj) as [b' [Hb' [_ [Hpos _]]]].
      assert (b' = b) by congruence. subst b'. rewrite Hpos.
      apply rack_x. now apply (nth_error_In _ j).
    + destruct (Nat.eq_dec j 21) as [-> | Hj21].
      * exfalso. assert (cb = b) by congruence. subst cb. exact (Hoff Hon).
      * assert (Ht : nth_error ballTypes j <> None)
          by (apply nth_error_Some; cbn; lia).
        destruct (nth_error ballTypes j) as [t | ] eqn:Htj; [ | congruence ].
        destruct (Hcol j t ltac:(lia) Htj) as [b' [Hb' [_ [Hpos _]]]].
        assert (b' = b) by congruence. subst b'. rewrite Hpos.
        apply spot_x.
  - cbn [keyPressed].
    destruct (cleared_table 3 s Hreach) as [Hs1 Hclear].
    rewrite setupBallsMode_unfold.
    destruct (setupRandomAll_spaced (afterClear 3 s)) as [_ Hsp].
    + apply Hs1.
    + intros j b Hj. now apply (Hclear j b).
    + assert (Htab : table (setupRandomAll (afterClear 3 s)) = theTable).
      { unfold setupRandomAll.
        apply (forEachOf_preserves (fun st => table st = theTable)).
        - intros i st Hst.
          destruct (placeRandomly_sameControl i st) as [-> _]. exact Hst.
        - apply Hs1. }
      set (m := setupRandomAll (afterClear 3 s)) in *. clearbody m.
      apply (noneCaptured_same _ m); try reflexivity.
      now apply spaced_noneCaptured.
  - cbn [keyPressed].
    destruct (cleared_table 2 s Hreach) as [Hs1 Hclear].
    rewrite setupBallsMode_unfold.
    destruct (setupRandomReds_spaced (afterClear 2 s)) as [_ Hsp].
    + apply Hs1.
    + intros j b Hj. now apply (Hclear j b).
    + assert (Htab : table (setupRandomReds (afterClear 2 s)) = theTable).
      { destruct (setupRandomReds_sameControl (afterClear 2 s)) as [-> _].
        apply Hs1. }
      set (m := setupRandomReds (afterClear 2 s)) in *. clearbody m.
      apply (noneCaptured_same _ m); try reflexivity.
      now apply spaced_noneCaptured.
  - intros mouseX mouseY Hplacing HinD Hvalid.
    assert (Htab : table s = theTable) by apply Hshape.
    assert (Hcb : cueBall s = Some 21%nat) by apply Hshape.
    rewrite (mousePressed_places mouseX mouseY s 21 Hplacing
               ltac:(now rewrite Htab) Hcb Hvalid).
    apply isValidBallPosition_spec in Hvalid. destruct Hvalid as [_ Hpk].
    rewrite Htab in Hpk.
    assert (H21 : nth_error (balls s) 21 <> None).
    { apply nth_error_Some. rewrite (shape_length s Hshape). lia. }
    destruct (nth_error (balls s) 21) as [cb | ] eqn:Hball; [ | congruence ].
    destruct (respawn_ball 21 mouseX mouseY s cb Hball)
      as [b' [Hb' [_ [Hpos _]]]].
    intros j b -> Hj _.
    assert (b' = b).
    { cbv zeta in Hj.
      cbn [balls set_cue showMessage set_cueBallPlaced set_placingCueBall]
        in Hj.
      congruence. }
    subst b'.
    apply checkPocket_not_captured. intros p Hin.
    destruct (theTable_pockets p Hin) as [Hrad _].
    apply (clear_not_captured p b (ballRadius theTable)).
    + lra.
    + unfold theTable, newSnookerTable. cbv zeta. cbn [ballRadius]. lra.
    + rewrite Hpos. now apply Hpk.
Qed.

End FreshLayout.

Lemma fresh_layout_not_captured_witness :
  let s := tableInMode1 in
  noneCaptured (fun _ => True) (keyPressed Key1 s) /\
  noneCaptured (fun _ => True) (keyPressed Key3 s) /\
  noneCaptured (fun j => (j < 15)%nat) (keyPressed Key2 s) /\
  (forall mouseX mouseY,
      placingCueBall s = true -> isInDZone theTable mouseX mouseY = true ->
      isValidBallPosition mouseX mouseY (Some 21%nat) s = true ->
      noneCaptured (fun j => j = 21%nat) (mousePressed mouseX mouseY s)).
Proof.
  apply (fresh_layout_not_captured (ML := ListWorld_laws)).
  exact reachable_tableInMode1.
Defined.

(** ** The power keys *)

Section PowerKeys.

Context {MW : MatterWorld}.

Lemma adjustPower_up (c : Cue) :
  0.1 <= power c <= 1 -> power (adjustPower c 1) = Rmin (power c + 0.1) 1.
Proof.
  intros Hp. unfold adjustPower, Num.constrain. cbn [power set_power].
  replace (power c + 1 * 0.1) with (power c + 0.1) by lra.
  unfold Rmax, Rmin.
  destruct (Rle_dec (power c + 0.1) 1); destruct (Rle_dec _ 0.1); lra.
Qed.

Lemma adjustPower_down (c : Cue) :
  0.1 <= power c <= 1 -> power (adjustPower c (-1)) = Rmax (power c - 0.1) 0.1.
Proof.
  intros Hp. unfold adjustPower, Num.constrain. cbn [power set_power].
  replace (power c + -1 * 0.1) with (power c - 0.1) by lra.
  unfold Rmax, Rmin.
  destruct (Rle_dec (power c - 0.1) 1); destruct (Rle_dec _ 0.1); lra.
Qed.

(** X24.  The power keys in a session.  The up arrow adds 0.1 to the power of
    the cue up to the ceiling 1, the down arrow takes 0.1 off down to the
    floor 0.1, and the message shows the new power.  Up then down gives the
    old power back unless the ceiling cut the step short (from above 0.9 it
    ends at 0.9), and down then up does so unless the floor did (from below
    0.2 it ends at 0.2).  The keys touch nothing but the power and the
    message. *)
Theorem power_keys (s : State) :
  reachable s ->
  let up := keyPressed KeyUp s in
  let down := keyPressed KeyDown s in
  power (cue up) = Rmin (power (cue s) + 0.1) 1 /\
  power (cue down) = Rmax (power (cue s) - 0.1) 0.1 /\
  power (cue (keyPressed KeyDown up)) = Rmin (power (cue s)) 0.9 /\
  power (cue (keyPressed KeyUp down)) = Rmax (power (cue s)) 0.2 /\
  message up = MsgPower (power (cue up)) /\
  message down = MsgPower (power (cue down)) /\
  up = showMessage (message up) 500
                   (set_cue s (set_power (cue s) (power (cue up)))) /\
  down = showMessage (message down) 500
                     (set_cue s (set_power (cue s) (power (cue down)))).
Proof.
  intros Hreach. cbv zeta.
  destruct (reachable_calibrated s Hreach) as [_ [_ Hp]].
  pose proof (adjustPower_up (cue s) Hp) as Hup.
  pose proof (adjustPower_down (cue s) Hp) as Hdown.
  cbn [keyPressed cue set_cue showMessage message].
  split; [ exact Hup | ]. split; [ exact Hdown | ].
  split; [ | split ].
  - rewrite adjustPower_down; rewrite Hup; unfold Rmin, Rmax;
      destruct (Rle_dec (power (cue s) + 0.1) 1);
      repeat match goal with
             | |- context [Rle_dec ?a ?b] => destruct (Rle_dec a b)
             end; lra.
  - rewrite adjustPower_up; rewrite Hdown; unfold Rmin, Rmax;
      destruct (Rle_dec (power (cue s) - 0.1) 0.1);
      repeat match goal with
             | |- context [Rle_dec ?a ?b] => destruct (Rle_dec a b)
             end; lra.
  - now repeat split.
Qed.

End PowerKeys.

Lemma power_keys_witness :
  let s := tableInMode1 in
  let up := keyPressed KeyUp s in
  let down := keyPressed KeyDown s in
  power (cue up) = Rmin (power (cue s) + 0.1) 1 /\
  power (cue down) = Rmax (power (cue s) - 0.1) 0.1 /\
  power (cue (keyPressed KeyDown up)) = Rmin (power (cue s)) 0.9 /\
  power (cue (keyPressed KeyUp down)) = Rmax (power (cue s)) 0.2 /\
  message up = MsgPower (power (cue up)) /\
  message down = MsgPower (power (cue down)) /\
  up = showMessage (message up) 500
                   (set_cue s (set_power (cue s) (power (cue up)))) /\
  down = showMessage (message down) 500
                     (set_cue s (set_power (cue s) (power (cue down)))).
Proof.
  apply (power_keys (MW := ListWorld)). exact reachable_tableInMode1.
Defined.

(** ** No overlap in the starting position *)

Lemma ForallOrdPairs_nth_error {A : Type} (R : A -> A -> Prop) (l : list A) :
  ForallOrdPairs R l ->
  forall i j a b, (i < j)%nat -> nth_error l i = Some a ->
                  nth_error l j = Some b -> R a b.
Proof.
  induction 1 as [ | x l Hx _ IH]; intros i j a b Hij Hi Hj.
  - destruct i; discriminate.
  - destruct j as [ | j]; [ lia | ]. cbn in Hj.
    destruct i as [ | i]; cbn in Hi.
    + injection Hi as <-. rewrite Forall_forall in Hx. apply Hx.
      now apply (nth_error_In _ j).
    + apply (IH i j); [ lia | exact Hi | exact Hj ].
Qed.

Lemma apart_squares (t : SnookerTable) (p q : Vec) :
  0 <= ballRadius t ->
  (ballRadius t * 2) * (ballRadius t * 2)
  < (vx q - vx p) * (vx q - vx p) + (vy q - vy p) * (vy q - vy p) ->
  apart t p q.
Proof.
  intros Hr Hsq. unfold apart, distance, Num.dist.
  rewrite <- (sqrt_square (ballRadius t * 2)) by lra.
  apply sqrt_lt_1_alt. split; [ nra | exact Hsq ].
Qed.

Lemma startPositions_apart :
  ForallOrdPairs (apart theTable) (startPositions theTable).
Proof.
  assert (Hr : 0 <= ballRadius theTable).
  { unfold theTable, newSnookerTable. cbv zeta. cbn [ballRadius]. lra. }
  cbv [startPositions getRedBallPositions flat_map rackRow seq map app].
  repeat (apply FOP_cons;
          [ repeat (apply Forall_cons;
                    [ apply (apart_squares _ _ _ Hr);
                      cbv [rackPosition getBallSpot theTable newSnookerTable
                           table_x table_y ballRadius playAreaX playAreaY
                           playAreaWidth playAreaLength balkLineY vx vy INR];
                      lra | ]);
            apply Forall_nil | ]).
  apply FOP_nil.
Qed.

Lemma apart_sym (t : SnookerTable) (p q : Vec) : apart t p q -> apart t q p.
Proof. unfold apart. now rewrite (distance_sym q p). Qed.

Section StartingPosition.

Context {MW : MatterWorld} {ML : MatterWorldLaws MW}.

(** X25.  In the starting position no two balls overlap: in a session, after
    key 1, the centres of any two balls on the table are more than two ball
    radii apart. *)
Theorem starting_position_no_overlap (s : State) :
  reachable s ->
  let s' := keyPressed Key1 s in
  forall i j bi bj,
    i <> j ->
    nth_error (balls s') i = Some bi -> nth_error (balls s') j = Some bj ->
    onTable s' bi -> onTable s' bj ->
    apart theTable (position (body bi)) (position (body bj)).
Proof.
  intros Hreach. cbv zeta. cbn [keyPressed].
  destruct (cleared_table 1 s Hreach) as [Hs1 Hclear].
  destruct (setupStartingPosition_layout (afterClear 1 s) Hs1 Hclear)
    as [Hred [Hcol [cb [Hcb [_ Hoff]]]]].
  rewrite setupBallsMode_unfold.
  set (s3 := setupStartingPosition (afterClear 1 s)) in *.
  assert (Hs3 : sessionShape s3).
  { unfold s3, setupStartingPosition.
    apply forEachOf_preserves.
    - intros i st.
      apply (placeOnSpot_structural sessionShape shape_respawn).
    - now apply (placeReds_structural sessionShape shape_respawn). }
  clearbody s3.
  assert (Hat : forall i b, nth_error (balls s3) i = Some b -> onTable s3 b ->
                            nth_error (startPositions theTable) i
                            = Some (position (body b))).
  { intros i b Hi Hon.
    assert (Hlen : (i < 22)%nat).
    { rewrite <- (shape_length s3 Hs3). apply nth_error_Some. congruence. }
    unfold startPositions.
    destruct (Nat.lt_ge_cases i 15) as [Hlt | Hge].
    - rewrite nth_error_app1 by (rewrite rack_length; exact Hlt).
      assert (Hp : nth_error (getRedBallPositions theTable) i <> None)
        by (apply nth_error_Some; rewrite rack_length; exact Hlt).
      destruct (nth_error (getRedBallPositions theTable) i) as [p | ] eqn:Hpi;
        [ | congruence ].
      destruct (Hred i p Hpi) as [b' [Hb' [_ [Hpos _]]]].
      congruence.
    - destruct (Nat.eq_dec i 21) as [-> | Hi21].
      + exfalso. assert (cb = b) by congruence. subst cb. exact (Hoff Hon).
      + rewrite nth_error_app2 by (rewrite rack_length; exact Hge).
        rewrite rack_length.
        assert (Ht : nth_error ballTypes i <> None)
          by (apply nth_error_Some; cbn; lia).
        destruct (nth_error ballTypes i) as [t | ] eqn:Hti; [ | congruence ].
        destruct (Hcol i t ltac:(lia) Hti) as [b' [Hb' [_ [Hpos _]]]].
        assert (b' = b) by congruence. subst b'. rewrite Hpos.
        replace i with (15 + (i - 15))%nat in Hti by lia.
        unfold ballTypes in Hti.
        rewrite nth_error_app2 in Hti by (rewrite repeat_length; lia).
        rewrite repeat_length in Hti.
        replace (15 + (i - 15) - 15)%nat with (i - 15)%nat in Hti by lia.
        assert (Hd : (i - 15 < 6)%nat) by lia.
        generalize dependent (i - 15)%nat. intros d Hti Hd.
        destruct d as [ | [ | [ | [ | [ | [ | k ] ] ] ] ] ];
          try lia; cbn in Hti |- *; injection Hti as <-; reflexivity. }
  intros i j bi bj Hij Hi Hj Hoi Hoj.
  change (nth_error (balls s3) i = Some bi) in Hi.
  change (nth_error (balls s3) j = Some bj) in Hj.
  change (onTable s3 bi) in Hoi. change (onTable s3 bj) in Hoj.
  pose proof (Hat i bi Hi Hoi) as Hpi.
  pose proof (Hat j bj Hj Hoj) as Hpj.
  destruct (Nat.lt_ge_cases i j) as [Hlt | Hge].
  - exact (ForallOrdPairs_nth_error _ _ startPositions_apart i j _ _ Hlt
                                    Hpi Hpj).
  - apply apart_sym.
    apply (ForallOrdPairs_nth_error _ _ startPositions_apart j i _ _
                                    ltac:(lia) Hpj Hpi).
Qed.

End StartingPosition.

Lemma starting_position_no_overlap_witness :
  exists b0 b1,
    nth_error (balls tableInMode1) 0 = Some b0 /\
    nth_error (balls tableInMode1) 1 = Some b1 /\
    apart theTable (position (body b0)) (position (body b1)).
Proof.
  assert (H0 : exists b0, nth_error (balls tableInMode1) 0 = Some b0 /\
                          onTable tableInMode1 b0).
  { unfold tableInMode1. eexists. split; run_session; reflexivity. }
  assert (H1 : exists b1, nth_error (balls tableInMode1) 1 = Some b1 /\
                          onTable tableInMode1 b1).
  { unfold tableInMode1. eexists. split; run_session; reflexivity. }
  destruct H0 as [b0 [H0 Hon0]]. destruct H1 as [b1 [H1 Hon1]].
  exists b0, b1. split; [ exact H0 | ]. split; [ exact H1 | ].
  apply (starting_position_no_overlap (ML := ListWorld_laws)
           (setup ListWorld_empty 0 (fun _ => 0))
           (reachable_setup ListWorld_empty 0 (fun _ => 0))
           0%nat 1%nat b0 b1 ltac:(discriminate) H0 H1 Hon0 Hon1).
Defined.

(** ** The placement test where the program calls it *)

Section PlacementCallSites.

Context {MW : MatterWorld} {ML : MatterWorldLaws MW}.

Lemma forEachOf_app (l1 l2 : list nat) (f : nat -> State -> State)
      (s : State) :
  forEachOf (l1 ++ l2) f s = forEachOf l2 f (forEachOf l1 f s).
Proof. unfold forEachOf. apply fold_left_app. Qed.

(** In a state in which every ball on the table is one that the test looks
    at, a point that the test accepts keeps the spacing from the placed
    balls. *)
Lemma wellSpaced_placed (s : State) (x y : R) (i : nat) :
  onlyPlayableOnTable s -> wellSpaced s x y (Some i) ->
  spacedFromPlacedBalls s x y i.
Proof.
  intros Hplay Hw. split; [ | apply Hw ].
  intros j b Hji Hj Hon.
  split; [ now apply (Hplay j b) | ].
  now apply (wellSpaced_onTable s x y i Hplay Hw j b).
Qed.

(** The state in which a placement loop of the random setups starts: the
    cue ball is off the table. *)
Lemma randomPlacementOf_playable (s : State) (i : nat) (st : State) :
  reachable s -> randomPlacementOf s i st ->
  wellFormed st /\ onlyPlayableOnTable st /\ (i < 21)%nat.
Proof.
  intros Hreach Hcall.
  assert (Hstep : forall S l st0,
             (forall j, In j l -> (j < 21)%nat /\ S j) ->
             wellFormed st0 /\ onlyPlayableOnTable st0
             /\ spacedOnTable S st0 ->
             wellFormed (forEachOf l placeRandomly st0)
             /\ onlyPlayableOnTable (forEachOf l placeRandomly st0)
             /\ spacedOnTable S (forEachOf l placeRandomly st0)).
  { intros S l st0 Hl H0.
    apply (forEachOf_preserves_in
             (fun st => wellFormed st /\ onlyPlayableOnTable st
                        /\ spacedOnTable S st)); [ | exact H0 ].
    intros j st1 Hin [Hst H]. destruct (Hl j Hin) as [Hj HS].
    apply placeRandomly_spaced; auto.
    destruct Hst as [_ [_ [_ [_ ->]]]]. apply isNot_Some. lia. }
  destruct Hcall as [l1 i l2 Hl | l1 i l2 Hl].
  - destruct (cleared_table 2 s Hreach) as [[Hwf _] Hclear].
    set (s1 := afterClear 2 s) in *. clearbody s1.
    set (st0 := forEachOf (coloredBalls s1) placeOnSpot s1) in *.
    assert (H0 : wellFormed st0 /\ onlyPlayableOnTable st0 /\
                 forall j b, nth_error (balls st0) j = Some b ->
                             (j < 15)%nat -> ~ onTable st0 b).
    { unfold st0.
      apply (forEachOf_preserves_in
               (fun st => wellFormed st /\ onlyPlayableOnTable st /\
                          forall j b, nth_error (balls st) j = Some b ->
                                      (j < 15)%nat -> ~ onTable st b)).
      - intros k st Hin [Hst [Hplay Hnored]].
        assert (Hk : (15 <= k < 21)%nat).
        { destruct Hwf as [_ [_ [_ [Hc _]]]]. rewrite Hc in Hin.
          apply in_seq in Hin. lia. }
        assert (Hcue : isNot (cueBall st) k = true).
        { destruct Hst as [_ [_ [_ [_ ->]]]]. apply isNot_Some. lia. }
        unfold placeOnSpot.
        destruct (nth_error (balls st) k) as [ball | ]; [ | auto ].
        split; [ now apply respawn_wellFormed | ].
        split; [ now apply respawn_playable | ].
        intros j b Hj Hlt Hon.
        rewrite respawn_other in Hj by lia.
        apply (Hnored j b Hj Hlt).
        revert Hon. apply (respawn_onTable_other k j); auto. lia.
      - split; [ exact Hwf | ]. split.
        + intros j b Hj Hon. exfalso. exact (proj2 (Hclear j b Hj) Hon).
        + intros j b Hj _. exact (proj2 (Hclear j b Hj)). }
    destruct H0 as [Hwf0 [Hplay0 Hnored0]]. clearbody st0.
    assert (Hr : redBalls st0 = seq 0 15) by apply Hwf0.
    rewrite Hr in Hl.
    assert (Hin : forall j, In j (l1 ++ i :: l2) -> (j < 15)%nat).
    { intros j Hj. rewrite <- Hl in Hj. apply in_seq in Hj. lia. }
    destruct (Hstep (fun j => (j < 15)%nat) l1 st0) as [H1 [H2 _]].
    + intros j Hj. assert (j < 15)%nat by (apply Hin, in_or_app; now left).
      split; [ lia | assumption ].
    + split; [ exact Hwf0 | ]. split; [ exact Hplay0 | ].
      apply none_onTable_spaced. intros j b Hj Hlt. now apply (Hnored0 j b).
    + split; [ exact H1 | ]. split; [ exact H2 | ].
      assert (i < 15)%nat by (apply Hin, in_or_app; right; now left). lia.
  - destruct (cleared_table 3 s Hreach) as [[Hwf _] Hclear].
    set (s1 := afterClear 3 s) in *. clearbody s1.
    assert (Hr : redBalls s1 = seq 0 15) by apply Hwf.
    assert (Hc : coloredBalls s1 = seq 15 6) by apply Hwf.
    rewrite Hr, Hc in Hl.
    assert (Hin : forall j, In j (l1 ++ i :: l2) -> (j < 21)%nat).
    { intros j Hj. rewrite <- Hl in Hj. apply in_app_or in Hj.
      destruct Hj as [Hj | Hj]; apply in_seq in Hj; lia. }
    destruct (Hstep (fun _ => True) l1 s1) as [H1 [H2 _]].
    + intros j Hj. split; [ apply Hin, in_or_app; now left | exact I ].
    + split; [ exact Hwf | ]. split.
      * intros j b Hj Hon. exfalso. exact (proj2 (Hclear j b Hj) Hon).
      * apply none_onTable_spaced. intros j b Hj _.
        exact (proj2 (Hclear j b Hj)).
    + split; [ exact H1 | ]. split; [ exact H2 | ].
      apply Hin, in_or_app. right. now left.
Qed.

(** The loops are those of [setupBallsMode]: the setup goes on from the
    state that the loop of [balls[i]] leaves. *)
Lemma randomPlacementOf_run (s : State) (i : nat) (st : State) :
  randomPlacementOf s i st ->
  exists mode l2,
    (mode = 2 \/ mode = 3)%nat /\
    setupBallsMode mode s
    = set_placingCueBall
        (set_cueBallPlaced
           (showMessage (MsgMode mode) 2000
              (forEachOf l2 placeRandomly (placeRandomly i st)))
           false) true.
Proof.
  intros [l1 i' l2 Hl | l1 i' l2 Hl].
  - exists 2%nat, l2. split; [ now left | ].
    rewrite setupBallsMode_unfold. unfold setupRandomReds.
    rewrite Hl, forEachOf_app. reflexivity.
  - exists 3%nat, l2. split; [ now right | ].
    rewrite setupBallsMode_unfold. unfold setupRandomAll.
    rewrite Hl, forEachOf_app. reflexivity.
Qed.

(** C7.  Whenever the placement test accepts a point, and hence wherever a
    random setup places a ball, the point is at least 2.5 ballRadius from
    every ball that is placed already (on the table, not pocketed) and at
    least pocket.radius + 2 ballRadius from every pocket centre; a ball is
    tried at most 100 times.  The program calls the test in two places.
    [mousePressed] calls it for the cue ball: an accepted point keeps the
    spacing from every other ball that is not pocketed.  The random setups
    call it in their placement loops, which start with the cue ball off
    the table: an accepted point keeps the spacing from the placed balls;
    the loop makes at most 100 attempts, places the ball only at an
    accepted point and otherwise leaves it off the table.  (The test as
    such is the spacing from every ball that is not pocketed, the ball to
    place and the cue ball left out; no call has the cue ball on the table
    while another ball is placed.) *)
Theorem placement_spacing :
  (forall (s : State) x y ballToPlace,
      isValidBallPosition x y ballToPlace s = true
      <-> wellSpaced s x y ballToPlace) /\
  (forall (s : State) x y,
      reachable s -> isValidBallPosition x y (cueBall s) s = true ->
      spacedFromPlacedBalls s x y 21 /\ spacedFromAllBalls s x y 21) /\
  (forall (s : State) i st,
      reachable s -> randomPlacementOf s i st ->
      (exists mode l2,
          (mode = 2 \/ mode = 3)%nat /\
          setupBallsMode mode s
          = set_placingCueBall
              (set_cueBallPlaced
                 (showMessage (MsgMode mode) 2000
                    (forEachOf l2 placeRandomly (placeRandomly i st)))
                 false) true) /\
      (forall st' x y,
          sameButDraws st st' ->
          isValidBallPosition x y (Some i) st' = true ->
          spacedFromPlacedBalls st' x y i) /\
      let '(s', placed, attempts) := placementLoop 100 0 i st in
      (attempts <= 100)%nat /\
      (placed = true ->
       exists x y s0, sameButDraws st s0 /\ spacedFromPlacedBalls st x y i /\
                      s' = respawn i x y s0) /\
      (placed = false -> attempts = 100%nat /\ sameButDraws st s')) /\
  (forall (s : State) i,
      let '(s', placed, attempts) := placementLoop 100 0 i s in
      (attempts <= 100)%nat /\
      rngPos s' = (rngPos s + 2 * attempts)%nat /\
      (placed = true ->
       exists x y s0, sameButDraws s s0 /\ wellSpaced s x y (Some i) /\
                      s' = respawn i x y s0) /\
      (placed = false -> attempts = 100%nat /\ sameButDraws s s')).
Proof.
  split; [ intros s x y b; apply isValidBallPosition_spec | ].
  split; [ | split ].
  - intros s x y Hreach Hvalid.
    pose proof (reachable_wellFormed s Hreach) as Hwf.
    assert (Hcue : cueBall s = Some 21%nat) by apply Hwf.
    rewrite Hcue in Hvalid. apply isValidBallPosition_spec in Hvalid.
    split; [ | now apply wellSpaced_cue_ball ].
    split; [ | apply Hvalid ].
    intros j b Hj Hnth Hon.
    assert (Hp : isPocketed b = false).
    { destruct (isPocketed b) eqn:Hp; [ | reflexivity ].
      destruct Hwf as [Hout _]. unfold onTable in Hon.
      rewrite (Hout j b Hnth Hp) in Hon. discriminate. }
    split; [ exact Hp | ].
    apply (wellSpaced_cue_ball s x y 21 Hcue Hvalid j b Hnth Hj Hp).
  - intros s i st Hreach Hcall.
    destruct (randomPlacementOf_playable s i st Hreach Hcall)
      as [Hwf [Hplay Hi]].
    split; [ now apply (randomPlacementOf_run s i st) | ].
    split.
    + intros st' x y Hdraws Hvalid.
      destruct (sameButDraws_spaced (fun _ => True) st st' Hdraws)
        as [Hp' _].
      apply wellSpaced_placed; [ now apply Hp' | ].
      now apply isValidBallPosition_spec.
    + pose proof (placementLoop_spec 100 0 i st) as H.
      destruct (placementLoop 100 0 i st) as [[s' placed] attempts].
      destruct H as [Hle [_ [Hplaced Hgaveup]]].
      split; [ lia | ]. split; [ | exact Hgaveup ].
      intros Hp. destruct (Hplaced Hp) as [x [y [s0 [Hd [Hw Hs']]]]].
      exists x, y, s0. split; [ exact Hd | ]. split; [ | exact Hs' ].
      now apply wellSpaced_placed.
  - intros s i. pose proof (placementLoop_spec 100 0 i s) as H.
    destruct (placementLoop 100 0 i s) as [[s' placed] attempts].
    destruct H as [Hle [Hdraws H]].
    split; [ lia | ]. split; [ rewrite Hdraws; lia | exact H ].
Qed.

End PlacementCallSites.

(** ** Random setups at work *)

Section RandomRuns.

Context {MW : MatterWorld} {ML : MatterWorldLaws MW}.

Lemma forEachOf_cons (i : nat) (l : list nat) (f : nat -> State -> State)
      (s : State) :
  forEachOf (i :: l) f s = forEachOf l f (f i s).
Proof. reflexivity. Qed.

Lemma forEachOf_nil (f : nat -> State -> State) (s : State) :
  forEachOf [] f s = s.
Proof. reflexivity. Qed.

(** The loop places the ball at the first sample point if the test accepts
    it. *)
Lemma placeRandomly_first (i : nat) (s : State) :
  isValidBallPosition (vx (samplePoint s 0)) (vy (samplePoint s 0))
                      (Some i) s = true ->
  placeRandomly i s
  = respawn i (vx (samplePoint s 0)) (vy (samplePoint s 0))
            (set_rngPos s (rngPos s + 2)).
Proof.
  intros Hvalid. unfold placeRandomly.
  destruct (placementLoop_trace 100 0 i s)
    as [[k [_ [Hbefore [_ Heq]]]] | [Hnone _]].
  - destruct k as [ | k].
    + rewrite Heq. reflexivity.
    + rewrite (Hbefore 0%nat ltac:(lia)) in Hvalid. discriminate.
  - rewrite (Hnone 0%nat ltac:(lia)) in Hvalid. discriminate.
Qed.

Lemma placedAt_placeRandomly_other (i j : nat) (p : Vec) (s : State) :
  sessionShape s -> i <> j ->
  placedAt s j p -> placedAt (placeRandomly i s) j p.
Proof.
  intros Hs Hij Hp. unfold placeRandomly.
  pose proof (placementLoop_spec 100 0 i s) as H.
  destruct (placementLoop 100 0 i s) as [[s' placed] attempts].
  destruct H as [_ [_ [Hplaced Hgaveup]]]. cbn [fst].
  destruct placed.
  - destruct (Hplaced eq_refl) as [x [y [s0 [Hs0 [_ ->]]]]].
    apply placedAt_respawn_other; [ | exact Hij | ].
    + apply (shape_same s); [ now apply sameStructure_sameButDraws | exact Hs ].
    + unfold sameButDraws in Hs0. rewrite Hs0.
      apply (placedAt_same s); try reflexivity. exact Hp.
  - destruct (Hgaveup eq_refl) as [_ Hs']. unfold sameButDraws in Hs'.
    rewrite Hs'. apply (placedAt_same s); try reflexivity. exact Hp.
Qed.

Lemma placedAt_placeRandomly_others (l : list nat) (j : nat) (p : Vec)
      (s : State) :
  sessionShape s -> ~ In j l ->
  placedAt s j p -> placedAt (forEachOf l placeRandomly s) j p.
Proof.
  intros Hs Hj Hp.
  apply (forEachOf_preserves_in
           (fun st => sessionShape st /\ placedAt st j p)); [ | now split ].
  intros i st Hin [Hst Hpst]. split.
  - now apply (placeRandomly_structural sessionShape shape_same shape_respawn).
  - apply placedAt_placeRandomly_other; auto. intros ->. contradiction.
Qed.

(** Two balls in a row placed at their first sample points. *)
Lemma two_placed_at_random (i j : nat) (l : list nat) (s : State) :
  sessionShape s -> (i < 22)%nat -> (j < 22)%nat ->
  i <> j -> ~ In i l -> ~ In j l ->
  let p := samplePoint s 0 in
  let s1 := respawn i (vx p) (vy p) (set_rngPos s (rngPos s + 2)) in
  let q := samplePoint s1 0 in
  isValidBallPosition (vx p) (vy p) (Some i) s = true ->
  isValidBallPosition (vx q) (vy q) (Some j) s1 = true ->
  placeRandomly i s = s1 /\
  placedAt (forEachOf (i :: j :: l) placeRandomly s) i p /\
  placedAt (forEachOf (i :: j :: l) placeRandomly s) j q.
Proof.
  intros Hs Hi22 Hj22 Hij Hil Hjl p s1 q Hvp Hvq.
  assert (Hlen : length (balls s) = 22%nat) by now apply shape_length.
  assert (H1 : placeRandomly i s = s1) by now apply placeRandomly_first.
  assert (Hs0 : sessionShape (set_rngPos s (rngPos s + 2))).
  { apply (shape_same s); [ now apply sameStructure_fields | exact Hs ]. }
  assert (Hs1 : sessionShape s1) by now apply shape_respawn.
  assert (H2 : placeRandomly j s1
               = respawn j (vx q) (vy q) (set_rngPos s1 (rngPos s1 + 2)))
    by now apply placeRandomly_first.
  assert (Hs1' : sessionShape (set_rngPos s1 (rngPos s1 + 2))).
  { apply (shape_same s1); [ now apply sameStructure_fields | exact Hs1 ]. }
  split; [ exact H1 | ].
  rewrite !forEachOf_cons, H1, H2.
  assert (Hi : nth_error (balls (set_rngPos s (rngPos s + 2))) i <> None).
  { apply nth_error_Some. cbn [balls set_rngPos]. rewrite Hlen. exact Hi22. }
  destruct (nth_error (balls (set_rngPos s (rngPos s + 2))) i)
    as [bi | ] eqn:Hbi; [ | congruence ].
  destruct (respawn_placedAt i (vx p) (vy p) _ bi Hbi) as [Hpi _].
  fold s1 in Hpi.
  replace (mkVec (vx p) (vy p)) with p in Hpi by now destruct p.
  assert (Hj : nth_error (balls (set_rngPos s1 (rngPos s1 + 2))) j <> None).
  { apply nth_error_Some. cbn [balls set_rngPos].
    rewrite (shape_length s1 Hs1). exact Hj22. }
  destruct (nth_error (balls (set_rngPos s1 (rngPos s1 + 2))) j)
    as [bj | ] eqn:Hbj; [ | congruence ].
  destruct (respawn_placedAt j (vx q) (vy q) _ bj Hbj) as [Hpj _].
  replace (mkVec (vx q) (vy q)) with q in Hpj by now destruct q.
  set (s2 := respawn j (vx q) (vy q) (set_rngPos s1 (rngPos s1 + 2))) in *.
  assert (Hs2 : sessionShape s2) by now apply shape_respawn.
  assert (Hpi2 : placedAt s2 i p).
  { apply placedAt_respawn_other; [ exact Hs1' | congruence | ].
    apply (placedAt_same s1); try reflexivity. exact Hpi. }
  clearbody s2.
  split; now apply placedAt_placeRandomly_others.
Qed.

End RandomRuns.

Lemma reachable_randomSession : reachable randomSession.
Proof. apply reachable_setup. Qed.

(** After key 3 in the example session the first two reds lie on the table
    where the first two sample points put them. *)
Lemma randomSession_all :
  exists p q,
    placedAt (keyPressed Key3 randomSession) 0 p /\
    placedAt (keyPressed Key3 randomSession) 1 q /\
    placeRandomly 0 (afterClear 3 randomSession)
    = respawn 0 (vx p) (vy p)
              (set_rngPos (afterClear 3 randomSession)
                          (rngPos (afterClear 3 randomSession) + 2)) /\
    q = samplePoint (placeRandomly 0 (afterClear 3 randomSession)) 0 /\
    isValidBallPosition (vx q) (vy q) (Some 1%nat)
      (set_rngPos (placeRandomly 0 (afterClear 3 randomSession))
         (rngPos (placeRandomly 0 (afterClear 3 randomSession)) + 2)) = true.
Proof.
  destruct (cleared_table (ML := ListWorld_laws) 3 randomSession
                          reachable_randomSession) as [Hs _].
  set (s := afterClear 3 randomSession) in *.
  set (p := samplePoint s 0).
  set (s1 := respawn 0 (vx p) (vy p) (set_rngPos s (rngPos s + 2))).
  set (q := samplePoint s1 0).
  assert (Hvp : isValidBallPosition (vx p) (vy p) (Some 0%nat) s = true).
  { unfold p, s, randomSession. run_session. far_enough. reflexivity. }
  assert (Hvq : isValidBallPosition (vx q) (vy q) (Some 1%nat) s1 = true).
  { unfold q, s1, p, s, randomSession. run_session. far_enough.
    reflexivity. }
  assert (Hout : forall k, (k < 2)%nat -> ~ In k (seq 2 13 ++ seq 15 6)).
  { intros k Hk Hin. apply in_app_or in Hin.
    destruct Hin as [Hin | Hin]; apply in_seq in Hin; lia. }
  destruct (two_placed_at_random (ML := ListWorld_laws) 0 1
              (seq 2 13 ++ seq 15 6) s Hs ltac:(lia) ltac:(lia)
              ltac:(discriminate) (Hout 0%nat ltac:(lia))
              (Hout 1%nat ltac:(lia)) Hvp Hvq)
    as [H1 [Hp Hq]].
  exists p, q. cbn [keyPressed]. rewrite setupBallsMode_unfold.
  fold s. unfold setupRandomAll.
  assert (Hl : redBalls s ++ coloredBalls s
               = 0%nat :: 1%nat :: (seq 2 13 ++ seq 15 6)).
  { destruct Hs as [[_ [_ [-> [-> _]]]] _]. reflexivity. }
  rewrite Hl.
  split; [ | split; [ | split; [ exact H1 | split ] ] ].
  - generalize dependent (forEachOf (0%nat :: 1%nat :: seq 2 13 ++ seq 15 6)
                                    placeRandomly s).
    intros m Hp _. apply (placedAt_same m); try reflexivity. exact Hp.
  - generalize dependent (forEachOf (0%nat :: 1%nat :: seq 2 13 ++ seq 15 6)
                                    placeRandomly s).
    intros m _ Hq. apply (placedAt_same m); try reflexivity. exact Hq.
  - rewrite H1. reflexivity.
  - rewrite H1, isValidBallPosition_rngPos. exact Hvq.
Qed.

(** After key 2 in the example session the first two reds lie on the table
    where the first two sample points put them. *)
Lemma randomSession_reds :
  exists p q,
    placedAt (keyPressed Key2 randomSession) 0 p /\
    placedAt (keyPressed Key2 randomSession) 1 q.
Proof.
  destruct (cleared_table (ML := ListWorld_laws) 2 randomSession
                          reachable_randomSession) as [Hs2 _].
  set (s0 := afterClear 2 randomSession) in *.
  set (s := forEachOf (coloredBalls s0) placeOnSpot s0).
  assert (Hs : sessionShape s).
  { unfold s. apply forEachOf_preserves; [ | exact Hs2 ].
    intros i st. apply (placeOnSpot_structural sessionShape).
    intros k x y st'. apply (shape_respawn (ML := ListWorld_laws)). }
  set (p := samplePoint s 0).
  set (s1 := respawn 0 (vx p) (vy p) (set_rngPos s (rngPos s + 2))).
  set (q := samplePoint s1 0).
  assert (Hvp : isValidBallPosition (vx p) (vy p) (Some 0%nat) s = true).
  { unfold p, s, s0, randomSession. run_session. far_enough. reflexivity. }
  assert (Hvq : isValidBallPosition (vx q) (vy q) (Some 1%nat) s1 = true).
  { unfold q, s1, p, s, s0, randomSession. run_session. far_enough.
    reflexivity. }
  assert (Hout : forall k, (k < 2)%nat -> ~ In k (seq 2 13)).
  { intros k Hk Hin. apply in_seq in Hin. lia. }
  destruct (two_placed_at_random (ML := ListWorld_laws) 0 1
              (seq 2 13) s Hs ltac:(lia) ltac:(lia)
              ltac:(discriminate) (Hout 0%nat ltac:(lia))
              (Hout 1%nat ltac:(lia)) Hvp Hvq)
    as [_ [Hp Hq]].
  exists p, q. cbn [keyPressed]. rewrite setupBallsMode_unfold.
  fold s0. unfold setupRandomReds. cbv zeta. fold s.
  assert (Hl : redBalls s = 0%nat :: 1%nat :: seq 2 13).
  { destruct Hs as [[_ [_ [-> _]]] _]. reflexivity. }
  rewrite Hl.
  generalize dependent (forEachOf (0%nat :: 1%nat :: seq 2 13)
                                  placeRandomly s).
  intros m Hp Hq.
  split; apply (placedAt_same m); try reflexivity; [ exact Hp | exact Hq ].
Qed.

Lemma placedAt_onTable {MW : MatterWorld} (s : State) (i : nat) (p : Vec) :
  placedAt s i p ->
  exists b, nth_error (balls s) i = Some b /\ onTable s b /\
            position (body b) = p.
Proof. intros [b [Hb [_ [Hpos [_ Hon]]]]]. now exists b. Qed.

Lemma random_setup_spacing_witness :
  (exists b0 b1,
      nth_error (balls (keyPressed Key3 randomSession)) 0 = Some b0 /\
      nth_error (balls (keyPressed Key3 randomSession)) 1 = Some b1 /\
      onTable (keyPressed Key3 randomSession) b0 /\
      onTable (keyPressed Key3 randomSession) b1 /\
      ballRadius (table (keyPressed Key3 randomSession)) * 2.5
      <= distance (position (body b0)) (position (body b1))) /\
  (exists b0 b1,
      nth_error (balls (keyPressed Key2 randomSession)) 0 = Some b0 /\
      nth_error (balls (keyPressed Key2 randomSession)) 1 = Some b1 /\
      onTable (keyPressed Key2 randomSession) b0 /\
      onTable (keyPressed Key2 randomSession) b1 /\
      ballRadius (table (keyPressed Key2 randomSession)) * 2.5
      <= distance (position (body b0)) (position (body b1))) /\
  (onlyPlayableOnTable (keyPressed Key3 randomSession)
   /\ spacedOnTable (fun _ => True) (keyPressed Key3 randomSession)) /\
  (onlyPlayableOnTable (keyPressed Key2 randomSession)
   /\ spacedOnTable (fun i => In i (redBalls randomSession))
                    (keyPressed Key2 randomSession)).
Proof.
  destruct (random_setup_spacing (ML := ListWorld_laws) randomSession
                                 reachable_randomSession)
    as [[Hplay3 Hsp3] [Hplay2 Hsp2]].
  destruct randomSession_all as [p3 [q3 [Hp3 [Hq3 _]]]].
  destruct randomSession_reds as [p2 [q2 [Hp2 Hq2]]].
  destruct (placedAt_onTable _ _ _ Hp3) as [a0 [Ha0 [Hona0 _]]].
  destruct (placedAt_onTable _ _ _ Hq3) as [a1 [Ha1 [Hona1 _]]].
  destruct (placedAt_onTable _ _ _ Hp2) as [c0 [Hc0 [Honc0 _]]].
  destruct (placedAt_onTable _ _ _ Hq2) as [c1 [Hc1 [Honc1 _]]].
  split; [ | split; [ | split; [ now split | now split ] ] ].
  - exists a0, a1. repeat (split; [ assumption | ]).
    destruct Hsp3 as [Hapart _].
    apply (Hapart 0%nat 1%nat ltac:(discriminate) (or_introl I) a0 a1);
      assumption.
  - exists c0, c1. repeat (split; [ assumption | ]).
    destruct Hsp2 as [Hapart _].
    assert (Hred : In 0%nat (redBalls randomSession)).
    { replace (redBalls randomSession) with (seq 0 15).
      - apply in_seq. lia.
      - symmetry.
        apply (reachable_wellFormed (ML := ListWorld_laws) randomSession
                                    reachable_randomSession). }
    apply (Hapart 0%nat 1%nat ltac:(discriminate) (or_introl Hred) c0 c1);
      assumption.
Defined.

Lemma tableInMode1_first_red :
  exists b0, nth_error (balls tableInMode1) 0 = Some b0 /\
             onTable tableInMode1 b0.
Proof. unfold tableInMode1. eexists. split; run_session; reflexivity. Qed.

(** In the example session, key 3 starts the loop of the second red with
    the first red on the table, and the test accepts its first sample
    point. *)
Lemma randomSession_second_red :
  exists st q b0,
    randomPlacementOf randomSession 1 st /\
    isValidBallPosition (vx q) (vy q) (Some 1%nat)
                        (set_rngPos st (rngPos st + 2)) = true /\
    nth_error (balls st) 0 = Some b0 /\ onTable st b0.
Proof.
  destruct randomSession_all as [p [q [_ [_ [Hst [_ Hvalid]]]]]].
  destruct (cleared_table (ML := ListWorld_laws) 3 randomSession
                          reachable_randomSession) as [Hs _].
  assert (Hl : redBalls (afterClear 3 randomSession)
               ++ coloredBalls (afterClear 3 randomSession)
               = [0%nat] ++ 1%nat :: (seq 2 13 ++ seq 15 6)).
  { destruct Hs as [[_ [_ [-> [-> _]]]] _]. reflexivity. }
  pose proof (random_all randomSession [0%nat] 1 _ Hl) as Hcall.
  rewrite forEachOf_cons, forEachOf_nil in Hcall.
  assert (Hlen : length (balls (afterClear 3 randomSession)) = 22%nat)
    by exact (shape_length _ Hs).
  generalize dependent (afterClear 3 randomSession). intros s0 Hst Hvalid.
  intros _ _ Hcall Hlen.
  generalize dependent (placeRandomly 0 s0). intros st Hst Hvalid Hcall.
  assert (Hi : nth_error (balls (set_rngPos s0 (rngPos s0 + 2))) 0 <> None).
  { apply nth_error_Some. cbn [balls set_rngPos]. rewrite Hlen. lia. }
  destruct (nth_error (balls (set_rngPos s0 (rngPos s0 + 2))) 0)
    as [b | ] eqn:Hb; [ | congruence ].
  destruct (respawn_placedAt (ML := ListWorld_laws) 0 (vx p) (vy p) _ b Hb)
    as [Hplaced _].
  rewrite <- Hst in Hplaced.
  destruct (placedAt_onTable _ _ _ Hplaced) as [b0 [Hb0 [Hon _]]].
  exists st, q, b0.
  split; [ exact Hcall | ]. split; [ exact Hvalid | ].
  split; [ exact Hb0 | exact Hon ].
Qed.

Lemma placement_spacing_witness :
  (isValidBallPosition 550 265 (cueBall tableInMode1) tableInMode1 = true /\
   spacedFromPlacedBalls tableInMode1 550 265 21 /\
   exists b0, nth_error (balls tableInMode1) 0 = Some b0 /\
              onTable tableInMode1 b0) /\
  (exists st q b0,
      randomPlacementOf randomSession 1 st /\
      isValidBallPosition (vx q) (vy q) (Some 1%nat)
                          (set_rngPos st (rngPos st + 2)) = true /\
      nth_error (balls st) 0 = Some b0 /\ onTable st b0 /\
      spacedFromPlacedBalls (set_rngPos st (rngPos st + 2)) (vx q) (vy q) 1).
Proof.
  destruct (placement_spacing (ML := ListWorld_laws))
    as [_ [Hcue [Hrandom _]]].
  split.
  - split; [ exact mode1_accepts_cue_ball | ].
    split; [ | exact tableInMode1_first_red ].
    exact (proj1 (Hcue tableInMode1 550 265 reachable_tableInMode1
                       mode1_accepts_cue_ball)).
  - destruct randomSession_second_red as [st [q [b0 [Hcall [Hvalid [Hb0 Hon]]]]]].
    exists st, q, b0.
    split; [ exact Hcall | ]. split; [ exact Hvalid | ].
    split; [ exact Hb0 | ]. split; [ exact Hon | ].
    destruct (Hrandom randomSession 1%nat st reachable_randomSession Hcall)
      as [_ [Hspaced _]].
    apply Hspaced; [ | exact Hvalid ].
    unfold sameButDraws. reflexivity.
Defined.

(** ** A frame that pots two colours *)

Section PottingPass.

Context {MW : MatterWorld}.

Lemma checkPocketedBall_skip (k : nat) (st : State) :
  (forall b, nth_error (balls st) k = Some b ->
             negb (isPocketed b) && checkPocket b (pockets (table st))
             = false) ->
  checkPocketedBall k st = st.
Proof.
  intros H. unfold checkPocketedBall.
  destruct (nth_error (balls st) k) as [b | ]; [ | reflexivity ].
  now rewrite (H b eq_refl).
Qed.

Lemma checkPocketedBalls_skip (l : list nat) (st : State) :
  (forall k b, In k l -> nth_error (balls st) k = Some b ->
               negb (isPocketed b) && checkPocket b (pockets (table st))
               = false) ->
  fold_left (fun st k => checkPocketedBall k st) l st = st.
Proof.
  induction l as [ | k l IH]; intros H; [ reflexivity | ].
  cbn [fold_left]. rewrite checkPocketedBall_skip.
  - apply IH. intros k' b Hin. apply H. now right.
  - intros b. apply H. now left.
Qed.

Lemma checkPocketedBall_pots (k : nat) (st : State) (b : Ball) :
  nth_error (balls st) k = Some b -> isPocketed b = false ->
  checkPocket b (pockets (table st)) = true ->
  checkPocketedBall k st = handlePocketedBall k st.
Proof.
  intros Hk Hp Hc. unfold checkPocketedBall. now rewrite Hk, Hp, Hc.
Qed.

(** A pass of [checkPocketedBalls] over a table on which two balls, and
    no other, are captured handles the two in the order of [balls]. *)
Lemma checkPocketedBalls_two (s : State) (i j : nat) (bi bj : Ball) :
  (i < j < length (balls s))%nat ->
  nth_error (balls s) i = Some bi -> nth_error (balls s) j = Some bj ->
  isPocketed bi = false -> isPocketed bj = false ->
  checkPocket bi (pockets (table s)) = true ->
  checkPocket bj (pockets (table s)) = true ->
  (forall k b, k <> i -> k <> j -> nth_error (balls s) k = Some b ->
               negb (isPocketed b) && checkPocket b (pockets (table s))
               = false) ->
  checkPocketedBalls s = handlePocketedBall j (handlePocketedBall i s).
Proof.
  intros Hij Hi Hj Hpi Hpj Hci Hcj Hothers.
  unfold checkPocketedBalls, forEachBall.
  set (n := length (balls s)) in *.
  assert (Hseq : seq 0 n
                 = seq 0 i ++ i :: seq (S i) (j - S i)
                   ++ j :: seq (S j) (n - S j)).
  { replace n with (i + S ((j - S i) + S (n - S j)))%nat at 1 by lia.
    rewrite seq_app. cbn [Nat.add seq]. f_equal. f_equal.
    rewrite seq_app. f_equal.
    replace (S i + (j - S i))%nat with j by lia. reflexivity. }
  rewrite Hseq. clearbody n.
  rewrite fold_left_app. cbn [fold_left].
  rewrite (checkPocketedBalls_skip (seq 0 i) s).
  2: { intros k b Hin. apply in_seq in Hin. apply Hothers; lia. }
  rewrite (checkPocketedBall_pots i s bi Hi Hpi Hci).
  rewrite fold_left_app. cbn [fold_left].
  assert (Hsame : forall k, k <> i ->
             nth_error (balls (handlePocketedBall i s)) k
             = nth_error (balls s) k /\
             table (handlePocketedBall i s) = table s).
  { intros k Hk. now apply handlePocketedBall_other. }
  set (si := handlePocketedBall i s) in *.
  rewrite (checkPocketedBalls_skip (seq (S i) (j - S i)) si).
  2: { intros k b Hin Hb. apply in_seq in Hin.
       destruct (Hsame k ltac:(lia)) as [Hnth Htab].
       rewrite Htab. rewrite Hnth in Hb. apply (Hothers k b); auto; lia. }
  assert (Hj' : nth_error (balls si) j = Some bj).
  { destruct (Hsame j ltac:(lia)) as [-> _]. exact Hj. }
  assert (Htab : table si = table s) by (apply (Hsame j); lia).
  rewrite (checkPocketedBall_pots j si bj Hj' Hpj)
    by (rewrite Htab; exact Hcj).
  assert (Hsame2 : forall k, k <> i -> k <> j ->
             nth_error (balls (handlePocketedBall j si)) k
             = nth_error (balls s) k /\
             table (handlePocketedBall j si) = table s).
  { intros k Hki Hkj.
    destruct (handlePocketedBall_other k j si ltac:(congruence))
      as [-> ->].
    now apply Hsame. }
  clearbody si.
  apply checkPocketedBalls_skip.
  intros k b Hin Hb. apply in_seq in Hin.
  destruct (Hsame2 k ltac:(lia) ltac:(lia)) as [Hnth Htab2].
  rewrite Htab2. rewrite Hnth in Hb. apply (Hothers k b); auto; lia.
Qed.

(** The cue part of [draw] leaves history and timers alone. *)
Lemma draw_control (now mouseX mouseY : R) (s : State) :
  let s2 := checkPocketedBalls (forEachBall (rollBall now) s) in
  lastPottedBalls (draw now mouseX mouseY s) = lastPottedBalls s2 /\
  timers (draw now mouseX mouseY s) = timers s2 /\
  balls (draw now mouseX mouseY s) = balls s2.
Proof.
  cbv zeta. unfold draw. cbv zeta.
  generalize (checkPocketedBalls (forEachBall (rollBall now) s)).
  intros s2.
  destruct (cueBall s2); [ | now repeat split ].
  destruct (_ && _); [ | now repeat split ].
  cbn [cue set_cue isAiming set_isVisible].
  destruct (negb (isAiming (cue s2))); now repeat split.
Qed.

(** A ball at rest in the middle of a pocket is captured after it has
    been rolled. *)
Lemma rolled_in_pocket (now : R) (b : Ball) (p : Pocket)
      (pockets_ : list Pocket) :
  In p pockets_ -> 0 < pocket_radius p ->
  isPocketed b = false -> velocity (body b) = mkVec 0 0 ->
  position (body b) = pocketCentre p ->
  isPocketed (rolled now b) = false /\
  checkPocket (rolled now b) pockets_ = true.
Proof.
  intros Hin Hrad Hp Hv Hpos.
  assert (Hroll : rolled now b
                  = updateSpinPhysics now (applyProfessionalDeceleration b))
    by (unfold rolled; now rewrite Hp).
  destruct (rolled_sameIdentity now b) as [_ [Hpk _]].
  rewrite <- Hroll in Hpk.
  split; [ congruence | ].
  apply checkPocket_spec. exists p. split; [ exact Hin | ].
  assert (Hbody : body (rolled now b) = body (applyProfessionalDeceleration b))
    by (rewrite Hroll; apply updateSpinPhysics_body).
  assert (Hspeed : speedOf (velocity (body (rolled now b))) <= 0).
  { rewrite Hbody. pose proof (deceleration_speed_le b Hp) as H.
    rewrite Hv, speedOf_zero in H. lra. }
  assert (Hposr : position (body (rolled now b)) = pocketCentre p).
  { rewrite Hbody. destruct (deceleration_keeps_place b) as [-> _].
    exact Hpos. }
  unfold capturedBy, movingAway. rewrite Hposr.
  rewrite distance_to_itself. split.
  - destruct (speedFactor_range (pocket_type p)
                                (speedOf (velocity (body (rolled now b)))))
      as [Hone _].
    rewrite (Hone ltac:(lra)).
    destruct (pocket_type p); cbn [baseThreshold]; lra.
  - cbv zeta. intros [_ H]. lra.
Qed.

End PottingPass.

Section PottingFrame.

Context {MW : MatterWorld}.

Lemma rolled_position (now : R) (b : Ball) :
  position (body (rolled now b)) = position (body b) /\
  type (rolled now b) = type b.
Proof.
  unfold rolled. destruct (negb (isPocketed b)); [ | now split ].
  rewrite updateSpinPhysics_body.
  destruct (deceleration_keeps_place b) as [Hpos [_ [_ Hty]]].
  split; [ exact Hpos | ].
  destruct (rolled_sameIdentity now b) as [-> _]. reflexivity.
Qed.

(** The engine may move the balls in any way that keeps their identity. *)
Lemma engine_moves (s : State) (bs : list Ball) :
  Forall2 sameIdentity (balls s) bs -> reachable s ->
  reachable (set_balls s bs).
Proof.
  intros Hbs Hreach.
  replace (set_balls s bs)
    with (showMessage (message s) (messageDuration s) (set_balls s bs))
    by (destruct s; reflexivity).
  exact (reachable_step _ _ Hreach (step_engine bs _ _ s Hbs)).
Qed.

(** A frame drawn on the table of the game with an empty history and no
    pending timer, on which the colours [i] and [j] lie at rest in the
    middle of a pocket and every other ball lies between x = 440 and
    x = 660: the two colours are potted, in the order of [balls]. *)
Lemma frame_pots_two (now mouseX mouseY : R) (s : State) (i j : nat)
      (bi bj : Ball) (p q : Pocket) :
  table s = theTable -> lastPottedBalls s = [] -> timers s = [] ->
  (i < j < length (balls s))%nat ->
  nth_error (balls s) i = Some bi -> nth_error (balls s) j = Some bj ->
  isColour (type bi) -> isColour (type bj) ->
  isPocketed bi = false -> isPocketed bj = false ->
  velocity (body bi) = mkVec 0 0 -> velocity (body bj) = mkVec 0 0 ->
  In p (pockets theTable) -> In q (pockets theTable) ->
  position (body bi) = pocketCentre p ->
  position (body bj) = pocketCentre q ->
  (forall k b, k <> i -> k <> j -> nth_error (balls s) k = Some b ->
               440 <= vx (position (body b)) <= 660) ->
  let s' := draw now mouseX mouseY s in
  lastPottedBalls s' = [type bi; type bj] /\
  timers s' = [(TimerRespawn i (getBallSpot theTable (type bi)), 1000);
               (TimerRespawn j (getBallSpot theTable (type bj)), 1000)].
Proof.
  intros Htab Hhist Htimers Hij Hi Hj Hci Hcj Hpi Hpj Hvi Hvj Hp Hq
         Hposi Hposj Hothers. cbv zeta.
  destruct (draw_control now mouseX mouseY s) as [-> [-> _]].
  rewrite rollBalls_map.
  set (s1 := set_balls s (map (rolled now) (balls s))).
  assert (Htab1 : table s1 = theTable) by exact Htab.
  assert (Hhist1 : lastPottedBalls s1 = []) by exact Hhist.
  assert (Htimers1 : timers s1 = []) by exact Htimers.
  assert (Hballs1 : balls s1 = map (rolled now) (balls s)) by reflexivity.
  clearbody s1.
  assert (Hi1 : nth_error (balls s1) i = Some (rolled now bi))
    by (rewrite Hballs1, nth_error_map, Hi; reflexivity).
  assert (Hj1 : nth_error (balls s1) j = Some (rolled now bj))
    by (rewrite Hballs1, nth_error_map, Hj; reflexivity).
  destruct (theTable_pockets p Hp) as [[Hradp _] _].
  destruct (theTable_pockets q Hq) as [[Hradq _] _].
  destruct (rolled_in_pocket now bi p (pockets theTable) Hp Hradp Hpi Hvi
                             Hposi) as [Hpi1 Hcapi].
  destruct (rolled_in_pocket now bj q (pockets theTable) Hq Hradq Hpj Hvj
                             Hposj) as [Hpj1 Hcapj].
  rewrite (checkPocketedBalls_two s1 i j (rolled now bi) (rolled now bj)).
  - destruct (handlePocketedBall_other j i s1 ltac:(lia)) as [Hnth Htab2].
    pose proof (handlePocketedBall_summary i s1 (rolled now bi) Hi1) as Hsi.
    cbv zeta in Hsi.
    set (si := handlePocketedBall i s1) in *. clearbody si.
    rewrite <- Hnth in Hj1.
    pose proof (handlePocketedBall_summary j si (rolled now bj) Hj1) as Hsj.
    cbv zeta in Hsj.
    set (sj := handlePocketedBall j si) in *. clearbody sj.
    destruct (rolled_position now bi) as [_ Htyi].
    destruct (rolled_position now bj) as [_ Htyj].
    rewrite Htyi in Hsi. rewrite Htyj in Hsj.
    rewrite Htab2, Htab1 in Hsj. rewrite Htab1, Hhist1, Htimers1 in Hsi.
    destruct Hci as [Hri Hqi]. destruct Hcj as [Hrj Hqj].
    destruct Hsi as [_ [_ Hsi]]. destruct Hsj as [_ [_ Hsj]].
    assert (Hi' : lastPottedBalls si = [type bi] /\
                  timers si = [(TimerRespawn i (getBallSpot theTable (type bi)),
                                1000)]).
    { destruct (type bi); try contradiction;
        destruct Hsi as [_ [_ [_ [Hh Ht]]]]; split; assumption. }
    destruct Hi' as [Hhi Hti]. rewrite Hhi, Hti in Hsj.
    destruct (type bj); try contradiction;
      destruct Hsj as [_ [_ [_ [Hh Ht]]]]; split; assumption.
  - rewrite Hballs1, length_map. exact Hij.
  - exact Hi1.
  - exact Hj1.
  - exact Hpi1.
  - exact Hpj1.
  - rewrite Htab1. exact Hcapi.
  - rewrite Htab1. exact Hcapj.
  - intros k b Hki Hkj Hk. rewrite Htab1.
    rewrite Hballs1, nth_error_map in Hk.
    destruct (nth_error (balls s) k) as [b0 | ] eqn:Hk0; [ | discriminate ].
    cbn [option_map] in Hk. injection Hk as <-.
    rewrite middle_not_captured; [ apply andb_false_r | ].
    destruct (rolled_position now b0) as [-> _].
    now apply (Hothers k).
Qed.

End PottingFrame.

Lemma updateBall_fields {MW : MatterWorld} (i : nat) (f : Ball -> Ball)
      (s : State) :
  table (updateBall i f s) = table s /\
  lastPottedBalls (updateBall i f s) = lastPottedBalls s /\
  timers (updateBall i f s) = timers s /\
  balls (updateBall i f s) = list_update i f (balls s).
Proof. now repeat split. Qed.

Lemma moved_sameIdentity (p : Vec) (b : Ball) :
  sameIdentity b (set_body b (MatterBody.setPosition (body b) p)).
Proof. now repeat split. Qed.

Lemma reachable_cueBallPlacedInMode1 : reachable cueBallPlacedInMode1.
Proof.
  exact (reachable_step _ _ reachable_tableInMode1
                        (step_mousePressed 550 265 _)).
Qed.

Lemma reachable_coloursInPockets : reachable coloursInPockets.
Proof.
  unfold coloursInPockets.
  generalize reachable_cueBallPlacedInMode1.
  generalize cueBallPlacedInMode1. intros s Hreach.
  assert (Hsame : forall b : Ball, sameIdentity b b) by now repeat split.
  apply engine_moves.
  - apply Forall2_list_update; [ exact Hsame | ].
    intros b _. apply moved_sameIdentity.
  - apply engine_moves; [ | exact Hreach ].
    apply Forall2_list_update; [ exact Hsame | ].
    intros b _. apply moved_sameIdentity.
Qed.

Lemma reachable_twoColoursPotted : reachable twoColoursPotted.
Proof.
  exact (reachable_step _ _ reachable_coloursInPockets
                        (step_draw 0 550 265 _)).
Qed.

Lemma cueBallPlacedInMode1_layout :
  lastPottedBalls cueBallPlacedInMode1 = [] /\
  timers cueBallPlacedInMode1 = [] /\
  Forall (fun b => isPocketed b = false /\
                   440 <= vx (position (body b)) <= 660)
         (balls cueBallPlacedInMode1).
Proof.
  rewrite cueBallPlacedInMode1_eq. unfold tableInMode1.
  split; [ reflexivity | ]. split; [ reflexivity | ].
  run_session.
  repeat (apply Forall_cons; [ split; [ reflexivity | lra ] | ]).
  apply Forall_nil.
Qed.

Lemma ball_of_kind {MW : MatterWorld} (s : State) (i : nat)
      (t : BallType.t) :
  map type (balls s) = ballTypes -> nth_error ballTypes i = Some t ->
  exists b, nth_error (balls s) i = Some b /\ type b = t.
Proof.
  intros Hty Ht. rewrite <- Hty, nth_error_map in Ht.
  destruct (nth_error (balls s) i) as [b | ]; [ | discriminate ].
  exists b. split; [ reflexivity | ]. now injection Ht.
Qed.

Lemma twoColoursPotted_control :
  lastPottedBalls twoColoursPotted = [BallType.blue; BallType.pink] /\
  timers twoColoursPotted
  = [(TimerRespawn 18 (getBallSpot theTable BallType.blue), 1000);
     (TimerRespawn 19 (getBallSpot theTable BallType.pink), 1000)].
Proof.
  destruct cueBallPlacedInMode1_layout as [Hhist [Htimers Hlay]].
  destruct cueBallPlacedInMode1_ready as [_ [_ [Hrest _]]].
  destruct (reachable_shape (ML := ListWorld_laws) _
                            reachable_cueBallPlacedInMode1)
    as [_ [_ [Hty Htab]]].
  unfold twoColoursPotted, coloursInPockets.
  generalize dependent cueBallPlacedInMode1. intros s0 Hhist Htimers Hlay
                                                    Hrest Hty Htab.
  assert (Hlen : length (balls s0) = 22%nat)
    by (rewrite <- (length_map type), Hty; reflexivity).
  destruct (ball_of_kind s0 18 BallType.blue Hty eq_refl) as [b18 [H18 Ht18]].
  destruct (ball_of_kind s0 19 BallType.pink Hty eq_refl) as [b19 [H19 Ht19]].
  rewrite Forall_forall in Hlay, Hrest.
  set (f18 := fun b => set_body b (MatterBody.setPosition (body b)
                                                          (mkVec 350 410))).
  set (f19 := fun b => set_body b (MatterBody.setPosition (body b)
                                                          (mkVec 750 410))).
  set (s := updateBall 19 f19 (updateBall 18 f18 s0)).
  assert (Hs : table s = theTable /\ lastPottedBalls s = [] /\
               timers s = [] /\
               balls s = list_update 19 f19 (list_update 18 f18 (balls s0))).
  { repeat split; assumption. }
  clearbody s. destruct Hs as [Htab' [Hhist' [Htimers' Hballs]]].
  assert (Hi : nth_error (balls s) 18 = Some (f18 b18)).
  { rewrite Hballs, nth_error_list_update_other by discriminate.
    now rewrite nth_error_list_update_same, H18. }
  assert (Hj : nth_error (balls s) 19 = Some (f19 b19)).
  { rewrite Hballs, nth_error_list_update_same.
    rewrite nth_error_list_update_other by discriminate. now rewrite H19. }
  pose proof (nth_error_In _ _ H18) as Hin18.
  pose proof (nth_error_In _ _ H19) as Hin19.
  set (p := mkPocket (1100 / 2 - 400 / 2) (820 / 2) (400 / 68 * 3.96) middle).
  set (q := mkPocket (1100 / 2 + 400 / 2) (820 / 2) (400 / 68 * 3.96) middle).
  assert (Hlen' : (18 < 19 < length (balls s))%nat)
    by (rewrite Hballs, !length_list_update, Hlen; lia).
  assert (Hc18 : isColour (type (f18 b18)))
    by (unfold f18; cbn [type set_body]; rewrite Ht18; split; discriminate).
  assert (Hc19 : isColour (type (f19 b19)))
    by (unfold f19; cbn [type set_body]; rewrite Ht19; split; discriminate).
  assert (Hp18 : isPocketed (f18 b18) = false)
    by exact (proj1 (Hlay b18 Hin18)).
  assert (Hp19 : isPocketed (f19 b19) = false)
    by exact (proj1 (Hlay b19 Hin19)).
  assert (Hv18 : velocity (body (f18 b18)) = mkVec 0 0)
    by exact (Hrest b18 Hin18).
  assert (Hv19 : velocity (body (f19 b19)) = mkVec 0 0)
    by exact (Hrest b19 Hin19).
  assert (Hp : In p (pockets theTable)).
  { unfold theTable, newSnookerTable, initializePockets. cbv zeta.
    cbn [pockets In]. do 4 right. left. reflexivity. }
  assert (Hq : In q (pockets theTable)).
  { unfold theTable, newSnookerTable, initializePockets. cbv zeta.
    cbn [pockets In]. do 5 right. left. reflexivity. }
  assert (Hpos18 : position (body (f18 b18)) = pocketCentre p).
  { unfold f18, p, pocketCentre.
    cbn [body set_body position MatterBody.setPosition pocket_x pocket_y].
    f_equal; lra. }
  assert (Hpos19 : position (body (f19 b19)) = pocketCentre q).
  { unfold f19, q, pocketCentre.
    cbn [body set_body position MatterBody.setPosition pocket_x pocket_y].
    f_equal; lra. }
  assert (Hothers : forall k b, k <> 18%nat -> k <> 19%nat ->
                      nth_error (balls s) k = Some b ->
                      440 <= vx (position (body b)) <= 660).
  { intros k b Hk18 Hk19 Hk.
    rewrite Hballs in Hk.
    rewrite !nth_error_list_update_other in Hk by congruence.
    exact (proj2 (Hlay b (nth_error_In _ _ Hk))). }
  destruct (frame_pots_two 0 550 265 s 18 19 (f18 b18) (f19 b19) p q
                           Htab' Hhist' Htimers' Hlen' Hi Hj Hc18 Hc19
                           Hp18 Hp19 Hv18 Hv19 Hp Hq Hpos18 Hpos19 Hothers)
    as [Hh Ht].
  rewrite Hh, Ht. unfold f18, f19. cbn [type set_body].
  rewrite Ht18, Ht19. split; reflexivity.
Qed.



Lemma cueDrawnInMode1_aiming : isAiming (cue cueDrawnInMode1) = true.
Proof.
  destruct cueDrawnInMode1_ready as [cb [_ [Haim _]]]. exact Haim.
Qed.

Lemma aiming_needs_cue_ball_on_table_witness :
  let s := cueDrawnInMode1 in
  isAiming (cue s) = true /\
  (cueBallPlaced s = true /\ isVisible (cue s) = true) /\
  (placingCueBall s = false /\
   exists cb, deref s (cueBall s) = Some cb /\ isPocketed cb = false /\
              onTable s cb).
Proof.
  cbv zeta.
  pose proof (aiming_needs_cue_ball_on_table (ML := ListWorld_laws)
                cueDrawnInMode1 reachable_cueDrawnInMode1) as H.
  split; [ exact cueDrawnInMode1_aiming | ].
  split; [ exact (proj1 H cueDrawnInMode1_aiming) | ].
  exact (proj2 H (proj1 (proj1 H cueDrawnInMode1_aiming))).
Defined.

Lemma pending_timers_shape_witness :
  timers twoColoursPotted
  = [(TimerRespawn 18 (getBallSpot theTable BallType.blue), 1000);
     (TimerRespawn 19 (getBallSpot theTable BallType.pink), 1000)] /\
  pendingShape twoColoursPotted.
Proof.
  split; [ exact (proj2 twoColoursPotted_control) | ].
  exact (pending_timers_shape (ML := ListWorld_laws) twoColoursPotted
                              reachable_twoColoursPotted).
Defined.

Lemma twoColoursPotted_black :
  exists ball, nth_error (balls twoColoursPotted) 20 = Some ball /\
               type ball = BallType.black.
Proof.
  destruct (reachable_shape (ML := ListWorld_laws) _
                            reachable_twoColoursPotted)
    as [_ [_ [Hty _]]].
  exact (ball_of_kind twoColoursPotted 20 BallType.black Hty eq_refl).
Qed.

Lemma potted_history_shape_witness :
  let s := twoColoursPotted in
  lastPottedBalls s = [BallType.blue; BallType.pink] /\
  ((length (lastPottedBalls s) <= 2)%nat /\
   Forall isColour (lastPottedBalls s) /\
   includesRed (lastPottedBalls s) = false /\
   (length (lastPottedBalls s) = 2%nat ->
    forall i ball, nth_error (balls s) i = Some ball ->
                   isColour (type ball) ->
                   message (handlePocketedBall i s)
                   = MsgTwoConsecutiveColored)) /\
  exists black, nth_error (balls s) 20 = Some black /\
                type black = BallType.black /\
                message (handlePocketedBall 20 s) = MsgTwoConsecutiveColored.
Proof.
  cbv zeta.
  pose proof (potted_history_shape (ML := ListWorld_laws) twoColoursPotted
                                   reachable_twoColoursPotted) as H.
  pose proof (proj1 twoColoursPotted_control) as Hhist.
  split; [ exact Hhist | ]. split; [ exact H | ].
  destruct twoColoursPotted_black as [black [H20 Hty]].
  exists black. split; [ exact H20 | ]. split; [ exact Hty | ].
  destruct H as [_ [_ [_ Hfull]]].
  apply (Hfull (f_equal (@length _) Hhist) 20%nat black H20).
  rewrite Hty. split; discriminate.
Defined.
